(** * release-please: version, branch-name and tag-name identifiers

    A shallow embedding of [src/version.ts], [src/version-format.ts],
    [src/util/branch-name.ts] and [src/util/tag-name.ts].

    Conventions of the embedding.
    - A JavaScript string is a [string] of 8-bit characters; the matcher works
      on its [list ascii].  U+2028 and U+2029 are outside this alphabet, so the
      line terminators that [.] refuses are LF and CR.
    - A JavaScript number that holds a version component is an [N] (the data
      model's non-negative integers); rounding above 2^53 is not represented.
    - [undefined] is [None]; truthiness of an optional string is [truthy].
    - A thrown exception is the [Throw] completion; logger and console calls
      are returned as the list of calls made. *)

From Stdlib Require Import List String Ascii Bool Arith NArith ZArith Lia.
From Stdlib Require Import DecimalString DecimalN.
Import ListNotations.

Set Warnings "-comment-terminator-in-string".
Local Open Scope string_scope.

(** ** Characters and the character classes the patterns use *)

Definition chars := list ascii.

Definition code (c : ascii) : N := N_of_ascii c.

Definition between (lo hi : N) (c : ascii) : bool :=
  ((lo <=? code c) && (code c <=? hi))%N.

(** [\d] *)
Definition digit (c : ascii) : bool := between 48 57 c.
(** [a-zA-Z] *)
Definition letter (c : ascii) : bool := between 97 122 c || between 65 90 c.
(** [\w] is [A-Za-z0-9_] *)
Definition word (c : ascii) : bool := letter c || digit c || (code c =? 95)%N.
(** LineTerminator, within the 8-bit alphabet: LF and CR *)
Definition line_terminator (c : ascii) : bool := ((code c =? 10) || (code c =? 13))%N.
(** [.] without the [s] flag *)
Definition dot (c : ascii) : bool := negb (line_terminator c).
Definition is_char (a : ascii) (c : ascii) : bool := Ascii.eqb a c.
(** [[^+]] *)
Definition not_plus (c : ascii) : bool := negb (is_char "+" c).
(** [[^/]] *)
Definition not_slash (c : ascii) : bool := negb (is_char "/" c).
(** [[.-]] *)
Definition dot_or_dash (c : ascii) : bool := is_char "." c || is_char "-" c.
(** [[\w-.]] *)
Definition word_dash_dot (c : ascii) : bool := word c || is_char "-" c || is_char "." c.
(** [[^a-zA-Z0-9]] *)
Definition not_alnum (c : ascii) : bool := negb (letter c || digit c).
(** [[^\w\d]] *)
Definition not_word (c : ascii) : bool := negb (word c || digit c).

(** ** Regular expressions: the subset of ECMAScript patterns in the sources *)

Module RegExp.

Local Open Scope list_scope.

Inductive regex : Type :=
| Empty                                   (* the empty pattern *)
| Char (a : ascii)                        (* a literal character *)
| Class (p : ascii -> bool)               (* a class, an escape such as \d, or . *)
| Bol                                     (* ^ *)
| Eol                                     (* $ *)
| Seq (r1 r2 : regex)                     (* r1 r2 *)
| Paren (r : regex)                       (* ( r ), a group nobody reads *)
| Named (name : string) (r : regex)       (* (?<name> r ) *)
| Opt (r : regex)                         (* r? *)
| Star (r : regex)                        (* r* *)
| Plus (r : regex).                       (* r+ *)

(** A literal run of characters. *)
Fixpoint Lit (s : chars) : regex :=
  match s with
  | [] => Empty
  | a :: s' => Seq (Char a) (Lit s')
  end.

Definition Str (s : string) : regex := Lit (list_ascii_of_string s).

(** The named groups inside a pattern: what one iteration of a quantifier
    resets (RepeatMatcher, step 4). *)
Fixpoint names (r : regex) : list string :=
  match r with
  | Empty | Char _ | Class _ | Bol | Eol => []
  | Seq r1 r2 => names r1 ++ names r2
  | Paren r1 | Opt r1 | Star r1 | Plus r1 => names r1
  | Named n r1 => n :: names r1
  end.

(** Named captures, most recent binding first. *)
Definition captures := list (string * chars).

Fixpoint get_capture (n : string) (cs : captures) : option chars :=
  match cs with
  | [] => None
  | (k, v) :: cs' => if String.eqb k n then Some v else get_capture n cs'
  end.

Definition mem (n : string) (ns : list string) : bool :=
  existsb (String.eqb n) ns.

Definition clear_captures (ns : list string) (cs : captures) : captures :=
  filter (fun kv => negb (mem (fst kv) ns)) cs.

(** A MatchState: the end index reached, the input still to read, and the
    captures so far. *)
Record mstate : Type := mkState {
  endIndex : nat;
  rest : chars;
  caps : captures
}.

Definition continuation := mstate -> option mstate.

Definition advance (x : mstate) (t : chars) : mstate :=
  mkState (S (endIndex x)) t (caps x).

Definition reset (r : regex) (x : mstate) : mstate :=
  mkState (endIndex x) (rest x) (clear_captures (names r) (caps x)).

(** The text read between two states of one run. *)
Definition consumed (x y : mstate) : chars :=
  firstn (endIndex y - endIndex x) (rest x).

Definition capture (n : string) (x y : mstate) : mstate :=
  mkState (endIndex y) (rest y) ((n, consumed x y) :: caps y).

(** RepeatMatcher with min = 0 and max = infinity, greedy.  An iteration that
    reads nothing is refused (step 2.b); every accepted iteration reads at
    least one character, so [fuel] = the length of the remaining input is
    never exhausted early. *)
Fixpoint repeat_loop (body : mstate -> continuation -> option mstate)
    (clear : mstate -> mstate) (fuel : nat) (x : mstate) (c : continuation)
    : option mstate :=
  match fuel with
  | O => c x
  | S fuel' =>
      match body (clear x)
              (fun y => if Nat.eqb (endIndex y) (endIndex x) then None
                        else repeat_loop body clear fuel' y c) with
      | Some z => Some z
      | None => c x
      end
  end.

(** The backtracking matcher, in the continuation-passing form of ECMA-262
    (22.2.2): [matcher r x c] is the first success, in priority order, of
    [c] after [r] has matched from [x]. *)
Fixpoint matcher (r : regex) (x : mstate) (c : continuation) {struct r}
    : option mstate :=
  match r with
  | Empty => c x
  | Char a =>
      match rest x with
      | b :: t => if Ascii.eqb a b then c (advance x t) else None
      | [] => None
      end
  | Class p =>
      match rest x with
      | b :: t => if p b then c (advance x t) else None
      | [] => None
      end
  | Bol => if Nat.eqb (endIndex x) 0 then c x else None
  | Eol => match rest x with [] => c x | _ :: _ => None end
  | Seq r1 r2 => matcher r1 x (fun y => matcher r2 y c)
  | Paren r1 => matcher r1 x c
  | Named n r1 => matcher r1 x (fun y => c (capture n x y))
  | Opt r1 =>
      match matcher r1 (reset r1 x)
              (fun y => if Nat.eqb (endIndex y) (endIndex x) then None else c y) with
      | Some z => Some z
      | None => c x
      end
  | Star r1 => repeat_loop (matcher r1) (reset r1) (List.length (rest x)) x c
  | Plus r1 =>
      matcher r1 (reset r1 x)
        (fun y => repeat_loop (matcher r1) (reset r1) (List.length (rest y)) y c)
  end.

(** RegExpBuiltinExec without the g and y flags: the first start index, from
    0 up to the length of the input, at which the pattern matches. *)
Fixpoint search (r : regex) (i : nat) (s : chars) : option (nat * mstate) :=
  match matcher r (mkState i s []) Some with
  | Some y => Some (i, y)
  | None =>
      match s with
      | [] => None
      | _ :: t => search r (S i) t
      end
  end.

(** What the sources read of a match: its [groups]. *)
Record match_result : Type := mkMatch {
  index : nat;
  lastIndex : nat;
  groups_of : captures
}.

Definition exec (r : regex) (s : string) : option match_result :=
  match search r 0 (list_ascii_of_string s) with
  | Some (i, y) => Some (mkMatch i (endIndex y) (caps y))
  | None => None
  end.

(** [m.groups.name]: [None] when the group took no part in the match. *)
Definition group (m : match_result) (n : string) : option string :=
  option_map string_of_list_ascii (get_capture n (groups_of m)).

(** [!!s.match(r)] *)
Definition test (r : regex) (s : string) : bool :=
  match exec r s with Some _ => true | None => false end.

(** [s.replace(r, replacement)] for a pattern with the g flag and a
    replacement without [$]: every match, left to right, is replaced; after
    an empty match the search resumes one character further. *)
Fixpoint replace_loop (r : regex) (rep : chars) (fuel : nat) (i : nat)
    (s : chars) : chars :=
  match fuel with
  | O => s
  | S fuel' =>
      match search r i s with
      | None => s
      | Some (j, y) =>
          let before := firstn (j - i) s in
          if Nat.eqb (endIndex y) j then
            match rest y with
            | [] => before ++ rep
            | a :: t => before ++ rep ++ a :: replace_loop r rep fuel' (S j) t
            end
          else before ++ rep ++ replace_loop r rep fuel' (endIndex y) (rest y)
      end
  end.

Definition replace_all (r : regex) (replacement : string) (s : string) : string :=
  let l := list_ascii_of_string s in
  string_of_list_ascii
    (replace_loop r (list_ascii_of_string replacement) (S (List.length l)) 0 l).

End RegExp.

Import RegExp.

Declare Scope regex_scope.
Delimit Scope regex_scope with re.
Bind Scope regex_scope with regex.
Infix "+++" := Seq (at level 60, right associativity) : regex_scope.

(** ** JavaScript values used by the sources *)

(** Truthiness of an optional string: [undefined] and [''] are falsy. *)
Definition truthy (o : option string) : bool :=
  match o with
  | Some s => negb (s =? "")
  | None => false
  end.

(** A template-literal hole: [undefined] is rendered as the word. *)
Definition interpolate (o : option string) : string :=
  match o with
  | Some s => s
  | None => "undefined"
  end.

(** [o ? sep + o : ''] *)
Definition part (sep : string) (o : option string) : string :=
  match o with
  | Some s => if s =? "" then "" else sep ++ s
  | None => ""
  end.

(** [Number(s)] on a run of decimal digits (and on [''], which is 0).  On any
    other argument JavaScript gives NaN or reads a numeric literal of another
    form; such values are outside the data model and are [None] here.  The
    value is the exact one: JavaScript agrees up to 2^53 - 1 and rounds
    above, so what is stated of the numbers read is stated of numbers in
    that range. *)
Definition Number (s : option string) : option N :=
  match s with
  | Some t => option_map N.of_uint (NilEmpty.uint_of_string t)
  | None => None
  end.

(** [`${n}`] for a natural number: its decimal digits, which is what
    JavaScript renders for the integers that it holds exactly. *)
Definition render (n : N) : string := NilEmpty.string_of_uint (N.to_uint n).

Inductive exn : Type :=
| Error (message : string).

Inductive completion (A : Type) : Type :=
| Normal (a : A)
| Throw (e : exn).
Arguments Normal {A} a.
Arguments Throw {A} e.

(** A group that stands outside every quantifier takes part in every match;
    this reads its text. *)
Definition required (m : match_result) (n : string) : string :=
  match group m n with
  | Some t => t
  | None => ""
  end.

(** ** src/version.ts and src/version-format.ts *)

Record Version : Type := new_Version {
  major : N;
  minor : N;
  patch : N;
  preRelease : option string;
  build : option string
}.

(** [new Version(Number(a), Number(b), Number(c), pre, bld)], defined when the
    three numbers are naturals. *)
Definition Version_of (a b c : option N) (pre bld : option string)
    : option Version :=
  match a, b, c with
  | Some x, Some y, Some z => Some (new_Version x y z pre bld)
  | _, _, _ => None
  end.

(** "(?<major>\d+)\.(?<minor>\d+)\.(?<patch>\d+)", the head of both
    version patterns. *)
Definition TRIPLE : regex :=
  (Named "major" (Plus (Class digit)) +++ Char "." +++
   Named "minor" (Plus (Class digit)) +++ Char "." +++
   Named "patch" (Plus (Class digit)))%re.

(** The pattern "/(?<major>\d+)\.(?<minor>\d+)\.(?<patch>\d+)(-(?<preRelease>[^+]+))?(\+(?<build>.*))?/" *)
Definition VERSION_REGEX : regex :=
  (TRIPLE +++
   Opt (Paren (Char "-" +++ Named "preRelease" (Plus (Class not_plus)))) +++
   Opt (Paren (Char "+" +++ Named "build" (Star (Class dot)))))%re.

Definition SemverVersionFormat_REGEX : regex := VERSION_REGEX.

(** The pattern "/(?<major>\d+)\.(?<minor>\d+)\.(?<patch>\d+)(?:[.-](?<preRelease>.+))?/" *)
Definition RubyVersionFormat_REGEX : regex :=
  (TRIPLE +++
   Opt (Class dot_or_dash +++ Named "preRelease" (Plus (Class dot))))%re.

Definition SemverVersionFormat_parse (versionString : string) : option Version :=
  match exec SemverVersionFormat_REGEX versionString with
  | None => None
  | Some m =>
      Version_of (Number (group m "major")) (Number (group m "minor"))
        (Number (group m "patch")) (group m "preRelease") (group m "build")
  end.

Definition SemverVersionFormat_format (version : Version) : string :=
  let preReleasePart := part "-" (preRelease version) in
  let buildPart := part "+" (build version) in
  render (major version) ++ "." ++ render (minor version) ++ "." ++
  render (patch version) ++ preReleasePart ++ buildPart.

Definition RubyVersionFormat_parse (versionString : string) : option Version :=
  match exec RubyVersionFormat_REGEX versionString with
  | None => None
  | Some m =>
      Version_of (Number (group m "major")) (Number (group m "minor"))
        (Number (group m "patch")) (group m "preRelease") None
  end.

Definition RubyVersionFormat_format (version : Version) : string :=
  let preReleasePart := part "." (preRelease version) in
  render (major version) ++ "." ++ render (minor version) ++ "." ++
  render (patch version) ++ preReleasePart.

(** The [VersionFormat] interface.  An implementation is foreign code: its
    [parse] may complete abruptly, which is what the [try] of
    [BranchName.parse] is there for. *)
Record VersionFormat : Type := mkVersionFormat {
  parse : string -> completion (option Version);
  format : Version -> string
}.

Definition SemverVersionFormat : VersionFormat :=
  mkVersionFormat (fun s => Normal (SemverVersionFormat_parse s))
    SemverVersionFormat_format.

Definition RubyVersionFormat : VersionFormat :=
  mkVersionFormat (fun s => Normal (RubyVersionFormat_parse s))
    RubyVersionFormat_format.

Definition Version_toString (v : Version) : string :=
  let preReleasePart := part "-" (preRelease v) in
  let buildPart := part "+" (build v) in
  render (major v) ++ "." ++ render (minor v) ++ "." ++ render (patch v) ++
  preReleasePart ++ buildPart.

Definition Version_isPreMajor (v : Version) : bool := (major v <? 1)%N.

Definition deprecation_warning : string :=
  "Version.parse versionRegex parameter is deprecated. Implement the VersionFormat interface for custom version formats.".

Definition unable_to_parse (versionString : string) : exn :=
  Error ("unable to parse version string: " ++ versionString).

(** The static [Version.parse(versionString, versionRegex?)]: the calls made
    to [console.warn], and the completion.  [Normal None] stands for a
    returned Version whose numbers are not naturals, which only a custom
    pattern can produce. *)
Definition Version_parse (versionString : string) (versionRegex : option regex)
    : list string * completion (option Version) :=
  match versionRegex with
  | Some re =>
      ([deprecation_warning],
       match exec re versionString with
       | None => Throw (unable_to_parse versionString)
       | Some m =>
           match names re with
           | [] => Throw (unable_to_parse versionString)
           | _ :: _ =>
               Normal (Version_of (Number (group m "major"))
                         (Number (group m "minor")) (Number (group m "patch"))
                         (group m "preRelease") (group m "build"))
           end
       end)
  | None =>
      ([],
       match SemverVersionFormat_parse versionString with
       | None => Throw (unable_to_parse versionString)
       | Some version => Normal (Some version)
       end)
  end.

(** ** src/util/branch-name.ts *)

Definition RELEASE_PLEASE : string := "release-please".

Inductive BranchNameType : Type :=
| AutoreleaseBranchName
| ComponentBranchName
| GroupBranchName
| DefaultBranchName
| V12ComponentBranchName
| V12DefaultBranchName.

Definition getAllResourceNames : list BranchNameType :=
  [ AutoreleaseBranchName;
    ComponentBranchName;
    GroupBranchName;
    DefaultBranchName;
    V12ComponentBranchName;
    V12DefaultBranchName ].

(** An instance: the class it was built by, and the four fields. *)
Record BranchName : Type := mkBranchName {
  clazz : BranchNameType;
  component : option string;
  targetBranch : option string;
  version : option Version;
  versionFormat : option VersionFormat
}.

(** The pattern "/^release-?(?<component>[\w-.]*)?-v(?<version>[0-9].*)$/" *)
Definition AUTORELEASE_PATTERN : regex :=
  (Bol +++ Str "release" +++ Opt (Char "-") +++
   Opt (Named "component" (Star (Class word_dash_dot))) +++
   Str "-v" +++
   Named "version" (Class digit +++ Star (Class dot)) +++ Eol)%re.

Definition RELEASE_PLEASE_BRANCH_PREFIX : string := "release-please--branches".

(** The pattern "^${RELEASE_PLEASE}/branches/(?<branch>[^/]+)$" *)
Definition V12_DEFAULT_PATTERN : regex :=
  (Bol +++ Str RELEASE_PLEASE +++ Str "/branches/" +++
   Named "branch" (Plus (Class not_slash)) +++ Eol)%re.

(** The pattern "^${RELEASE_PLEASE}/branches/(?<branch>[^/]+)/components/(?<component>.+)$" *)
Definition V12_COMPONENT_PATTERN : regex :=
  (Bol +++ Str RELEASE_PLEASE +++ Str "/branches/" +++
   Named "branch" (Plus (Class not_slash)) +++ Str "/components/" +++
   Named "component" (Plus (Class dot)) +++ Eol)%re.

(** The pattern "^${RELEASE_PLEASE}--branches--(?<branch>.+)$" *)
Definition DEFAULT_PATTERN : regex :=
  (Bol +++ Str RELEASE_PLEASE +++ Str "--branches--" +++
   Named "branch" (Plus (Class dot)) +++ Eol)%re.

(** The pattern "^${RELEASE_PLEASE}--branches--(?<branch>.+)--components--(?<component>.+)$" *)
Definition COMPONENT_PATTERN : regex :=
  (Bol +++ Str RELEASE_PLEASE +++ Str "--branches--" +++
   Named "branch" (Plus (Class dot)) +++ Str "--components--" +++
   Named "component" (Plus (Class dot)) +++ Eol)%re.

(** The pattern "^${RELEASE_PLEASE}--branches--(?<branch>.+)--groups--(?<group>.+)$" *)
Definition GROUP_PATTERN : regex :=
  (Bol +++ Str RELEASE_PLEASE +++ Str "--branches--" +++
   Named "branch" (Plus (Class dot)) +++ Str "--groups--" +++
   Named "group" (Plus (Class dot)) +++ Eol)%re.

(** The static [matches] of each class. *)
Definition matches (c : BranchNameType) (branchName : string) : bool :=
  match c with
  | AutoreleaseBranchName =>
      if prefix RELEASE_PLEASE_BRANCH_PREFIX branchName then false
      else test AUTORELEASE_PATTERN branchName
  | V12DefaultBranchName => test V12_DEFAULT_PATTERN branchName
  | V12ComponentBranchName => test V12_COMPONENT_PATTERN branchName
  | DefaultBranchName => test DEFAULT_PATTERN branchName
  | ComponentBranchName => test COMPONENT_PATTERN branchName
  | GroupBranchName => test GROUP_PATTERN branchName
  end.

Definition isReleasePleaseBranch (branchName : string) : bool :=
  existsb (fun c => matches c branchName) getAllResourceNames.

(** The constructors.  Only [AutoreleaseBranchName] keeps the format and
    calls its [parse]. *)
Definition new_AutoreleaseBranchName (branchName : string)
    (versionFormat : option VersionFormat) : completion BranchName :=
  match exec AUTORELEASE_PATTERN branchName, versionFormat with
  | Some m, Some f =>
      match parse f (required m "version") with
      | Normal v =>
          Normal (mkBranchName AutoreleaseBranchName (group m "component")
                    None v versionFormat)
      | Throw e => Throw e
      end
  | _, _ => Normal (mkBranchName AutoreleaseBranchName None None None versionFormat)
  end.

Definition new_V12DefaultBranchName (branchName : string) : BranchName :=
  match exec V12_DEFAULT_PATTERN branchName with
  | Some m => mkBranchName V12DefaultBranchName None (group m "branch") None None
  | None => mkBranchName V12DefaultBranchName None None None None
  end.

Definition new_V12ComponentBranchName (branchName : string) : BranchName :=
  match exec V12_COMPONENT_PATTERN branchName with
  | Some m =>
      mkBranchName V12ComponentBranchName (group m "component")
        (group m "branch") None None
  | None => mkBranchName V12ComponentBranchName None None None None
  end.

Definition new_DefaultBranchName (branchName : string) : BranchName :=
  match exec DEFAULT_PATTERN branchName with
  | Some m => mkBranchName DefaultBranchName None (group m "branch") None None
  | None => mkBranchName DefaultBranchName None None None None
  end.

Definition new_ComponentBranchName (branchName : string) : BranchName :=
  match exec COMPONENT_PATTERN branchName with
  | Some m =>
      mkBranchName ComponentBranchName (group m "component")
        (group m "branch") None None
  | None => mkBranchName ComponentBranchName None None None None
  end.

Definition new_GroupBranchName (branchName : string) : BranchName :=
  match exec GROUP_PATTERN branchName with
  | Some m =>
      mkBranchName GroupBranchName (group m "group") (group m "branch") None None
  | None => mkBranchName GroupBranchName None None None None
  end.

(** [new branchNameClass(branchName, versionFormat)] *)
Definition construct (c : BranchNameType) (branchName : string)
    (versionFormat : option VersionFormat) : completion BranchName :=
  match c with
  | AutoreleaseBranchName => new_AutoreleaseBranchName branchName versionFormat
  | V12DefaultBranchName => Normal (new_V12DefaultBranchName branchName)
  | V12ComponentBranchName => Normal (new_V12ComponentBranchName branchName)
  | DefaultBranchName => Normal (new_DefaultBranchName branchName)
  | ComponentBranchName => Normal (new_ComponentBranchName branchName)
  | GroupBranchName => Normal (new_GroupBranchName branchName)
  end.

Definition getTargetBranch (b : BranchName) : option string := targetBranch b.
Definition getComponent (b : BranchName) : option string := component b.
Definition getVersion (b : BranchName) : option Version := version b.

Definition BranchName_toString (b : BranchName) : string :=
  match clazz b with
  | AutoreleaseBranchName =>
      let versionString :=
        match version b, versionFormat b with
        | Some v, Some f => Some (format f v)
        | Some v, None => Some (Version_toString v)
        | None, _ => None
        end in
      if truthy (component b)
      then "release-" ++ interpolate (component b) ++ "-v" ++ interpolate versionString
      else "release-v" ++ interpolate versionString
  | V12DefaultBranchName =>
      RELEASE_PLEASE ++ "/branches/" ++ interpolate (targetBranch b)
  | V12ComponentBranchName =>
      RELEASE_PLEASE ++ "/branches/" ++ interpolate (targetBranch b) ++
      "/components/" ++ interpolate (component b)
  | DefaultBranchName =>
      RELEASE_PLEASE ++ "--branches--" ++ interpolate (targetBranch b)
  | ComponentBranchName =>
      RELEASE_PLEASE ++ "--branches--" ++ interpolate (targetBranch b) ++
      "--components--" ++ interpolate (component b)
  | GroupBranchName =>
      RELEASE_PLEASE ++ "--branches--" ++ interpolate (targetBranch b) ++
      "--groups--" ++ interpolate (component b)
  end.

(** One call of [logger.warn(message, error)]. *)
Definition warning : Type := (string * exn)%type.

(** [BranchName.parse(branchName, logger, versionFormat)]: the value
    returned and the calls made to the logger. *)
Definition BranchName_parse (branchName : string)
    (versionFormat : option VersionFormat)
    : option BranchName * list warning :=
  match find (fun c => matches c branchName) getAllResourceNames with
  | None => (None, [])
  | Some branchNameClass =>
      match construct branchNameClass branchName versionFormat with
      | Normal parsed =>
          match branchNameClass, version parsed with
          | AutoreleaseBranchName, None => (None, [])
          | _, _ => (Some parsed, [])
          end
      | Throw e =>
          (None, [("Error parsing branch name: " ++ branchName, e)])
      end
  end.

Definition BranchName_ofComponentVersion (branchPrefix : string)
    (version : Version) (versionFormat : VersionFormat)
    : completion BranchName :=
  let versionString := format versionFormat version in
  new_AutoreleaseBranchName
    ("release-" ++ branchPrefix ++ "-v" ++ versionString) (Some versionFormat).

Definition BranchName_ofVersion (version : Version)
    (versionFormat : VersionFormat) : completion BranchName :=
  let versionString := format versionFormat version in
  new_AutoreleaseBranchName ("release-v" ++ versionString) (Some versionFormat).

Definition BranchName_ofTargetBranch (targetBranch : string) : BranchName :=
  new_DefaultBranchName (RELEASE_PLEASE ++ "--branches--" ++ targetBranch).

Definition BranchName_ofComponentTargetBranch (component targetBranch : string)
    : BranchName :=
  new_ComponentBranchName
    (RELEASE_PLEASE ++ "--branches--" ++ targetBranch ++ "--components--" ++
     component).

(** [branchName.replace(/[^\w\d]/g, '-').replace(/-+/g, '-')] *)
Definition safeBranchName (branchName : string) : string :=
  replace_all (Plus (Char "-")) "-"
    (replace_all (Class not_word) "-" branchName).

Definition BranchName_ofGroupTargetBranch (group targetBranch : string)
    : BranchName :=
  new_GroupBranchName
    (RELEASE_PLEASE ++ "--branches--" ++ targetBranch ++ "--groups--" ++
     safeBranchName group).

(** ** src/util/tag-name.ts *)

(** The pattern "/^((?<component>.*)(?<separator>[^a-zA-Z0-9]))?(?<v>v)?(?<version>\d+\.\d+\.\d+.*)$/" *)
Definition TAG_PATTERN : regex :=
  (Bol +++
   Opt (Paren (Named "component" (Star (Class dot)) +++
               Named "separator" (Class not_alnum))) +++
   Opt (Named "v" (Char "v")) +++
   Named "version"
     (Plus (Class digit) +++ Char "." +++ Plus (Class digit) +++ Char "." +++
      Plus (Class digit) +++ Star (Class dot)) +++
   Eol)%re.

Definition DEFAULT_SEPARATOR : string := "-".

Record TagName : Type := mkTagName {
  tag_version : Version;
  tag_component : option string;
  separator : string;
  includeV : bool
}.

(** The constructor: an [undefined] separator takes the default. *)
Definition new_TagName (version : Version) (component : option string)
    (separator : option string) (includeV : bool) : TagName :=
  mkTagName version component
    (match separator with Some s => s | None => DEFAULT_SEPARATOR end)
    includeV.

Definition TagName_extractComponent (tagName : string) : option string :=
  match exec TAG_PATTERN tagName with
  | Some m => group m "component"
  | None => None
  end.

Definition TagName_parse (tagName : string) (versionFormat : VersionFormat)
    : completion (option TagName) :=
  match exec TAG_PATTERN tagName with
  | Some m =>
      let versionString := required m "version" in
      match parse versionFormat versionString with
      | Normal None => Normal None
      | Normal (Some version) =>
          Normal (Some (new_TagName version (group m "component")
                          (group m "separator") (truthy (group m "v"))))
      | Throw e => Throw e
      end
  | None => Normal None
  end.

Definition TagName_toString (t : TagName) : string :=
  if truthy (tag_component t)
  then interpolate (tag_component t) ++ separator t ++
       (if includeV t then "v" else "") ++ Version_toString (tag_version t)
  else (if includeV t then "v" else "") ++ Version_toString (tag_version t).

(** ** The ordering of versions *)

Module Semver.

Local Open Scope list_scope.

(** A prerelease identifier: purely numeric, or containing a non-digit. *)
Inductive identifier : Type :=
| Numeric (n : N)
| Alphanumeric (s : string).

(** What the ordering reads of a version string; build metadata is not kept. *)
Record SemVer : Type := mkSemVer {
  sv_major : N;
  sv_minor : N;
  sv_patch : N;
  sv_prerelease : list identifier
}.

(** The text before the first [sep], and the text after it when there is one. *)
Fixpoint cut (sep : ascii) (s : chars) : chars * option chars :=
  match s with
  | [] => ([], None)
  | a :: t =>
      if Ascii.eqb a sep then ([], Some t)
      else let (h, r) := cut sep t in (a :: h, r)
  end.

(** [s.split(sep)] *)
Fixpoint split (sep : ascii) (s : chars) : list chars :=
  match s with
  | [] => [[]]
  | a :: t =>
      if Ascii.eqb a sep then [] :: split sep t
      else match split sep t with
           | h :: r => (a :: h) :: r
           | [] => [[a]]
           end
  end.

(** [[0-9A-Za-z-]] *)
Definition identifier_char (c : ascii) : bool :=
  digit c || letter c || is_char "-" c.

(** A numeric identifier: digits without a leading zero. *)
Definition numeric_identifier (s : chars) : bool :=
  match s with
  | [] => false
  | [a] => digit a
  | a :: _ :: _ => forallb digit s && negb (is_char "0" a)
  end.

Definition build_identifier (s : chars) : bool :=
  match s with
  | [] => false
  | _ :: _ => forallb identifier_char s
  end.

Definition prerelease_identifier (s : chars) : bool :=
  build_identifier s && (negb (forallb digit s) || numeric_identifier s).

Definition value (s : chars) : N :=
  match Number (Some (string_of_list_ascii s)) with
  | Some n => n
  | None => 0
  end.

Definition to_identifier (s : chars) : identifier :=
  if forallb digit s then Numeric (value s)
  else Alphanumeric (string_of_list_ascii s).

(** Modelled from the spec: the parser of the [semver] package, an external
    dependency of [src/version.ts] that is not among the sources.  The
    grammar is that of Semantic Versioning 2.0.0, which the glossary names:
    [major.minor.patch[-prerelease][+build]], build metadata being whatever
    follows the first [+], the prerelease whatever stands between the first
    [-] and it, both dot-separated runs of identifiers.  [None]: the text is
    not a version of that grammar and the package gives no ordering for it. *)
Definition parse (version : string) : option SemVer :=
  let (main, bld) := cut "+" (list_ascii_of_string version) in
  let (core, pre) := cut "-" main in
  let build_ok :=
    match bld with
    | Some b => forallb build_identifier (split "." b)
    | None => true
    end in
  let pre_ok :=
    match pre with
    | Some p => forallb prerelease_identifier (split "." p)
    | None => true
    end in
  match split "." core with
  | [a; b; c] =>
      if build_ok && pre_ok && numeric_identifier a && numeric_identifier b
         && numeric_identifier c
      then Some (mkSemVer (value a) (value b) (value c)
                   (match pre with
                    | Some p => map to_identifier (split "." p)
                    | None => []
                    end))
      else None
  | _ => None
  end.

(** Modelled from the spec: the ordering of section 4.1.  Numeric identifiers
    compare numerically, the others lexically by character code, a numeric
    one is below an alphanumeric one, and a sequence that is a prefix of
    another is below it. *)
Definition compareIdentifiers (a b : identifier) : comparison :=
  match a, b with
  | Numeric x, Numeric y => N.compare x y
  | Numeric _, Alphanumeric _ => Lt
  | Alphanumeric _, Numeric _ => Gt
  | Alphanumeric s, Alphanumeric t => String.compare s t
  end.

Fixpoint compareSequences (a b : list identifier) : comparison :=
  match a, b with
  | [], [] => Eq
  | [], _ :: _ => Lt
  | _ :: _, [] => Gt
  | x :: a', y :: b' =>
      match compareIdentifiers x y with
      | Eq => compareSequences a' b'
      | r => r
      end
  end.

Definition lex (c1 c2 : comparison) : comparison :=
  match c1 with
  | Eq => c2
  | r => r
  end.

Definition compareMain (a b : SemVer) : comparison :=
  lex (N.compare (sv_major a) (sv_major b))
    (lex (N.compare (sv_minor a) (sv_minor b))
       (N.compare (sv_patch a) (sv_patch b))).

(** A version without prerelease is above one with a prerelease. *)
Definition comparePre (a b : SemVer) : comparison :=
  match sv_prerelease a, sv_prerelease b with
  | [], [] => Eq
  | _ :: _, [] => Lt
  | [], _ :: _ => Gt
  | p, q => compareSequences p q
  end.

Definition compareSemVer (a b : SemVer) : comparison :=
  lex (compareMain a b) (comparePre a b).

Definition sign (c : comparison) : Z :=
  match c with
  | Lt => (-1)%Z
  | Eq => 0%Z
  | Gt => 1%Z
  end.

(** Modelled from the spec: [semver.compare(a, b)] on two version strings,
    with no result when one of them is not a version. *)
Definition compare (a b : string) : option Z :=
  match parse a, parse b with
  | Some x, Some y => Some (sign (compareSemVer x y))
  | _, _ => None
  end.

End Semver.

(** [Version.prototype.compare]: the renderings of the two versions are
    handed to [semver.compare]. *)
Definition Version_compare (this other : Version) : option Z :=
  Semver.compare (Version_toString this) (Version_toString other).

(** ** The matches of a pattern, as a relation

    [reach r x y]: pattern [r] can take the matcher from state [x] to state
    [y].  The relation forgets the priority among the alternatives of a
    backtracking run; [matcher_sound] and [matcher_complete] tie it to the
    matcher. *)

Inductive reach : regex -> mstate -> mstate -> Prop :=
| reach_Empty : forall x, reach Empty x x
| reach_Char : forall a x t,
    rest x = a :: t -> reach (Char a) x (advance x t)
| reach_Class : forall p b x t,
    rest x = b :: t -> p b = true -> reach (Class p) x (advance x t)
| reach_Bol : forall x, endIndex x = 0 -> reach Bol x x
| reach_Eol : forall x, rest x = [] -> reach Eol x x
| reach_Seq : forall r1 r2 x y z,
    reach r1 x y -> reach r2 y z -> reach (Seq r1 r2) x z
| reach_Paren : forall r x y, reach r x y -> reach (Paren r) x y
| reach_Named : forall n r x y,
    reach r x y -> reach (Named n r) x (capture n x y)
| reach_Opt_skip : forall r x, reach (Opt r) x x
| reach_Opt_take : forall r x y,
    reach r (reset r x) y -> endIndex y <> endIndex x -> reach (Opt r) x y
| reach_Star_stop : forall r x, reach (Star r) x x
| reach_Star_step : forall r x y z,
    reach r (reset r x) y -> endIndex y <> endIndex x ->
    reach (Star r) y z -> reach (Star r) x z
| reach_Plus : forall r x y z,
    reach r (reset r x) y -> reach (Star r) y z -> reach (Plus r) x z.

(** [reads x w y]: between [x] and [y] the matcher has read the text [w]. *)
Definition reads (x : mstate) (w : chars) (y : mstate) : Prop :=
  rest x = (w ++ rest y)%list /\ endIndex y = endIndex x + List.length w.

(** [x] moved past the text [w], captures unchanged. *)
Definition past (x : mstate) (w t : chars) : mstate :=
  mkState (endIndex x + List.length w) t (caps x).

(** No line terminator in a text: every character is matched by [.]. *)
Definition one_line (s : string) : bool :=
  forallb dot (list_ascii_of_string s).

(** A text that holds ["-v"] followed by a digit. *)
Fixpoint has_dash_v_digit (s : chars) : bool :=
  match s with
  | a :: t =>
      match t with
      | b :: c :: _ =>
          (is_char "-" a && is_char "v" b && digit c) || has_dash_v_digit t
      | _ => false
      end
  | [] => false
  end.

Local Open Scope list_scope.

(** What follows ["release"] and the optional dash in [AUTORELEASE_PATTERN]. *)
Definition AUTORELEASE_TAIL : regex :=
  (Opt (Named "component" (Star (Class word_dash_dot))) +++
   Str "-v" +++
   Named "version" (Class digit +++ Star (Class dot)) +++ Eol)%re.

(** The captures of the optional component group: none when it read nothing. *)
Definition component_capture (c : chars) : captures :=
  match c with
  | [] => []
  | _ :: _ => [("component"%string, c)]
  end.

Local Open Scope string_scope.

(** A text a version pattern can sit in after ["-v"]: it starts with a digit
    and holds no line terminator. *)
Definition version_tail (t : string) : bool :=
  match list_ascii_of_string t with
  | d :: vs => digit d && forallb dot vs
  | [] => false
  end.

Local Open Scope list_scope.

(** Three non-empty runs of digits separated by dots. *)
Definition triple_text (a b c : chars) : chars :=
  a ++ "."%char :: b ++ "."%char :: c.

(** A non-empty run of digits. *)
Definition digits (l : chars) : Prop := l <> [] /\ forallb digit l = true.

(** The groups that [TRIPLE] records for the three runs. *)
Definition triple_captures (a b c : chars) : captures :=
  [("patch"%string, c); ("minor"%string, b); ("major"%string, a)].

(** A text that holds, somewhere, three dot-separated runs of digits. *)
Definition holds_triple (text : string) : Prop :=
  exists u a b c z,
    list_ascii_of_string text = u ++ triple_text a b c ++ z /\
    digits a /\ digits b /\ digits c.

(** The longest prefix of [l] whose characters satisfy [p], and what follows. *)
Fixpoint run (p : ascii -> bool) (l : chars) : chars :=
  match l with
  | a :: t => if p a then a :: run p t else []
  | [] => []
  end.

(** What follows the longest such prefix. *)
Fixpoint after (p : ascii -> bool) (l : chars) : chars :=
  match l with
  | a :: t => if p a then after p t else l
  | [] => []
  end.

(** [r] reads exactly one character, one that satisfies [p]. *)
Definition reads_one (r : regex) (p : ascii -> bool) : Prop :=
  names r = [] /\
  forall x k, matcher r x k =
              match rest x with
              | b :: t => if p b then k (advance x t) else None
              | [] => None
              end.

(** What the Ruby pattern captures as prerelease from the text [z] that
    follows the triple: after one [.] or [-], the longest run without a line
    terminator, when it is not empty. *)
Definition ruby_prerelease (z : chars) : option chars :=
  match z with
  | sep :: l =>
      if dot_or_dash sep
      then match run dot l with
           | [] => None
           | w => Some w
           end
      else None
  | [] => None
  end.

(** A format whose [parse] always throws. *)
Definition throwing_format (e : exn) : VersionFormat :=
  mkVersionFormat (fun _ => Throw e) SemverVersionFormat_format.

(** Every character that satisfies [p] is replaced by [rep]. *)
Fixpoint replace_each (p : ascii -> bool) (rep : chars) (l : chars) : chars :=
  match l with
  | a :: t => if p a then rep ++ replace_each p rep t else a :: replace_each p rep t
  | [] => []
  end.

(** Every maximal run of characters that satisfy [p] is replaced by one
    [rep]; [in_run] tells that the previous character belonged to a run. *)
Fixpoint collapse_runs (p : ascii -> bool) (rep : chars) (in_run : bool)
    (l : chars) : chars :=
  match l with
  | a :: t =>
      if p a
      then if in_run then collapse_runs p rep true t
           else rep ++ collapse_runs p rep true t
      else a :: collapse_runs p rep false t
  | [] => []
  end.

(** Two dashes in a row somewhere in the text. *)
Fixpoint has_double_dash (l : chars) : bool :=
  match l with
  | a :: t =>
      match t with
      | b :: _ => (is_char "-" a && is_char "-" b) || has_double_dash t
      | [] => false
      end
  | [] => false
  end.

(** A three-way comparison of a linear order. *)
Definition linear {A : Type} (c : A -> A -> comparison) : Prop :=
  (forall a, c a a = Eq) /\
  (forall a b, c a b = Eq -> a = b) /\
  (forall a b, c b a = CompOpp (c a b)) /\
  (forall a b d, c a b = Lt -> c b d = Lt -> c a d = Lt).

(** The prerelease rule: the empty sequence is above every other. *)
Definition comparePrereleases (p q : list Semver.identifier) : comparison :=
  match p, q with
  | [], [] => Eq
  | _ :: _, [] => Lt
  | [], _ :: _ => Gt
  | _, _ => Semver.compareSequences p q
  end.

(** The fields that the ordering looks at, most significant first. *)
Definition semver_key (v : Semver.SemVer)
    : (N * (N * N)) * list Semver.identifier :=
  ((Semver.sv_major v, (Semver.sv_minor v, Semver.sv_patch v)),
   Semver.sv_prerelease v).

(** The ordering on these fields. *)
Definition compare_keys (p q : (N * (N * N)) * list Semver.identifier)
    : comparison :=
  Semver.lex
    (Semver.lex (N.compare (fst (fst p)) (fst (fst q)))
       (Semver.lex (N.compare (fst (snd (fst p))) (fst (snd (fst q))))
          (N.compare (snd (snd (fst p))) (snd (snd (fst q))))))
    (comparePrereleases (snd p) (snd q)).

(** The prerelease identifiers that the rendering of a Version shows: those
    of its prerelease text up to the first [+]. *)
Definition rendered_prerelease (v : Version) : list Semver.identifier :=
  match preRelease v with
  | Some p =>
      if p =? "" then []
      else map Semver.to_identifier
             (Semver.split "." (fst (Semver.cut "+" (list_ascii_of_string p))))
  | None => []
  end.

(** The version that the rendering of a Version denotes. *)
Definition canonical (v : Version) : Semver.SemVer :=
  Semver.mkSemVer (major v) (minor v) (patch v) (rendered_prerelease v).

(** A Version whose rendering is a version of the Semantic Versioning
    grammar. *)
Definition comparable (v : Version) : Prop :=
  Semver.parse (Version_toString v) <> None.

(** Any character but [sep]. *)
Definition differs (sep : ascii) (c : ascii) : bool := negb (Ascii.eqb c sep).

(** The prerelease text that the rendering of a Version shows. *)
Definition rendered_pre_text (v : Version) : option chars :=
  match preRelease v with
  | Some p =>
      if p =? "" then None
      else Some (fst (Semver.cut "+" (list_ascii_of_string p)))
  | None => None
  end.

(** The three numbers of a Version as its rendering shows them. *)
Definition rendered_core (v : Version) : chars :=
  triple_text (list_ascii_of_string (render (major v)))
    (list_ascii_of_string (render (minor v)))
    (list_ascii_of_string (render (patch v))).

(** The prerelease identifiers as the claim words them: those of the whole
    prerelease field of the Version. *)
Definition field_prerelease (v : Version) : list Semver.identifier :=
  match preRelease v with
  | Some p =>
      if p =? "" then []
      else map Semver.to_identifier
             (Semver.split "." (list_ascii_of_string p))
  | None => []
  end.

(** The ordering as the claim words it, on the fields of two Versions. *)
Definition claimed_compare (a b : Version) : Z :=
  Semver.sign
    (Semver.compareSemVer
       (Semver.mkSemVer (major a) (minor a) (patch a) (field_prerelease a))
       (Semver.mkSemVer (major b) (minor b) (patch b) (field_prerelease b))).

(** [t] does not go on with a character of the class [p]. *)
Definition stops (p : ascii -> bool) (t : chars) : Prop :=
  match t with
  | b :: _ => p b = false
  | [] => True
  end.

(** A prerelease that the SemVer pattern reads back whole: absent, or
    non-empty and without [+]. *)
Definition plain_prerelease (o : option string) : bool :=
  match o with
  | Some p => negb (p =? "")%string && forallb not_plus (list_ascii_of_string p)
  | None => true
  end.

(** A build or a Ruby prerelease that [.] reads back whole: absent, or
    non-empty and on one line. *)
Definition plain_line (o : option string) : bool :=
  match o with
  | Some b => negb (b =? "")%string && one_line b
  | None => true
  end.

(** The largest integer below which every integer is a JavaScript number. *)
Definition MAX_SAFE_INTEGER : N := 9007199254740991.

(** The three numbers of a Version are integers that JavaScript holds
    exactly: there [render] and [Number] are the conversions of the language. *)
Definition exact_numbers (v : Version) : bool :=
  ((major v <=? MAX_SAFE_INTEGER) && (minor v <=? MAX_SAFE_INTEGER) &&
   (patch v <=? MAX_SAFE_INTEGER))%N.

(** The literal [lit] is not found again, further on and before the end, in
    [lit ++ c]. *)
Definition found_once (lit c : chars) : Prop :=
  forall w r, w <> [] -> r <> [] -> lit ++ c = w ++ lit ++ r -> False.

(** The three classes whose names start with ['release-please--branches--']. *)
Definition dashed (c : BranchNameType) : bool :=
  match c with
  | ComponentBranchName | GroupBranchName | DefaultBranchName => true
  | _ => false
  end.

(** A word character or a dash. *)
Definition safe_char (c : ascii) : bool := word c || is_char "-" c.

(** "\d+\.\d+\.\d+.*", the version group of [TAG_PATTERN]. *)
Definition TAG_VERSION : regex :=
  (Plus (Class digit) +++ Char "." +++ Plus (Class digit) +++ Char "." +++
   Plus (Class digit) +++ Star (Class dot))%re.

(** What follows the optional component group in [TAG_PATTERN]. *)
Definition TAG_TAIL : regex :=
  (Opt (Named "v" (Char "v")) +++ Named "version" TAG_VERSION +++ Eol)%re.

(** The optional component group of [TAG_PATTERN]. *)
Definition TAG_GROUP : regex :=
  Paren (Named "component" (Star (Class dot)) +++
         Named "separator" (Class not_alnum))%re.

(** The optional [v] of a tag, as text. *)
Definition v_text (includeV : bool) : chars :=
  if includeV then ["v"%char] else [].

(** The texts that [TAG_PATTERN] matches: on one line, a version triple and
    what follows it, after an optional [v], after an optional component that
    ends with a separator, which is neither a letter nor a digit. *)
Definition tag_shape (t : string) : Prop :=
  exists lead iv a b c z,
    list_ascii_of_string t = lead ++ v_text iv ++ triple_text a b c ++ z /\
    digits a /\ digits b /\ digits c /\ forallb dot z = true /\
    (lead = [] \/
     exists comp sep,
       lead = comp ++ [sep] /\ forallb dot comp = true /\ not_alnum sep = true).

(** What a version tail starts with when it is not empty: not a digit, and
    not a dot. *)
Definition tail_start (t : chars) : Prop :=
  match t with
  | h :: _ => digit h = false /\ h <> "."%char
  | [] => True
  end.

(** What [TagName.parse] can give back of the component and separator of a
    tag: no component and the default separator, or a non-empty component
    on one line and a separator of one character, neither letter nor digit. *)
Definition tag_prefix_ok (tn : TagName) : bool :=
  match tag_component tn with
  | Some c =>
      negb (c =? "") && one_line c &&
      match list_ascii_of_string (separator tn) with
      | [s] => not_alnum s
      | _ => false
      end
  | None => separator tn =? DEFAULT_SEPARATOR
  end.

Local Open Scope list_scope.

(** ** Auxiliary definitions: a match started further in the text *)

(** The state [x], [k] characters further in a longer input. *)
Definition shift (k : nat) (x : mstate) : mstate :=
  mkState (endIndex x + k) (rest x) (caps x).

(** No [^] in the pattern. *)
Fixpoint unanchored (r : regex) : bool :=
  match r with
  | Bol => false
  | Empty | Char _ | Class _ | Eol => true
  | Seq r1 r2 => unanchored r1 && unanchored r2
  | Paren r1 | Named _ r1 | Opt r1 | Star r1 | Plus r1 => unanchored r1
  end.

(** The last character, if any, is not a digit. *)
Definition ends_plain (l : chars) : bool :=
  match rev l with
  | z :: _ => negb (digit z)
  | [] => true
  end.

(** A prefix without a dot that does not end in a digit: the usual "v",
    "release-", "pkg-v". *)
Definition plain_prefix (u : string) : bool :=
  forallb (fun a => negb (Ascii.eqb a ".")) (list_ascii_of_string u) &&
  ends_plain (list_ascii_of_string u).

(** ** Auxiliary definitions: the first match of a version pattern, and the
    place where the Autorelease pattern splits a name *)

(** A text that starts with three dot-separated runs of digits. *)
Definition starts_triple (l : chars) : Prop :=
  exists a b c z,
    l = triple_text a b c ++ z /\ digits a /\ digits b /\ digits c.

(** The first triple of a text, its runs of digits taken whole: [text] is
    [u ++ a.b.c ++ z], no triple starts inside [u], and [z] does not go on
    with a digit. *)
Definition first_triple (text u a b c z : chars) : Prop :=
  text = u ++ triple_text a b c ++ z /\
  digits a /\ digits b /\ digits c /\
  stops digit z /\
  forall u1 u2, u = u1 ++ u2 -> u2 <> [] ->
    ~ starts_triple (u2 ++ triple_text a b c ++ z).

(** The end of [AUTORELEASE_PATTERN]: ["-v"], the version group and [$]. *)
Definition AUTORELEASE_VERSION : regex :=
  (Str "-v" +++ Named "version" (Class digit +++ Star (Class dot)) +++ Eol)%re.

(** The text after a ["-v"] at the start of [s], when a digit follows. *)
Definition dash_v_here (s : chars) : option chars :=
  match s with
  | a :: b :: d :: vs =>
      if is_char "-" a && is_char "v" b && digit d then Some (d :: vs) else None
  | _ => None
  end.

(** The longest start [c] of [s], made of word characters, dashes and dots,
    that ["-v"] and a digit follow, and the text [vs] after that ["-v"]:
    what the greedy component group and the version group read. *)
Fixpoint split_last (s : chars) : option (chars * chars) :=
  match s with
  | [] => None
  | a :: s' =>
      match (if word_dash_dot a then split_last s' else None) with
      | Some (c, vs) => Some (a :: c, vs)
      | None => option_map (pair []) (dash_v_here (a :: s'))
      end
  end.

Local Open Scope string_scope.

(** * Theorems *)

Section MatcherFacts.

Local Open Scope list_scope.

Lemma reads_refl : forall x, reads x [] x.
Proof. intros x; split; simpl; auto. Qed.

Lemma reads_trans : forall x y z u w,
  reads x u y -> reads y w z -> reads x (u ++ w) z.
Proof.
  intros x y z u w [H1 H2] [H3 H4]; split.
  - rewrite H1, H3, app_assoc; reflexivity.
  - rewrite H4, H2, length_app; lia.
Qed.

Lemma reads_reset : forall r x w y, reads (reset r x) w y -> reads x w y.
Proof. intros r x w y H; exact H. Qed.

(** Every run reads a text: the input only shrinks and the index grows by
    what was read. *)
Lemma reach_reads : forall r x y, reach r x y -> exists w, reads x w y.
Proof.
  induction 1.
  - exists []; apply reads_refl.
  - exists [a]; split; simpl; [assumption | lia].
  - exists [b]; split; simpl; [assumption | lia].
  - exists []; apply reads_refl.
  - exists []; apply reads_refl.
  - destruct IHreach1 as [u Hu], IHreach2 as [w Hw].
    exists (u ++ w); eapply reads_trans; eauto.
  - assumption.
  - destruct IHreach as [w Hw]; exists w; exact Hw.
  - exists []; apply reads_refl.
  - destruct IHreach as [w Hw]; exists w; exact Hw.
  - exists []; apply reads_refl.
  - destruct IHreach1 as [u Hu], IHreach2 as [w Hw].
    exists (u ++ w); eapply reads_trans; eauto.
  - destruct IHreach1 as [u Hu], IHreach2 as [w Hw].
    exists (u ++ w); eapply reads_trans; eauto.
Qed.

Lemma reads_length : forall x w y,
  reads x w y -> List.length (rest x) = List.length w + List.length (rest y).
Proof. intros x w y [H _]; rewrite H, length_app; reflexivity. Qed.

Lemma reads_progress : forall x w y,
  reads x w y -> endIndex y <> endIndex x ->
  List.length (rest y) < List.length (rest x).
Proof.
  intros x w y H Hne; pose proof (reads_length _ _ _ H) as HL.
  destruct H as [_ H]; destruct w; simpl in *; lia.
Qed.

Lemma reads_consumed : forall x w y, reads x w y -> consumed x y = w.
Proof.
  intros x w y [H1 H2]; unfold consumed; rewrite H1, H2.
  replace (endIndex x + List.length w - endIndex x) with (List.length w + 0) by lia.
  rewrite firstn_app_2; simpl; apply app_nil_r.
Qed.

(** *** Soundness: what the matcher returns is a match *)

Lemma repeat_loop_sound : forall r c z,
  (forall x c z, matcher r x c = Some z ->
     exists y, reach r x y /\ c y = Some z) ->
  forall n x, repeat_loop (matcher r) (reset r) n x c = Some z ->
  exists y, reach (Star r) x y /\ c y = Some z.
Proof.
  intros r c z IH; induction n as [|n IHn]; intros x H; simpl in H.
  - exists x; split; [constructor | assumption].
  - destruct (matcher r (reset r x) _) as [z'|] eqn:E.
    + injection H as ->.
      apply IH in E; destruct E as [y [Hy Hc]].
      destruct (Nat.eqb (endIndex y) (endIndex x)) eqn:Q; [discriminate|].
      apply Nat.eqb_neq in Q.
      apply IHn in Hc; destruct Hc as [y' [Hy' Hc']].
      exists y'; split; [eapply reach_Star_step; eauto | assumption].
    + exists x; split; [constructor | assumption].
Qed.

Theorem matcher_sound : forall r x c z,
  matcher r x c = Some z -> exists y, reach r x y /\ c y = Some z.
Proof.
  induction r; intros x c z H; simpl in H.
  - exists x; split; [constructor | assumption].
  - destruct (rest x) as [|b t] eqn:E; [discriminate|].
    destruct (Ascii.eqb a b) eqn:Q; [|discriminate].
    apply Ascii.eqb_eq in Q; subst b.
    exists (advance x t); split; [constructor; assumption | assumption].
  - destruct (rest x) as [|b t] eqn:E; [discriminate|].
    destruct (p b) eqn:Q; [|discriminate].
    exists (advance x t); split; [econstructor; eassumption | assumption].
  - destruct (Nat.eqb (endIndex x) 0) eqn:Q; [|discriminate].
    apply Nat.eqb_eq in Q.
    exists x; split; [constructor; assumption | assumption].
  - destruct (rest x) eqn:E; [|discriminate].
    exists x; split; [constructor; assumption | assumption].
  - apply IHr1 in H; destruct H as [y [Hy H]].
    apply IHr2 in H; destruct H as [y' [Hy' H]].
    exists y'; split; [econstructor; eassumption | assumption].
  - apply IHr in H; destruct H as [y [Hy H]].
    exists y; split; [constructor; assumption | assumption].
  - apply IHr in H; destruct H as [y [Hy H]].
    exists (capture name x y); split; [constructor; assumption | assumption].
  - destruct (matcher r (reset r x) _) as [z'|] eqn:E.
    + injection H as ->.
      apply IHr in E; destruct E as [y [Hy Hc]].
      destruct (Nat.eqb (endIndex y) (endIndex x)) eqn:Q; [discriminate|].
      apply Nat.eqb_neq in Q.
      exists y; split; [apply reach_Opt_take; assumption | assumption].
    + exists x; split; [constructor | assumption].
  - eapply repeat_loop_sound; eauto.
  - apply IHr in H; destruct H as [y [Hy H]].
    eapply repeat_loop_sound in H; eauto.
    destruct H as [y' [Hy' H]].
    exists y'; split; [econstructor; eassumption | assumption].
Qed.

(** *** Inversion of [reach], one lemma per shape of pattern *)

Lemma reach_Empty_inv : forall x y, reach Empty x y -> y = x.
Proof. intros x y H; inversion H; reflexivity. Qed.

Lemma reach_Char_inv : forall a x y,
  reach (Char a) x y -> exists t, rest x = a :: t /\ y = advance x t.
Proof. intros a x y H; inversion H; subst; eauto. Qed.

Lemma reach_Class_inv : forall p x y,
  reach (Class p) x y ->
  exists b t, rest x = b :: t /\ p b = true /\ y = advance x t.
Proof. intros p x y H; inversion H; subst; eauto. Qed.

Lemma reach_Bol_inv : forall x y, reach Bol x y -> endIndex x = 0 /\ y = x.
Proof. intros x y H; inversion H; subst; auto. Qed.

Lemma reach_Eol_inv : forall x y, reach Eol x y -> rest x = [] /\ y = x.
Proof. intros x y H; inversion H; subst; auto. Qed.

Lemma reach_Seq_inv : forall r1 r2 x z,
  reach (Seq r1 r2) x z -> exists y, reach r1 x y /\ reach r2 y z.
Proof. intros r1 r2 x z H; inversion H; subst; eauto. Qed.

Lemma reach_Paren_inv : forall r x y, reach (Paren r) x y -> reach r x y.
Proof. intros r x y H; inversion H; subst; auto. Qed.

Lemma reach_Named_inv : forall n r x z,
  reach (Named n r) x z -> exists y, reach r x y /\ z = capture n x y.
Proof. intros n r x z H; inversion H; subst; eauto. Qed.

Lemma reach_Opt_inv : forall r x y,
  reach (Opt r) x y ->
  y = x \/ (reach r (reset r x) y /\ endIndex y <> endIndex x).
Proof. intros r x y H; inversion H; subst; auto. Qed.

Lemma reach_Star_inv : forall r x z,
  reach (Star r) x z ->
  z = x \/
  exists y, reach r (reset r x) y /\ endIndex y <> endIndex x /\
            reach (Star r) y z.
Proof. intros r x z H; inversion H; subst; eauto. Qed.

Lemma reach_Plus_inv : forall r x z,
  reach (Plus r) x z ->
  exists y, reach r (reset r x) y /\ reach (Star r) y z.
Proof. intros r x z H; inversion H; subst; eauto. Qed.

(** *** Completeness: where a match exists the matcher finds one *)

Lemma repeat_loop_complete : forall r c,
  (forall x y, reach r x y -> forall c, c y <> None -> matcher r x c <> None) ->
  forall n x z, reach (Star r) x z -> List.length (rest x) <= n ->
  c z <> None -> repeat_loop (matcher r) (reset r) n x c <> None.
Proof.
  intros r c IH; induction n as [|n IHn]; intros x z H Hn Hc; simpl;
    apply reach_Star_inv in H; destruct H as [-> | [y [H1 [H2 H3]]]].
  - assumption.
  - exfalso.
    destruct (reach_reads _ _ _ H1) as [w Hw].
    pose proof (reads_progress _ _ _ (reads_reset _ _ _ _ Hw) H2); lia.
  - destruct (matcher r (reset r x) _); [discriminate | assumption].
  - assert (E : matcher r (reset r x)
                  (fun y0 => if Nat.eqb (endIndex y0) (endIndex x) then None
                             else repeat_loop (matcher r) (reset r) n y0 c)
                <> None).
    { apply (IH _ _ H1).
      pose proof H2 as H2'; apply Nat.eqb_neq in H2'; rewrite H2'.
      apply (IHn _ _ H3); [|assumption].
      destruct (reach_reads _ _ _ H1) as [w Hw].
      pose proof (reads_progress _ _ _ (reads_reset _ _ _ _ Hw) H2); lia. }
    destruct (matcher r (reset r x) _); [discriminate | contradiction].
Qed.

Theorem matcher_complete : forall r x y,
  reach r x y -> forall c, c y <> None -> matcher r x c <> None.
Proof.
  induction r; intros x y H c Hc; simpl.
  - apply reach_Empty_inv in H; subst; assumption.
  - apply reach_Char_inv in H; destruct H as [t [E ->]].
    rewrite E, Ascii.eqb_refl; assumption.
  - apply reach_Class_inv in H; destruct H as [b [t [E [Q ->]]]].
    rewrite E, Q; assumption.
  - apply reach_Bol_inv in H; destruct H as [E ->]; rewrite E; assumption.
  - apply reach_Eol_inv in H; destruct H as [E ->]; rewrite E; assumption.
  - apply reach_Seq_inv in H; destruct H as [y' [H1 H2]].
    apply (IHr1 _ _ H1); apply (IHr2 _ _ H2); assumption.
  - apply reach_Paren_inv in H; apply (IHr _ _ H); assumption.
  - apply reach_Named_inv in H; destruct H as [y' [H1 ->]].
    apply (IHr _ _ H1); assumption.
  - apply reach_Opt_inv in H; destruct H as [-> | [H1 H2]].
    + destruct (matcher r (reset r x) _); [discriminate | assumption].
    + assert (E : matcher r (reset r x)
                    (fun y0 => if Nat.eqb (endIndex y0) (endIndex x) then None else c y0)
                  <> None).
      { apply (IHr _ _ H1). apply Nat.eqb_neq in H2; rewrite H2; assumption. }
      destruct (matcher r (reset r x) _); [discriminate | contradiction].
  - apply (repeat_loop_complete r c IHr _ _ _ H); [lia | assumption].
  - apply reach_Plus_inv in H; destruct H as [y' [H1 H2]].
    apply (IHr _ _ H1).
    apply (repeat_loop_complete r c IHr _ _ _ H2); [lia | assumption].
Qed.

(** *** Literals and repeated classes *)

Lemma mstate_eta : forall x, mkState (endIndex x) (rest x) (caps x) = x.
Proof. destruct x; reflexivity. Qed.

Lemma clear_captures_nil : forall cs, clear_captures [] cs = cs.
Proof.
  induction cs as [|kv cs IH]; [reflexivity|].
  unfold clear_captures in *; simpl; f_equal; exact IH.
Qed.

Lemma reset_no_names : forall r x, names r = [] -> reset r x = x.
Proof.
  intros r x H; unfold reset; rewrite H, clear_captures_nil; apply mstate_eta.
Qed.

Lemma past_nil : forall x, past x [] (rest x) = x.
Proof.
  intros x; unfold past; simpl; rewrite Nat.add_0_r; apply mstate_eta.
Qed.

Lemma past_past : forall x u w t1 t2,
  past (past x u t1) w t2 = past x (u ++ w) t2.
Proof.
  intros; unfold past; simpl; rewrite length_app, Nat.add_assoc; reflexivity.
Qed.

Lemma advance_past : forall x a t, advance x t = past x [a] t.
Proof. intros; unfold advance, past; simpl; f_equal; lia. Qed.

Lemma reach_Lit_inv : forall l x y,
  reach (Lit l) x y -> exists t, rest x = l ++ t /\ y = past x l t.
Proof.
  induction l as [|a l IH]; intros x y H; simpl in H.
  - apply reach_Empty_inv in H; subst.
    exists (rest x); split; [reflexivity | symmetry; apply past_nil].
  - apply reach_Seq_inv in H; destruct H as [y' [H1 H2]].
    apply reach_Char_inv in H1; destruct H1 as [t [E ->]].
    apply IH in H2; destruct H2 as [t' [E' ->]]; simpl in E'.
    exists t'; split; [rewrite E, E'; reflexivity|].
    rewrite (advance_past x a), past_past; reflexivity.
Qed.

Lemma reach_Lit_intro : forall l x t,
  rest x = l ++ t -> reach (Lit l) x (past x l t).
Proof.
  induction l as [|a l IH]; intros x t E; simpl in *.
  - rewrite <- E, past_nil; constructor.
  - apply reach_Seq with (y := advance x (l ++ t)).
    + constructor; assumption.
    + replace (past x (a :: l) t) with (past (advance x (l ++ t)) l t).
      * apply IH; reflexivity.
      * rewrite (advance_past x a), past_past; reflexivity.
Qed.

Lemma reach_Star_Class_inv : forall p x y,
  reach (Star (Class p)) x y ->
  exists w t, forallb p w = true /\ rest x = w ++ t /\ y = past x w t.
Proof.
  intros p x y H.
  remember (Star (Class p)) as r eqn:Er.
  induction H; try discriminate.
  - exists [], (rest x); repeat split; symmetry; apply past_nil.
  - injection Er as ->.
    rewrite reset_no_names in H by reflexivity.
    apply reach_Class_inv in H; destruct H as [b [t [E [Q ->]]]].
    destruct (IHreach2 eq_refl) as [w [t' [Hw [E' ->]]]]; simpl in E'.
    exists (b :: w), t'; repeat split.
    + simpl; rewrite Q, Hw; reflexivity.
    + rewrite E, E'; reflexivity.
    + rewrite (advance_past x b), past_past; reflexivity.
Qed.

Lemma reach_Star_Class_intro : forall p w x t,
  forallb p w = true -> rest x = w ++ t ->
  reach (Star (Class p)) x (past x w t).
Proof.
  induction w as [|b w IH]; intros x t Hw E; simpl in *.
  - rewrite <- E, past_nil; constructor.
  - apply andb_prop in Hw; destruct Hw as [Q Hw].
    apply reach_Star_step with (y := advance x (w ++ t)).
    + rewrite reset_no_names by reflexivity.
      econstructor; eassumption.
    + simpl; lia.
    + replace (past x (b :: w) t) with (past (advance x (w ++ t)) w t).
      * apply IH; [assumption | reflexivity].
      * rewrite (advance_past x b), past_past; reflexivity.
Qed.

Lemma reach_Plus_Class_inv : forall p x y,
  reach (Plus (Class p)) x y ->
  exists w t, w <> [] /\ forallb p w = true /\ rest x = w ++ t /\
              y = past x w t.
Proof.
  intros p x y H.
  apply reach_Plus_inv in H; destruct H as [y' [H1 H2]].
  rewrite reset_no_names in H1 by reflexivity.
  apply reach_Class_inv in H1; destruct H1 as [b [t [E [Q ->]]]].
  apply reach_Star_Class_inv in H2; destruct H2 as [w [t' [Hw [E' ->]]]].
  simpl in E'.
  exists (b :: w), t'; repeat split.
  - discriminate.
  - simpl; rewrite Q, Hw; reflexivity.
  - rewrite E, E'; reflexivity.
  - rewrite (advance_past x b), past_past; reflexivity.
Qed.

Lemma reach_Plus_Class_intro : forall p w x t,
  w <> [] -> forallb p w = true -> rest x = w ++ t ->
  reach (Plus (Class p)) x (past x w t).
Proof.
  intros p [|b w] x t Hne Hw E; [contradiction|]; simpl in *.
  apply andb_prop in Hw; destruct Hw as [Q Hw].
  apply reach_Plus with (y := advance x (w ++ t)).
  - rewrite reset_no_names by reflexivity.
    econstructor; eassumption.
  - replace (past x (b :: w) t) with (past (advance x (w ++ t)) w t).
    + apply reach_Star_Class_intro; [assumption | reflexivity].
    + rewrite (advance_past x b), past_past; reflexivity.
Qed.

Lemma capture_past : forall n x w t,
  rest x = w ++ t ->
  capture n x (past x w t) = mkState (endIndex x + List.length w) t ((n, w) :: caps x).
Proof.
  intros n x w t E; unfold capture; simpl.
  rewrite (reads_consumed x w (past x w t)); [reflexivity|].
  split; simpl; [assumption | reflexivity].
Qed.

(** *** The search for a start index *)

Lemma search_sound : forall r s i j y,
  search r i s = Some (j, y) ->
  exists u v, s = u ++ v /\ j = i + List.length u /\
              reach r (mkState j v []) y.
Proof.
  intros r; induction s as [|a s IH]; intros i j y H; simpl in H.
  - destruct (matcher r (mkState i [] []) Some) as [z|] eqn:E; [|discriminate].
    injection H as <- <-.
    apply matcher_sound in E; destruct E as [y' [Hy Hc]]; injection Hc as ->.
    exists [], []; repeat split; [simpl; lia | assumption].
  - destruct (matcher r (mkState i (a :: s) []) Some) as [z|] eqn:E.
    + injection H as <- <-.
      apply matcher_sound in E; destruct E as [y' [Hy Hc]]; injection Hc as ->.
      exists [], (a :: s); repeat split; [simpl; lia|assumption].
    + apply IH in H; destruct H as [u [v [-> [-> Hr]]]].
      exists (a :: u), v; repeat split; [simpl; lia|].
      replace (i + List.length (a :: u)) with (S i + List.length u) by (simpl; lia).
      assumption.
Qed.

Lemma search_complete : forall r u v i y,
  reach r (mkState (i + List.length u) v []) y ->
  search r i (u ++ v) <> None.
Proof.
  intros r; induction u as [|a u IH]; intros v i y H.
  - simpl in H; rewrite Nat.add_0_r in H; simpl.
    assert (E : matcher r (mkState i v []) Some <> None)
      by (apply (matcher_complete _ _ _ H); discriminate).
    destruct v; simpl;
      destruct (matcher r _ Some); try discriminate; contradiction.
  - simpl.
    destruct (matcher r (mkState i (a :: u ++ v) []) Some); [discriminate|].
    apply (IH v (S i) y).
    replace (S i + List.length u) with (i + List.length (a :: u)) by (simpl; lia).
    assumption.
Qed.

(** *** Strings and their characters *)

Lemma chars_app : forall a b : string,
  list_ascii_of_string (a ++ b)%string =
  list_ascii_of_string a ++ list_ascii_of_string b.
Proof.
  induction a as [|c a IH]; intros b; simpl; [reflexivity|].
  rewrite IH; reflexivity.
Qed.

Lemma string_app : forall u v : chars,
  string_of_list_ascii (u ++ v) =
  (string_of_list_ascii u ++ string_of_list_ascii v)%string.
Proof.
  induction u as [|c u IH]; intros v; simpl; [reflexivity|].
  rewrite IH; reflexivity.
Qed.

Lemma chars_inj : forall a b : string,
  list_ascii_of_string a = list_ascii_of_string b -> a = b.
Proof.
  intros a b H.
  rewrite <- (string_of_list_ascii_of_string a),
          <- (string_of_list_ascii_of_string b), H; reflexivity.
Qed.

Lemma chars_nil : forall a : string, list_ascii_of_string a = [] -> a = ""%string.
Proof. intros a H; apply chars_inj; assumption. Qed.

(** *** Patterns that start with [^] *)

Lemma exec_anchored_sound : forall r s m,
  exec (Seq Bol r) s = Some m ->
  exists y, reach r (mkState 0 (list_ascii_of_string s) []) y /\
            groups_of m = caps y.
Proof.
  intros r s m H; unfold exec in H.
  destruct (search _ 0 _) as [[j y]|] eqn:E; [|discriminate].
  injection H as <-.
  apply search_sound in E; destruct E as [u [v [Es [Ej Hr]]]].
  apply reach_Seq_inv in Hr; destruct Hr as [y' [H1 H2]].
  apply reach_Bol_inv in H1; destruct H1 as [E0 ->]; simpl in E0.
  subst j; destruct u; [|simpl in E0; discriminate].
  simpl in *; subst v.
  exists y; split; [assumption | reflexivity].
Qed.

Lemma exec_anchored_complete : forall r s y,
  reach r (mkState 0 (list_ascii_of_string s) []) y ->
  exec (Seq Bol r) s <> None.
Proof.
  intros r s y H; unfold exec.
  assert (E : search (Seq Bol r) 0 ([] ++ list_ascii_of_string s) <> None).
  { apply (search_complete _ [] _ 0 y); simpl.
    eapply reach_Seq; [constructor; reflexivity | assumption]. }
  simpl in E.
  destruct (search _ 0 _) as [[j z]|]; [discriminate | contradiction].
Qed.

Lemma test_true : forall r s, test r s = true <-> exec r s <> None.
Proof.
  intros r s; unfold test; destruct (exec r s); split; intros H;
    try reflexivity; try discriminate; contradiction.
Qed.

Lemma test_false : forall r s, test r s = false <-> exec r s = None.
Proof.
  intros r s; unfold test; destruct (exec r s); split; intros H;
    try reflexivity; discriminate.
Qed.

End MatcherFacts.

(** ** Branch names: the order of the classes *)

Local Open Scope list_scope.

Ltac reach_inv H :=
  lazymatch type of H with
  | reach (Seq _ _) _ _ =>
      let y := fresh "y" in
      let H1 := fresh "Hr" in
      let H2 := fresh "Hr" in
      apply reach_Seq_inv in H; destruct H as [y [H1 H2]];
      reach_inv H1; reach_inv H2
  | reach (Str _) _ _ =>
      let t := fresh "t" in
      let E := fresh "E" in
      unfold Str in H; apply reach_Lit_inv in H; destruct H as [t [E ->]]
  | reach (Lit _) _ _ =>
      let t := fresh "t" in
      let E := fresh "E" in
      apply reach_Lit_inv in H; destruct H as [t [E ->]]
  | reach Bol _ _ =>
      let E := fresh "E" in
      apply reach_Bol_inv in H; destruct H as [E ->]
  | reach Eol _ _ =>
      let E := fresh "E" in
      apply reach_Eol_inv in H; destruct H as [E ->]
  | reach (Named _ (Plus (Class _))) _ _ =>
      let y := fresh "y" in
      let w := fresh "w" in
      let t := fresh "t" in
      let Hne := fresh "Hne" in
      let Hw := fresh "Hw" in
      let E := fresh "E" in
      apply reach_Named_inv in H; destruct H as [y [H ->]];
      apply reach_Plus_Class_inv in H;
      destruct H as [w [t [Hne [Hw [E ->]]]]];
      rewrite (capture_past _ _ _ _ E) in *
  | _ => idtac
  end.

Ltac reach_step :=
  first
    [ apply reach_Lit_intro; reflexivity
    | apply reach_Bol; reflexivity
    | apply reach_Eol; reflexivity
    | unfold Str; apply reach_Lit_intro; reflexivity ].

Lemma two_captures_sound : forall lit1 lit2 n1 n2 s m,
  exec (Bol +++ Str RELEASE_PLEASE +++ Str lit1 +++
        Named n1 (Plus (Class dot)) +++ Str lit2 +++
        Named n2 (Plus (Class dot)) +++ Eol)%re s = Some m ->
  exists b c,
    list_ascii_of_string s =
      list_ascii_of_string RELEASE_PLEASE ++ list_ascii_of_string lit1 ++ b ++
      list_ascii_of_string lit2 ++ c /\
    b <> [] /\ c <> [] /\ forallb dot b = true /\ forallb dot c = true /\
    groups_of m = [(n2, c); (n1, b)].
Proof.
  intros lit1 lit2 n1 n2 s m H.
  apply exec_anchored_sound in H; destruct H as [y [H G]].
  reach_inv H.
  simpl in G; simpl rest in *; subst.
  rewrite app_nil_r in *.
  exists w, w0; repeat split; assumption.
Qed.

Lemma two_captures_complete : forall lit1 lit2 n1 n2 b c,
  b <> [] -> c <> [] -> forallb dot b = true -> forallb dot c = true ->
  exec (Bol +++ Str RELEASE_PLEASE +++ Str lit1 +++
        Named n1 (Plus (Class dot)) +++ Str lit2 +++
        Named n2 (Plus (Class dot)) +++ Eol)%re
    (string_of_list_ascii
       (list_ascii_of_string RELEASE_PLEASE ++ list_ascii_of_string lit1 ++
        b ++ list_ascii_of_string lit2 ++ c)) <> None.
Proof.
  intros lit1 lit2 n1 n2 b c Hb Hc Db Dc.
  replace (b ++ list_ascii_of_string lit2 ++ c)
    with (b ++ list_ascii_of_string lit2 ++ c ++ [])
    by (rewrite app_nil_r; reflexivity).
  eapply exec_anchored_complete.
  rewrite list_ascii_of_string_of_list_ascii.
  eapply reach_Seq; [unfold Str; apply reach_Lit_intro; reflexivity|].
  eapply reach_Seq; [unfold Str; apply reach_Lit_intro; reflexivity|].
  eapply reach_Seq.
  { apply reach_Named. apply reach_Plus_Class_intro; [exact Hb | exact Db | reflexivity]. }
  eapply reach_Seq; [unfold Str; apply reach_Lit_intro; reflexivity|].
  eapply reach_Seq.
  { apply reach_Named. apply reach_Plus_Class_intro; [exact Hc | exact Dc | reflexivity]. }
  apply reach_Eol; reflexivity.
Qed.

Local Open Scope string_scope.

Lemma of_chars : forall (s : string) l,
  list_ascii_of_string s = l -> s = string_of_list_ascii l.
Proof. intros s l <-; symmetry; apply string_of_list_ascii_of_string. Qed.

Lemma chars_not_nil : forall s : string, s <> "" -> list_ascii_of_string s <> [].
Proof. intros s H E; apply H, chars_nil, E. Qed.

Lemma string_not_empty : forall l : chars, l <> [] -> string_of_list_ascii l <> "".
Proof. intros [|a l] H; [contradiction | discriminate]. Qed.

Lemma one_line_chars : forall l : chars,
  forallb dot l = true -> one_line (string_of_list_ascii l) = true.
Proof.
  intros l H; unfold one_line; rewrite list_ascii_of_string_of_list_ascii; exact H.
Qed.

Lemma find_first : forall (A : Type) (p : A -> bool) l x,
  find p l = Some x ->
  exists l1 l2, l = (l1 ++ x :: l2)%list /\ p x = true /\
                Forall (fun y => p y = false) l1.
Proof.
  intros A p; induction l as [|a l IH]; intros x H; simpl in H; [discriminate|].
  destruct (p a) eqn:E.
  - injection H as ->; exists [], l; repeat split; [assumption | constructor].
  - apply IH in H; destruct H as [l1 [l2 [-> [Hx Hl]]]].
    exists (a :: l1), l2; repeat split; [assumption | constructor; assumption].
Qed.

Lemma construct_clazz : forall c s f b, construct c s f = Normal b -> clazz b = c.
Proof.
  intros c s f b H; destruct c; simpl in H.
  - unfold new_AutoreleaseBranchName in H.
    destruct (exec AUTORELEASE_PATTERN s); [destruct f as [f|]|].
    + destruct (parse f _); [injection H as <-; reflexivity | discriminate].
    + injection H as <-; reflexivity.
    + injection H as <-; reflexivity.
  - injection H as <-; unfold new_ComponentBranchName;
      destruct (exec _ s); reflexivity.
  - injection H as <-; unfold new_GroupBranchName;
      destruct (exec _ s); reflexivity.
  - injection H as <-; unfold new_DefaultBranchName;
      destruct (exec _ s); reflexivity.
  - injection H as <-; unfold new_V12ComponentBranchName;
      destruct (exec _ s); reflexivity.
  - injection H as <-; unfold new_V12DefaultBranchName;
      destruct (exec _ s); reflexivity.
Qed.

Lemma parse_first_match : forall s f bn w,
  BranchName_parse s f = (Some bn, w) ->
  exists l1 l2,
    getAllResourceNames = (l1 ++ clazz bn :: l2)%list /\
    matches (clazz bn) s = true /\
    Forall (fun c => matches c s = false) l1.
Proof.
  intros s f bn w H; unfold BranchName_parse in H.
  destruct (find _ getAllResourceNames) as [c|] eqn:F; [|discriminate].
  destruct (construct c s f) as [b|e] eqn:C; [|discriminate].
  assert (bn = b) as ->.
  { destruct c; try (injection H as <- _; reflexivity).
    destruct (version b); [injection H as <- _; reflexivity | discriminate]. }
  rewrite (construct_clazz _ _ _ _ C).
  apply find_first in F; exact F.
Qed.

Lemma not_autorelease : forall t,
  matches AutoreleaseBranchName (RELEASE_PLEASE ++ "--branches--" ++ t) = false.
Proof. intros t; unfold matches; destruct t; reflexivity. Qed.

Lemma delimited_string : forall lit1 lit2 b c : string,
  string_of_list_ascii
    (list_ascii_of_string RELEASE_PLEASE ++ list_ascii_of_string lit1 ++
     list_ascii_of_string b ++ list_ascii_of_string lit2 ++
     list_ascii_of_string c)%list =
  RELEASE_PLEASE ++ lit1 ++ b ++ lit2 ++ c.
Proof.
  intros; rewrite !string_app, !string_of_list_ascii_of_string; reflexivity.
Qed.

Lemma component_matches : forall B C,
  B <> "" -> C <> "" -> one_line B = true -> one_line C = true ->
  matches ComponentBranchName
    (RELEASE_PLEASE ++ "--branches--" ++ B ++ "--components--" ++ C) = true.
Proof.
  intros B C HB HC LB LC; unfold matches; apply test_true.
  rewrite <- delimited_string.
  apply two_captures_complete; auto using chars_not_nil.
Qed.

Lemma group_matches : forall B G,
  B <> "" -> G <> "" -> one_line B = true -> one_line G = true ->
  matches GroupBranchName
    (RELEASE_PLEASE ++ "--branches--" ++ B ++ "--groups--" ++ G) = true.
Proof.
  intros B C HB HC LB LC; unfold matches; apply test_true.
  rewrite <- delimited_string.
  apply two_captures_complete; auto using chars_not_nil.
Qed.

Lemma new_ComponentBranchName_fields : forall s,
  matches ComponentBranchName s = true ->
  exists b c,
    new_ComponentBranchName s =
      mkBranchName ComponentBranchName (Some c) (Some b) None None /\
    b <> "" /\ c <> "" /\ one_line b = true /\ one_line c = true /\
    s = RELEASE_PLEASE ++ "--branches--" ++ b ++ "--components--" ++ c.
Proof.
  intros s H; unfold matches in H; apply test_true in H.
  unfold new_ComponentBranchName.
  destruct (exec COMPONENT_PATTERN s) as [m|] eqn:E; [|contradiction].
  apply two_captures_sound in E.
  destruct E as [b [c [Es [Hb [Hc [Db [Dc G]]]]]]].
  exists (string_of_list_ascii b), (string_of_list_ascii c).
  unfold group; rewrite G; simpl.
  repeat split; auto using string_not_empty, one_line_chars.
  apply of_chars in Es; rewrite Es, !string_app; reflexivity.
Qed.

Lemma new_GroupBranchName_fields : forall s,
  matches GroupBranchName s = true ->
  exists b c,
    new_GroupBranchName s =
      mkBranchName GroupBranchName (Some c) (Some b) None None /\
    b <> "" /\ c <> "" /\ one_line b = true /\ one_line c = true /\
    s = RELEASE_PLEASE ++ "--branches--" ++ b ++ "--groups--" ++ c.
Proof.
  intros s H; unfold matches in H; apply test_true in H.
  unfold new_GroupBranchName.
  destruct (exec GROUP_PATTERN s) as [m|] eqn:E; [|contradiction].
  apply two_captures_sound in E.
  destruct E as [b [c [Es [Hb [Hc [Db [Dc G]]]]]]].
  exists (string_of_list_ascii b), (string_of_list_ascii c).
  unfold group; rewrite G; simpl.
  repeat split; auto using string_not_empty, one_line_chars.
  apply of_chars in Es; rewrite Es, !string_app; reflexivity.
Qed.

(** C2 (amended).  [BranchName.parse] takes the first class of
    [getAllResourceNames] whose [matches] accepts the name.  A one-line name
    [release-please--branches--B--components--C] with non-empty [B] and [C]
    is parsed by the Component class into a target branch and a component
    that spell the same name; a one-line name
    [release-please--branches--B--groups--G] that the Component pattern,
    tried before, does not match is parsed by the Group class.  Neither is
    left to the Default class. *)
Theorem shape_priority :
  (forall s f bn w,
     BranchName_parse s f = (Some bn, w) ->
     exists l1 l2,
       getAllResourceNames = (l1 ++ clazz bn :: l2)%list /\
       matches (clazz bn) s = true /\
       Forall (fun c => matches c s = false) l1) /\
  (forall B C f,
     B <> "" -> C <> "" -> one_line B = true -> one_line C = true ->
     exists b c,
       BranchName_parse
         (RELEASE_PLEASE ++ "--branches--" ++ B ++ "--components--" ++ C) f =
         (Some (mkBranchName ComponentBranchName (Some c) (Some b) None None), []) /\
       b <> "" /\ c <> "" /\
       RELEASE_PLEASE ++ "--branches--" ++ B ++ "--components--" ++ C =
       RELEASE_PLEASE ++ "--branches--" ++ b ++ "--components--" ++ c) /\
  (forall B G f,
     B <> "" -> G <> "" -> one_line B = true -> one_line G = true ->
     matches ComponentBranchName
       (RELEASE_PLEASE ++ "--branches--" ++ B ++ "--groups--" ++ G) = false ->
     exists b g,
       BranchName_parse
         (RELEASE_PLEASE ++ "--branches--" ++ B ++ "--groups--" ++ G) f =
         (Some (mkBranchName GroupBranchName (Some g) (Some b) None None), []) /\
       b <> "" /\ g <> "" /\
       RELEASE_PLEASE ++ "--branches--" ++ B ++ "--groups--" ++ G =
       RELEASE_PLEASE ++ "--branches--" ++ b ++ "--groups--" ++ g).
Proof.
  split; [exact parse_first_match | split].
  - intros B C f HB HC LB LC.
    pose proof (component_matches B C HB HC LB LC) as M.
    destruct (new_ComponentBranchName_fields _ M) as [b [c [E [Hb [Hc [_ [_ Es]]]]]]].
    exists b, c; repeat split; try assumption.
    unfold BranchName_parse, getAllResourceNames; cbn [find].
    rewrite not_autorelease, M; cbn [construct]; rewrite E; reflexivity.
  - intros B G f HB HG LB LG NC.
    pose proof (group_matches B G HB HG LB LG) as M.
    destruct (new_GroupBranchName_fields _ M) as [b [g [E [Hb [Hg [_ [_ Es]]]]]]].
    exists b, g; repeat split; try assumption.
    unfold BranchName_parse, getAllResourceNames; cbn [find].
    rewrite not_autorelease, NC, M; cbn [construct]; rewrite E; reflexivity.
Qed.

Lemma shape_priority_witness :
  exists b g,
    BranchName_parse
      (RELEASE_PLEASE ++ "--branches--" ++ "main" ++ "--groups--" ++ "docs") None =
      (Some (mkBranchName GroupBranchName (Some g) (Some b) None None), []) /\
    b <> "" /\ g <> "" /\
    RELEASE_PLEASE ++ "--branches--" ++ "main" ++ "--groups--" ++ "docs" =
    RELEASE_PLEASE ++ "--branches--" ++ b ++ "--groups--" ++ g.
Proof.
  apply (proj2 (proj2 shape_priority) "main" "docs" None);
    [discriminate | discriminate | reflexivity | reflexivity
    | vm_compute; reflexivity].
Defined.

(** C2, as stated, fails: a name of the form [...--groups--G] whose [G]
    holds [--components--] is taken by the Component class. *)
Lemma shape_priority_counterexample :
  exists bn,
    BranchName_parse
      (RELEASE_PLEASE ++ "--branches--" ++ "main" ++ "--groups--" ++
       "g--components--c") None = (Some bn, []) /\
    clazz bn = ComponentBranchName /\
    clazz bn <> GroupBranchName /\
    targetBranch bn = Some "main--groups--g" /\
    component bn = Some "c".
Proof.
  eexists; split; [vm_compute; reflexivity|].
  repeat split; discriminate.
Qed.

Local Open Scope list_scope.

(** ** The Autorelease pattern *)

Lemma dash_v : list_ascii_of_string "-v" = ["-"; "v"]%char.
Proof. reflexivity. Qed.

Lemma autorelease_tail_sound : forall i l y,
  reach AUTORELEASE_TAIL (mkState i l []) y ->
  exists c d vs,
    l = c ++ "-"%char :: "v"%char :: d :: vs /\
    forallb word_dash_dot c = true /\ digit d = true /\
    forallb dot vs = true /\
    caps y = ("version"%string, d :: vs) :: component_capture c.
Proof.
  intros i l y H; unfold AUTORELEASE_TAIL in H.
  apply reach_Seq_inv in H; destruct H as [y1 [H1 H]].
  apply reach_Seq_inv in H; destruct H as [y2 [H2 H]].
  apply reach_Seq_inv in H; destruct H as [y3 [H3 H4]].
  apply reach_Eol_inv in H4; destruct H4 as [E4 ->].
  apply reach_Named_inv in H3; destruct H3 as [y4 [H3 ->]].
  apply reach_Seq_inv in H3; destruct H3 as [y5 [H3 H5]].
  apply reach_Class_inv in H3; destruct H3 as [d [t3 [E3 [D ->]]]].
  apply reach_Star_Class_inv in H5; destruct H5 as [vs [t5 [Dvs [E5 ->]]]].
  unfold Str in H2; apply reach_Lit_inv in H2; destruct H2 as [t2 [E2 ->]].
  simpl in E2, E3, E4, E5; subst t5.
  rewrite (advance_past _ d) in *.
  rewrite past_past in *.
  assert (Ev : rest (past y1 ["-"; "v"]%char t2) = ([d] ++ vs) ++ [])
    by (simpl; rewrite E3, E5; reflexivity).
  rewrite (capture_past _ _ _ _ Ev); simpl caps.
  rewrite app_nil_r in E5; subst t3 t2.
  apply reach_Opt_inv in H1; destruct H1 as [-> | [H1 Hne]].
  - simpl in E2; subst l.
    exists [], d, vs; repeat split; assumption.
  - apply reach_Named_inv in H1; destruct H1 as [y6 [H1 ->]].
    apply reach_Star_Class_inv in H1; destruct H1 as [c [t1 [Dc [E1 ->]]]].
    simpl in E1, Hne; subst l.
    rewrite (capture_past "component"
               (reset (Named "component" (Star (Class word_dash_dot)))
                      (mkState i (c ++ t1) [])) c t1 eq_refl) in *;
      simpl in E2; subst t1.
    simpl.
    exists c, d, vs; repeat split; try assumption.
    destruct c; [simpl in Hne; lia | reflexivity].
Qed.

Lemma autorelease_tail_complete : forall i c d vs,
  forallb word_dash_dot c = true -> digit d = true -> forallb dot vs = true ->
  exists y,
    reach AUTORELEASE_TAIL (mkState i (c ++ "-"%char :: "v"%char :: d :: vs) []) y.
Proof.
  intros i c d vs Dc D Dvs.
  assert (T : forall x, rest x = "-"%char :: "v"%char :: d :: vs ->
            exists y, reach (Str "-v" +++
                             Named "version" (Class digit +++ Star (Class dot)) +++
                             Eol)%re x y).
  { intros x E.
    set (x2 := past x ["-"; "v"]%char (d :: vs)).
    set (x3 := advance x2 vs).
    exists (capture "version" x2 (past x3 vs [])).
    eapply reach_Seq; [unfold Str; apply reach_Lit_intro; exact E|].
    eapply reach_Seq; [|apply reach_Eol; reflexivity].
    apply reach_Named.
    apply reach_Seq with (y := x3).
    - eapply reach_Class; [reflexivity | exact D].
    - apply reach_Star_Class_intro; [exact Dvs | simpl; symmetry; apply app_nil_r]. }
  destruct c as [|a c].
  - destruct (T (mkState i ("-"%char :: "v"%char :: d :: vs) []) eq_refl) as [y Hy].
    exists y; eapply reach_Seq; [apply reach_Opt_skip | exact Hy].
  - set (x := mkState i ((a :: c) ++ "-"%char :: "v"%char :: d :: vs) []).
    set (x1 := capture "component"
                 (reset (Named "component" (Star (Class word_dash_dot))) x)
                 (past (reset (Named "component" (Star (Class word_dash_dot))) x)
                       (a :: c) ("-"%char :: "v"%char :: d :: vs))).
    destruct (T x1 eq_refl) as [y Hy].
    exists y; eapply reach_Seq; [|exact Hy].
    apply reach_Opt_take.
    + apply reach_Named; apply reach_Star_Class_intro; [exact Dc | reflexivity].
    + simpl; lia.
Qed.

Lemma autorelease_sound : forall s m,
  exec AUTORELEASE_PATTERN s = Some m ->
  exists dash c d vs,
    list_ascii_of_string s =
      list_ascii_of_string "release" ++ dash ++ c ++
      "-"%char :: "v"%char :: d :: vs /\
    (dash = [] \/ dash = ["-"%char]) /\
    forallb word_dash_dot c = true /\ digit d = true /\
    forallb dot vs = true /\
    groups_of m = ("version"%string, d :: vs) :: component_capture c.
Proof.
  intros s m H.
  apply exec_anchored_sound in H; destruct H as [y [H G]].
  apply reach_Seq_inv in H; destruct H as [y1 [H1 H]].
  apply reach_Seq_inv in H; destruct H as [y2 [H2 H]].
  unfold Str in H1; apply reach_Lit_inv in H1; destruct H1 as [t1 [E1 ->]].
  simpl in E1.
  apply reach_Opt_inv in H2; destruct H2 as [-> | [H2 _]].
  - apply autorelease_tail_sound in H.
    destruct H as [c [d [vs [E [Dc [D [Dvs C]]]]]]].
    exists [], c, d, vs; rewrite G, E1, E; repeat split; auto.
  - apply reach_Char_inv in H2; destruct H2 as [t2 [E2 ->]].
    simpl in E2; subst t1.
    apply autorelease_tail_sound in H.
    destruct H as [c [d [vs [E [Dc [D [Dvs C]]]]]]].
    exists ["-"%char], c, d, vs; rewrite G, E1, E; repeat split; auto.
Qed.

Lemma has_dash_v_digit_intro : forall c d vs,
  digit d = true ->
  has_dash_v_digit (c ++ "-"%char :: "v"%char :: d :: vs) = true.
Proof.
  induction c as [|a c IH]; intros d vs D.
  - simpl; rewrite D; reflexivity.
  - specialize (IH d vs D).
    change ((a :: c) ++ "-"%char :: "v"%char :: d :: vs)
      with (a :: (c ++ "-"%char :: "v"%char :: d :: vs)).
    destruct (c ++ "-"%char :: "v"%char :: d :: vs) as [|b [|e r]] eqn:E.
    + destruct c; discriminate.
    + destruct c as [|? [|? ?]]; discriminate.
    + simpl in *; rewrite IH; apply orb_true_r.
Qed.

Lemma has_dash_v_digit_tail : forall a p,
  has_dash_v_digit (a :: p) = false -> has_dash_v_digit p = false.
Proof.
  intros a [|b [|e r]] H; try reflexivity.
  simpl in H; apply orb_false_elim in H; destruct H as [_ H]; exact H.
Qed.

Lemma has_dash_v_digit_head : forall d r,
  digit d = true -> has_dash_v_digit ("-"%char :: "v"%char :: d :: r) = true.
Proof. intros d r D; simpl; rewrite D; reflexivity. Qed.

Lemma digit_not_dash : digit "-" = false.
Proof. reflexivity. Qed.

(** The text before ["-v"] and a digit is determined when no other such
    place exists. *)
Lemma dash_v_unique : forall p c d vs t,
  c ++ "-"%char :: "v"%char :: d :: vs = p ++ "-"%char :: "v"%char :: t ->
  digit d = true ->
  has_dash_v_digit p = false -> has_dash_v_digit t = false ->
  c = p /\ d :: vs = t.
Proof.
  induction p as [|a p IH]; intros c d vs t E D Hp Ht.
  - destruct c as [|a c]; simpl in E.
    + injection E as <-; split; reflexivity.
    + injection E as -> E.
      destruct c as [|b c]; simpl in E; [discriminate|].
      injection E as -> E; subst t.
      rewrite has_dash_v_digit_intro in Ht by assumption; discriminate.
  - destruct c as [|a' c]; simpl in E.
    + injection E as <- E.
      destruct p as [|b p]; simpl in E; [discriminate|].
      injection E as <- E.
      destruct p as [|e p]; simpl in E.
      * injection E as -> _; rewrite digit_not_dash in D; discriminate.
      * injection E as <- _.
        rewrite has_dash_v_digit_head in Hp by assumption; discriminate.
    + injection E as -> E.
      apply has_dash_v_digit_tail in Hp.
      destruct (IH _ _ _ _ E D Hp Ht) as [-> Et]; split; [reflexivity | exact Et].
Qed.

Lemma get_component_capture : forall c v,
  get_capture "component" (("version"%string, v) :: component_capture c) =
  match c with [] => None | _ :: _ => Some c end.
Proof. intros [|a c] v; reflexivity. Qed.

Lemma get_version_capture : forall c v,
  get_capture "version" (("version"%string, v) :: component_capture c) = Some v.
Proof. intros c v; reflexivity. Qed.

Local Open Scope string_scope.

Lemma not_release_please : forall r tail m,
  exec (Bol +++ Str RELEASE_PLEASE +++ r)%re ("release-v" ++ tail) = Some m ->
  False.
Proof.
  intros r tail m H.
  apply exec_anchored_sound in H; destruct H as [y [H _]].
  apply reach_Seq_inv in H; destruct H as [y1 [H1 _]].
  unfold Str in H1; apply reach_Lit_inv in H1; destruct H1 as [t [E _]].
  simpl in E; discriminate.
Qed.

Lemma only_autorelease : forall tail c,
  matches c ("release-v" ++ tail) = true -> c = AutoreleaseBranchName.
Proof.
  intros tail c H; destruct c; try reflexivity; exfalso;
    unfold matches in H; apply test_true in H;
    match type of H with
    | exec ?p ?s <> None =>
        destruct (exec p s) as [m|] eqn:E; [|contradiction];
        eapply not_release_please; exact E
    end.
Qed.

(** What [BranchName.parse] returns for a name the Autorelease class takes. *)
Lemma parse_autorelease : forall s f bn w,
  BranchName_parse s f = (Some bn, w) ->
  clazz bn = AutoreleaseBranchName ->
  exists m fm v,
    exec AUTORELEASE_PATTERN s = Some m /\ f = Some fm /\
    parse fm (required m "version") = Normal (Some v) /\
    bn = mkBranchName AutoreleaseBranchName (group m "component") None
           (Some v) (Some fm) /\
    w = [].
Proof.
  intros s f bn w H K; unfold BranchName_parse in H.
  destruct (find _ getAllResourceNames) as [c|] eqn:F; [|discriminate].
  destruct (construct c s f) as [b|e] eqn:C; [|discriminate].
  pose proof (construct_clazz _ _ _ _ C) as Kb.
  assert (c = AutoreleaseBranchName) as ->.
  { destruct c; try reflexivity; injection H as <- _; rewrite Kb in K; discriminate. }
  destruct (version b) as [v|] eqn:V; [|discriminate].
  injection H as <- <-.
  simpl in C; unfold new_AutoreleaseBranchName in C.
  destruct (exec AUTORELEASE_PATTERN s) as [m|];
    [destruct f as [fm|]|]; try (injection C as <-; discriminate).
  destruct (parse fm (required m "version")) as [[v'|]|e] eqn:P;
    try discriminate; injection C as <-; try discriminate.
  simpl in V; injection V as ->.
  exists m, fm, v; repeat split; assumption.
Qed.

Lemma release_v_split : forall (tail dash c : chars) d vs,
  ("-"%char :: "v"%char :: tail = dash ++ c ++ "-"%char :: "v"%char :: d :: vs)%list ->
  dash = [] \/ dash = ["-"%char] -> digit d = true ->
  has_dash_v_digit tail = false ->
  c = [] /\ d :: vs = tail.
Proof.
  intros tail dash c d vs E [-> | ->] D H; simpl in E.
  - exact (dash_v_unique [] c d vs tail (eq_sym E) D eq_refl H).
  - injection E as E.
    destruct c as [|a c]; [discriminate|].
    injection E as _ E.
    pose proof (has_dash_v_digit_intro c d vs D) as X.
    rewrite <- E, H in X; discriminate.
Qed.

(** C10 (amended).  For every name [release-v<tail>] that
    [BranchName.parse] accepts, the instance is an Autorelease one whose
    component is never the empty string: it is absent whenever the tail holds
    no further ["-v"] followed by a digit (then the whole tail is what the
    format decoded), and [toString] of an instance without component is
    ["release-v"] followed by the formatted version. *)
Theorem autorelease_component_absent : forall tail f bn w,
  BranchName_parse ("release-v" ++ tail) f = (Some bn, w) ->
  clazz bn = AutoreleaseBranchName /\
  getComponent bn <> Some "" /\
  exists fm v,
    f = Some fm /\ getVersion bn = Some v /\
    (getComponent bn = None ->
     BranchName_toString bn = "release-v" ++ format fm v) /\
    (has_dash_v_digit (list_ascii_of_string tail) = false ->
     getComponent bn = None /\ parse fm tail = Normal (Some v)).
Proof.
  intros tail f bn w H.
  assert (K : clazz bn = AutoreleaseBranchName).
  { destruct (parse_first_match _ _ _ _ H) as [l1 [l2 [_ [M _]]]].
    exact (only_autorelease _ _ M). }
  split; [exact K|].
  destruct (parse_autorelease _ _ _ _ H K) as [m [fm [v [E [-> [P [-> _]]]]]]].
  destruct (autorelease_sound _ _ E) as [dash [c [d [vs [Es [Hd [Dc [D [Dvs G]]]]]]]]].
  unfold getComponent, getVersion; simpl.
  assert (C : group m "component" =
              match c with [] => None | _ :: _ => Some (string_of_list_ascii c) end).
  { unfold group; rewrite G, get_component_capture; destruct c; reflexivity. }
  split.
  - rewrite C; destruct c; [discriminate|]; simpl; discriminate.
  - exists fm, v; repeat split.
    + intros N; unfold BranchName_toString; simpl; rewrite N; reflexivity.
    + rewrite C.
      rewrite chars_app in Es; simpl in Es.
      repeat (injection Es as Es).
      destruct (release_v_split _ _ _ _ _ Es Hd D H0) as [-> _]; reflexivity.
    + rewrite chars_app in Es; simpl in Es.
      repeat (injection Es as Es).
      destruct (release_v_split _ _ _ _ _ Es Hd D H0) as [_ Ev].
      assert (V : required m "version" = tail).
      { unfold required, group; rewrite G, get_version_capture, Ev.
        apply string_of_list_ascii_of_string. }
      rewrite <- V; exact P.
Qed.

Lemma autorelease_component_absent_witness :
  clazz (mkBranchName AutoreleaseBranchName None None
           (Some (new_Version 1 0 0 None None)) (Some SemverVersionFormat)) =
    AutoreleaseBranchName /\
  getComponent (mkBranchName AutoreleaseBranchName None None
           (Some (new_Version 1 0 0 None None)) (Some SemverVersionFormat)) <>
    Some "" /\
  exists fm v,
    Some SemverVersionFormat = Some fm /\
    getVersion (mkBranchName AutoreleaseBranchName None None
           (Some (new_Version 1 0 0 None None)) (Some SemverVersionFormat)) =
      Some v /\
    (getComponent (mkBranchName AutoreleaseBranchName None None
           (Some (new_Version 1 0 0 None None)) (Some SemverVersionFormat)) =
       None ->
     BranchName_toString (mkBranchName AutoreleaseBranchName None None
           (Some (new_Version 1 0 0 None None)) (Some SemverVersionFormat)) =
       "release-v" ++ format fm v) /\
    (has_dash_v_digit (list_ascii_of_string "1.0.0") = false ->
     getComponent (mkBranchName AutoreleaseBranchName None None
           (Some (new_Version 1 0 0 None None)) (Some SemverVersionFormat)) =
       None /\
     parse fm "1.0.0" = Normal (Some v)).
Proof.
  apply (autorelease_component_absent "1.0.0" (Some SemverVersionFormat) _ []).
  vm_compute; reflexivity.
Defined.

(** C10, as stated, fails: the component of ['release-v1.0.0'] is absent,
    not the empty string. *)
Lemma autorelease_component_counterexample :
  exists bn,
    BranchName_parse "release-v1.0.0" (Some SemverVersionFormat) = (Some bn, []) /\
    getComponent bn = None /\
    getComponent bn <> Some "" /\
    BranchName_toString bn = "release-v1.0.0".
Proof.
  eexists; split; [vm_compute; reflexivity|].
  split; [reflexivity | split; [discriminate | vm_compute; reflexivity]].
Qed.

(** ** The builders of Autorelease names *)

Local Open Scope list_scope.

Lemma search_at_start : forall r l y,
  matcher r (mkState 0 l []) Some = Some y -> search r 0 l = Some (0, y).
Proof. intros r l y H; destruct l; simpl; rewrite H; reflexivity. Qed.

Lemma dash_first : forall r l,
  matcher (Bol +++ Str "release" +++ Opt (Char "-") +++ r)%re
    (mkState 0 (list_ascii_of_string "release-" ++ l) []) Some =
  match matcher r (mkState 8 l []) Some with
  | Some z => Some z
  | None => matcher r (mkState 7 ("-"%char :: l) []) Some
  end.
Proof. intros r l; reflexivity. Qed.

Lemma version_tail_chars : forall t,
  version_tail t = true ->
  exists d vs, list_ascii_of_string t = d :: vs /\ digit d = true /\
               forallb dot vs = true.
Proof.
  intros t H; unfold version_tail in H.
  destruct (list_ascii_of_string t) as [|d vs]; [discriminate|].
  apply andb_prop in H; destruct H; eauto.
Qed.

Local Open Scope string_scope.

(** The match of the Autorelease pattern on ["release-v" ++ t]. *)
Lemma autorelease_plain : forall t,
  version_tail t = true ->
  has_dash_v_digit (list_ascii_of_string t) = false ->
  exists m, exec AUTORELEASE_PATTERN ("release-v" ++ t) = Some m /\
            group m "component" = None /\ required m "version" = t.
Proof.
  intros t T H.
  destruct (version_tail_chars _ T) as [d [vs [Et [D Dvs]]]].
  destruct (exec AUTORELEASE_PATTERN ("release-v" ++ t)) as [m|] eqn:E.
  - exists m; split; [reflexivity|].
    destruct (autorelease_sound _ _ E) as [dash [c [d' [vs' [Es [Hd [_ [D' [_ G]]]]]]]]].
    rewrite chars_app in Es; simpl in Es.
    repeat (injection Es as Es).
    destruct (release_v_split _ _ _ _ _ Es Hd D' H) as [-> Ev].
    unfold required, group.
    rewrite G, get_component_capture, get_version_capture, Ev.
    split; [reflexivity | simpl; apply string_of_list_ascii_of_string].
  - exfalso; revert E.
    destruct (autorelease_tail_complete 7 [] d vs eq_refl D Dvs) as [y Hy].
    apply (exec_anchored_complete _ _ y).
    rewrite chars_app, Et; simpl.
    eapply reach_Seq; [unfold Str; apply reach_Lit_intro; reflexivity|].
    eapply reach_Seq; [apply reach_Opt_skip|].
    exact Hy.
Qed.

(** The match of the Autorelease pattern on ["release-" ++ p ++ "-v" ++ t]. *)
Lemma autorelease_prefixed : forall p t,
  p <> "" -> forallb word_dash_dot (list_ascii_of_string p) = true ->
  has_dash_v_digit (list_ascii_of_string p) = false ->
  version_tail t = true ->
  has_dash_v_digit (list_ascii_of_string t) = false ->
  exists m, exec AUTORELEASE_PATTERN ("release-" ++ p ++ "-v" ++ t) = Some m /\
            group m "component" = Some p /\ required m "version" = t.
Proof.
  intros p t Hp Wp Np T Nt.
  destruct (version_tail_chars _ T) as [d [vs [Et [D Dvs]]]].
  set (l := (list_ascii_of_string p ++ "-"%char :: "v"%char :: d :: vs)%list).
  assert (El : list_ascii_of_string ("release-" ++ p ++ "-v" ++ t) =
               (list_ascii_of_string "release-" ++ l)%list).
  { rewrite !chars_app, Et; reflexivity. }
  destruct (autorelease_tail_complete 8 _ d vs Wp D Dvs) as [y Hy].
  fold l in Hy.
  destruct (matcher AUTORELEASE_TAIL (mkState 8 l []) Some) as [z|] eqn:M.
  - assert (X : exec AUTORELEASE_PATTERN ("release-" ++ p ++ "-v" ++ t) =
                Some (mkMatch 0 (endIndex z) (caps z))).
    { unfold exec; rewrite El.
      rewrite (search_at_start _ _ z); [reflexivity|].
      change AUTORELEASE_PATTERN
        with (Bol +++ Str "release" +++ Opt (Char "-") +++ AUTORELEASE_TAIL)%re.
      rewrite dash_first, M; reflexivity. }
    eexists; split; [exact X|].
    apply matcher_sound in M; destruct M as [y' [R C]]; injection C as ->.
    apply autorelease_tail_sound in R.
    destruct R as [c [d' [vs' [E [_ [D' [_ G]]]]]]].
    unfold l in E.
    destruct (dash_v_unique _ _ _ _ _ (eq_sym E) D' Np) as [-> Ev].
    { rewrite <- Et; exact Nt. }
    unfold required, group; cbn [groups_of].
    rewrite G, get_component_capture, get_version_capture, Ev, <- Et.
    split.
    + destruct (list_ascii_of_string p) eqn:Q.
      * apply chars_nil in Q; contradiction.
      * rewrite <- Q; simpl; rewrite string_of_list_ascii_of_string; reflexivity.
    + simpl; apply string_of_list_ascii_of_string.
  - exfalso; revert M; apply (matcher_complete _ _ _ Hy); discriminate.
Qed.

Lemma toString_autorelease : forall c v f,
  BranchName_toString
    (mkBranchName AutoreleaseBranchName c None (Some v) (Some f)) =
  if truthy c then "release-" ++ interpolate c ++ "-v" ++ format f v
  else "release-v" ++ format f v.
Proof. intros c v f; reflexivity. Qed.

Local Open Scope list_scope.

(** ** Version patterns *)

Lemma digit_cases : forall c,
  digit c = true ->
  c = "0"%char \/ c = "1"%char \/ c = "2"%char \/ c = "3"%char \/
  c = "4"%char \/ c = "5"%char \/ c = "6"%char \/ c = "7"%char \/
  c = "8"%char \/ c = "9"%char.
Proof.
  intros c H.
  destruct c as [[] [] [] [] [] [] [] []]; try discriminate H; tauto.
Qed.

Lemma uint_of_digits : forall l,
  forallb digit l = true ->
  exists d, NilEmpty.uint_of_string (string_of_list_ascii l) = Some d.
Proof.
  induction l as [|c l IH]; intros H; simpl in *.
  - exists Decimal.Nil; reflexivity.
  - apply andb_prop in H; destruct H as [D H].
    destruct (IH H) as [d E]; rewrite E.
    destruct (digit_cases c D) as [-> | [-> | [-> | [-> | [-> | [-> | [-> | [-> | [-> | ->]]]]]]]]];
      simpl; eauto.
Qed.

(** On a run of digits [Number] is a natural. *)
Lemma Number_digits : forall l,
  forallb digit l = true ->
  exists n, Number (Some (string_of_list_ascii l)) = Some n.
Proof.
  intros l H; destruct (uint_of_digits l H) as [d E].
  unfold Number; rewrite E; simpl; eauto.
Qed.

Lemma render_digits : forall n,
  forallb digit (list_ascii_of_string (render n)) = true.
Proof.
  intros n; unfold render; generalize (N.to_uint n) as d.
  induction d; simpl; try rewrite IHd; reflexivity.
Qed.

Lemma render_nonempty : forall n, render n <> "".
Proof.
  intros n; unfold render.
  destruct n as [|p]; simpl; [discriminate|].
  unfold N.to_uint, Pos.to_uint.
  pose proof (DecimalPos.Unsigned.to_uint_nonnil p) as H.
  unfold Pos.to_uint in H.
  destruct (Decimal.rev (Pos.to_little_uint p)); simpl; try discriminate.
  contradiction.
Qed.

Lemma Number_render : forall n, Number (Some (render n)) = Some n.
Proof.
  intros n; unfold Number, render.
  rewrite NilEmpty.usu; simpl; rewrite Unsigned.of_to; reflexivity.
Qed.

Lemma TRIPLE_sound : forall i l y,
  reach TRIPLE (mkState i l []) y ->
  exists a b c,
    l = triple_text a b c ++ rest y /\
    digits a /\ digits b /\ digits c /\
    caps y = triple_captures a b c /\
    endIndex y = i + List.length (triple_text a b c).
Proof.
  intros i l y H; unfold TRIPLE in H.
  apply reach_Seq_inv in H; destruct H as [y1 [H1 H]].
  apply reach_Seq_inv in H; destruct H as [y2 [H2 H]].
  apply reach_Seq_inv in H; destruct H as [y3 [H3 H]].
  apply reach_Seq_inv in H; destruct H as [y4 [H4 H5]].
  apply reach_Named_inv in H1; destruct H1 as [z1 [H1 ->]].
  apply reach_Plus_Class_inv in H1; destruct H1 as [a [t1 [Na [Da [E1 ->]]]]].
  rewrite (capture_past _ _ _ _ E1) in *.
  apply reach_Char_inv in H2; destruct H2 as [t2 [E2 ->]].
  apply reach_Named_inv in H3; destruct H3 as [z3 [H3 ->]].
  apply reach_Plus_Class_inv in H3; destruct H3 as [b [t3 [Nb [Db [E3 ->]]]]].
  rewrite (capture_past _ _ _ _ E3) in *.
  apply reach_Char_inv in H4; destruct H4 as [t4 [E4 ->]].
  apply reach_Named_inv in H5; destruct H5 as [z5 [H5 ->]].
  apply reach_Plus_Class_inv in H5; destruct H5 as [c [t5 [Nc [Dc [E5 ->]]]]].
  rewrite (capture_past _ _ _ _ E5) in *.
  simpl in *; subst.
  exists a, b, c; unfold triple_text, digits, triple_captures.
  repeat split; try assumption.
  - rewrite <- !app_assoc; simpl; rewrite <- !app_assoc; reflexivity.
  - rewrite !length_app; simpl; rewrite !length_app; simpl; lia.
Qed.

Lemma TRIPLE_complete : forall i a b c t,
  digits a -> digits b -> digits c ->
  exists y,
    reach TRIPLE (mkState i (triple_text a b c ++ t) []) y /\
    rest y = t /\ caps y = triple_captures a b c.
Proof.
  intros i a b c t [Na Da] [Nb Db] [Nc Dc].
  unfold triple_text, TRIPLE.
  replace ((a ++ "."%char :: b ++ "."%char :: c) ++ t)
    with (a ++ "."%char :: b ++ "."%char :: c ++ t)
    by (rewrite <- !app_assoc; simpl; rewrite <- !app_assoc; reflexivity).
  set (x0 := mkState i (a ++ "."%char :: b ++ "."%char :: c ++ t) []).
  set (x1 := capture "major" x0 (past x0 a ("."%char :: b ++ "."%char :: c ++ t))).
  set (x2 := advance x1 (b ++ "."%char :: c ++ t)).
  set (x3 := capture "minor" x2 (past x2 b ("."%char :: c ++ t))).
  set (x4 := advance x3 (c ++ t)).
  set (x5 := capture "patch" x4 (past x4 c t)).
  exists x5; split; [|split].
  - apply reach_Seq with (y := x1).
    { apply reach_Named, reach_Plus_Class_intro; auto. }
    apply reach_Seq with (y := x2); [apply reach_Char; reflexivity|].
    apply reach_Seq with (y := x3).
    { apply reach_Named, reach_Plus_Class_intro; auto. }
    apply reach_Seq with (y := x4); [apply reach_Char; reflexivity|].
    apply reach_Named, reach_Plus_Class_intro; auto.
  - reflexivity.
  - unfold triple_captures, x5.
    rewrite (capture_past "patch" x4 c t eq_refl); cbn [caps].
    change (caps x4) with (caps x3); unfold x3.
    rewrite (capture_past "minor" x2 b _ eq_refl); cbn [caps].
    change (caps x2) with (caps x1); unfold x1.
    rewrite (capture_past "major" x0 a _ eq_refl); reflexivity.
Qed.

(** *** Captures of groups outside a pattern are left alone *)

Lemma get_capture_clear : forall n ns cs,
  mem n ns = false ->
  get_capture n (clear_captures ns cs) = get_capture n cs.
Proof.
  intros n ns; induction cs as [|[k v] cs IH]; intros H; [reflexivity|].
  unfold clear_captures in *; simpl.
  destruct (mem k ns) eqn:M; simpl.
  - rewrite (IH H).
    destruct (String.eqb k n) eqn:Q; [|reflexivity].
    apply String.eqb_eq in Q; subst k; rewrite M in H; discriminate.
  - rewrite (IH H); reflexivity.
Qed.

Lemma mem_app : forall n l1 l2, mem n (l1 ++ l2) = mem n l1 || mem n l2.
Proof. intros; unfold mem; apply existsb_app. Qed.

Lemma reach_frame : forall r x y,
  reach r x y -> forall n, mem n (names r) = false ->
  get_capture n (caps y) = get_capture n (caps x).
Proof.
  induction 1; intros k K; try reflexivity; simpl in K.
  - rewrite mem_app in K; apply orb_false_elim in K; destruct K as [K1 K2].
    rewrite (IHreach2 k K2); apply IHreach1; exact K1.
  - apply IHreach; exact K.
  - apply orb_false_elim in K; destruct K as [K1 K2].
    unfold capture; simpl.
    rewrite String.eqb_sym, K1; apply IHreach; exact K2.
  - rewrite (IHreach k K); simpl; apply get_capture_clear; exact K.
  - rewrite (IHreach2 k K), (IHreach1 k K); simpl.
    apply get_capture_clear; exact K.
  - rewrite (IHreach2 k K), (IHreach1 k K); simpl.
    apply get_capture_clear; exact K.
Qed.

(** The matches of a pattern that starts with the triple. *)
Lemma triple_headed_sound : forall r s m,
  exec (TRIPLE +++ r)%re s = Some m ->
  exists u a b c y3 y,
    list_ascii_of_string s = u ++ triple_text a b c ++ rest y3 /\
    digits a /\ digits b /\ digits c /\
    caps y3 = triple_captures a b c /\
    reach r y3 y /\ groups_of m = caps y.
Proof.
  intros r s m H; unfold exec in H.
  destruct (search _ 0 _) as [[j y]|] eqn:E; [|discriminate].
  injection H as <-.
  apply search_sound in E; destruct E as [u [v [Es [_ R]]]].
  apply reach_Seq_inv in R; destruct R as [y3 [R3 R]].
  apply TRIPLE_sound in R3; destruct R3 as [a [b [c [Ev [Da [Db [Dc [C _]]]]]]]].
  exists u, a, b, c, y3, y; rewrite Es, Ev; split; [reflexivity | tauto].
Qed.

Lemma triple_headed_complete : forall r s,
  holds_triple s ->
  (forall x, reach r x x) ->
  exec (TRIPLE +++ r)%re s <> None.
Proof.
  intros r s [u [a [b [c [z [E [Da [Db Dc]]]]]]]] Hr; unfold exec; rewrite E.
  destruct (TRIPLE_complete (0 + List.length u) a b c z Da Db Dc)
    as [y [R _]].
  assert (X : search (TRIPLE +++ r)%re 0 (u ++ triple_text a b c ++ z) <> None).
  { apply (search_complete _ u _ 0 y).
    eapply reach_Seq; [exact R | apply Hr]. }
  destruct (search _ 0 _) as [[j y']|]; [discriminate | contradiction].
Qed.

Lemma Version_of_triple : forall m a b c pre bld,
  get_capture "major" (groups_of m) = Some a ->
  get_capture "minor" (groups_of m) = Some b ->
  get_capture "patch" (groups_of m) = Some c ->
  digits a -> digits b -> digits c ->
  exists x y z,
    Version_of (Number (group m "major")) (Number (group m "minor"))
      (Number (group m "patch")) pre bld = Some (new_Version x y z pre bld).
Proof.
  intros m a b c pre bld Ga Gb Gc [_ Da] [_ Db] [_ Dc].
  unfold group; rewrite Ga, Gb, Gc; simpl option_map.
  destruct (Number_digits a Da) as [x Ex].
  destruct (Number_digits b Db) as [y Ey].
  destruct (Number_digits c Dc) as [z Ez].
  rewrite Ex, Ey, Ez; simpl; eauto.
Qed.

Lemma semver_tail_names : forall n,
  n = "major"%string \/ n = "minor"%string \/ n = "patch"%string ->
  mem n (names (Opt (Paren (Char "-" +++ Named "preRelease" (Plus (Class not_plus)))) +++
                Opt (Paren (Char "+" +++ Named "build" (Star (Class dot)))))%re) = false.
Proof. intros n [-> | [-> | ->]]; reflexivity. Qed.

Lemma ruby_tail_names : forall n,
  n = "major"%string \/ n = "minor"%string \/ n = "patch"%string ->
  mem n (names (Opt (Class dot_or_dash +++ Named "preRelease" (Plus (Class dot))))%re) = false.
Proof. intros n [-> | [-> | ->]]; reflexivity. Qed.

Lemma Semver_parse_accepts : forall s,
  SemverVersionFormat_parse s <> None <-> holds_triple s.
Proof.
  intros s; unfold SemverVersionFormat_parse, SemverVersionFormat_REGEX, VERSION_REGEX.
  split.
  - destruct (exec _ s) as [m|] eqn:E; [intros _|intros H; contradiction].
    apply triple_headed_sound in E.
    destruct E as [u [a [b [c [y3 [y [Es [Da [Db [Dc _]]]]]]]]]].
    exists u, a, b, c, (rest y3); auto.
  - intros H.
    destruct (exec _ s) as [m|] eqn:E.
    + apply triple_headed_sound in E.
      destruct E as [u [a [b [c [y3 [y [Es [Da [Db [Dc [C [R G]]]]]]]]]]]].
      destruct (Version_of_triple m a b c (group m "preRelease") (group m "build"))
        as [x [y' [z E]]]; auto;
        try (rewrite G, (reach_frame _ _ _ R) by (apply semver_tail_names; tauto);
             rewrite C; reflexivity).
      rewrite E; discriminate.
    + exfalso; revert E; apply triple_headed_complete; [exact H|].
      intros x; eapply reach_Seq; apply reach_Opt_skip.
Qed.

Lemma Ruby_parse_accepts : forall s,
  RubyVersionFormat_parse s <> None <-> holds_triple s.
Proof.
  intros s; unfold RubyVersionFormat_parse, RubyVersionFormat_REGEX.
  split.
  - destruct (exec _ s) as [m|] eqn:E; [intros _|intros H; contradiction].
    apply triple_headed_sound in E.
    destruct E as [u [a [b [c [y3 [y [Es [Da [Db [Dc _]]]]]]]]]].
    exists u, a, b, c, (rest y3); auto.
  - intros H.
    destruct (exec _ s) as [m|] eqn:E.
    + apply triple_headed_sound in E.
      destruct E as [u [a [b [c [y3 [y [Es [Da [Db [Dc [C [R G]]]]]]]]]]]].
      destruct (Version_of_triple m a b c (group m "preRelease") None)
        as [x [y' [z E]]]; auto;
        try (rewrite G, (reach_frame _ _ _ R) by (apply ruby_tail_names; tauto);
             rewrite C; reflexivity).
      rewrite E; discriminate.
    + exfalso; revert E; apply triple_headed_complete; [exact H|].
      intros x; apply reach_Opt_skip.
Qed.

(** *** Greedy repetition of a one-character pattern *)

Lemma reads_one_Class : forall p, reads_one (Class p) p.
Proof. intros p; split; reflexivity. Qed.

Lemma reads_one_Char : forall a, reads_one (Char a) (Ascii.eqb a).
Proof. intros a; split; reflexivity. Qed.

Lemma run_after : forall p l, run p l ++ after p l = l.
Proof.
  intros p; induction l as [|a l IH]; simpl; [reflexivity|].
  destruct (p a); simpl; [rewrite IH|]; reflexivity.
Qed.

Lemma run_all : forall p l, forallb p (run p l) = true.
Proof.
  intros p; induction l as [|a l IH]; simpl; [reflexivity|].
  destruct (p a) eqn:E; simpl; [rewrite E, IH|]; reflexivity.
Qed.

Lemma after_stops : forall p l,
  match after p l with
  | b :: _ => p b = false
  | [] => True
  end.
Proof.
  intros p; induction l as [|a l IH]; simpl; [exact I|].
  destruct (p a) eqn:E; [exact IH | exact E].
Qed.

Lemma run_nil : forall p l,
  run p l = [] -> match l with b :: _ => p b = false | [] => True end.
Proof.
  intros p [|a l] H; simpl in *; [exact I|].
  destruct (p a); [discriminate | reflexivity].
Qed.

(** A greedy loop whose continuation accepts the longest run stops there. *)
Lemma repeat_greedy : forall r p k,
  reads_one r p ->
  forall l x n,
    rest x = l -> List.length l <= n ->
    k (past x (run p l) (after p l)) <> None ->
    repeat_loop (matcher r) (reset r) n x k = k (past x (run p l) (after p l)).
Proof.
  intros r p k [Hn Hr]; induction l as [|a l IH]; intros x n E L K.
  - pose proof (past_nil x) as P0; rewrite E in P0.
    simpl in *; rewrite P0.
    destruct n; simpl; [reflexivity|].
    rewrite Hr, reset_no_names, E by assumption; reflexivity.
  - destruct n as [|n]; [simpl in L; lia|].
    simpl in K |- *.
    rewrite Hr, reset_no_names, E by assumption.
    destruct (p a) eqn:Q.
    + replace (Nat.eqb (endIndex (advance x l)) (endIndex x)) with false
        by (symmetry; apply Nat.eqb_neq; simpl; lia).
      assert (P : past x (a :: run p l) (after p l) =
                  past (advance x l) (run p l) (after p l))
        by (rewrite (advance_past x a), past_past; reflexivity).
      rewrite P in *.
      rewrite (IH (advance x l) n eq_refl) by (simpl in L |- *; try lia; exact K).
      destruct (k _); [reflexivity | contradiction].
    + pose proof (past_nil x) as P0; rewrite E in P0.
      rewrite P0; reflexivity.
Qed.

Lemma plus_greedy : forall r p k x,
  reads_one r p ->
  k (past x (run p (rest x)) (after p (rest x))) <> None ->
  run p (rest x) <> [] ->
  matcher (Plus r) x k = k (past x (run p (rest x)) (after p (rest x))).
Proof.
  intros r p k x [Hn Hr] K N; simpl.
  rewrite Hr, reset_no_names by assumption.
  destruct (rest x) as [|a l] eqn:E; [contradiction N; reflexivity|].
  simpl in *; destruct (p a) eqn:Q; [|contradiction N; reflexivity].
  assert (P : past x (a :: run p l) (after p l) =
              past (advance x l) (run p l) (after p l))
    by (rewrite (advance_past x a), past_past; reflexivity).
  rewrite P in *.
  apply (repeat_greedy r p k (conj Hn Hr) l (advance x l) (List.length l) eq_refl);
    [lia | exact K].
Qed.

Lemma plus_nothing : forall r p k x,
  reads_one r p -> run p (rest x) = [] -> matcher (Plus r) x k = None.
Proof.
  intros r p k x [Hn Hr] N; simpl.
  rewrite Hr, reset_no_names by assumption.
  destruct (rest x) as [|a l]; [reflexivity|].
  simpl in N; destruct (p a); [discriminate | reflexivity].
Qed.

Lemma search_matcher : forall r s i j y,
  search r i s = Some (j, y) ->
  exists u v, s = u ++ v /\ j = i + List.length u /\
              matcher r (mkState j v []) Some = Some y.
Proof.
  intros r; induction s as [|a s IH]; intros i j y H; simpl in H.
  - destruct (matcher r (mkState i [] []) Some) as [z|] eqn:E; [|discriminate].
    injection H as <- <-.
    exists [], []; repeat split; [simpl; lia | assumption].
  - destruct (matcher r (mkState i (a :: s) []) Some) as [z|] eqn:E.
    + injection H as <- <-.
      exists [], (a :: s); repeat split; [simpl; lia | assumption].
    + apply IH in H; destruct H as [u [v [-> [-> Hr]]]].
      exists (a :: u), v; repeat split; [simpl; lia|].
      replace (i + List.length (a :: u)) with (S i + List.length u) by (simpl; lia).
      assumption.
Qed.

(** *** One step of the matcher, by shape of pattern *)

Lemma matcher_Seq : forall r1 r2 x c,
  matcher (Seq r1 r2) x c = matcher r1 x (fun y => matcher r2 y c).
Proof. reflexivity. Qed.

Lemma matcher_Named : forall n r x c,
  matcher (Named n r) x c = matcher r x (fun y => c (capture n x y)).
Proof. reflexivity. Qed.

Lemma matcher_Class : forall p x c,
  matcher (Class p) x c =
  match rest x with
  | b :: t => if p b then c (advance x t) else None
  | [] => None
  end.
Proof. reflexivity. Qed.

Lemma matcher_Opt : forall r x c,
  matcher (Opt r) x c =
  match matcher r (reset r x)
          (fun y => if Nat.eqb (endIndex y) (endIndex x) then None else c y) with
  | Some z => Some z
  | None => c x
  end.
Proof. reflexivity. Qed.

(** ** The Ruby dialect *)

Lemma ruby_tail_exact : forall y3 y,
  matcher (Opt (Class dot_or_dash +++ Named "preRelease" (Plus (Class dot))))%re
    y3 Some = Some y ->
  get_capture "preRelease" (caps y3) = None ->
  get_capture "preRelease" (caps y) = ruby_prerelease (rest y3).
Proof.
  intros y3 y H N.
  rewrite matcher_Opt, matcher_Seq, matcher_Class in H.
  unfold ruby_prerelease.
  set (R := (Class dot_or_dash +++ Named "preRelease" (Plus (Class dot)))%re) in *.
  change (rest (reset R y3)) with (rest y3) in H.
  destruct (rest y3) as [|sep l] eqn:E; [injection H as <-; exact N|].
  destruct (dot_or_dash sep); [|injection H as <-; exact N].
  rewrite matcher_Named in H.
  set (x1 := advance (reset R y3) l) in *.
  destruct (run dot l) as [|a w] eqn:Q.
  - rewrite (plus_nothing _ dot _ x1 (reads_one_Class dot) Q) in H.
    injection H as <-; exact N.
  - assert (K : Nat.eqb (endIndex (capture "preRelease" x1
                   (past x1 (run dot (rest x1)) (after dot (rest x1)))))
                  (endIndex y3) = false).
    { apply Nat.eqb_neq; simpl; rewrite Q; simpl; lia. }
    rewrite (plus_greedy _ dot _ x1 (reads_one_Class dot)) in H.
    + rewrite K in H; injection H as <-.
      rewrite capture_past by (symmetry; apply run_after).
      simpl; rewrite Q; reflexivity.
    + rewrite K; discriminate.
    + simpl; rewrite Q; discriminate.
Qed.

Lemma Ruby_parse_sound : forall s v,
  RubyVersionFormat_parse s = Some v ->
  exists u a b c z,
    list_ascii_of_string s = u ++ triple_text a b c ++ z /\
    digits a /\ digits b /\ digits c /\
    Number (Some (string_of_list_ascii a)) = Some (major v) /\
    Number (Some (string_of_list_ascii b)) = Some (minor v) /\
    Number (Some (string_of_list_ascii c)) = Some (patch v) /\
    preRelease v = option_map string_of_list_ascii (ruby_prerelease z) /\
    build v = None.
Proof.
  intros s v H; unfold RubyVersionFormat_parse, exec in H.
  destruct (search _ 0 _) as [[j y]|] eqn:E; [|discriminate].
  apply search_matcher in E; destruct E as [u [z0 [Es [_ M]]]].
  unfold RubyVersionFormat_REGEX in M; rewrite matcher_Seq in M.
  apply matcher_sound in M; destruct M as [y3 [R3 M]].
  apply TRIPLE_sound in R3; destruct R3 as [a [b [c [Ez [Da [Db [Dc [C _]]]]]]]].
  pose proof (ruby_tail_exact _ _ M) as P.
  rewrite C in P; specialize (P eq_refl).
  apply matcher_sound in M; destruct M as [y' [R Ey]]; injection Ey as ->.
  assert (G : forall n, n = "major"%string \/ n = "minor"%string \/ n = "patch"%string ->
              get_capture n (caps y) = get_capture n (triple_captures a b c)).
  { intros n Hn; rewrite <- C; apply (reach_frame _ _ _ R), ruby_tail_names, Hn. }
  unfold group in H; cbn [groups_of] in H.
  rewrite !G, P in H by tauto.
  change (get_capture "major" (triple_captures a b c)) with (Some a) in H.
  change (get_capture "minor" (triple_captures a b c)) with (Some b) in H.
  change (get_capture "patch" (triple_captures a b c)) with (Some c) in H.
  cbn [option_map] in H.
  destruct (Number_digits a (proj2 Da)) as [x Ex].
  destruct (Number_digits b (proj2 Db)) as [x' Ex'].
  destruct (Number_digits c (proj2 Dc)) as [x'' Ex''].
  rewrite Ex, Ex', Ex'' in H; simpl in H; injection H as <-.
  exists u, a, b, c, (rest y3); rewrite Es, Ez; cbn [major minor patch preRelease build].
  split; [reflexivity|]; tauto.
Qed.

Lemma Semver_parse_sound : forall s v,
  SemverVersionFormat_parse s = Some v ->
  exists u a b c z,
    list_ascii_of_string s = u ++ triple_text a b c ++ z /\
    digits a /\ digits b /\ digits c /\
    Number (Some (string_of_list_ascii a)) = Some (major v) /\
    Number (Some (string_of_list_ascii b)) = Some (minor v) /\
    Number (Some (string_of_list_ascii c)) = Some (patch v).
Proof.
  intros s v H; unfold SemverVersionFormat_parse in H.
  destruct (exec _ s) as [m|] eqn:E; [|discriminate].
  apply triple_headed_sound in E.
  destruct E as [u [a [b [c [y3 [y [Es [Da [Db [Dc [C [R G]]]]]]]]]]]].
  assert (F : forall n, n = "major"%string \/ n = "minor"%string \/ n = "patch"%string ->
              get_capture n (groups_of m) = get_capture n (triple_captures a b c)).
  { intros n Hn; rewrite G, <- C; apply (reach_frame _ _ _ R), semver_tail_names, Hn. }
  unfold group in H; rewrite !F in H by tauto.
  change (get_capture "major" (triple_captures a b c)) with (Some a) in H.
  change (get_capture "minor" (triple_captures a b c)) with (Some b) in H.
  change (get_capture "patch" (triple_captures a b c)) with (Some c) in H.
  cbn [option_map] in H.
  destruct (Number_digits a (proj2 Da)) as [x Ex].
  destruct (Number_digits b (proj2 Db)) as [x' Ex'].
  destruct (Number_digits c (proj2 Dc)) as [x'' Ex''].
  rewrite Ex, Ex', Ex'' in H; simpl in H; injection H as <-.
  exists u, a, b, c, (rest y3); cbn [major minor patch].
  split; [exact Es|]; tauto.
Qed.

Local Open Scope list_scope.

(** ** Tag names *)

(** The version group of a tag match is the end of the tag. *)
Lemma TAG_version : forall t m,
  exec TAG_PATTERN t = Some m ->
  exists w tail,
    list_ascii_of_string t = w ++ tail /\
    get_capture "version" (groups_of m) = Some tail.
Proof.
  intros t m H.
  apply exec_anchored_sound in H; destruct H as [y [H G]].
  apply reach_Seq_inv in H; destruct H as [y1 [H1 H]].
  apply reach_Seq_inv in H; destruct H as [y2 [H2 H]].
  apply reach_Seq_inv in H; destruct H as [y3 [H3 H4]].
  apply reach_Eol_inv in H4; destruct H4 as [E4 ->].
  apply reach_Named_inv in H3; destruct H3 as [y4 [H3 ->]].
  destruct (reach_reads _ _ _ H1) as [w1 R1].
  destruct (reach_reads _ _ _ H2) as [w2 R2].
  destruct (reach_reads _ _ _ H3) as [tail R3].
  pose proof (reads_trans _ _ _ _ _ R1 R2) as R12.
  exists (w1 ++ w2), tail; split.
  - destruct R12 as [E12 _]; destruct R3 as [E3 _]; simpl in *.
    rewrite E12, E3, E4, app_nil_r; reflexivity.
  - rewrite G; unfold capture; simpl.
    rewrite (reads_consumed _ _ _ R3); reflexivity.
Qed.

(** The component group of a tag match is the start of the tag, up to a
    separator. *)
Lemma TAG_component : forall t m c,
  exec TAG_PATTERN t = Some m ->
  get_capture "component" (groups_of m) = Some c ->
  exists sep tail,
    list_ascii_of_string t = c ++ sep :: tail /\
    not_alnum sep = true /\ forallb dot c = true /\
    get_capture "separator" (groups_of m) = Some [sep].
Proof.
  intros t m c H G.
  apply exec_anchored_sound in H; destruct H as [y [H Gy]].
  rewrite Gy in *; clear Gy m.
  apply reach_Seq_inv in H; destruct H as [y1 [H1 H]].
  assert (F : forall n, n = "component"%string \/ n = "separator"%string ->
              get_capture n (caps y) = get_capture n (caps y1)).
  { intros n Hn; apply (reach_frame _ _ _ H).
    destruct Hn as [-> | ->]; reflexivity. }
  rewrite !F by tauto; rewrite F in G by tauto.
  destruct (reach_reads _ _ _ H) as [w Rw].
  apply reach_Opt_inv in H1; destruct H1 as [-> | [H1 _]]; [discriminate G|].
  apply reach_Paren_inv in H1.
  apply reach_Seq_inv in H1; destruct H1 as [y2 [H2 H3]].
  remember (reset _ _) as x0 eqn:Ex0 in H2.
  assert (R0 : rest x0 = list_ascii_of_string t) by (subst x0; reflexivity).
  assert (C0 : caps x0 = []) by (subst x0; reflexivity).
  clear Ex0.
  apply reach_Named_inv in H2; destruct H2 as [z2 [H2 ->]].
  apply reach_Star_Class_inv in H2; destruct H2 as [c' [t2 [Dc [E2 ->]]]].
  rewrite (capture_past "component" x0 c' t2 E2) in H3.
  apply reach_Named_inv in H3; destruct H3 as [z3 [H3 ->]].
  apply reach_Class_inv in H3; destruct H3 as [sep [t3 [E3 [Ds ->]]]].
  rewrite (advance_past _ sep), (capture_past "separator" _ [sep] t3 E3) in G |- *.
  simpl in E3; subst t2; rewrite R0 in E2.
  simpl in G |- *; injection G as <-.
  exists sep, t3; repeat split; assumption.
Qed.

Local Open Scope string_scope.

Lemma extractComponent_sound : forall t c,
  TagName_extractComponent t = Some c ->
  exists sep tail,
    t = c ++ String sep tail /\ not_alnum sep = true /\ one_line c = true.
Proof.
  intros t c H; unfold TagName_extractComponent in H.
  destruct (exec TAG_PATTERN t) as [m|] eqn:E; [|discriminate].
  unfold group in H.
  destruct (get_capture "component" (groups_of m)) as [c'|] eqn:G;
    [|discriminate].
  injection H as <-.
  destruct (TAG_component _ _ _ E G) as [sep [tail [Et [Ds [Dc _]]]]].
  exists sep, (string_of_list_ascii tail); repeat split.
  - apply of_chars in Et; rewrite Et, string_app; reflexivity.
  - exact Ds.
  - apply one_line_chars; exact Dc.
Qed.

Lemma TagName_parse_inv : forall t f tn,
  TagName_parse t f = Normal (Some tn) ->
  exists m v,
    exec TAG_PATTERN t = Some m /\
    parse f (required m "version") = Normal (Some v) /\
    tn = new_TagName v (group m "component") (group m "separator")
           (truthy (group m "v")).
Proof.
  intros t f tn H; unfold TagName_parse in H.
  destruct (exec TAG_PATTERN t) as [m|]; [|discriminate].
  destruct (parse f (required m "version")) as [[v|]|e] eqn:P; try discriminate.
  injection H as <-; exists m, v; auto.
Qed.

(** C6.  [TagName.extractComponent] runs the tag pattern alone: it takes no
    VersionFormat, and the component of every tag that [TagName.parse]
    accepts, whatever the format, is the one it extracts.  What it extracts
    is a start of the tag, on one line, followed by a separator that is
    neither a letter nor a digit.
    ['release-v1.2.3-alpha.1'] has the component ['release'], and parsed
    with the SemVer format it is rendered back to itself. *)
Theorem tag_component_extraction :
  (forall t f tn,
     TagName_parse t f = Normal (Some tn) ->
     tag_component tn = TagName_extractComponent t) /\
  (forall t c,
     TagName_extractComponent t = Some c ->
     exists sep tail,
       t = c ++ String sep tail /\ not_alnum sep = true /\ one_line c = true) /\
  TagName_extractComponent "release-v1.2.3-alpha.1" = Some "release" /\
  exists tn,
    TagName_parse "release-v1.2.3-alpha.1" SemverVersionFormat =
      Normal (Some tn) /\
    TagName_toString tn = "release-v1.2.3-alpha.1".
Proof.
  split; [|split; [|split]].
  - intros t f tn H.
    destruct (TagName_parse_inv _ _ _ H) as [m [v [E [_ ->]]]].
    unfold TagName_extractComponent; rewrite E; reflexivity.
  - exact extractComponent_sound.
  - vm_compute; reflexivity.
  - eexists; split; vm_compute; reflexivity.
Qed.

Lemma tag_component_extraction_witness :
  tag_component
    (new_TagName (new_Version 1 2 3 (Some "alpha.1") None) (Some "release")
       (Some "-") true) =
  TagName_extractComponent "release-v1.2.3-alpha.1".
Proof.
  apply (proj1 tag_component_extraction "release-v1.2.3-alpha.1"
           SemverVersionFormat).
  vm_compute; reflexivity.
Defined.

(** ** The two error policies *)

Lemma find_none : forall (A : Type) (p : A -> bool) l,
  (forall x, p x = false) -> find p l = None.
Proof.
  intros A p l H; induction l as [|a l IH]; simpl; [reflexivity|].
  rewrite H; exact IH.
Qed.

Lemma construct_throws : forall c s f e,
  construct c s f = Throw e ->
  c = AutoreleaseBranchName /\
  exists m fm, exec AUTORELEASE_PATTERN s = Some m /\ f = Some fm /\
               parse fm (required m "version") = Throw e.
Proof.
  intros c s f e H; destruct c; try discriminate.
  split; [reflexivity|].
  simpl in H; unfold new_AutoreleaseBranchName in H.
  destruct (exec AUTORELEASE_PATTERN s) as [m|]; [|discriminate].
  destruct f as [fm|]; [|discriminate].
  destruct (parse fm (required m "version")) eqn:P; [discriminate|].
  injection H as ->; exists m, fm; auto.
Qed.

(** C7.  The formats shipped never throw; [TagName.parse] completes normally
    with every format whose [parse] does; [BranchName.parse] completes
    normally with every format: without a matching class it returns no value
    and logs nothing; a version that the format does not decode gives no
    value from both, silently; and when the format throws on the version of
    a name the Autorelease class matched it returns no value and logs one
    warning that carries the name and the exception.  Nothing is logged in
    any other case.
    The static [Version.parse] throws an error that carries the string when
    nothing matches, and warns exactly when a pattern is supplied, whatever
    the outcome. *)
Theorem error_policies :
  (forall s,
     parse SemverVersionFormat s = Normal (SemverVersionFormat_parse s) /\
     parse RubyVersionFormat s = Normal (RubyVersionFormat_parse s)) /\
  (forall t f,
     (forall s, exists r, parse f s = Normal r) ->
     exists r, TagName_parse t f = Normal r) /\
  (forall t, exec TAG_PATTERN t = None ->
     forall f, TagName_parse t f = Normal None) /\
  (forall s f,
     (forall c, matches c s = false) -> BranchName_parse s f = (None, [])) /\
  (forall t m f,
     exec TAG_PATTERN t = Some m ->
     parse f (required m "version") = Normal None ->
     TagName_parse t f = Normal None) /\
  (forall s fm m,
     matches AutoreleaseBranchName s = true ->
     exec AUTORELEASE_PATTERN s = Some m ->
     parse fm (required m "version") = Normal None ->
     BranchName_parse s (Some fm) = (None, [])) /\
  (forall s fm m e,
     matches AutoreleaseBranchName s = true ->
     exec AUTORELEASE_PATTERN s = Some m ->
     parse fm (required m "version") = Throw e ->
     BranchName_parse s (Some fm) =
       (None, [("Error parsing branch name: " ++ s, e)])) /\
  (forall s f r w,
     BranchName_parse s f = (r, w) ->
     w = [] \/
     (r = None /\
      exists e m fm,
        f = Some fm /\ exec AUTORELEASE_PATTERN s = Some m /\
        parse fm (required m "version") = Throw e /\
        w = [("Error parsing branch name: " ++ s, e)])) /\
  (forall s re,
     fst (Version_parse s (Some re)) = [deprecation_warning] /\
     (exec re s = None ->
      snd (Version_parse s (Some re)) =
        Throw (Error ("unable to parse version string: " ++ s)))) /\
  (forall s,
     fst (Version_parse s None) = [] /\
     snd (Version_parse s None) =
       match SemverVersionFormat_parse s with
       | Some v => Normal (Some v)
       | None => Throw (Error ("unable to parse version string: " ++ s))
       end).
Proof.
  split; [intros s; split; reflexivity|].
  split.
  { intros t f H; unfold TagName_parse.
    destruct (exec TAG_PATTERN t) as [m|]; [|eauto].
    destruct (H (required m "version")) as [[v|] ->]; eauto. }
  split.
  { intros t E f; unfold TagName_parse; rewrite E; reflexivity. }
  split.
  { intros s f H; unfold BranchName_parse.
    rewrite (find_none _ (fun c => matches c s)); [reflexivity | exact H]. }
  split.
  { intros t m f E P; unfold TagName_parse; rewrite E, P; reflexivity. }
  split.
  { intros s fm m M E P; unfold BranchName_parse, getAllResourceNames.
    cbn [find]; rewrite M; cbn [construct].
    unfold new_AutoreleaseBranchName; rewrite E, P; reflexivity. }
  split.
  { intros s fm m e M E P; unfold BranchName_parse, getAllResourceNames.
    cbn [find]; rewrite M; cbn [construct].
    unfold new_AutoreleaseBranchName; rewrite E, P; reflexivity. }
  split.
  { intros s f r w H; unfold BranchName_parse in H.
    destruct (find _ getAllResourceNames) as [c|];
      [|injection H as <- <-; left; reflexivity].
    destruct (construct c s f) as [b|e] eqn:C.
    - left; destruct c; try (injection H as _ <-; reflexivity);
        destruct (version b); injection H as _ <-; reflexivity.
    - right; injection H as <- <-; split; [reflexivity|].
      apply construct_throws in C; destruct C as [_ [m [fm [E [-> P]]]]].
      exists e, m, fm; auto. }
  split.
  { intros s re; split; [reflexivity|].
    intros E; unfold Version_parse; simpl; rewrite E; reflexivity. }
  intros s; split; [reflexivity|].
  unfold Version_parse; simpl.
  destruct (SemverVersionFormat_parse s); reflexivity.
Qed.

Lemma error_policies_witness :
  BranchName_parse "release-v1.0.0"
    (Some (throwing_format (Error "boom"))) =
  (None, [("Error parsing branch name: " ++ "release-v1.0.0", Error "boom")]).
Proof.
  apply (proj1 (proj2 (proj2 (proj2 (proj2 (proj2 (proj2 error_policies))))))
           "release-v1.0.0" (throwing_format (Error "boom"))
           (mkMatch 0 14 [("version", list_ascii_of_string "1.0.0")])
           (Error "boom"));
    vm_compute; reflexivity.
Defined.

Local Open Scope list_scope.

(** ** Sanitized group names *)

Lemma matcher_one : forall r p x,
  reads_one r p ->
  matcher r x Some =
  match rest x with
  | b :: t => if p b then Some (advance x t) else None
  | [] => None
  end.
Proof. intros r p x [_ H]; apply H. Qed.

(** The first match of a one-character pattern. *)
Lemma search_one : forall r p, reads_one r p -> forall l i,
  search r i l =
  match after (fun c => negb (p c)) l with
  | a :: t =>
      Some (i + List.length (run (fun c => negb (p c)) l),
            advance (mkState (i + List.length (run (fun c => negb (p c)) l))
                       (a :: t) []) t)
  | [] => None
  end.
Proof.
  intros r p H; induction l as [|a l IH]; intros i; simpl.
  - rewrite (matcher_one r p _ H); reflexivity.
  - rewrite (matcher_one r p _ H); simpl.
    destruct (p a) eqn:Q; simpl.
    + rewrite Nat.add_0_r; reflexivity.
    + rewrite IH.
      destruct (after (fun c => negb (p c)) l); [reflexivity|].
      replace (S i + List.length (run (fun c => negb (p c)) l))
        with (i + S (List.length (run (fun c => negb (p c)) l))) by lia.
      reflexivity.
Qed.

(** The first match of a greedy run of a one-character pattern. *)
Lemma search_plus : forall r p, reads_one r p -> forall l i,
  search (Plus r) i l =
  match after (fun c => negb (p c)) l with
  | a :: t =>
      Some (i + List.length (run (fun c => negb (p c)) l),
            past (mkState (i + List.length (run (fun c => negb (p c)) l))
                    (a :: t) [])
                 (run p (a :: t)) (after p (a :: t)))
  | [] => None
  end.
Proof.
  intros r p H; induction l as [|a l IH]; intros i.
  - cbn [search after]; rewrite (plus_nothing r p Some _ H) by reflexivity.
    reflexivity.
  - cbn [search run after].
    destruct (p a) eqn:Q; cbn [negb].
    + rewrite (plus_greedy r p Some _ H).
      * cbn [List.length]; rewrite Nat.add_0_r; reflexivity.
      * discriminate.
      * simpl; rewrite Q; discriminate.
    + rewrite (plus_nothing r p Some _ H) by (simpl; rewrite Q; reflexivity).
      rewrite IH.
      destruct (after (fun c => negb (p c)) l); [reflexivity|].
      cbn [List.length].
      replace (S i + List.length (run (fun c => negb (p c)) l))
        with (i + S (List.length (run (fun c => negb (p c)) l))) by lia.
      reflexivity.
Qed.

Lemma firstn_run : forall (u v : chars) i,
  firstn (i + List.length u - i) (u ++ v) = u.
Proof.
  intros u v i.
  replace (i + List.length u - i) with (List.length u + 0) by lia.
  rewrite firstn_app_2; simpl; apply app_nil_r.
Qed.

Lemma replace_each_skip : forall p rep l,
  replace_each p rep l =
  run (fun c => negb (p c)) l ++
  replace_each p rep (after (fun c => negb (p c)) l).
Proof.
  intros p rep; induction l as [|a l IH]; simpl; [reflexivity|].
  destruct (p a) eqn:Q; simpl; [rewrite Q; reflexivity|].
  rewrite IH; reflexivity.
Qed.

Lemma after_length : forall p l, List.length (after p l) <= List.length l.
Proof.
  intros p; induction l as [|a l IH]; simpl; [lia|].
  destruct (p a); simpl; lia.
Qed.

(** Replacing the matches of a one-character pattern. *)
Lemma replace_one : forall r p rep, reads_one r p -> forall fuel l i,
  List.length l < fuel ->
  replace_loop r rep fuel i l = replace_each p rep l.
Proof.
  intros r p rep H; induction fuel as [|fuel IH]; intros l i L; [lia|].
  cbn [replace_loop]; rewrite (search_one r p H).
  rewrite (replace_each_skip p rep l).
  pose proof (run_after (fun c => negb (p c)) l) as E.
  pose proof (after_stops (fun c => negb (p c)) l) as Hs.
  pose proof (after_length (fun c => negb (p c)) l) as A.
  remember (run (fun c => negb (p c)) l) as u eqn:U.
  destruct (after (fun c => negb (p c)) l) as [|a t].
  - rewrite app_nil_r in E; rewrite E; simpl; symmetry; apply app_nil_r.
  - clear U; subst l; cbv zeta; rewrite firstn_run.
    cbn [endIndex advance rest].
    replace (Nat.eqb (S (i + List.length u)) (i + List.length u)) with false
      by (symmetry; apply Nat.eqb_neq; lia).
    apply negb_false_iff in Hs.
    simpl replace_each; rewrite Hs.
    rewrite IH by (simpl in A; lia); reflexivity.
Qed.

Lemma collapse_skip : forall p rep l,
  collapse_runs p rep false l =
  run (fun c => negb (p c)) l ++
  collapse_runs p rep false (after (fun c => negb (p c)) l).
Proof.
  intros p rep; induction l as [|a l IH]; simpl; [reflexivity|].
  destruct (p a) eqn:Q; simpl; [rewrite Q; reflexivity|].
  rewrite IH; reflexivity.
Qed.

Lemma collapse_in_run : forall p rep l,
  collapse_runs p rep true l = collapse_runs p rep false (after p l).
Proof.
  intros p rep; induction l as [|a l IH]; simpl; [reflexivity|].
  destruct (p a) eqn:Q; [exact IH|].
  simpl; rewrite Q; reflexivity.
Qed.

(** Replacing the greedy runs of a one-character pattern. *)
Lemma replace_plus : forall r p rep, reads_one r p -> forall fuel l i,
  List.length l < fuel ->
  replace_loop (Plus r) rep fuel i l = collapse_runs p rep false l.
Proof.
  intros r p rep H; induction fuel as [|fuel IH]; intros l i L; [lia|].
  cbn [replace_loop]; rewrite (search_plus r p H).
  rewrite (collapse_skip p rep l).
  pose proof (run_after (fun c => negb (p c)) l) as E.
  pose proof (after_stops (fun c => negb (p c)) l) as Hs.
  pose proof (after_length (fun c => negb (p c)) l) as A.
  remember (run (fun c => negb (p c)) l) as u eqn:U.
  destruct (after (fun c => negb (p c)) l) as [|a t].
  - rewrite app_nil_r in E; rewrite E; simpl; symmetry; apply app_nil_r.
  - clear U; subst l; cbv zeta; rewrite firstn_run.
    apply negb_false_iff in Hs.
    cbn [run after]; rewrite Hs.
    cbn [endIndex past rest List.length].
    replace (Nat.eqb (i + List.length u + S (List.length (run p t)))
               (i + List.length u)) with false
      by (symmetry; apply Nat.eqb_neq; lia).
    cbn [collapse_runs]; rewrite Hs, collapse_in_run.
    rewrite IH; [reflexivity|].
    pose proof (after_length p t); simpl in A; lia.
Qed.

Lemma word_or_digit : forall c, not_word c = negb (word c).
Proof.
  intros c; unfold not_word, word.
  destruct (letter c), (digit c), (code c =? 95)%N; reflexivity.
Qed.

(** [safeBranchName] by its two passes. *)
Lemma safeBranchName_passes : forall g,
  safeBranchName g =
  string_of_list_ascii
    (collapse_runs (Ascii.eqb "-") ["-"%char] false
       (replace_each not_word ["-"%char] (list_ascii_of_string g))).
Proof.
  intros g; unfold safeBranchName, replace_all.
  rewrite list_ascii_of_string_of_list_ascii.
  rewrite (replace_one (Class not_word) not_word _ (reads_one_Class _)) by lia.
  rewrite (replace_plus (Char "-") (Ascii.eqb "-") _ (reads_one_Char _)) by lia.
  reflexivity.
Qed.

Lemma collapse_no_leading_dash : forall l,
  match collapse_runs (Ascii.eqb "-") ["-"%char] true l with
  | b :: _ => is_char "-" b = false
  | [] => True
  end.
Proof.
  induction l as [|a l IH]; cbn [collapse_runs]; [exact I|].
  destruct (Ascii.eqb "-" a) eqn:Q; [exact IH | exact Q].
Qed.

Lemma has_double_dash_cons : forall a c t,
  has_double_dash (a :: c :: t) =
  (is_char "-" a && is_char "-" c) || has_double_dash (c :: t).
Proof. reflexivity. Qed.

Lemma collapse_no_double_dash : forall l b,
  has_double_dash (collapse_runs (Ascii.eqb "-") ["-"%char] b l) = false.
Proof.
  induction l as [|a l IH]; intros b; cbn [collapse_runs]; [reflexivity|].
  destruct (Ascii.eqb "-" a) eqn:Q.
  - destruct b; [apply IH|].
    pose proof (collapse_no_leading_dash l) as N.
    pose proof (IH true) as D.
    cbn [app].
    destruct (collapse_runs (Ascii.eqb "-") ["-"%char] true l) as [|c t];
      [reflexivity|].
    rewrite has_double_dash_cons, N, D, andb_false_r; reflexivity.
  - pose proof (IH false) as D.
    destruct (collapse_runs (Ascii.eqb "-") ["-"%char] false l) as [|c t];
      [reflexivity|].
    rewrite has_double_dash_cons, D.
    unfold is_char at 1; rewrite Q; reflexivity.
Qed.

Lemma dot_of_word : forall c, not_word c = false -> dot c = true.
Proof.
  intros c H.
  destruct c as [[] [] [] [] [] [] [] []]; try reflexivity; discriminate H.
Qed.

Lemma replace_each_one_line : forall l,
  forallb dot (replace_each not_word ["-"%char] l) = true.
Proof.
  induction l as [|a l IH]; simpl; [reflexivity|].
  destruct (not_word a) eqn:Q; simpl; rewrite IH; [reflexivity|].
  rewrite (dot_of_word a Q); reflexivity.
Qed.

Lemma collapse_one_line : forall l b,
  forallb dot l = true ->
  forallb dot (collapse_runs (Ascii.eqb "-") ["-"%char] b l) = true.
Proof.
  induction l as [|a l IH]; intros b H; cbn [collapse_runs forallb] in *;
    [reflexivity|].
  apply andb_prop in H; destruct H as [Da H].
  destruct (Ascii.eqb "-" a); [destruct b|]; cbn [app forallb].
  - apply IH; exact H.
  - rewrite (IH true H); reflexivity.
  - rewrite Da, (IH false H); reflexivity.
Qed.

Lemma replace_each_nonempty : forall l,
  l <> [] -> replace_each not_word ["-"%char] l <> [].
Proof.
  intros [|a l] H; [contradiction|]; simpl.
  destruct (not_word a); discriminate.
Qed.

Lemma collapse_nonempty : forall l,
  l <> [] -> collapse_runs (Ascii.eqb "-") ["-"%char] false l <> [].
Proof.
  intros [|a l] H; [contradiction|]; cbn [collapse_runs].
  destruct (Ascii.eqb "-" a); discriminate.
Qed.

Local Open Scope string_scope.

Lemma safeBranchName_one_line : forall g, one_line (safeBranchName g) = true.
Proof.
  intros g; rewrite safeBranchName_passes; apply one_line_chars.
  apply collapse_one_line, replace_each_one_line.
Qed.

Lemma safeBranchName_nonempty : forall g, g <> "" -> safeBranchName g <> "".
Proof.
  intros g H; rewrite safeBranchName_passes.
  apply string_not_empty, collapse_nonempty, replace_each_nonempty.
  apply chars_not_nil; exact H.
Qed.

(** C8 (amended).  [safeBranchName] replaces every character outside the
    word class by a dash and then every run of dashes by one dash, so its
    result never holds two dashes in a row; ['a/b//c'] becomes ['a-b-c'].
    For a non-empty group [g] and a non-empty target branch [t] without line
    terminator, [ofGroupTargetBranch(g, t)] is a Group instance whose
    [toString] is ['release-please--branches--' + t + '--groups--' + s(g)]. *)
Theorem safe_group_names :
  (forall g,
     safeBranchName g =
     string_of_list_ascii
       (collapse_runs (Ascii.eqb "-") ["-"%char] false
          (replace_each not_word ["-"%char] (list_ascii_of_string g)))) /\
  (forall g, has_double_dash (list_ascii_of_string (safeBranchName g)) = false) /\
  safeBranchName "a/b//c" = "a-b-c" /\
  (forall g t,
     g <> "" -> t <> "" -> one_line t = true ->
     clazz (BranchName_ofGroupTargetBranch g t) = GroupBranchName /\
     BranchName_toString (BranchName_ofGroupTargetBranch g t) =
     RELEASE_PLEASE ++ "--branches--" ++ t ++ "--groups--" ++ safeBranchName g).
Proof.
  split; [exact safeBranchName_passes|].
  split.
  { intros g; rewrite safeBranchName_passes, list_ascii_of_string_of_list_ascii.
    apply collapse_no_double_dash. }
  split; [vm_compute; reflexivity|].
  intros g t Hg Ht Lt; unfold BranchName_ofGroupTargetBranch.
  pose proof (group_matches t (safeBranchName g) Ht
                (safeBranchName_nonempty g Hg) Lt (safeBranchName_one_line g)) as M.
  destruct (new_GroupBranchName_fields _ M) as [b [c [E [_ [_ [_ [_ Es]]]]]]].
  rewrite E; split; [reflexivity|].
  rewrite Es; reflexivity.
Qed.

Lemma safe_group_names_witness :
  clazz (BranchName_ofGroupTargetBranch "a/b//c" "main") = GroupBranchName /\
  BranchName_toString (BranchName_ofGroupTargetBranch "a/b//c" "main") =
  RELEASE_PLEASE ++ "--branches--" ++ "main" ++ "--groups--" ++
  safeBranchName "a/b//c".
Proof.
  apply (proj2 (proj2 (proj2 safe_group_names)) "a/b//c" "main");
    [discriminate | discriminate | reflexivity].
Defined.

(** C8, as stated, fails: with an empty group the Group pattern does not
    match the string that was built, and the instance has no fields. *)
Lemma safe_group_names_counterexample :
  BranchName_toString (BranchName_ofGroupTargetBranch "" "main") =
    "release-please--branches--undefined--groups--undefined" /\
  RELEASE_PLEASE ++ "--branches--" ++ "main" ++ "--groups--" ++ safeBranchName "" =
    "release-please--branches--main--groups--".
Proof. split; vm_compute; reflexivity. Qed.

Local Open Scope list_scope.

(** ** The ordering of versions is an order *)

Lemma linear_N : linear N.compare.
Proof.
  repeat split.
  - apply N.compare_refl.
  - intros a b; apply N.compare_eq_iff.
  - intros a b; apply N.compare_antisym.
  - intros a b d H1 H2; rewrite N.compare_lt_iff in *; lia.
Qed.

Lemma linear_ascii : linear Ascii.compare.
Proof.
  unfold Ascii.compare; repeat split.
  - intros a; apply N.compare_refl.
  - intros a b; apply Ascii.compare_eq_iff.
  - intros a b; apply N.compare_antisym.
  - intros a b d H1 H2; rewrite N.compare_lt_iff in *; lia.
Qed.

Lemma linear_string : linear String.compare.
Proof.
  destruct linear_ascii as [Ar [Ae [Aa At]]].
  repeat split.
  - induction a as [|c a IH]; simpl; [reflexivity|].
    rewrite Ar; exact IH.
  - apply String.compare_eq_iff.
  - intros a b; apply String.compare_antisym.
  - induction a as [|x a IH]; intros [|y b] [|z d] H1 H2; simpl in *;
      try discriminate; try reflexivity.
    destruct (Ascii.compare x y) eqn:Exy; try discriminate;
      destruct (Ascii.compare y z) eqn:Eyz; try discriminate.
    + apply Ae in Exy; apply Ae in Eyz; subst; rewrite Ar.
      exact (IH _ _ H1 H2).
    + apply Ae in Exy; subst; rewrite Eyz; reflexivity.
    + apply Ae in Eyz; subst; rewrite Exy; reflexivity.
    + rewrite (At _ _ _ Exy Eyz); reflexivity.
Qed.

Lemma linear_identifier : linear Semver.compareIdentifiers.
Proof.
  destruct linear_N as [Nr [Ne [Na Nt]]].
  destruct linear_string as [Sr [Se [Sa St]]].
  repeat split.
  - intros [n|s]; simpl; auto.
  - intros [n|s] [m|t] H; simpl in H; try discriminate; f_equal; auto.
  - intros [n|s] [m|t]; simpl; auto.
  - intros [n|s] [m|t] [k|u] H1 H2; simpl in *; try discriminate;
      try reflexivity; eauto.
Qed.

Lemma linear_sequences : linear Semver.compareSequences.
Proof.
  destruct linear_identifier as [Ir [Ie [Ia It]]].
  repeat split.
  - induction a as [|x a IH]; simpl; [reflexivity|].
    rewrite Ir; exact IH.
  - induction a as [|x a IH]; intros [|y b] H; simpl in H;
      try discriminate; [reflexivity|].
    destruct (Semver.compareIdentifiers x y) eqn:E; try discriminate.
    apply Ie in E; subst; f_equal; auto.
  - induction a as [|x a IH]; intros [|y b]; simpl; try reflexivity.
    rewrite (Ia x y).
    destruct (Semver.compareIdentifiers x y); simpl; auto.
  - induction a as [|x a IH]; intros [|y b] [|z d] H1 H2; simpl in *;
      try discriminate; try reflexivity.
    destruct (Semver.compareIdentifiers x y) eqn:Exy; try discriminate;
      destruct (Semver.compareIdentifiers y z) eqn:Eyz; try discriminate.
    + apply Ie in Exy; apply Ie in Eyz; subst; rewrite Ir.
      exact (IH _ _ H1 H2).
    + apply Ie in Exy; subst; rewrite Eyz; reflexivity.
    + apply Ie in Eyz; subst; rewrite Exy; reflexivity.
    + rewrite (It _ _ _ Exy Eyz); reflexivity.
Qed.

Lemma linear_prereleases : linear comparePrereleases.
Proof.
  destruct linear_sequences as [Sr [Se [Sa St]]].
  repeat split.
  - intros [|x a]; [reflexivity | apply (Sr (x :: a))].
  - intros [|x a] [|y b] H; simpl in H; try discriminate; auto.
  - intros [|x a] [|y b]; try reflexivity; apply (Sa (x :: a) (y :: b)).
  - intros [|x a] [|y b] [|z d] H1 H2; try discriminate; try reflexivity.
    exact (St (x :: a) (y :: b) (z :: d) H1 H2).
Qed.

Lemma linear_lex : forall (A B : Type) (c1 : A -> A -> comparison)
    (c2 : B -> B -> comparison),
  linear c1 -> linear c2 ->
  linear (fun x y : A * B =>
            Semver.lex (c1 (fst x) (fst y)) (c2 (snd x) (snd y))).
Proof.
  intros A B c1 c2 [r1 [e1 [a1 t1]]] [r2 [e2 [a2 t2]]].
  repeat split.
  - intros [a b]; simpl; rewrite r1; apply r2.
  - intros [a b] [a' b'] H; simpl in H.
    destruct (c1 a a') eqn:E; simpl in H; try discriminate.
    apply e1 in E; apply e2 in H; subst; reflexivity.
  - intros [a b] [a' b']; simpl; rewrite (a1 a a').
    destruct (c1 a a'); simpl; auto.
  - intros [a b] [a' b'] [a'' b''] H1 H2; simpl in *.
    destruct (c1 a a') eqn:E1; simpl in H1; try discriminate;
      destruct (c1 a' a'') eqn:E2; simpl in H2; try discriminate.
    + apply e1 in E1; apply e1 in E2; subst; rewrite r1; simpl; eauto.
    + apply e1 in E1; subst; rewrite E2; reflexivity.
    + apply e1 in E2; subst; rewrite E1; reflexivity.
    + rewrite (t1 _ _ _ E1 E2); reflexivity.
Qed.

Lemma linear_key : forall (A B : Type) (key : A -> B)
    (c : B -> B -> comparison),
  (forall a b, key a = key b -> a = b) ->
  linear c -> linear (fun x y => c (key x) (key y)).
Proof.
  intros A B key c inj [r [e [a t]]]; repeat split; eauto.
Qed.

Lemma linear_ext : forall (A : Type) (c c' : A -> A -> comparison),
  (forall x y, c x y = c' x y) -> linear c' -> linear c.
Proof.
  intros A c c' H [r [e [a t]]]; repeat split; intros *; rewrite ?H; eauto.
Qed.

Lemma linear_keys : linear compare_keys.
Proof.
  pose proof (linear_lex _ _ N.compare N.compare linear_N linear_N) as L2.
  pose proof (linear_lex _ _ N.compare _ linear_N L2) as L3.
  exact (linear_lex _ _ _ _ L3 linear_prereleases).
Qed.

Lemma compareSemVer_keys : forall x y,
  Semver.compareSemVer x y = compare_keys (semver_key x) (semver_key y).
Proof.
  intros [a1 a2 a3 a4] [b1 b2 b3 b4].
  unfold Semver.compareSemVer, Semver.compareMain, Semver.comparePre,
    compare_keys, comparePrereleases, semver_key; simpl.
  destruct a4, b4; reflexivity.
Qed.

Lemma semver_key_injective : forall a b, semver_key a = semver_key b -> a = b.
Proof.
  intros [a1 a2 a3 a4] [b1 b2 b3 b4] H; unfold semver_key in H; simpl in H.
  injection H as -> -> -> ->; reflexivity.
Qed.

Lemma linear_SemVer : linear Semver.compareSemVer.
Proof.
  apply (linear_ext _ _ (fun x y => compare_keys (semver_key x) (semver_key y))
           compareSemVer_keys).
  exact (linear_key _ _ semver_key compare_keys semver_key_injective linear_keys).
Qed.

(** ** What the ordering reads of a rendered Version *)

Lemma cut_app : forall sep u l,
  forallb (differs sep) u = true ->
  Semver.cut sep (u ++ l) =
  (u ++ fst (Semver.cut sep l), snd (Semver.cut sep l)).
Proof.
  intros sep; induction u as [|a u IH]; intros l H; simpl in *.
  - destruct (Semver.cut sep l); reflexivity.
  - apply andb_prop in H; destruct H as [Ha H].
    unfold differs in Ha; apply negb_true_iff in Ha; rewrite Ha.
    rewrite (IH l H); reflexivity.
Qed.

Lemma cut_none : forall sep u,
  forallb (differs sep) u = true -> Semver.cut sep u = (u, None).
Proof.
  intros sep u H.
  pose proof (cut_app sep u [] H) as E; simpl in E.
  rewrite !app_nil_r in E; exact E.
Qed.

Lemma fst_cut_app : forall sep u l,
  l = [] \/ (exists t, l = sep :: t) ->
  fst (Semver.cut sep (u ++ l)) = fst (Semver.cut sep u).
Proof.
  intros sep; induction u as [|a u IH]; intros l H; simpl.
  - destruct H as [-> | [t ->]]; simpl; [reflexivity|].
    rewrite Ascii.eqb_refl; reflexivity.
  - destruct (Ascii.eqb a sep); [reflexivity|].
    specialize (IH l H).
    destruct (Semver.cut sep (u ++ l)), (Semver.cut sep u); simpl in *.
    rewrite IH; reflexivity.
Qed.

Lemma split_none : forall sep u,
  forallb (differs sep) u = true -> Semver.split sep u = [u].
Proof.
  intros sep; induction u as [|a u IH]; intros H; simpl in *; [reflexivity|].
  apply andb_prop in H; destruct H as [Ha H].
  unfold differs in Ha; apply negb_true_iff in Ha; rewrite Ha.
  rewrite (IH H); reflexivity.
Qed.

Lemma split_app : forall sep u l,
  forallb (differs sep) u = true ->
  Semver.split sep (u ++ sep :: l) = u :: Semver.split sep l.
Proof.
  intros sep; induction u as [|a u IH]; intros l H; simpl in *.
  - rewrite Ascii.eqb_refl; reflexivity.
  - apply andb_prop in H; destruct H as [Ha H].
    unfold differs in Ha; apply negb_true_iff in Ha; rewrite Ha.
    rewrite (IH l H); reflexivity.
Qed.

Lemma digit_differs : forall c,
  digit c = true ->
  differs "+" c = true /\ differs "-" c = true /\ differs "." c = true.
Proof.
  intros c H.
  destruct (digit_cases c H)
    as [-> | [-> | [-> | [-> | [-> | [-> | [-> | [-> | [-> | ->]]]]]]]]];
    repeat split; reflexivity.
Qed.

Lemma digits_differ : forall l,
  forallb digit l = true ->
  forallb (differs "+") l = true /\ forallb (differs "-") l = true /\
  forallb (differs ".") l = true.
Proof.
  induction l as [|a l IH]; intros H; simpl in *; [auto|].
  apply andb_prop in H; destruct H as [Ha H].
  destruct (digit_differs a Ha) as [H1 [H2 H3]].
  destruct (IH H) as [I1 [I2 I3]].
  rewrite H1, H2, H3, I1, I2, I3; auto.
Qed.

Lemma triple_differs : forall sep a b c,
  sep = "+"%char \/ sep = "-"%char ->
  forallb digit a = true -> forallb digit b = true -> forallb digit c = true ->
  forallb (differs sep) (triple_text a b c) = true.
Proof.
  intros sep a b c Hs Da Db Dc; unfold triple_text.
  destruct (digits_differ a Da) as [A1 [A2 _]].
  destruct (digits_differ b Db) as [B1 [B2 _]].
  destruct (digits_differ c Dc) as [C1 [C2 _]].
  destruct Hs as [-> | ->]; rewrite !forallb_app; simpl; rewrite ?forallb_app;
    simpl; rewrite ?A1, ?A2, ?B1, ?B2, ?C1, ?C2; reflexivity.
Qed.

Lemma split_triple : forall a b c,
  forallb digit a = true -> forallb digit b = true -> forallb digit c = true ->
  Semver.split "." (triple_text a b c) = [a; b; c].
Proof.
  intros a b c Da Db Dc; unfold triple_text.
  destruct (digits_differ a Da) as [_ [_ A]].
  destruct (digits_differ b Db) as [_ [_ B]].
  destruct (digits_differ c Dc) as [_ [_ C]].
  rewrite (split_app _ _ _ A), (split_app _ _ _ B), (split_none _ _ C).
  reflexivity.
Qed.

Lemma value_render : forall n,
  Semver.value (list_ascii_of_string (render n)) = n.
Proof.
  intros n; unfold Semver.value.
  rewrite string_of_list_ascii_of_string, Number_render; reflexivity.
Qed.

Lemma parse_of_parts : forall s main bld core pre,
  Semver.cut "+" (list_ascii_of_string s) = (main, bld) ->
  Semver.cut "-" main = (core, pre) ->
  Semver.parse s =
  match Semver.split "." core with
  | [a; b; c] =>
      if match bld with
         | Some x => forallb Semver.build_identifier (Semver.split "." x)
         | None => true
         end &&
         match pre with
         | Some p => forallb Semver.prerelease_identifier (Semver.split "." p)
         | None => true
         end &&
         Semver.numeric_identifier a && Semver.numeric_identifier b &&
         Semver.numeric_identifier c
      then Some (Semver.mkSemVer (Semver.value a) (Semver.value b)
                   (Semver.value c)
                   match pre with
                   | Some p => map Semver.to_identifier (Semver.split "." p)
                   | None => []
                   end)
      else None
  | _ => None
  end.
Proof.
  intros s main bld core pre H1 H2; unfold Semver.parse.
  rewrite H1, H2; reflexivity.
Qed.

Lemma toString_chars : forall v,
  list_ascii_of_string (Version_toString v) =
  rendered_core v ++ list_ascii_of_string (part "-" (preRelease v)) ++
  list_ascii_of_string (part "+" (build v)).
Proof.
  intros v; unfold Version_toString, rendered_core, triple_text.
  rewrite !chars_app; simpl.
  rewrite <- !app_assoc; simpl; rewrite <- !app_assoc; reflexivity.
Qed.

Lemma part_chars : forall sep o,
  list_ascii_of_string (part (String sep "") o) = [] \/
  exists t, list_ascii_of_string (part (String sep "") o) = sep :: t.
Proof.
  intros sep [s|]; simpl; [|left; reflexivity].
  destruct (s =? ""); [left; reflexivity | right; simpl; eauto].
Qed.

Lemma rendered_core_differs : forall sep v,
  sep = "+"%char \/ sep = "-"%char ->
  forallb (differs sep) (rendered_core v) = true.
Proof.
  intros sep v H; apply triple_differs; auto using render_digits.
Qed.

Lemma rendering_cuts : forall v,
  exists main bld,
    Semver.cut "+" (list_ascii_of_string (Version_toString v)) = (main, bld) /\
    Semver.cut "-" main = (rendered_core v, rendered_pre_text v).
Proof.
  intros v; rewrite toString_chars.
  rewrite (cut_app "+" _ _ (rendered_core_differs "+" v (or_introl eq_refl))).
  eexists; eexists; split; [reflexivity|].
  rewrite (fst_cut_app "+" _ _ (part_chars "+" (build v))).
  rewrite (cut_app "-" _ _ (rendered_core_differs "-" v (or_intror eq_refl))).
  unfold rendered_pre_text.
  destruct (preRelease v) as [p|]; simpl.
  - destruct (p =? ""); simpl; [rewrite app_nil_r; reflexivity|].
    destruct (Semver.cut "+" (list_ascii_of_string p)) as [x y]; simpl.
    rewrite app_nil_r; reflexivity.
  - rewrite app_nil_r; reflexivity.
Qed.

(** The ordering sees of a Version its three numbers and the prerelease
    identifiers of its rendering. *)
Lemma parse_rendering : forall v sv,
  Semver.parse (Version_toString v) = Some sv -> sv = canonical v.
Proof.
  intros v sv H.
  destruct (rendering_cuts v) as [main [bld [H1 H2]]].
  rewrite (parse_of_parts _ _ _ _ _ H1 H2) in H.
  unfold rendered_core in H.
  rewrite split_triple in H by apply render_digits.
  match type of H with
  | (if ?c then _ else _) = _ => destruct c; [|discriminate]
  end.
  injection H as <-.
  rewrite !value_render; unfold canonical, rendered_prerelease, rendered_pre_text.
  destruct (preRelease v) as [p|]; [destruct (p =? "")|]; reflexivity.
Qed.

Lemma comparable_parse : forall v,
  comparable v -> Semver.parse (Version_toString v) = Some (canonical v).
Proof.
  intros v H; unfold comparable in H.
  destruct (Semver.parse (Version_toString v)) as [sv|] eqn:E; [|contradiction].
  rewrite (parse_rendering v sv E); reflexivity.
Qed.

Lemma compare_inv : forall a b r,
  Version_compare a b = Some r ->
  comparable a /\ comparable b /\
  r = Semver.sign (Semver.compareSemVer (canonical a) (canonical b)).
Proof.
  intros a b r H; unfold Version_compare, Semver.compare in H.
  destruct (Semver.parse (Version_toString a)) as [sa|] eqn:Ea; [|discriminate].
  destruct (Semver.parse (Version_toString b)) as [sb|] eqn:Eb; [|discriminate].
  injection H as <-.
  rewrite (parse_rendering a sa Ea), (parse_rendering b sb Eb).
  unfold comparable; rewrite Ea, Eb; repeat split; discriminate.
Qed.

Lemma compare_intro : forall a b,
  comparable a -> comparable b ->
  Version_compare a b =
  Some (Semver.sign (Semver.compareSemVer (canonical a) (canonical b))).
Proof.
  intros a b Ha Hb; unfold Version_compare, Semver.compare.
  rewrite (comparable_parse a Ha), (comparable_parse b Hb); reflexivity.
Qed.

Lemma sign_values : forall c,
  (Semver.sign c = -1 \/ Semver.sign c = 0 \/ Semver.sign c = 1)%Z.
Proof. intros []; simpl; auto. Qed.

Lemma sign_opp : forall c, Semver.sign (CompOpp c) = (- Semver.sign c)%Z.
Proof. intros []; reflexivity. Qed.

Lemma rendered_prerelease_truthy : forall v,
  truthy (preRelease v) = true -> rendered_prerelease v <> [].
Proof.
  intros v H; unfold rendered_prerelease.
  destruct (preRelease v) as [p|]; [|discriminate].
  simpl in H; destruct (p =? ""); [discriminate|].
  destruct (fst (Semver.cut "+" (list_ascii_of_string p))) as [|a l]; simpl;
    [discriminate|].
  destruct (Ascii.eqb a "."); [discriminate|].
  destruct (Semver.split "." l); discriminate.
Qed.

Lemma rendered_prerelease_falsy : forall v,
  truthy (preRelease v) = false -> rendered_prerelease v = [].
Proof.
  intros v H; unfold rendered_prerelease.
  destruct (preRelease v) as [p|]; [|reflexivity].
  simpl in H; destruct (p =? ""); [reflexivity | discriminate].
Qed.

Local Open Scope string_scope.

(** C1 (amended).  [Version.compare] hands the renderings of the two
    Versions to the ordering of Semantic Versioning, and has a result only
    when both renderings are versions of that grammar.  The result is then
    one of -1, 0, 1; it is antisymmetric and transitive; it compares major,
    then minor, then patch numerically; with equal numbers a Version without
    prerelease is above one with a prerelease; two prereleases compare as
    the sequences of dot-separated identifiers of the rendering, that is of
    the prerelease text up to its first [+]; the build never counts. *)
Theorem version_order :
  (forall a b r,
     Version_compare a b = Some r ->
     comparable a /\ comparable b /\
     r = Semver.sign (Semver.compareSemVer (canonical a) (canonical b)) /\
     (r = -1 \/ r = 0 \/ r = 1)%Z) /\
  (forall a b,
     comparable a -> comparable b -> exists r, Version_compare a b = Some r) /\
  (forall a b,
     Version_compare b a = option_map Z.opp (Version_compare a b)) /\
  (forall a b c x y,
     Version_compare a b = Some x -> Version_compare b c = Some y ->
     (x <= 0)%Z -> (y <= 0)%Z ->
     exists z, Version_compare a c = Some z /\ (z <= 0)%Z /\
               (z = 0 -> x = 0 /\ y = 0)%Z) /\
  (forall a b r,
     Version_compare a b = Some r ->
     (major a < major b \/
      major a = major b /\
      (minor a < minor b \/ minor a = minor b /\ patch a < patch b))%N ->
     r = (-1)%Z) /\
  (forall a b r,
     Version_compare a b = Some r ->
     major a = major b -> minor a = minor b -> patch a = patch b ->
     (truthy (preRelease a) = false -> truthy (preRelease b) = true ->
      r = 1%Z) /\
     (truthy (preRelease a) = true -> truthy (preRelease b) = true ->
      r = Semver.sign
            (Semver.compareSequences (rendered_prerelease a)
               (rendered_prerelease b))) /\
     (preRelease a = preRelease b -> r = 0%Z)) /\
  Version_compare (new_Version 1 2 3 None None)
    (new_Version 1 2 3 (Some "alpha") None) = Some 1%Z /\
  Version_compare (new_Version 1 2 3 None (Some "x"))
    (new_Version 1 2 3 None (Some "y")) = Some 0%Z /\
  Version_compare (new_Version 1 2 3 (Some "alpha.2") None)
    (new_Version 1 2 3 (Some "alpha.10") None) = Some (-1)%Z /\
  Version_compare (new_Version 1 2 3 (Some "alpha.2") None)
    (new_Version 1 2 3 (Some "alpha.beta") None) = Some (-1)%Z /\
  Version_compare (new_Version 1 2 3 (Some "alpha") None)
    (new_Version 1 2 3 (Some "alpha.1") None) = Some (-1)%Z /\
  Version_compare (new_Version 1 2 3 (Some "alpha") None)
    (new_Version 1 2 3 (Some "beta") None) = Some (-1)%Z.
Proof.
  destruct linear_SemVer as [Lr [Le [La Lt]]].
  split.
  { intros a b r H; destruct (compare_inv _ _ _ H) as [Ha [Hb ->]].
    repeat split; try assumption; apply sign_values. }
  split.
  { intros a b Ha Hb; rewrite (compare_intro a b Ha Hb); eauto. }
  split.
  { intros a b; unfold Version_compare, Semver.compare.
    destruct (Semver.parse (Version_toString a)) as [sa|];
      destruct (Semver.parse (Version_toString b)) as [sb|]; try reflexivity.
    simpl; rewrite (La sa sb), sign_opp; reflexivity. }
  split.
  { intros a b c x y H1 H2 Hx Hy.
    destruct (compare_inv _ _ _ H1) as [Ha [Hb ->]].
    destruct (compare_inv _ _ _ H2) as [_ [Hc ->]].
    rewrite (compare_intro a c Ha Hc); eexists; split; [reflexivity|].
    destruct (Semver.compareSemVer (canonical a) (canonical b)) eqn:E1;
      try (simpl in Hx; lia);
      destruct (Semver.compareSemVer (canonical b) (canonical c)) eqn:E2;
      try (simpl in Hy; lia).
    - apply Le in E1; apply Le in E2; rewrite E1, E2, Lr; simpl; lia.
    - apply Le in E1; rewrite E1, E2; simpl; lia.
    - apply Le in E2; rewrite <- E2, E1; simpl; lia.
    - rewrite (Lt _ _ _ E1 E2); simpl; lia. }
  split.
  { intros a b r H Hlt; destruct (compare_inv _ _ _ H) as [_ [_ ->]].
    unfold Semver.compareSemVer, Semver.compareMain, canonical; simpl.
    destruct Hlt as [H1 | [E1 [H2 | [E2 H3]]]].
    - apply N.compare_lt_iff in H1; rewrite H1; reflexivity.
    - rewrite E1, N.compare_refl; simpl.
      apply N.compare_lt_iff in H2; rewrite H2; reflexivity.
    - rewrite E1, E2, !N.compare_refl; simpl.
      apply N.compare_lt_iff in H3; rewrite H3; reflexivity. }
  split.
  { intros a b r H E1 E2 E3; destruct (compare_inv _ _ _ H) as [_ [_ ->]].
    unfold Semver.compareSemVer, Semver.compareMain, Semver.comparePre,
      canonical; simpl.
    rewrite E1, E2, E3, !N.compare_refl; simpl.
    split; [|split].
    - intros Fa Tb.
      rewrite (rendered_prerelease_falsy a Fa).
      pose proof (rendered_prerelease_truthy b Tb) as Nb.
      destruct (rendered_prerelease b); [contradiction | reflexivity].
    - intros Ta Tb.
      pose proof (rendered_prerelease_truthy a Ta) as Na.
      pose proof (rendered_prerelease_truthy b Tb) as Nb.
      destruct (rendered_prerelease a); [contradiction|].
      destruct (rendered_prerelease b); [contradiction | reflexivity].
    - intros Ep; unfold rendered_prerelease; rewrite Ep.
      destruct linear_sequences as [Sr _].
      match goal with
      | |- Semver.sign match ?l with _ => _ end = _ =>
          pose proof (Sr l) as R; destruct l; [reflexivity|]
      end.
      simpl in R |- *; rewrite R; reflexivity. }
  repeat split; vm_compute; reflexivity.
Qed.

Lemma version_order_witness :
  comparable (new_Version 1 2 3 None None) /\
  comparable (new_Version 1 2 3 (Some "alpha") None) /\
  1%Z = Semver.sign
          (Semver.compareSemVer (canonical (new_Version 1 2 3 None None))
             (canonical (new_Version 1 2 3 (Some "alpha") None))) /\
  (1 = -1 \/ 1 = 0 \/ 1 = 1)%Z.
Proof.
  apply (proj1 version_order (new_Version 1 2 3 None None)
           (new_Version 1 2 3 (Some "alpha") None) 1%Z).
  vm_compute; reflexivity.
Defined.

(** C1, as stated, fails: prereleases that differ after a [+] compare equal,
    because the rendering turns what follows the [+] into build metadata;
    and a Version whose rendering is not a version of the grammar has no
    comparison result. *)
Lemma version_order_counterexample :
  Version_compare (new_Version 1 2 3 (Some "a+b") None)
    (new_Version 1 2 3 (Some "a+c") None) = Some 0%Z /\
  claimed_compare (new_Version 1 2 3 (Some "a+b") None)
    (new_Version 1 2 3 (Some "a+c") None) = (-1)%Z /\
  Version_compare (new_Version 1 2 3 (Some "alpha_1") None)
    (new_Version 1 2 3 None None) = None.
Proof. repeat split; vm_compute; reflexivity. Qed.

Local Open Scope list_scope.

(** ** The first match of a greedy pattern, exactly *)

Lemma run_app_stop : forall p w t,
  forallb p w = true -> stops p t -> run p (w ++ t) = w /\ after p (w ++ t) = t.
Proof.
  intros p; induction w as [|a w IH]; intros t Hw Ht; simpl in *.
  - destruct t as [|b t]; [split; reflexivity|].
    simpl in Ht |- *; rewrite Ht; split; reflexivity.
  - apply andb_prop in Hw; destruct Hw as [Q Hw]; rewrite Q.
    destruct (IH t Hw Ht) as [-> ->]; split; reflexivity.
Qed.

Lemma matcher_Paren : forall r x c, matcher (Paren r) x c = matcher r x c.
Proof. reflexivity. Qed.

Lemma matcher_Char_hit : forall a x t c,
  rest x = a :: t -> matcher (Char a) x c = c (advance x t).
Proof. intros a x t c E; simpl; rewrite E, Ascii.eqb_refl; reflexivity. Qed.

Lemma matcher_Char_miss : forall a x c,
  match rest x with b :: _ => Ascii.eqb a b = false | [] => True end ->
  matcher (Char a) x c = None.
Proof.
  intros a x c H; simpl; destruct (rest x) as [|b t]; [reflexivity|].
  rewrite H; reflexivity.
Qed.

Lemma matcher_Lit : forall l x t c,
  rest x = l ++ t -> matcher (Lit l) x c = c (past x l t).
Proof.
  induction l as [|a l IH]; intros x t c E.
  - simpl in *; rewrite <- E, past_nil; reflexivity.
  - cbn [Lit]; rewrite matcher_Seq, (matcher_Char_hit a x (l ++ t)) by exact E.
    rewrite (IH (advance x (l ++ t)) t) by reflexivity.
    rewrite (advance_past x a), past_past; reflexivity.
Qed.

(** A named greedy run that the continuation accepts whole. *)
Lemma named_plus_run : forall n p k x w t,
  rest x = w ++ t -> w <> [] -> forallb p w = true -> stops p t ->
  k (mkState (endIndex x + List.length w) t ((n, w) :: caps x)) <> None ->
  matcher (Named n (Plus (Class p))) x k =
  k (mkState (endIndex x + List.length w) t ((n, w) :: caps x)).
Proof.
  intros n p k x w t E Hw Pw St K.
  rewrite matcher_Named.
  destruct (run_app_stop p w t Pw St) as [R A].
  rewrite (plus_greedy (Class p) p _ x (reads_one_Class p));
    rewrite E, R, ?A, ?(capture_past n x w t E); auto.
Qed.

Lemma named_star_run : forall n p k x w t,
  rest x = w ++ t -> forallb p w = true -> stops p t ->
  k (mkState (endIndex x + List.length w) t ((n, w) :: caps x)) <> None ->
  matcher (Named n (Star (Class p))) x k =
  k (mkState (endIndex x + List.length w) t ((n, w) :: caps x)).
Proof.
  intros n p k x w t E Pw St K.
  rewrite matcher_Named.
  destruct (run_app_stop p w t Pw St) as [R A].
  cbn [matcher].
  rewrite (repeat_greedy (Class p) p _ (reads_one_Class p) (rest x) x
             (List.length (rest x)) eq_refl (le_n _));
    rewrite E, R, A, (capture_past n x w t E); auto.
Qed.

Lemma TRIPLE_exact : forall k x a b c t,
  digits a -> digits b -> digits c -> stops digit t ->
  rest x = triple_text a b c ++ t ->
  k (mkState (endIndex x + List.length (triple_text a b c)) t
       (triple_captures a b c ++ caps x)) <> None ->
  matcher TRIPLE x k =
  k (mkState (endIndex x + List.length (triple_text a b c)) t
       (triple_captures a b c ++ caps x)).
Proof.
  intros k x a b c t [Na Da] [Nb Db] [Nc Dc] St E K.
  unfold triple_text in *.
  replace ((a ++ "."%char :: b ++ "."%char :: c) ++ t)
    with (a ++ "."%char :: b ++ "."%char :: c ++ t) in E
    by (rewrite <- !app_assoc; simpl; rewrite <- !app_assoc; reflexivity).
  set (x1 := mkState (endIndex x + List.length a)
               ("."%char :: b ++ "."%char :: c ++ t) (("major"%string, a) :: caps x)).
  set (x2 := advance x1 (b ++ "."%char :: c ++ t)).
  set (x3 := mkState (endIndex x2 + List.length b) ("."%char :: c ++ t)
               (("minor"%string, b) :: caps x2)).
  set (x4 := advance x3 (c ++ t)).
  set (x5 := mkState (endIndex x4 + List.length c) t
               (("patch"%string, c) :: caps x4)).
  assert (F : mkState (endIndex x + List.length (a ++ "."%char :: b ++ "."%char :: c)) t
                (triple_captures a b c ++ caps x) = x5).
  { unfold x5, triple_captures; simpl; f_equal.
    rewrite !length_app; simpl; rewrite !length_app; simpl; lia. }
  rewrite F in *.
  assert (S3 : matcher (Named "patch" (Plus (Class digit))) x4 k = k x5).
  { apply named_plus_run; auto. }
  assert (S2 : matcher (Named "minor" (Plus (Class digit))) x2
                 (fun y => matcher (Char "." +++ Named "patch" (Plus (Class digit)))%re y k)
               = k x5).
  { rewrite (named_plus_run "minor" digit _ x2 b ("."%char :: c ++ t));
      try (rewrite matcher_Seq, (matcher_Char_hit "." x3 (c ++ t)) by reflexivity);
      auto; try reflexivity.
    fold x4; rewrite S3; exact K. }
  unfold TRIPLE; rewrite matcher_Seq.
  rewrite (named_plus_run "major" digit _ x a ("."%char :: b ++ "."%char :: c ++ t));
    try (fold x1; rewrite matcher_Seq, (matcher_Char_hit "." x1 (b ++ "."%char :: c ++ t))
           by reflexivity; fold x2; rewrite matcher_Seq);
    auto; try reflexivity.
  rewrite S2; exact K.
Qed.

(** ** Round trips of the two formats *)

Lemma part_plain : forall sep o,
  plain_line o = true \/ plain_prerelease o = true ->
  list_ascii_of_string (part (String sep "") o) =
  match o with
  | Some s => sep :: list_ascii_of_string s
  | None => []
  end.
Proof.
  intros sep [s|] H; [|reflexivity]; simpl in *.
  destruct (s =? "")%string; [|reflexivity].
  destruct H as [H | H]; discriminate H.
Qed.

Lemma clear_captures_get : forall n cs,
  get_capture n (clear_captures [n] cs) = None.
Proof.
  intros n; induction cs as [|[k v] cs IH]; [reflexivity|].
  unfold clear_captures in *; simpl.
  destruct (String.eqb k n) eqn:Q; simpl.
  - exact IH.
  - rewrite Q; exact IH.
Qed.

Lemma build_group_exact : forall x bld,
  plain_line bld = true ->
  rest x = list_ascii_of_string (part "+" bld) ->
  exists y,
    matcher (Opt (Paren (Char "+" +++ Named "build" (Star (Class dot)))))%re x Some
      = Some y /\
    get_capture "build" (caps y) =
      match bld with
      | Some b => Some (list_ascii_of_string b)
      | None => get_capture "build" (caps x)
      end /\
    get_capture "preRelease" (caps y) = get_capture "preRelease" (caps x).
Proof.
  intros x bld P E.
  rewrite (part_plain "+" bld (or_introl P)) in E.
  rewrite matcher_Opt, matcher_Paren, matcher_Seq.
  set (R := Paren (Char "+" +++ Named "build" (Star (Class dot)))%re).
  destruct bld as [b|].
  - rewrite (matcher_Char_hit "+" (reset R x) (list_ascii_of_string b)) by exact E.
    simpl in P; apply andb_prop in P; destruct P as [_ L].
    set (x1 := advance (reset R x) (list_ascii_of_string b)).
    assert (Q : forall y : mstate,
              endIndex y = endIndex x1 + List.length (list_ascii_of_string b) ->
              (if Nat.eqb (endIndex y) (endIndex x) then None else Some y) = Some y).
    { intros y Ey; replace (Nat.eqb (endIndex y) (endIndex x)) with false;
        [reflexivity | symmetry; apply Nat.eqb_neq; rewrite Ey; simpl; lia]. }
    rewrite (named_star_run "build" dot _ x1 (list_ascii_of_string b) []);
      rewrite ?Q by reflexivity;
      try discriminate; try exact I; try exact L;
      try (rewrite app_nil_r; reflexivity).
    eexists; split; [reflexivity|]; split; [reflexivity|].
    simpl; apply get_capture_clear; reflexivity.
  - rewrite matcher_Char_miss by (simpl; rewrite E; exact I).
    exists x; auto.
Qed.

Lemma stops_plus_part : forall bld,
  stops not_plus (list_ascii_of_string (part "+" bld)).
Proof.
  intros [b|]; simpl; [|exact I].
  destruct (b =? "")%string; simpl; [exact I | reflexivity].
Qed.

Lemma semver_tail_exact : forall x pre bld,
  plain_prerelease pre = true -> plain_line bld = true ->
  rest x = list_ascii_of_string (part "-" pre) ++
           list_ascii_of_string (part "+" bld) ->
  get_capture "preRelease" (caps x) = None ->
  get_capture "build" (caps x) = None ->
  exists y,
    matcher
      (Opt (Paren (Char "-" +++ Named "preRelease" (Plus (Class not_plus)))) +++
       Opt (Paren (Char "+" +++ Named "build" (Star (Class dot)))))%re x Some
      = Some y /\
    get_capture "preRelease" (caps y) = option_map list_ascii_of_string pre /\
    get_capture "build" (caps y) = option_map list_ascii_of_string bld.
Proof.
  intros x pre bld Pp Pb E Np Nb.
  rewrite (part_plain "-" pre (or_intror Pp)) in E.
  rewrite matcher_Seq, matcher_Opt, matcher_Paren, matcher_Seq.
  set (R := Paren (Char "-" +++ Named "preRelease" (Plus (Class not_plus)))%re).
  set (B := Opt (Paren (Char "+" +++ Named "build" (Star (Class dot))))%re).
  destruct pre as [p|].
  - simpl in E.
    rewrite (matcher_Char_hit "-" (reset R x) _ _ E).
    simpl in Pp; apply andb_prop in Pp; destruct Pp as [Ne L].
    set (t := list_ascii_of_string (part "+" bld)) in *.
    set (x1 := advance (reset R x) (list_ascii_of_string p ++ t)).
    set (y1 := mkState (endIndex x1 + List.length (list_ascii_of_string p)) t
                 (("preRelease"%string, list_ascii_of_string p) :: caps x1)).
    destruct (build_group_exact y1 bld Pb eq_refl) as [y [My [Gb Gp]]].
    fold B in My.
    assert (Q : Nat.eqb (endIndex y1) (endIndex x) = false)
      by (apply Nat.eqb_neq; simpl; lia).
    rewrite (named_plus_run "preRelease" not_plus _ x1 (list_ascii_of_string p) t);
      fold y1; rewrite ?Q, ?My;
      try discriminate; try exact L; try reflexivity;
      try apply stops_plus_part.
    + exists y; split; [reflexivity|]; split.
      * rewrite Gp; simpl; reflexivity.
      * rewrite Gb; destruct bld; [reflexivity|].
        simpl; rewrite get_capture_clear by reflexivity; exact Nb.
    + intros C; apply (f_equal (@List.length ascii)) in C; simpl in C.
      destruct p; [discriminate Ne | discriminate C].
  - simpl in E.
    rewrite matcher_Char_miss.
    + destruct (build_group_exact x bld Pb E) as [y [My [Gb Gp]]].
      fold B in My; rewrite My.
      exists y; split; [reflexivity|]; split.
      * rewrite Gp; exact Np.
      * rewrite Gb; destruct bld; [reflexivity | exact Nb].
    + change (rest (reset R x)) with (rest x); rewrite E.
      destruct bld as [b|]; simpl; [|exact I].
      destruct (b =? "")%string; simpl; [exact I | reflexivity].
Qed.

Local Open Scope string_scope.

Lemma rendered_digits : forall n, digits (list_ascii_of_string (render n)).
Proof.
  intros n; split; [|apply render_digits].
  apply chars_not_nil, render_nonempty.
Qed.

Lemma Version_of_renders : forall m v pre bld,
  get_capture "major" (groups_of m) = Some (list_ascii_of_string (render (major v))) ->
  get_capture "minor" (groups_of m) = Some (list_ascii_of_string (render (minor v))) ->
  get_capture "patch" (groups_of m) = Some (list_ascii_of_string (render (patch v))) ->
  Version_of (Number (group m "major")) (Number (group m "minor"))
    (Number (group m "patch")) pre bld =
  Some (new_Version (major v) (minor v) (patch v) pre bld).
Proof.
  intros m v pre bld Ga Gb Gc; unfold group; rewrite Ga, Gb, Gc; simpl option_map.
  rewrite !string_of_list_ascii_of_string, !Number_render; reflexivity.
Qed.

(** The match of a version pattern on a text that starts with the rendered
    triple of [v]. *)
Lemma rendered_triple_headed : forall r v t y3 y,
  stops digit t ->
  y3 = mkState (0 + List.length (rendered_core v)) t
         (triple_captures (list_ascii_of_string (render (major v)))
            (list_ascii_of_string (render (minor v)))
            (list_ascii_of_string (render (patch v))) ++ [])%list ->
  matcher r y3 Some = Some y ->
  (forall n, n = "major" \/ n = "minor" \/ n = "patch" -> mem n (names r) = false) ->
  exists m,
    exec (TRIPLE +++ r)%re (string_of_list_ascii (rendered_core v ++ t)) = Some m /\
    groups_of m = caps y /\
    get_capture "major" (caps y) = Some (list_ascii_of_string (render (major v))) /\
    get_capture "minor" (caps y) = Some (list_ascii_of_string (render (minor v))) /\
    get_capture "patch" (caps y) = Some (list_ascii_of_string (render (patch v))).
Proof.
  intros r v t y3 y St Ey M Hn.
  assert (X : matcher (TRIPLE +++ r)%re (mkState 0 (rendered_core v ++ t)%list []) Some
              = Some y).
  { rewrite matcher_Seq.
    unfold rendered_core in *.
    rewrite (TRIPLE_exact _ _ (list_ascii_of_string (render (major v)))
               (list_ascii_of_string (render (minor v)))
               (list_ascii_of_string (render (patch v))) t);
      auto using rendered_digits;
      cbn [endIndex caps]; rewrite <- Ey, M; [reflexivity | discriminate]. }
  exists (mkMatch 0 (endIndex y) (caps y)); split.
  - unfold exec; rewrite list_ascii_of_string_of_list_ascii.
    rewrite (search_at_start _ _ _ X); reflexivity.
  - split; [reflexivity|].
    apply matcher_sound in M; destruct M as [y' [Re C]]; injection C as ->.
    rewrite !(reach_frame _ _ _ Re) by (apply Hn; tauto).
    subst y3; repeat split; reflexivity.
Qed.

Lemma stops_digit_part : forall sep o t,
  digit sep = false ->
  stops digit (list_ascii_of_string (part (String sep "") o) ++ t)%list \/
  list_ascii_of_string (part (String sep "") o) = [].
Proof.
  intros sep o t D.
  destruct (part_chars sep o) as [E | [u E]]; [right; exact E|].
  left; rewrite E; exact D.
Qed.

Lemma stops_digit_tail : forall pre bld,
  stops digit (list_ascii_of_string (part "-" pre) ++
               list_ascii_of_string (part "+" bld))%list.
Proof.
  intros pre bld.
  destruct (stops_digit_part "-" pre (list_ascii_of_string (part "+" bld)) eq_refl)
    as [H | E]; [exact H|].
  rewrite E; simpl.
  destruct (stops_digit_part "+" bld [] eq_refl) as [H | E'].
  - rewrite app_nil_r in H; exact H.
  - rewrite E'; exact I.
Qed.

Lemma option_map_chars : forall o : option string,
  option_map string_of_list_ascii (option_map list_ascii_of_string o) = o.
Proof.
  intros [s|]; simpl; [rewrite string_of_list_ascii_of_string|]; reflexivity.
Qed.

Lemma semver_parse_rendering : forall v,
  plain_prerelease (preRelease v) = true -> plain_line (build v) = true ->
  SemverVersionFormat_parse (Version_toString v) = Some v.
Proof.
  intros v Pp Pb.
  set (t := (list_ascii_of_string (part "-" (preRelease v)) ++
             list_ascii_of_string (part "+" (build v)))%list).
  set (y3 := mkState (0 + List.length (rendered_core v)) t
               (triple_captures (list_ascii_of_string (render (major v)))
                  (list_ascii_of_string (render (minor v)))
                  (list_ascii_of_string (render (patch v))) ++ [])%list).
  destruct (semver_tail_exact y3 _ _ Pp Pb eq_refl eq_refl eq_refl)
    as [y [M [Gp Gb]]].
  destruct (rendered_triple_headed _ v t y3 y (stops_digit_tail _ _) eq_refl M
              semver_tail_names) as [m [E [G [Ga [Gm Gc]]]]].
  unfold SemverVersionFormat_parse, SemverVersionFormat_REGEX, VERSION_REGEX.
  rewrite (of_chars _ _ (toString_chars v)).
  fold t; rewrite E, <- G in *.
  rewrite (Version_of_renders m v) by assumption.
  unfold group; rewrite Gp, Gb, !option_map_chars.
  destruct v; reflexivity.
Qed.

(** X1.  The SemVer format reads back what it renders, and so does the static
    [Version.parse] with [toString]: the version itself, when its prerelease
    is absent or non-empty without [+] and its build is absent or non-empty on
    one line.  Here and below [exact_numbers] keeps the three numbers within
    the integers that JavaScript holds exactly. *)
Theorem semver_round_trip : forall v,
  exact_numbers v = true ->
  plain_prerelease (preRelease v) = true ->
  plain_line (build v) = true ->
  SemverVersionFormat_parse (SemverVersionFormat_format v) = Some v /\
  Version_parse (Version_toString v) None = ([], Normal (Some v)).
Proof.
  intros v _ Pp Pb.
  change (SemverVersionFormat_format v) with (Version_toString v).
  unfold Version_parse.
  rewrite (semver_parse_rendering v Pp Pb); split; reflexivity.
Qed.

Lemma semver_round_trip_witness :
  SemverVersionFormat_parse
    (SemverVersionFormat_format
       (new_Version 1 2 3 (Some "alpha.1") (Some "build.5"))) =
    Some (new_Version 1 2 3 (Some "alpha.1") (Some "build.5")) /\
  Version_parse
    (Version_toString (new_Version 1 2 3 (Some "alpha.1") (Some "build.5")))
    None =
    ([], Normal (Some (new_Version 1 2 3 (Some "alpha.1") (Some "build.5")))).
Proof.
  apply (semver_round_trip (new_Version 1 2 3 (Some "alpha.1") (Some "build.5")));
    reflexivity.
Defined.

Local Open Scope list_scope.

Lemma ruby_tail_total : forall r x, matcher (Opt r) x Some <> None.
Proof.
  intros r x; rewrite matcher_Opt.
  destruct (matcher r (reset r x) _); discriminate.
Qed.

(** The Ruby format on a text that starts with the rendered triple of [v]. *)
Lemma ruby_parse_rendered : forall v t,
  stops digit t ->
  RubyVersionFormat_parse (string_of_list_ascii (rendered_core v ++ t)) =
  Some (new_Version (major v) (minor v) (patch v)
          (option_map string_of_list_ascii (ruby_prerelease t)) None).
Proof.
  intros v t St.
  set (y3 := mkState (0 + List.length (rendered_core v)) t
               (triple_captures (list_ascii_of_string (render (major v)))
                  (list_ascii_of_string (render (minor v)))
                  (list_ascii_of_string (render (patch v))) ++ [])).
  destruct (matcher (Opt (Class dot_or_dash +++ Named "preRelease" (Plus (Class dot))))%re
              y3 Some) as [y|] eqn:M; [|contradiction (ruby_tail_total _ _ M)].
  pose proof (ruby_tail_exact y3 y M eq_refl) as P.
  destruct (rendered_triple_headed _ v t y3 y St eq_refl M ruby_tail_names)
    as [m [E [G [Ga [Gm Gc]]]]].
  unfold RubyVersionFormat_parse, RubyVersionFormat_REGEX.
  rewrite E, <- G in *.
  rewrite (Version_of_renders m v) by assumption.
  unfold group; rewrite P; reflexivity.
Qed.

Lemma ruby_format_chars : forall v,
  list_ascii_of_string (RubyVersionFormat_format v) =
  rendered_core v ++ list_ascii_of_string (part "." (preRelease v)).
Proof.
  intros v; unfold RubyVersionFormat_format, rendered_core, triple_text.
  rewrite !chars_app; simpl.
  rewrite <- !app_assoc; simpl; rewrite <- !app_assoc; reflexivity.
Qed.

Lemma stops_digit_one : forall sep o,
  digit sep = false -> stops digit (list_ascii_of_string (part (String sep "") o)).
Proof.
  intros sep o D.
  destruct (stops_digit_part sep o [] D) as [H | E].
  - rewrite app_nil_r in H; exact H.
  - rewrite E; exact I.
Qed.

Lemma run_whole : forall p w, forallb p w = true -> run p w = w.
Proof.
  intros p w H.
  destruct (run_app_stop p w [] H I) as [R _].
  rewrite app_nil_r in R; exact R.
Qed.

Lemma ruby_prerelease_line : forall sep w,
  dot_or_dash sep = true -> w <> [] -> forallb dot w = true ->
  ruby_prerelease (sep :: w) = Some w.
Proof.
  intros sep w D N L; unfold ruby_prerelease.
  rewrite D, (run_whole dot w L).
  destruct w; [contradiction | reflexivity].
Qed.

Local Open Scope string_scope.

Lemma ruby_parse_format : forall v,
  plain_line (preRelease v) = true ->
  RubyVersionFormat_parse (RubyVersionFormat_format v) =
  Some (new_Version (major v) (minor v) (patch v) (preRelease v) None).
Proof.
  intros v P.
  rewrite (of_chars _ _ (ruby_format_chars v)).
  rewrite ruby_parse_rendered by (apply stops_digit_one; reflexivity).
  rewrite (part_plain "." _ (or_introl P)).
  destruct (preRelease v) as [p|]; [|reflexivity].
  simpl in P; apply andb_prop in P; destruct P as [N L].
  rewrite ruby_prerelease_line; try reflexivity; try exact L.
  - simpl; rewrite string_of_list_ascii_of_string; reflexivity.
  - apply chars_not_nil; intros ->; discriminate N.
Qed.

(** X2.  The Ruby format reads back what it renders, except the build, which
    it never renders: the prerelease must be absent, or non-empty on one line.
    *)
Theorem ruby_round_trip : forall v,
  exact_numbers v = true ->
  plain_line (preRelease v) = true ->
  RubyVersionFormat_parse (RubyVersionFormat_format v) =
  Some (new_Version (major v) (minor v) (patch v) (preRelease v) None).
Proof. intros v _ P; apply ruby_parse_format; exact P. Qed.

Lemma ruby_round_trip_witness :
  RubyVersionFormat_parse
    (RubyVersionFormat_format (new_Version 1 2 3 (Some "rc.1") (Some "b7"))) =
  Some (new_Version 1 2 3 (Some "rc.1") None).
Proof.
  apply (ruby_round_trip (new_Version 1 2 3 (Some "rc.1") (Some "b7")));
    reflexivity.
Defined.

Local Open Scope list_scope.

(** Neither optional group of the SemVer pattern starts on a text that does
    not begin with [-] or [+]. *)
Lemma semver_tail_skip : forall x,
  match rest x with
  | b :: _ => Ascii.eqb "-" b = false /\ Ascii.eqb "+" b = false
  | [] => True
  end ->
  matcher
    (Opt (Paren (Char "-" +++ Named "preRelease" (Plus (Class not_plus)))) +++
     Opt (Paren (Char "+" +++ Named "build" (Star (Class dot)))))%re x Some
  = Some x.
Proof.
  intros x H.
  rewrite matcher_Seq, matcher_Opt, matcher_Paren, matcher_Seq, matcher_Char_miss.
  - rewrite matcher_Opt, matcher_Paren, matcher_Seq, matcher_Char_miss; [reflexivity|].
    simpl; destruct (rest x); [exact I | tauto].
  - simpl; destruct (rest x); [exact I | tauto].
Qed.

Local Open Scope string_scope.

(** X3.  What the Ruby format renders, the SemVer format reads without its
    prerelease: the [.] that introduces it is outside the SemVer pattern. *)
Theorem semver_reads_ruby : forall v,
  exact_numbers v = true ->
  SemverVersionFormat_parse (RubyVersionFormat_format v) =
  Some (new_Version (major v) (minor v) (patch v) None None).
Proof.
  intros v _.
  set (t := list_ascii_of_string (part "." (preRelease v))).
  set (y3 := mkState (0 + List.length (rendered_core v)) t
               (triple_captures (list_ascii_of_string (render (major v)))
                  (list_ascii_of_string (render (minor v)))
                  (list_ascii_of_string (render (patch v))) ++ [])%list).
  assert (M : matcher
                (Opt (Paren (Char "-" +++ Named "preRelease" (Plus (Class not_plus)))) +++
                 Opt (Paren (Char "+" +++ Named "build" (Star (Class dot)))))%re
                y3 Some = Some y3).
  { apply semver_tail_skip; simpl; unfold t.
    destruct (part_chars "." (preRelease v)) as [E | [u E]]; rewrite E;
      [exact I | split; reflexivity]. }
  destruct (rendered_triple_headed _ v t y3 y3
              (stops_digit_one "." _ eq_refl) eq_refl M semver_tail_names)
    as [m [E [G [Ga [Gm Gc]]]]].
  unfold SemverVersionFormat_parse, SemverVersionFormat_REGEX, VERSION_REGEX.
  rewrite (of_chars _ _ (ruby_format_chars v)).
  fold t; rewrite E, <- G in *.
  rewrite (Version_of_renders m v) by assumption.
  unfold group; rewrite G; reflexivity.
Qed.

Lemma semver_reads_ruby_witness :
  SemverVersionFormat_parse
    (RubyVersionFormat_format (new_Version 1 2 3 (Some "alpha") None)) =
  Some (new_Version 1 2 3 None None).
Proof.
  apply (semver_reads_ruby (new_Version 1 2 3 (Some "alpha") None)); reflexivity.
Defined.

Lemma chars_one_line : forall s t : string,
  one_line (s ++ t) = true ->
  forallb dot (list_ascii_of_string s) = true /\
  forallb dot (list_ascii_of_string t) = true.
Proof.
  intros s t H; unfold one_line in H.
  rewrite chars_app, forallb_app in H; apply andb_prop in H; exact H.
Qed.

(** X4.  What [Version.toString] renders, the Ruby format reads with the build
    inside the prerelease; without a prerelease the build is lost. *)
Theorem ruby_reads_semver : forall v,
  exact_numbers v = true ->
  one_line (part "-" (preRelease v) ++ part "+" (build v)) = true ->
  RubyVersionFormat_parse (Version_toString v) =
  Some (new_Version (major v) (minor v) (patch v)
          (if truthy (preRelease v)
           then Some (interpolate (preRelease v) ++ part "+" (build v))
           else None)
          None).
Proof.
  intros v _ L.
  rewrite (of_chars _ _ (toString_chars v)).
  rewrite ruby_parse_rendered by apply stops_digit_tail.
  do 3 f_equal.
  destruct (preRelease v) as [p|]; simpl.
  - destruct (p =? "") eqn:Q; simpl.
    + destruct (part_chars "+" (build v)) as [E | [u E]]; rewrite E; reflexivity.
    + rewrite <- chars_app.
      simpl in L; rewrite Q in L.
      change (one_line (String "-" (p ++ part "+" (build v))) = true) in L.
      unfold one_line in L; simpl in L.
      rewrite (run_whole dot _ L).
      destruct (list_ascii_of_string (p ++ part "+" (build v))) eqn:C.
      * apply chars_nil in C; destruct p; [discriminate Q | discriminate C].
      * rewrite <- C; simpl; rewrite string_of_list_ascii_of_string; reflexivity.
  - destruct (part_chars "+" (build v)) as [E | [u E]]; rewrite E; reflexivity.
Qed.

Lemma ruby_reads_semver_witness :
  RubyVersionFormat_parse
    (Version_toString (new_Version 1 2 3 (Some "rc.1") (Some "b7"))) =
  Some (new_Version 1 2 3 (Some "rc.1+b7") None).
Proof.
  apply (ruby_reads_semver (new_Version 1 2 3 (Some "rc.1") (Some "b7")));
    reflexivity.
Defined.

Local Open Scope list_scope.

Lemma string_eqb_empty : forall w : chars,
  w <> [] -> (string_of_list_ascii w =? "")%string = false.
Proof. intros [|a w] H; [contradiction | reflexivity]. Qed.

Lemma ruby_prerelease_plain : forall z,
  plain_line (option_map string_of_list_ascii (ruby_prerelease z)) = true.
Proof.
  intros [|sep l]; [reflexivity|]; unfold ruby_prerelease.
  destruct (dot_or_dash sep); [|reflexivity].
  pose proof (run_all dot l) as A.
  destruct (run dot l) as [|a w]; [reflexivity|].
  cbn [option_map plain_line].
  rewrite string_eqb_empty by discriminate.
  unfold one_line; rewrite list_ascii_of_string_of_list_ascii, A; reflexivity.
Qed.

Local Open Scope string_scope.

(** X5.  A Version that the Ruby format has read is rendered by it to a text
    that it reads as the same Version. *)
Theorem ruby_parse_stable : forall text v,
  RubyVersionFormat_parse text = Some v ->
  exact_numbers v = true ->
  RubyVersionFormat_parse (RubyVersionFormat_format v) = Some v.
Proof.
  intros text v H _.
  destruct (Ruby_parse_sound _ _ H)
    as [u [a [b [c [z [_ [_ [_ [_ [_ [_ [_ [P B]]]]]]]]]]]]].
  rewrite ruby_parse_format by (rewrite P; apply ruby_prerelease_plain).
  destruct v; simpl in *; rewrite B; reflexivity.
Qed.

Lemma ruby_parse_stable_witness :
  RubyVersionFormat_parse
    (RubyVersionFormat_format (new_Version 1 2 3 (Some "pre.4") None)) =
  Some (new_Version 1 2 3 (Some "pre.4") None).
Proof.
  apply (ruby_parse_stable "gem 01.2.3-pre.4"); reflexivity.
Defined.

Local Open Scope list_scope.

Lemma semver_tail_sound : forall y3 y,
  reach
    (Opt (Paren (Char "-" +++ Named "preRelease" (Plus (Class not_plus)))) +++
     Opt (Paren (Char "+" +++ Named "build" (Star (Class dot)))))%re y3 y ->
  get_capture "preRelease" (caps y3) = None ->
  get_capture "build" (caps y3) = None ->
  plain_prerelease
    (option_map string_of_list_ascii (get_capture "preRelease" (caps y))) = true /\
  match get_capture "build" (caps y) with
  | Some b => forallb dot b = true
  | None => True
  end.
Proof.
  intros y3 y H Np Nb.
  apply reach_Seq_inv in H; destruct H as [y1 [H1 H2]].
  assert (P1 : plain_prerelease
                 (option_map string_of_list_ascii
                    (get_capture "preRelease" (caps y1))) = true /\
               get_capture "build" (caps y1) = None).
  { apply reach_Opt_inv in H1; destruct H1 as [-> | [H1 _]].
    - rewrite Np; split; [reflexivity | exact Nb].
    - apply reach_Paren_inv, reach_Seq_inv in H1; destruct H1 as [x1 [Hc Hn]].
      apply reach_Char_inv in Hc; destruct Hc as [t1 [_ ->]].
      apply reach_Named_inv in Hn; destruct Hn as [x2 [Hn ->]].
      apply reach_Plus_Class_inv in Hn; destruct Hn as [w [t [Nw [Pw [E ->]]]]].
      rewrite (capture_past _ _ _ _ E); cbn [caps get_capture String.eqb Ascii.eqb Bool.eqb option_map plain_prerelease].
      rewrite string_eqb_empty, list_ascii_of_string_of_list_ascii, Pw by exact Nw.
      split; [reflexivity|].
      simpl; rewrite get_capture_clear by reflexivity; exact Nb. }
  destruct P1 as [P1 B1].
  apply reach_Opt_inv in H2; destruct H2 as [-> | [H2 _]].
  - rewrite B1; split; [exact P1 | exact I].
  - apply reach_Paren_inv, reach_Seq_inv in H2; destruct H2 as [x1 [Hc Hn]].
    apply reach_Char_inv in Hc; destruct Hc as [t1 [_ ->]].
    apply reach_Named_inv in Hn; destruct Hn as [x2 [Hn ->]].
    apply reach_Star_Class_inv in Hn; destruct Hn as [w [t [Pw [E ->]]]].
    rewrite (capture_past _ _ _ _ E).
    split; [|simpl; exact Pw].
    replace (get_capture "preRelease"
               (caps (mkState (endIndex (advance (reset (Paren (Char "+" +++ Named "build" (Star (Class dot)))%re) y1) t1) + List.length w) t
                  (("build"%string, w) :: caps (advance (reset (Paren (Char "+" +++ Named "build" (Star (Class dot)))%re) y1) t1)))))
      with (get_capture "preRelease" (caps y1)); [exact P1|].
    simpl; rewrite get_capture_clear by reflexivity; reflexivity.
Qed.

Local Open Scope string_scope.

Lemma Version_of_fields : forall a b c pre bld v,
  Version_of a b c pre bld = Some v -> preRelease v = pre /\ build v = bld.
Proof.
  intros [x|] [y|] [z|] pre bld v H; try discriminate H.
  injection H as <-; split; reflexivity.
Qed.

(** What the SemVer format reads as prerelease is not empty and holds no
    [+]; what it reads as build is on one line. *)
Lemma Semver_parse_fields : forall text v,
  SemverVersionFormat_parse text = Some v ->
  plain_prerelease (preRelease v) = true /\
  match build v with
  | Some b => one_line b = true
  | None => True
  end.
Proof.
  intros text v H; unfold SemverVersionFormat_parse in H.
  destruct (exec _ text) as [m|] eqn:E; [|discriminate].
  apply Version_of_fields in H; destruct H as [-> ->].
  apply triple_headed_sound in E.
  destruct E as [u [a [b [c [y3 [y [_ [_ [_ [_ [C [R G]]]]]]]]]]]].
  destruct (semver_tail_sound y3 y R) as [P B];
    try (rewrite C; reflexivity).
  unfold group; rewrite G; split; [exact P|].
  destruct (get_capture "build" (caps y)) as [w|]; [|exact I].
  apply one_line_chars; exact B.
Qed.

(** X6.  A Version that the SemVer format has read is rendered by it to a text
    that it reads as the same Version, except that an empty build, read after
    a final [+], is not rendered and so is absent afterwards. *)
Theorem semver_parse_stable : forall text v,
  SemverVersionFormat_parse text = Some v ->
  exact_numbers v = true ->
  SemverVersionFormat_parse (SemverVersionFormat_format v) =
  Some (new_Version (major v) (minor v) (patch v) (preRelease v)
          (if truthy (build v) then build v else None)).
Proof.
  intros text v H _.
  destruct (Semver_parse_fields _ _ H) as [P B].
  change (SemverVersionFormat_format v) with (Version_toString v).
  set (v' := new_Version (major v) (minor v) (patch v) (preRelease v)
               (if truthy (build v) then build v else None)).
  assert (T : Version_toString v = Version_toString v').
  { unfold Version_toString, v'; simpl.
    destruct (build v) as [b|]; [|reflexivity]; simpl.
    destruct (b =? "") eqn:Q; simpl; rewrite ?Q; reflexivity. }
  rewrite T; apply semver_parse_rendering; [exact P|].
  unfold v'; simpl.
  destruct (build v) as [b|]; [|reflexivity]; simpl.
  destruct (b =? "") eqn:Q; simpl; [reflexivity|].
  rewrite Q; exact B.
Qed.

Lemma semver_parse_stable_witness :
  SemverVersionFormat_parse
    (SemverVersionFormat_format (new_Version 1 2 3 (Some "rc.1") (Some ""))) =
  Some (new_Version 1 2 3 (Some "rc.1") None).
Proof.
  apply (semver_parse_stable "v01.2.3-rc.1+"); reflexivity.
Defined.

Local Open Scope list_scope.

(** ** The first match of a greedy class that has to give back *)

Lemma repeat_class_step : forall p k n x,
  repeat_loop (matcher (Class p)) (reset (Class p)) (S n) x k =
  match rest x with
  | b :: t =>
      if p b
      then match repeat_loop (matcher (Class p)) (reset (Class p)) n
                   (advance x t) k with
           | Some z => Some z
           | None => k x
           end
      else k x
  | [] => k x
  end.
Proof.
  intros p k n x; cbn [repeat_loop].
  rewrite reset_no_names, matcher_Class by reflexivity.
  destruct (rest x) as [|b t]; [reflexivity|].
  destruct (p b); [|reflexivity].
  replace (Nat.eqb (endIndex (advance x t)) (endIndex x)) with false;
    [reflexivity|].
  symmetry; apply Nat.eqb_neq; cbn [advance endIndex]; lia.
Qed.

(** A greedy loop over a class fails when the continuation refuses every
    prefix of the class. *)
Lemma repeat_class_none : forall p k n x,
  (forall w t, rest x = w ++ t -> forallb p w = true -> k (past x w t) = None) ->
  repeat_loop (matcher (Class p)) (reset (Class p)) n x k = None.
Proof.
  intros p k; induction n as [|n IH]; intros x H.
  - cbn [repeat_loop]; rewrite <- (past_nil x); apply H; reflexivity.
  - rewrite repeat_class_step.
    assert (K : k x = None) by (rewrite <- (past_nil x); apply H; reflexivity).
    destruct (rest x) as [|b t] eqn:E; [exact K|].
    destruct (p b) eqn:Q; [|exact K].
    rewrite IH; [exact K|].
    intros w t' E' Pw; cbn [advance rest] in E'.
    rewrite (advance_past x b), past_past.
    apply H; [rewrite E'; reflexivity | simpl; rewrite Q; exact Pw].
Qed.

(** It stops at the longest prefix of the class that the continuation
    accepts. *)
Lemma repeat_class_first : forall p k y w n x t,
  rest x = w ++ t -> List.length (rest x) <= n -> forallb p w = true ->
  k (past x w t) = Some y ->
  (forall w1 t1, w1 <> [] -> t = w1 ++ t1 -> forallb p w1 = true ->
     k (past x (w ++ w1) t1) = None) ->
  repeat_loop (matcher (Class p)) (reset (Class p)) n x k = Some y.
Proof.
  intros p k y; induction w as [|a w IH]; intros n x t E L Pw K N.
  - simpl in E; rewrite <- E, past_nil in K.
    destruct n as [|n]; [exact K|].
    rewrite repeat_class_step.
    destruct (rest x) as [|b t'] eqn:E'; [exact K|].
    destruct (p b) eqn:Q; [|exact K].
    rewrite repeat_class_none; [exact K|].
    intros w1 t1 E1 P1; cbn [advance rest] in E1.
    rewrite (advance_past x b), past_past.
    apply (N (b :: w1) t1); [discriminate | | simpl; rewrite Q; exact P1].
    rewrite <- E, E1; reflexivity.
  - simpl in Pw; apply andb_prop in Pw; destruct Pw as [Q Pw].
    destruct n as [|n]; [rewrite E in L; simpl in L; lia|].
    rewrite repeat_class_step, E; simpl app; cbn iota; rewrite Q.
    rewrite (IH n (advance x (w ++ t)) t); [reflexivity | reflexivity | | exact Pw | | ].
    + rewrite E in L; simpl in L |- *; lia.
    + rewrite (advance_past x a), past_past; exact K.
    + intros w1 t1 N1 E1 P1.
      rewrite (advance_past x a), past_past; apply (N w1 t1); assumption.
Qed.

Lemma named_plus_first : forall n p k x w t y,
  rest x = w ++ t -> w <> [] -> forallb p w = true ->
  k (mkState (endIndex x + List.length w) t ((n, w) :: caps x)) = Some y ->
  (forall w1 t1, w1 <> [] -> t = w1 ++ t1 -> forallb p w1 = true ->
     k (mkState (endIndex x + List.length (w ++ w1)) t1 ((n, w ++ w1) :: caps x))
     = None) ->
  matcher (Named n (Plus (Class p))) x k = Some y.
Proof.
  intros n p k x [|a w] t y E Hw Pw K N; [contradiction|].
  simpl in Pw; apply andb_prop in Pw; destruct Pw as [Q Pw].
  rewrite matcher_Named; cbn [matcher].
  rewrite reset_no_names, E by reflexivity; simpl app; cbn iota; rewrite Q.
  cbn [advance rest].
  apply (repeat_class_first p _ y w _ (advance x (w ++ t)) t);
    [reflexivity | apply le_n | exact Pw | |].
  - rewrite (advance_past x a), past_past.
    change ([a] ++ w) with (a :: w).
    rewrite (capture_past n x _ t E); exact K.
  - intros w1 t1 N1 E1 P1.
    rewrite (advance_past x a), past_past.
    change ([a] ++ w ++ w1) with ((a :: w) ++ w1).
    rewrite (capture_past n x ((a :: w) ++ w1) t1)
      by (rewrite E, E1, <- app_assoc; reflexivity).
    apply (N w1 t1); assumption.
Qed.

(** ** Branch names: what the builders and [parse] give back *)

Lemma two_captures_exact : forall lit1 lit2 n1 n2 b c,
  b <> [] -> c <> [] -> forallb dot b = true -> forallb dot c = true ->
  found_once (list_ascii_of_string lit2) c ->
  exists m,
    exec (Bol +++ Str RELEASE_PLEASE +++ Str lit1 +++
          Named n1 (Plus (Class dot)) +++ Str lit2 +++
          Named n2 (Plus (Class dot)) +++ Eol)%re
      (string_of_list_ascii
         (list_ascii_of_string RELEASE_PLEASE ++ list_ascii_of_string lit1 ++
          b ++ list_ascii_of_string lit2 ++ c)) = Some m /\
    groups_of m = [(n2, c); (n1, b)].
Proof.
  intros lit1 lit2 n1 n2 b c Hb Hc Db Dc F.
  set (rp := list_ascii_of_string RELEASE_PLEASE).
  set (l1 := list_ascii_of_string lit1).
  set (l2 := list_ascii_of_string lit2) in *.
  set (x0 := mkState 0 (rp ++ l1 ++ b ++ l2 ++ c) []).
  set (x1 := past (past x0 rp (l1 ++ b ++ l2 ++ c)) l1 (b ++ l2 ++ c)).
  set (K := fun y => matcher (Str lit2 +++ Named n2 (Plus (Class dot)) +++ Eol)%re
                       y Some).
  set (y1 := mkState (endIndex x1 + List.length b) (l2 ++ c) ((n1, b) :: caps x1)).
  set (y2 := past y1 l2 c).
  set (y3 := mkState (endIndex y2 + List.length c) [] ((n2, c) :: caps y2)).
  assert (K1 : K y1 = Some y3).
  { unfold K, Str; fold l2.
    rewrite matcher_Seq, (matcher_Lit l2 y1 c) by reflexivity.
    fold y2; rewrite matcher_Seq.
    rewrite (named_plus_run n2 dot _ y2 c []); auto;
      try (rewrite app_nil_r; reflexivity); try exact I; try reflexivity.
    discriminate. }
  assert (M : matcher (Bol +++ Str RELEASE_PLEASE +++ Str lit1 +++
                       Named n1 (Plus (Class dot)) +++ Str lit2 +++
                       Named n2 (Plus (Class dot)) +++ Eol)%re x0 Some = Some y3).
  { rewrite matcher_Seq; cbn [matcher endIndex x0 Nat.eqb].
    fold x0; unfold Str; fold rp l1.
    rewrite (matcher_Lit rp x0 (l1 ++ b ++ l2 ++ c)) by reflexivity.
    rewrite (matcher_Lit l1 _ (b ++ l2 ++ c)) by reflexivity.
    fold x1.
    apply (named_plus_first n1 dot K x1 b (l2 ++ c) y3); auto.
    intros w1 t1 N1 E1 P1.
    destruct (K (mkState (endIndex x1 + List.length (b ++ w1)) t1
                   ((n1, b ++ w1) :: caps x1))) as [z|] eqn:Z; [|reflexivity].
    exfalso; unfold K in Z.
    apply matcher_sound in Z; destruct Z as [y [R _]].
    reach_inv R.
    cbn [rest] in *; fold l2 in E; subst t1.
    cbn [rest past] in E0; rewrite E0 in E1.
    apply (F w1 (w ++ t0)); [exact N1 | | exact E1].
    destruct w; [contradiction | discriminate]. }
  exists (mkMatch 0 (endIndex y3) (caps y3)); split; [|reflexivity].
  unfold exec; rewrite list_ascii_of_string_of_list_ascii.
  fold rp l1 l2; rewrite (search_at_start _ _ _ M); reflexivity.
Qed.

Lemma has_double_dash_app : forall l r,
  has_double_dash (l ++ "-"%char :: "-"%char :: r) = true.
Proof.
  induction l as [|a l IH]; intros r; [reflexivity|].
  specialize (IH r).
  change ((a :: l) ++ "-"%char :: "-"%char :: r)
    with (a :: (l ++ "-"%char :: "-"%char :: r)).
  destruct (l ++ "-"%char :: "-"%char :: r) as [|b q] eqn:E.
  - destruct l; discriminate.
  - rewrite has_double_dash_cons, IH; apply orb_true_r.
Qed.

(** A text without two dashes in a row does not hold a literal that ends
    with two dashes. *)
Lemma found_once_dashes : forall lit0 c,
  (forall a r1 r2,
     lit0 ++ "-"%char :: "-"%char :: r1 = a :: lit0 ++ "-"%char :: "-"%char :: r2 ->
     False) ->
  has_double_dash c = false ->
  found_once (lit0 ++ ["-"; "-"]%char) c.
Proof.
  intros lit0 c H1 D w r Nw _ E.
  rewrite <- !app_assoc in E; simpl in E.
  destruct w as [|a1 [|a2 w]]; [contradiction | exact (H1 _ _ _ E) |].
  replace ((a1 :: a2 :: w) ++ lit0 ++ "-"%char :: "-"%char :: r)
    with (((a1 :: a2 :: w) ++ lit0) ++ "-"%char :: "-"%char :: r) in E
    by (rewrite <- app_assoc; reflexivity).
  replace (lit0 ++ "-"%char :: "-"%char :: c)
    with ((lit0 ++ ["-"; "-"]%char) ++ c) in E
    by (rewrite <- app_assoc; reflexivity).
  apply app_eq_app in E; destruct E as [l [[E1 E2] | [E1 E2]]].
  - destruct l as [|e l].
    + simpl in E2; rewrite <- E2 in D.
      pose proof (has_double_dash_app [] r) as X; simpl app in X.
      rewrite X in D; discriminate.
    + apply (f_equal (@List.length ascii)) in E1.
      rewrite !length_app in E1; simpl in E1; rewrite ?length_app in E1;
        simpl in E1; lia.
  - rewrite E2, has_double_dash_app in D; discriminate.
Qed.

Lemma found_once_components : forall c,
  has_double_dash c = false ->
  found_once (list_ascii_of_string "--components--") c.
Proof.
  intros c D.
  apply (found_once_dashes (list_ascii_of_string "--components") c); [|exact D].
  intros a r1 r2 E; simpl in E; congruence.
Qed.

Lemma found_once_groups : forall c,
  has_double_dash c = false ->
  found_once (list_ascii_of_string "--groups--") c.
Proof.
  intros c D.
  apply (found_once_dashes (list_ascii_of_string "--groups") c); [|exact D].
  intros a r1 r2 E; simpl in E; congruence.
Qed.

Lemma one_capture_sound : forall lit1 n p s m,
  exec (Bol +++ Str RELEASE_PLEASE +++ Str lit1 +++
        Named n (Plus (Class p)) +++ Eol)%re s = Some m ->
  exists b,
    list_ascii_of_string s =
      list_ascii_of_string RELEASE_PLEASE ++ list_ascii_of_string lit1 ++ b /\
    b <> [] /\ forallb p b = true /\ groups_of m = [(n, b)].
Proof.
  intros lit1 n p s m H.
  apply exec_anchored_sound in H; destruct H as [y [H G]].
  reach_inv H.
  simpl in G; simpl rest in *; subst.
  rewrite app_nil_r in *.
  exists w; repeat split; assumption.
Qed.

Lemma one_capture_complete : forall lit1 n p b,
  b <> [] -> forallb p b = true ->
  exec (Bol +++ Str RELEASE_PLEASE +++ Str lit1 +++
        Named n (Plus (Class p)) +++ Eol)%re
    (string_of_list_ascii
       (list_ascii_of_string RELEASE_PLEASE ++ list_ascii_of_string lit1 ++ b))
  <> None.
Proof.
  intros lit1 n p b Hb Db.
  replace b with (b ++ []) by apply app_nil_r.
  eapply exec_anchored_complete.
  rewrite list_ascii_of_string_of_list_ascii.
  eapply reach_Seq; [unfold Str; apply reach_Lit_intro; reflexivity|].
  eapply reach_Seq; [unfold Str; apply reach_Lit_intro; reflexivity|].
  eapply reach_Seq.
  { apply reach_Named. apply reach_Plus_Class_intro; [exact Hb | exact Db | reflexivity]. }
  apply reach_Eol; reflexivity.
Qed.

Lemma slashed_captures_sound : forall s m,
  exec V12_COMPONENT_PATTERN s = Some m ->
  exists b c,
    list_ascii_of_string s =
      list_ascii_of_string RELEASE_PLEASE ++ list_ascii_of_string "/branches/" ++
      b ++ list_ascii_of_string "/components/" ++ c /\
    b <> [] /\ c <> [] /\ forallb not_slash b = true /\ forallb dot c = true /\
    groups_of m = [("component"%string, c); ("branch"%string, b)].
Proof.
  intros s m H.
  apply exec_anchored_sound in H; destruct H as [y [H G]].
  reach_inv H.
  simpl in G; simpl rest in *; subst.
  rewrite app_nil_r in *.
  exists w, w0; repeat split; assumption.
Qed.

Local Open Scope string_scope.

Lemma prefixed_string : forall (lit1 : string) (b : chars),
  string_of_list_ascii
    (list_ascii_of_string RELEASE_PLEASE ++ list_ascii_of_string lit1 ++ b)%list =
  RELEASE_PLEASE ++ lit1 ++ string_of_list_ascii b.
Proof.
  intros; rewrite !string_app, !string_of_list_ascii_of_string; reflexivity.
Qed.

(** The five classes of release-please names: the instance built from a
    name that the class matches spells the name. *)
Lemma construct_spells : forall c s f b,
  c <> AutoreleaseBranchName ->
  matches c s = true -> construct c s f = Normal b ->
  BranchName_toString b = s.
Proof.
  intros c s f b Hc M C; destruct c; [contradiction Hc; reflexivity | | | | |];
    simpl in C; injection C as <-; unfold matches in M; apply test_true in M.
  - unfold new_ComponentBranchName.
    destruct (exec COMPONENT_PATTERN s) as [m|] eqn:E; [|contradiction].
    apply two_captures_sound in E; destruct E as [b [c [Es [_ [_ [_ [_ G]]]]]]].
    unfold BranchName_toString, group; simpl; rewrite G; simpl.
    apply of_chars in Es; rewrite Es, !string_app, !string_of_list_ascii_of_string.
    reflexivity.
  - unfold new_GroupBranchName.
    destruct (exec GROUP_PATTERN s) as [m|] eqn:E; [|contradiction].
    apply two_captures_sound in E; destruct E as [b [c [Es [_ [_ [_ [_ G]]]]]]].
    unfold BranchName_toString, group; simpl; rewrite G; simpl.
    apply of_chars in Es; rewrite Es, !string_app, !string_of_list_ascii_of_string.
    reflexivity.
  - unfold new_DefaultBranchName.
    destruct (exec DEFAULT_PATTERN s) as [m|] eqn:E; [|contradiction].
    apply one_capture_sound in E; destruct E as [b [Es [_ [_ G]]]].
    unfold BranchName_toString, group; simpl; rewrite G; simpl.
    apply of_chars in Es; rewrite Es, !string_app, !string_of_list_ascii_of_string.
    reflexivity.
  - unfold new_V12ComponentBranchName.
    destruct (exec V12_COMPONENT_PATTERN s) as [m|] eqn:E; [|contradiction].
    apply slashed_captures_sound in E; destruct E as [b [c [Es [_ [_ [_ [_ G]]]]]]].
    unfold BranchName_toString, group; simpl; rewrite G; simpl.
    apply of_chars in Es; rewrite Es, !string_app, !string_of_list_ascii_of_string.
    reflexivity.
  - unfold new_V12DefaultBranchName.
    destruct (exec V12_DEFAULT_PATTERN s) as [m|] eqn:E; [|contradiction].
    apply one_capture_sound in E; destruct E as [b [Es [_ [_ G]]]].
    unfold BranchName_toString, group; simpl; rewrite G; simpl.
    apply of_chars in Es; rewrite Es, !string_app, !string_of_list_ascii_of_string.
    reflexivity.
Qed.

Lemma parse_inv : forall s f b w,
  BranchName_parse s f = (Some b, w) ->
  w = [] /\ matches (clazz b) s = true /\ construct (clazz b) s f = Normal b.
Proof.
  intros s f b w H; unfold BranchName_parse in H.
  destruct (find _ getAllResourceNames) as [c|] eqn:F; [|discriminate].
  apply find_some in F; destruct F as [_ M].
  destruct (construct c s f) as [b'|e] eqn:C; [|discriminate].
  assert (b' = b /\ w = []) as [-> ->].
  { destruct c; try (injection H as <- <-; split; reflexivity).
    destruct (version b'); [injection H as <- <-; split; reflexivity | discriminate]. }
  rewrite (construct_clazz _ _ _ _ C); auto.
Qed.

(** X7.  A name that [BranchName.parse] resolves to one of the five
    release-please classes is rendered back, by [toString], to the very name,
    and nothing is logged. *)
Theorem release_please_name_round_trip : forall s f b w,
  BranchName_parse s f = (Some b, w) ->
  clazz b <> AutoreleaseBranchName ->
  BranchName_toString b = s /\ w = [].
Proof.
  intros s f b w H Hc.
  destruct (parse_inv _ _ _ _ H) as [-> [M C]].
  split; [|reflexivity].
  apply (construct_spells _ _ _ _ Hc M C).
Qed.

Lemma release_please_name_round_trip_witness :
  BranchName_toString
    (mkBranchName V12ComponentBranchName (Some "pkg/a") (Some "main") None None) =
    "release-please/branches/main/components/pkg/a" /\
  @nil warning = [].
Proof.
  apply (release_please_name_round_trip
           "release-please/branches/main/components/pkg/a" None);
    [vm_compute; reflexivity | discriminate].
Defined.

Lemma one_line_forallb : forall s : string,
  one_line s = true -> forallb dot (list_ascii_of_string s) = true.
Proof. intros s H; exact H. Qed.

(** X8.  [ofComponentTargetBranch(c, t)] holds [c] and [t] and spells the name
    that was built, for a non-empty component and target branch without line
    terminator, when the component holds no two dashes in a row: the target
    branch is read greedily, up to the last ['--components--']. *)
Theorem component_target_builder : forall c t,
  c <> "" -> t <> "" -> one_line c = true -> one_line t = true ->
  has_double_dash (list_ascii_of_string c) = false ->
  BranchName_ofComponentTargetBranch c t =
    mkBranchName ComponentBranchName (Some c) (Some t) None None /\
  BranchName_toString (BranchName_ofComponentTargetBranch c t) =
    RELEASE_PLEASE ++ "--branches--" ++ t ++ "--components--" ++ c.
Proof.
  intros c t Hc Ht Lc Lt D.
  assert (E : BranchName_ofComponentTargetBranch c t =
              mkBranchName ComponentBranchName (Some c) (Some t) None None).
  { unfold BranchName_ofComponentTargetBranch, new_ComponentBranchName.
    rewrite <- delimited_string.
    destruct (two_captures_exact "--branches--" "--components--" "branch" "component"
                (list_ascii_of_string t) (list_ascii_of_string c))
      as [m [Em G]];
      auto using chars_not_nil, found_once_components.
    unfold COMPONENT_PATTERN; rewrite Em.
    unfold group; rewrite G; simpl.
    rewrite !string_of_list_ascii_of_string; reflexivity. }
  rewrite E; split; reflexivity.
Qed.

Lemma component_target_builder_witness :
  BranchName_ofComponentTargetBranch "pkg-a" "release--components--1.x" =
    mkBranchName ComponentBranchName (Some "pkg-a")
      (Some "release--components--1.x") None None /\
  BranchName_toString
    (BranchName_ofComponentTargetBranch "pkg-a" "release--components--1.x") =
    RELEASE_PLEASE ++ "--branches--" ++ "release--components--1.x" ++
    "--components--" ++ "pkg-a".
Proof.
  apply (component_target_builder "pkg-a" "release--components--1.x");
    try discriminate; reflexivity.
Defined.

(** X9.  [ofGroupTargetBranch(g, t)] holds the sanitized group and [t], for
    every non-empty group and every non-empty target branch without line
    terminator: the sanitized group holds no two dashes in a row, so no
    ['--groups--'] after the one that was written. *)
Theorem group_target_builder : forall g t,
  g <> "" -> t <> "" -> one_line t = true ->
  BranchName_ofGroupTargetBranch g t =
    mkBranchName GroupBranchName (Some (safeBranchName g)) (Some t) None None.
Proof.
  intros g t Hg Ht Lt.
  unfold BranchName_ofGroupTargetBranch, new_GroupBranchName.
  rewrite <- delimited_string.
  destruct (two_captures_exact "--branches--" "--groups--" "branch" "group"
              (list_ascii_of_string t) (list_ascii_of_string (safeBranchName g)))
    as [m [Em G]];
    auto using chars_not_nil, safeBranchName_nonempty.
  - apply one_line_forallb, safeBranchName_one_line.
  - apply found_once_groups.
    rewrite safeBranchName_passes, list_ascii_of_string_of_list_ascii.
    apply collapse_no_double_dash.
  - unfold GROUP_PATTERN; rewrite Em.
    unfold group; rewrite G; simpl.
    rewrite !string_of_list_ascii_of_string; reflexivity.
Qed.

Lemma group_target_builder_witness :
  BranchName_ofGroupTargetBranch "a/b//c" "main--groups--x" =
    mkBranchName GroupBranchName (Some (safeBranchName "a/b//c"))
      (Some "main--groups--x") None None.
Proof.
  apply (group_target_builder "a/b//c" "main--groups--x");
    try discriminate; reflexivity.
Defined.

(** X10.  [ofTargetBranch(t)] holds [t] exactly when [t] is not empty and
    holds no line terminator; otherwise the pattern does not match the name
    that was built, the instance has no target branch and [toString] spells
    ['undefined'] in its place. *)
Theorem target_builder : forall t,
  BranchName_ofTargetBranch t =
    mkBranchName DefaultBranchName None
      (if negb (t =? "") && one_line t then Some t else None) None None /\
  BranchName_toString (BranchName_ofTargetBranch t) =
    RELEASE_PLEASE ++ "--branches--" ++
    (if negb (t =? "") && one_line t then t else "undefined").
Proof.
  intros t.
  assert (E : BranchName_ofTargetBranch t =
              mkBranchName DefaultBranchName None
                (if negb (t =? "") && one_line t then Some t else None) None None).
  { unfold BranchName_ofTargetBranch, new_DefaultBranchName.
    destruct (exec DEFAULT_PATTERN _) as [m|] eqn:Em.
    - apply one_capture_sound in Em; destruct Em as [b [Es [Hb [Db G]]]].
      rewrite !chars_app in Es.
      apply app_inv_head in Es; apply app_inv_head in Es.
      unfold group; rewrite G; simpl; rewrite <- Es.
      rewrite string_of_list_ascii_of_string.
      unfold one_line; rewrite Es, Db.
      destruct t; [simpl in Es; subst b; contradiction | reflexivity].
    - destruct (negb (t =? "") && one_line t) eqn:Q; [|reflexivity].
      apply andb_prop in Q; destruct Q as [N L].
      exfalso; revert Em.
      pose proof (one_capture_complete "--branches--" "branch" dot
                    (list_ascii_of_string t)) as C.
      rewrite prefixed_string, string_of_list_ascii_of_string in C.
      apply C; [|exact L].
      apply chars_not_nil; intros ->; discriminate N. }
  rewrite E; split; [reflexivity|].
  destruct (negb (t =? "") && one_line t); reflexivity.
Qed.

(** X11.  [BranchName.parse] returns an instance only for a name that
    [isReleasePleaseBranch] accepts; the names that pass this check and are
    not parsed are names of the Autorelease shape. *)
Theorem structural_check : forall s f,
  isReleasePleaseBranch s =
  match BranchName_parse s f with
  | (Some _, _) => true
  | (None, _) => matches AutoreleaseBranchName s
  end.
Proof.
  intros s f; unfold isReleasePleaseBranch, BranchName_parse, getAllResourceNames.
  cbn [existsb find].
  destruct (matches AutoreleaseBranchName s) eqn:A.
  - cbn [orb].
    destruct (construct AutoreleaseBranchName s f) as [b|e]; [|reflexivity].
    destruct (version b); reflexivity.
  - cbn [orb].
    destruct (matches ComponentBranchName s); [reflexivity|].
    destruct (matches GroupBranchName s); [reflexivity|].
    destruct (matches DefaultBranchName s); [reflexivity|].
    destruct (matches V12ComponentBranchName s); [reflexivity|].
    destruct (matches V12DefaultBranchName s); reflexivity.
Qed.

Local Open Scope list_scope.

Lemma dashed_shape : forall c s,
  dashed c = true -> matches c s = true ->
  exists x, x <> [] /\ forallb dot x = true /\
    list_ascii_of_string s =
    list_ascii_of_string RELEASE_PLEASE ++ list_ascii_of_string "--branches--" ++ x.
Proof.
  intros c s D M; destruct c; try discriminate D;
    unfold matches in M; apply test_true in M.
  - destruct (exec COMPONENT_PATTERN s) as [m|] eqn:E; [|contradiction].
    apply two_captures_sound in E; destruct E as [b [c [Es [Hb [_ [Db [Dc _]]]]]]].
    exists (b ++ list_ascii_of_string "--components--" ++ c); split; [|split].
    + destruct b; [contradiction | discriminate].
    + rewrite !forallb_app, Db, Dc; reflexivity.
    + exact Es.
  - destruct (exec GROUP_PATTERN s) as [m|] eqn:E; [|contradiction].
    apply two_captures_sound in E; destruct E as [b [c [Es [Hb [_ [Db [Dc _]]]]]]].
    exists (b ++ list_ascii_of_string "--groups--" ++ c); split; [|split].
    + destruct b; [contradiction | discriminate].
    + rewrite !forallb_app, Db, Dc; reflexivity.
    + exact Es.
  - destruct (exec DEFAULT_PATTERN s) as [m|] eqn:E; [|contradiction].
    apply one_capture_sound in E; destruct E as [b [Es [Hb [Db _]]]].
    exists b; auto.
Qed.

Lemma slashed_shape : forall c s,
  c = V12ComponentBranchName \/ c = V12DefaultBranchName ->
  matches c s = true ->
  exists x,
    list_ascii_of_string s =
    list_ascii_of_string RELEASE_PLEASE ++ list_ascii_of_string "/branches/" ++ x.
Proof.
  intros c s [-> | ->] M; unfold matches in M; apply test_true in M.
  - destruct (exec V12_COMPONENT_PATTERN s) as [m|] eqn:E; [|contradiction].
    apply slashed_captures_sound in E; destruct E as [b [c [Es _]]].
    eexists; exact Es.
  - destruct (exec V12_DEFAULT_PATTERN s) as [m|] eqn:E; [|contradiction].
    apply one_capture_sound in E; destruct E as [b [Es _]].
    eexists; exact Es.
Qed.

Lemma autorelease_shape : forall s,
  matches AutoreleaseBranchName s = true ->
  prefix RELEASE_PLEASE_BRANCH_PREFIX s = false /\
  exists dash c t,
    list_ascii_of_string s =
      list_ascii_of_string "release" ++ dash ++ c ++ "-"%char :: "v"%char :: t /\
    (dash = [] \/ dash = ["-"%char]) /\ forallb word_dash_dot c = true.
Proof.
  intros s M; unfold matches in M.
  destruct (prefix RELEASE_PLEASE_BRANCH_PREFIX s); [discriminate|].
  split; [reflexivity|].
  apply test_true in M.
  destruct (exec AUTORELEASE_PATTERN s) as [m|] eqn:E; [|contradiction].
  destruct (autorelease_sound _ _ E) as [dash [c [d [vs [Es [Hd [Dc _]]]]]]].
  exists dash, c, (d :: vs); auto.
Qed.

Lemma prefix_chars : forall p s x,
  list_ascii_of_string s = list_ascii_of_string p ++ x -> prefix p s = true.
Proof.
  induction p as [|a p IH]; intros s x E; [destruct s; reflexivity|].
  destruct s as [|b s]; [discriminate|].
  simpl in E; injection E as -> E.
  simpl; destruct (Ascii.ascii_dec a a) as [_|N]; [apply (IH s x E) | contradiction].
Qed.

(** No text has the Autorelease shape and starts with ['release-please/']. *)
Lemma autorelease_not_slashed : forall dash c t x,
  dash = [] \/ dash = ["-"%char] -> forallb word_dash_dot c = true ->
  list_ascii_of_string "release" ++ dash ++ c ++ "-"%char :: "v"%char :: t =
  list_ascii_of_string RELEASE_PLEASE ++ list_ascii_of_string "/branches/" ++ x ->
  False.
Proof.
  intros dash c t x Hd Dc E; simpl in E.
  repeat (injection E as E).
  destruct Hd as [-> | ->]; simpl in E;
    repeat (destruct c as [|? c];
            [simpl in E; discriminate E
            | simpl in E; injection E as -> E;
              simpl in Dc; try discriminate Dc]).
Qed.

Lemma autorelease_alone : forall s c,
  matches AutoreleaseBranchName s = true -> matches c s = true ->
  c = AutoreleaseBranchName.
Proof.
  intros s c A M.
  destruct (autorelease_shape s A) as [P [dash [cc [t [Es [Hd Dc]]]]]].
  assert (D : dashed c = true -> False).
  { intros D; destruct (dashed_shape c s D M) as [x [_ [_ Ex]]].
    rewrite (prefix_chars RELEASE_PLEASE_BRANCH_PREFIX s ("-"%char :: "-"%char :: x)) in P;
      [discriminate P | rewrite Ex; reflexivity]. }
  assert (V : c = V12ComponentBranchName \/ c = V12DefaultBranchName -> False).
  { intros V; destruct (slashed_shape c s V M) as [x Ex].
    rewrite Es in Ex; exact (autorelease_not_slashed _ _ _ _ Hd Dc Ex). }
  destruct c; try reflexivity; exfalso; auto.
Qed.

Lemma dashed_not_slashed : forall s c1 c2,
  dashed c1 = true -> c2 = V12ComponentBranchName \/ c2 = V12DefaultBranchName ->
  matches c1 s = true -> matches c2 s = true -> False.
Proof.
  intros s c1 c2 D V M1 M2.
  destruct (dashed_shape c1 s D M1) as [x [_ [_ Ex]]].
  destruct (slashed_shape c2 s V M2) as [x' Ex'].
  rewrite Ex in Ex'; apply app_inv_head in Ex'; discriminate Ex'.
Qed.

Lemma slashed_apart : forall s,
  matches V12ComponentBranchName s = true ->
  matches V12DefaultBranchName s = true -> False.
Proof.
  intros s M1 M2; unfold matches in *; apply test_true in M1, M2.
  destruct (exec V12_COMPONENT_PATTERN s) as [m1|] eqn:E1; [|contradiction].
  destruct (exec V12_DEFAULT_PATTERN s) as [m2|] eqn:E2; [|contradiction].
  apply slashed_captures_sound in E1; destruct E1 as [b [c [Es _]]].
  apply one_capture_sound in E2; destruct E2 as [b' [Es' [_ [Db' _]]]].
  rewrite Es in Es'; apply app_inv_head in Es'; apply app_inv_head in Es'.
  rewrite <- Es', forallb_app in Db'; simpl in Db'.
  rewrite andb_false_r in Db'; discriminate.
Qed.

Local Open Scope string_scope.

(** X12.  Two different classes match the same name only among the Component,
    Group and Default classes, and there the Default class matches every name
    that one of the other two matches: elsewhere the order of
    [getAllResourceNames] decides nothing. *)
Theorem class_overlaps :
  (forall s c1 c2,
     matches c1 s = true -> matches c2 s = true ->
     c1 = c2 \/ (dashed c1 = true /\ dashed c2 = true)) /\
  (forall s c,
     dashed c = true -> matches c s = true ->
     matches DefaultBranchName s = true).
Proof.
  split.
  - intros s c1 c2 M1 M2.
    destruct c1, c2; try (left; reflexivity); try (right; split; reflexivity);
      exfalso;
      try (pose proof (autorelease_alone s _ M1 M2) as X; discriminate X);
      try (pose proof (autorelease_alone s _ M2 M1) as X; discriminate X);
      try (solve [eapply (dashed_not_slashed s); [ | | exact M1 | exact M2];
                  [reflexivity | first [left; reflexivity | right; reflexivity]]]);
      try (solve [eapply (dashed_not_slashed s); [ | | exact M2 | exact M1];
                  [reflexivity | first [left; reflexivity | right; reflexivity]]]);
      try (apply (slashed_apart s M1 M2));
      try (apply (slashed_apart s M2 M1)).
  - intros s c D M.
    destruct (dashed_shape c s D M) as [x [Hx [Dx Ex]]].
    unfold matches; apply test_true.
    rewrite (of_chars _ _ Ex); apply one_capture_complete; assumption.
Qed.

Lemma class_overlaps_witness :
  ComponentBranchName = DefaultBranchName \/
  (dashed ComponentBranchName = true /\ dashed DefaultBranchName = true).
Proof.
  apply (proj1 class_overlaps "release-please--branches--main--components--x");
    vm_compute; reflexivity.
Defined.

Lemma release_v_not_prefixed : forall t,
  prefix RELEASE_PLEASE_BRANCH_PREFIX ("release-v" ++ t) = false.
Proof. intros t; destruct t; reflexivity. Qed.

(** [ofVersion] and [parse] on the name of a version that the format reads
    back. *)
Lemma autorelease_of_version : forall f v v',
  version_tail (format f v) = true ->
  has_dash_v_digit (list_ascii_of_string (format f v)) = false ->
  parse f (format f v) = Normal (Some v') ->
  BranchName_ofVersion v f =
    Normal (mkBranchName AutoreleaseBranchName None None (Some v') (Some f)) /\
  BranchName_parse ("release-v" ++ format f v) (Some f) =
    (Some (mkBranchName AutoreleaseBranchName None None (Some v') (Some f)), []).
Proof.
  intros f v v' T N P.
  destruct (autorelease_plain _ T N) as [m [E [C V]]].
  assert (B : new_AutoreleaseBranchName ("release-v" ++ format f v) (Some f) =
              Normal (mkBranchName AutoreleaseBranchName None None (Some v') (Some f))).
  { unfold new_AutoreleaseBranchName; rewrite E, V, P, C; reflexivity. }
  split; [exact B|].
  unfold BranchName_parse, getAllResourceNames; cbn [find].
  assert (M : matches AutoreleaseBranchName ("release-v" ++ format f v) = true).
  { unfold matches; rewrite release_v_not_prefixed.
    apply test_true; rewrite E; discriminate. }
  rewrite M; cbn [construct]; rewrite B; reflexivity.
Qed.

Lemma version_tail_rendered : forall v (t : string),
  one_line t = true ->
  list_ascii_of_string t =
    (rendered_core v ++
     list_ascii_of_string (string_of_list_ascii
                             (skipn (List.length (rendered_core v))
                                (list_ascii_of_string t))))%list ->
  version_tail t = true.
Proof.
  intros v t L E; unfold version_tail.
  unfold one_line in L.
  destruct (rendered_digits (major v)) as [N D].
  rewrite E in L |- *; unfold rendered_core, triple_text in *.
  destruct (list_ascii_of_string (render (major v))) as [|d r]; [contradiction|].
  simpl in D, L |- *.
  apply andb_prop in D; destruct D as [-> _].
  apply andb_prop in L; destruct L as [_ ->]; reflexivity.
Qed.

Lemma rendered_prefix : forall (t : string) core tail,
  list_ascii_of_string t = (core ++ tail)%list ->
  list_ascii_of_string t =
    (core ++
     list_ascii_of_string (string_of_list_ascii
                             (skipn (List.length core) (list_ascii_of_string t))))%list.
Proof.
  intros t core tail E.
  rewrite list_ascii_of_string_of_list_ascii, E at 1.
  rewrite E, skipn_app, skipn_all, Nat.sub_diag; reflexivity.
Qed.

(** X13.  With the SemVer format, [ofVersion(v)] holds [v], spells
    ['release-v' + format(v)], and [BranchName.parse] reads this name back to
    the same instance: for a version that the format reads back and whose
    rendering holds no line terminator and no ['-v'] followed by a digit. *)
Theorem autorelease_semver_round_trip : forall v,
  exact_numbers v = true ->
  plain_prerelease (preRelease v) = true ->
  plain_line (build v) = true ->
  one_line (SemverVersionFormat_format v) = true ->
  has_dash_v_digit (list_ascii_of_string (SemverVersionFormat_format v)) = false ->
  exists b,
    BranchName_ofVersion v SemverVersionFormat = Normal b /\
    getVersion b = Some v /\ getComponent b = None /\
    BranchName_toString b = "release-v" ++ SemverVersionFormat_format v /\
    BranchName_parse (BranchName_toString b) (Some SemverVersionFormat) =
      (Some b, []).
Proof.
  intros v _ Pp Pb L N.
  destruct (autorelease_of_version SemverVersionFormat v v) as [B P]; try exact N.
  - apply (version_tail_rendered v); [exact L|].
    apply (rendered_prefix _ _ _ (toString_chars v)).
  - simpl; f_equal; apply (semver_parse_rendering v Pp Pb).
  - eexists; split; [exact B|].
    repeat split; exact P.
Qed.

Lemma autorelease_semver_round_trip_witness :
  exists b,
    BranchName_ofVersion (new_Version 1 2 3 (Some "alpha.1") None)
      SemverVersionFormat = Normal b /\
    getVersion b = Some (new_Version 1 2 3 (Some "alpha.1") None) /\
    getComponent b = None /\
    BranchName_toString b =
      "release-v" ++
      SemverVersionFormat_format (new_Version 1 2 3 (Some "alpha.1") None) /\
    BranchName_parse (BranchName_toString b) (Some SemverVersionFormat) =
      (Some b, []).
Proof.
  apply (autorelease_semver_round_trip (new_Version 1 2 3 (Some "alpha.1") None));
    reflexivity.
Defined.

(** X14.  With the Ruby format, [ofVersion(v)] holds [v] without its build,
    spells ['release-v' + format(v)], and [BranchName.parse] reads this name
    back to the same instance: for a prerelease that is absent or non-empty on
    one line and holds no ['-v'] followed by a digit. *)
Theorem autorelease_ruby_round_trip : forall v,
  exact_numbers v = true ->
  plain_line (preRelease v) = true ->
  has_dash_v_digit (list_ascii_of_string (RubyVersionFormat_format v)) = false ->
  exists b,
    BranchName_ofVersion v RubyVersionFormat = Normal b /\
    getVersion b =
      Some (new_Version (major v) (minor v) (patch v) (preRelease v) None) /\
    getComponent b = None /\
    BranchName_toString b = "release-v" ++ RubyVersionFormat_format v /\
    BranchName_parse (BranchName_toString b) (Some RubyVersionFormat) =
      (Some b, []).
Proof.
  intros v _ Pp N.
  destruct (autorelease_of_version RubyVersionFormat v
              (new_Version (major v) (minor v) (patch v) (preRelease v) None))
    as [B P]; try exact N.
  - apply (version_tail_rendered v); [|apply (rendered_prefix _ _ _ (ruby_format_chars v))].
    unfold one_line; simpl format; rewrite ruby_format_chars, forallb_app.
    rewrite (part_plain "." _ (or_introl Pp)).
    assert (C : forallb dot (rendered_core v) = true).
    { unfold rendered_core, triple_text.
      rewrite !forallb_app; simpl; rewrite !forallb_app; simpl.
      assert (X : forall n, forallb dot (list_ascii_of_string (render n)) = true).
      { intros n; pose proof (render_digits n) as D.
        induction (list_ascii_of_string (render n)) as [|a l IH]; [reflexivity|].
        simpl in D |- *; apply andb_prop in D; destruct D as [Da D].
        rewrite (IH D), andb_true_r.
        destruct (digit_cases a Da) as [-> | [-> | [-> | [-> | [-> | [-> | [-> | [-> | [-> | ->]]]]]]]]];
          reflexivity. }
      rewrite !X; reflexivity. }
    rewrite C; destruct (preRelease v) as [p|]; [|reflexivity].
    simpl in Pp |- *; apply andb_prop in Pp; destruct Pp as [_ L]; exact L.
  - simpl; f_equal; apply (ruby_parse_format v Pp).
  - eexists; split; [exact B|].
    repeat split; exact P.
Qed.

Lemma autorelease_ruby_round_trip_witness :
  exists b,
    BranchName_ofVersion (new_Version 1 2 3 (Some "alpha.1") (Some "b7"))
      RubyVersionFormat = Normal b /\
    getVersion b = Some (new_Version 1 2 3 (Some "alpha.1") None) /\
    getComponent b = None /\
    BranchName_toString b =
      "release-v" ++
      RubyVersionFormat_format (new_Version 1 2 3 (Some "alpha.1") (Some "b7")) /\
    BranchName_parse (BranchName_toString b) (Some RubyVersionFormat) =
      (Some b, []).
Proof.
  apply (autorelease_ruby_round_trip (new_Version 1 2 3 (Some "alpha.1") (Some "b7")));
    reflexivity.
Defined.

(** ** Sanitized names are fixed *)

Local Open Scope list_scope.

Lemma replace_each_safe : forall l,
  forallb safe_char (replace_each not_word ["-"%char] l) = true.
Proof.
  induction l as [|a l IH]; [reflexivity|]; simpl.
  destruct (not_word a) eqn:Q; simpl; rewrite IH.
  - reflexivity.
  - rewrite word_or_digit in Q; apply negb_false_iff in Q.
    unfold safe_char; rewrite Q; reflexivity.
Qed.

Lemma collapse_safe : forall l b,
  forallb safe_char l = true ->
  forallb safe_char (collapse_runs (Ascii.eqb "-") ["-"%char] b l) = true.
Proof.
  induction l as [|a l IH]; intros b H; cbn [collapse_runs forallb] in *;
    [reflexivity|].
  apply andb_prop in H; destruct H as [Sa H].
  destruct (Ascii.eqb "-" a); [destruct b|]; cbn [app forallb].
  - apply IH; exact H.
  - rewrite (IH true H); reflexivity.
  - rewrite Sa, (IH false H); reflexivity.
Qed.

Lemma replace_each_fixed : forall l,
  forallb safe_char l = true -> replace_each not_word ["-"%char] l = l.
Proof.
  induction l as [|a l IH]; intros H; [reflexivity|]; simpl in *.
  apply andb_prop in H; destruct H as [Sa H]; rewrite (IH H).
  destruct (not_word a) eqn:Q; [|reflexivity].
  rewrite word_or_digit in Q; apply negb_true_iff in Q.
  unfold safe_char in Sa; rewrite Q in Sa; cbn [orb] in Sa.
  unfold is_char in Sa; apply Ascii.eqb_eq in Sa; subst a; reflexivity.
Qed.

Lemma collapse_fixed : forall l b,
  has_double_dash l = false ->
  (b = true -> match l with a :: _ => is_char "-" a = false | [] => True end) ->
  collapse_runs (Ascii.eqb "-") ["-"%char] b l = l.
Proof.
  induction l as [|a l IH]; intros b D Hb; [reflexivity|].
  cbn [collapse_runs].
  assert (Dl : has_double_dash l = false).
  { destruct l as [|c t]; [reflexivity|].
    rewrite has_double_dash_cons in D; apply orb_false_elim in D; tauto. }
  destruct (Ascii.eqb "-" a) eqn:Q.
  - destruct b; [specialize (Hb eq_refl); unfold is_char in Hb; congruence|].
    apply Ascii.eqb_eq in Q; subst a; cbn [app]; f_equal.
    apply IH; [exact Dl|]; intros _.
    destruct l as [|c t]; [exact I|].
    rewrite has_double_dash_cons in D; apply orb_false_elim in D.
    destruct D as [D _]; simpl in D; exact D.
  - f_equal; apply IH; [exact Dl | discriminate].
Qed.

Lemma collapse_length : forall l b,
  List.length (collapse_runs (Ascii.eqb "-") ["-"%char] b l) <= List.length l.
Proof.
  induction l as [|a l IH]; intros b; cbn [collapse_runs]; [apply le_n|].
  destruct (Ascii.eqb "-" a); [destruct b|]; cbn [app List.length].
  - specialize (IH true); lia.
  - specialize (IH true); lia.
  - specialize (IH false); lia.
Qed.

Lemma replace_each_length : forall l,
  List.length (replace_each not_word ["-"%char] l) = List.length l.
Proof.
  induction l as [|a l IH]; [reflexivity|]; simpl.
  destruct (not_word a); simpl; rewrite IH; reflexivity.
Qed.

Local Open Scope string_scope.

Lemma safeBranchName_fixed : forall g,
  forallb safe_char (list_ascii_of_string g) = true ->
  has_double_dash (list_ascii_of_string g) = false ->
  safeBranchName g = g.
Proof.
  intros g S D; rewrite safeBranchName_passes.
  rewrite (replace_each_fixed _ S), (collapse_fixed _ false D) by discriminate.
  apply string_of_list_ascii_of_string.
Qed.

(** X15.  [safeBranchName] leaves alone a name of word characters and single
    dashes; its result is always such a name, so a second pass changes
    nothing, and it is never longer than the name it was given. *)
Theorem safe_names_fixed :
  (forall g,
     forallb safe_char (list_ascii_of_string g) = true ->
     has_double_dash (list_ascii_of_string g) = false ->
     safeBranchName g = g) /\
  (forall g,
     forallb safe_char (list_ascii_of_string (safeBranchName g)) = true /\
     safeBranchName (safeBranchName g) = safeBranchName g /\
     String.length (safeBranchName g) <= String.length g).
Proof.
  split; [exact safeBranchName_fixed|].
  intros g.
  assert (S : forallb safe_char (list_ascii_of_string (safeBranchName g)) = true).
  { rewrite safeBranchName_passes, list_ascii_of_string_of_list_ascii.
    apply collapse_safe, replace_each_safe. }
  split; [exact S|]; split.
  - apply safeBranchName_fixed; [exact S|].
    rewrite safeBranchName_passes, list_ascii_of_string_of_list_ascii.
    apply collapse_no_double_dash.
  - rewrite safeBranchName_passes.
    assert (X : forall s, String.length s = List.length (list_ascii_of_string s)).
    { induction s as [|a s IH]; simpl; [reflexivity | rewrite IH; reflexivity]. }
    rewrite !X, list_ascii_of_string_of_list_ascii.
    rewrite <- (replace_each_length (list_ascii_of_string g)).
    apply collapse_length.
Qed.

Lemma safe_names_fixed_witness : safeBranchName "docs-v2_api" = "docs-v2_api".
Proof. apply (proj1 safe_names_fixed "docs-v2_api"); reflexivity. Defined.

Local Open Scope list_scope.

(** ** Tag names: what [parse] accepts and gives back *)

Lemma TAG_PATTERN_parts : TAG_PATTERN = (Bol +++ Opt TAG_GROUP +++ TAG_TAIL)%re.
Proof. reflexivity. Qed.

Lemma TAG_VERSION_sound : forall x y,
  reach TAG_VERSION x y ->
  exists a b c z,
    rest x = (triple_text a b c ++ z) ++ rest y /\
    digits a /\ digits b /\ digits c /\ forallb dot z = true /\
    y = past x (triple_text a b c ++ z) (rest y).
Proof.
  intros x y H; unfold TAG_VERSION in H.
  apply reach_Seq_inv in H; destruct H as [y1 [H1 H]].
  apply reach_Seq_inv in H; destruct H as [y2 [H2 H]].
  apply reach_Seq_inv in H; destruct H as [y3 [H3 H]].
  apply reach_Seq_inv in H; destruct H as [y4 [H4 H]].
  apply reach_Seq_inv in H; destruct H as [y5 [H5 H6]].
  apply reach_Plus_Class_inv in H1; destruct H1 as [a [t1 [Na [Da [E1 ->]]]]].
  apply reach_Char_inv in H2; destruct H2 as [t2 [E2 ->]].
  apply reach_Plus_Class_inv in H3; destruct H3 as [b [t3 [Nb [Db [E3 ->]]]]].
  apply reach_Char_inv in H4; destruct H4 as [t4 [E4 ->]].
  apply reach_Plus_Class_inv in H5; destruct H5 as [c [t5 [Nc [Dc [E5 ->]]]]].
  apply reach_Star_Class_inv in H6; destruct H6 as [z [t6 [Dz [E6 ->]]]].
  cbn [rest past advance] in *; subst.
  exists a, b, c, z; unfold digits, triple_text; repeat split; auto.
  - rewrite E1; rewrite <- !app_assoc; simpl; rewrite <- !app_assoc; reflexivity.
  - rewrite !(advance_past _ "."%char), !past_past.
    f_equal; rewrite <- !app_assoc; simpl; rewrite <- !app_assoc; reflexivity.
Qed.

Lemma TAG_VERSION_complete : forall x a b c z t,
  digits a -> digits b -> digits c -> forallb dot z = true ->
  rest x = (triple_text a b c ++ z) ++ t ->
  reach TAG_VERSION x (past x (triple_text a b c ++ z) t).
Proof.
  intros x a b c z t [Na Da] [Nb Db] [Nc Dc] Dz E.
  unfold triple_text in *.
  replace ((a ++ "."%char :: b ++ "."%char :: c) ++ z)
    with (a ++ ["."%char] ++ b ++ ["."%char] ++ c ++ z) in *
    by (rewrite <- !app_assoc; simpl; rewrite <- !app_assoc; reflexivity).
  rewrite <- !app_assoc in E; simpl in E.
  set (x1 := past x a ("."%char :: b ++ "."%char :: c ++ z ++ t)).
  set (x2 := advance x1 (b ++ "."%char :: c ++ z ++ t)).
  set (x3 := past x2 b ("."%char :: c ++ z ++ t)).
  set (x4 := advance x3 (c ++ z ++ t)).
  set (x5 := past x4 c (z ++ t)).
  replace (past x (a ++ ["."%char] ++ b ++ ["."%char] ++ c ++ z) t)
    with (past x5 z t)
    by (unfold x5, x4, x3, x2, x1;
        rewrite !(advance_past _ "."%char), !past_past; reflexivity).
  unfold TAG_VERSION.
  apply reach_Seq with (y := x1); [apply reach_Plus_Class_intro; auto|].
  apply reach_Seq with (y := x2); [apply reach_Char; reflexivity|].
  apply reach_Seq with (y := x3); [apply reach_Plus_Class_intro; auto|].
  apply reach_Seq with (y := x4); [apply reach_Char; reflexivity|].
  apply reach_Seq with (y := x5); [apply reach_Plus_Class_intro; auto|].
  apply reach_Star_Class_intro; [exact Dz | reflexivity].
Qed.

Lemma TAG_TAIL_sound : forall x y,
  reach TAG_TAIL x y ->
  exists iv a b c z,
    rest x = v_text iv ++ triple_text a b c ++ z /\
    digits a /\ digits b /\ digits c /\ forallb dot z = true /\
    caps y =
      ("version"%string, triple_text a b c ++ z) ::
      (if iv then ("v"%string, ["v"%char]) :: clear_captures ["v"%string] (caps x)
       else caps x).
Proof.
  intros x y H; unfold TAG_TAIL in H.
  apply reach_Seq_inv in H; destruct H as [y1 [H1 H]].
  apply reach_Seq_inv in H; destruct H as [y2 [H2 H3]].
  apply reach_Eol_inv in H3; destruct H3 as [E3 ->].
  apply reach_Named_inv in H2; destruct H2 as [y3 [H2 ->]].
  apply TAG_VERSION_sound in H2.
  destruct H2 as [a [b [c [z [E2 [Da [Db [Dc [Dz ->]]]]]]]]].
  cbn [rest capture past] in E3; rewrite E3 in *.
  rewrite (capture_past _ _ _ _ E2); cbn [caps].
  rewrite app_nil_r in E2.
  apply reach_Opt_inv in H1; destruct H1 as [-> | [H1 _]].
  - exists false, a, b, c, z; repeat split; auto;
      try apply Da; try apply Db; apply Dc.
  - apply reach_Named_inv in H1; destruct H1 as [y4 [H1 ->]].
    apply reach_Char_inv in H1; destruct H1 as [t1 [E1 ->]].
    cbn [rest reset] in E1.
    rewrite (advance_past _ "v"%char) in *.
    rewrite (capture_past "v" (reset (Named "v" (Char "v")) x) ["v"%char] t1 E1) in *.
    cbn [rest caps reset] in *.
    exists true, a, b, c, z; repeat split; auto;
      try apply Da; try apply Db; try apply Dc.
    rewrite E1, E2; reflexivity.
Qed.

Lemma TAG_sound : forall t m,
  exec TAG_PATTERN t = Some m ->
  exists lead iv a b c z,
    list_ascii_of_string t = lead ++ v_text iv ++ triple_text a b c ++ z /\
    digits a /\ digits b /\ digits c /\ forallb dot z = true /\
    get_capture "version" (groups_of m) = Some (triple_text a b c ++ z) /\
    get_capture "v" (groups_of m) = (if iv then Some ["v"%char] else None) /\
    ((lead = [] /\ get_capture "component" (groups_of m) = None /\
      get_capture "separator" (groups_of m) = None) \/
     exists comp sep,
       lead = comp ++ [sep] /\ forallb dot comp = true /\ not_alnum sep = true /\
       get_capture "component" (groups_of m) = Some comp /\
       get_capture "separator" (groups_of m) = Some [sep]).
Proof.
  intros t m H; rewrite TAG_PATTERN_parts in H.
  apply exec_anchored_sound in H; destruct H as [y [H G]].
  apply reach_Seq_inv in H; destruct H as [y1 [H1 H2]].
  apply TAG_TAIL_sound in H2.
  destruct H2 as [iv [a [b [c [z [E2 [Da [Db [Dc [Dz C]]]]]]]]]].
  rewrite G, C; clear G C.
  apply reach_Opt_inv in H1; destruct H1 as [-> | [H1 _]].
  - exists [], iv, a, b, c, z; cbn [rest caps app] in *.
    split; [exact E2|]; repeat split; try apply Da; try apply Db; try apply Dc;
      try exact Dz; destruct iv; try reflexivity.
    + left; repeat split; reflexivity.
    + left; repeat split; reflexivity.
  - unfold TAG_GROUP in H1.
    apply reach_Paren_inv, reach_Seq_inv in H1; destruct H1 as [y2 [H1 H3]].
    remember (reset _ _) as x0 eqn:Ex0 in H1.
    assert (R0 : rest x0 = list_ascii_of_string t) by (subst x0; reflexivity).
    assert (C0 : caps x0 = []) by (subst x0; reflexivity).
    clear Ex0.
    apply reach_Named_inv in H1; destruct H1 as [z2 [H1 ->]].
    apply reach_Star_Class_inv in H1; destruct H1 as [comp [t2 [Dcomp [Ec ->]]]].
    rewrite (capture_past "component" x0 comp t2 Ec) in H3.
    apply reach_Named_inv in H3; destruct H3 as [z3 [H3 ->]].
    apply reach_Class_inv in H3; destruct H3 as [sep [t3 [Es [Ds ->]]]].
    rewrite (advance_past _ sep), (capture_past "separator" _ [sep] t3 Es) in *.
    cbn [rest caps] in *; rewrite C0 in *; subst t2; rewrite R0 in Ec.
    exists (comp ++ [sep]), iv, a, b, c, z.
    split; [rewrite Ec, E2, <- app_assoc; reflexivity|].
    repeat split; try apply Da; try apply Db; try apply Dc;
      try exact Dz; destruct iv; try reflexivity.
    + right; exists comp, sep; repeat split; auto.
    + right; exists comp, sep; repeat split; auto.
Qed.

Lemma TAG_complete : forall t, tag_shape t -> exec TAG_PATTERN t <> None.
Proof.
  intros t [lead [iv [a [b [c [z [E [Da [Db [Dc [Dz L]]]]]]]]]]].
  rewrite TAG_PATTERN_parts.
  assert (T : forall x, rest x = v_text iv ++ triple_text a b c ++ z ->
              exists y, reach TAG_TAIL x y).
  { intros x Ex.
    assert (V : forall x1, rest x1 = (triple_text a b c ++ z) ++ [] ->
                exists y, reach (Named "version" TAG_VERSION +++ Eol)%re x1 y).
    { intros x1 E1.
      exists (capture "version" x1 (past x1 (triple_text a b c ++ z) [])).
      eapply reach_Seq; [|apply reach_Eol; reflexivity].
      apply reach_Named, (TAG_VERSION_complete x1 a b c z []); auto. }
    destruct iv; cbn [v_text app] in Ex.
    - set (R := Named "v" (Char "v")).
      destruct (V (capture "v" (reset R x) (advance (reset R x) (triple_text a b c ++ z))))
        as [y Hy]; [rewrite app_nil_r; reflexivity|].
      exists y; eapply reach_Seq; [|exact Hy].
      apply reach_Opt_take; [|simpl; lia].
      apply reach_Named, reach_Char; exact Ex.
    - destruct (V x) as [y Hy]; [rewrite app_nil_r; exact Ex|].
      exists y; eapply reach_Seq; [apply reach_Opt_skip | exact Hy]. }
  set (x0 := mkState 0 (list_ascii_of_string t) []).
  destruct L as [-> | [comp [sep [-> [Dcomp Ds]]]]].
  - destruct (T x0 E) as [y Hy].
    apply (exec_anchored_complete _ _ y).
    eapply reach_Seq; [apply reach_Opt_skip | exact Hy].
  - rewrite <- app_assoc in E; cbn [app] in E.
    set (x1 := capture "component" (reset TAG_GROUP x0)
                 (past (reset TAG_GROUP x0) comp
                    (sep :: v_text iv ++ triple_text a b c ++ z))).
    set (x2 := capture "separator" x1
                 (advance x1 (v_text iv ++ triple_text a b c ++ z))).
    destruct (T x2 eq_refl) as [y Hy].
    apply (exec_anchored_complete _ _ y).
    eapply reach_Seq; [|exact Hy].
    apply reach_Opt_take; [|simpl; lia].
    apply reach_Paren, reach_Seq with (y := x1).
    + apply reach_Named, reach_Star_Class_intro; [exact Dcomp | exact E].
    + apply reach_Named, reach_Class with (b := sep); [reflexivity | exact Ds].
Qed.

Local Open Scope string_scope.

Lemma v_text_string : forall iv,
  string_of_list_ascii (v_text iv) = if iv then "v" else "".
Proof. intros []; reflexivity. Qed.

Lemma tag_version_decoded : forall m a b c z,
  get_capture "version" (groups_of m) = Some (triple_text a b c ++ z)%list ->
  digits a -> digits b -> digits c ->
  required m "version" = string_of_list_ascii (triple_text a b c ++ z) /\
  holds_triple (required m "version").
Proof.
  intros m a b c z G Da Db Dc.
  assert (R : required m "version" = string_of_list_ascii (triple_text a b c ++ z))
    by (unfold required, group; rewrite G; reflexivity).
  split; [exact R|].
  exists [], a, b, c, z; rewrite R, list_ascii_of_string_of_list_ascii; auto.
Qed.

(** X16.  With either format of the sources, [TagName.parse] accepts exactly
    the texts that [TAG_PATTERN] matches: the version group starts with a
    triple, which both formats decode. *)
Theorem tag_accepts : forall t,
  (tag_shape t <->
   exists tn, TagName_parse t SemverVersionFormat = Normal (Some tn)) /\
  (tag_shape t <->
   exists tn, TagName_parse t RubyVersionFormat = Normal (Some tn)).
Proof.
  intros t.
  assert (B : forall f tn, TagName_parse t f = Normal (Some tn) -> tag_shape t).
  { intros f tn H.
    destruct (TagName_parse_inv _ _ _ H) as [m [v [E _]]].
    destruct (TAG_sound _ _ E)
      as [lead [iv [a [b [c [z [Et [Da [Db [Dc [Dz [_ [_ L]]]]]]]]]]]]].
    exists lead, iv, a, b, c, z; repeat split; try apply Da; try apply Db;
      try apply Dc; auto.
    destruct L as [[-> _] | [comp [sep [-> [Dcomp [Ds _]]]]]];
      [left; reflexivity | right; exists comp, sep; auto]. }
  assert (F : forall f,
            (forall s, holds_triple s -> exists v, parse f s = Normal (Some v)) ->
            tag_shape t -> exists tn, TagName_parse t f = Normal (Some tn)).
  { intros f Hf S.
    destruct (exec TAG_PATTERN t) as [m|] eqn:E;
      [|contradiction (TAG_complete t S E)].
    destruct (TAG_sound _ _ E)
      as [lead [iv [a [b [c [z [_ [Da [Db [Dc [_ [G _]]]]]]]]]]]].
    destruct (tag_version_decoded m a b c z G Da Db Dc) as [_ T].
    destruct (Hf _ T) as [v P].
    unfold TagName_parse; rewrite E; cbn zeta; rewrite P; eauto. }
  split; split; try (intros [tn H]; exact (B _ _ H)); apply F; intros s T; simpl.
  - destruct (SemverVersionFormat_parse s) as [v|] eqn:P; [eauto|].
    apply Semver_parse_accepts in T; contradiction.
  - destruct (RubyVersionFormat_parse s) as [v|] eqn:P; [eauto|].
    apply Ruby_parse_accepts in T; contradiction.
Qed.

Lemma string_app_assoc : forall a b c : string, (a ++ b) ++ c = a ++ b ++ c.
Proof.
  induction a as [|x a IH]; intros b c; simpl; [reflexivity|].
  rewrite IH; reflexivity.
Qed.

(** X17.  [toString] of a parsed tag keeps what the tag has before its version
    text and renders the decoded version after it; but a tag that starts with
    its separator, whose component is the empty string, loses the separator.
    *)
Theorem tag_prefix_kept : forall t f tn,
  TagName_parse t f = Normal (Some tn) ->
  exists lead vs,
    t = lead ++ (if includeV tn then "v" else "") ++ vs /\
    parse f vs = Normal (Some (tag_version tn)) /\
    TagName_toString tn =
      (if truthy (tag_component tn) then lead else "") ++
      (if includeV tn then "v" else "") ++ Version_toString (tag_version tn) /\
    (truthy (tag_component tn) = false ->
     lead = "" \/
     exists sep, lead = String sep "" /\ not_alnum sep = true /\
                 tag_component tn = Some "").
Proof.
  intros t f tn H.
  destruct (TagName_parse_inv _ _ _ H) as [m [v [E [P ->]]]].
  destruct (TAG_sound _ _ E)
    as [lead [iv [a [b [c [z [Et [Da [Db [Dc [_ [G [Gv L]]]]]]]]]]]]].
  destruct (tag_version_decoded m a b c z G Da Db Dc) as [R _].
  assert (V : truthy (group m "v") = iv)
    by (unfold group; rewrite Gv; destruct iv; reflexivity).
  exists (string_of_list_ascii lead), (required m "version").
  unfold new_TagName, TagName_toString; cbn [includeV tag_version tag_component separator].
  rewrite V, <- v_text_string.
  split; [rewrite R, <- !string_app; apply of_chars; exact Et|].
  split; [exact P|].
  destruct L as [[-> [Gc Gs]] | [comp [sep [-> [_ [Ds [Gc Gs]]]]]]];
    unfold group; rewrite Gc, Gs; cbn [option_map truthy interpolate].
  - split; [reflexivity | left; reflexivity].
  - destruct comp as [|x comp]; cbn [string_of_list_ascii String.eqb negb].
    + split; [reflexivity|].
      intros _; right; exists sep; auto.
    + split; [|discriminate].
      rewrite string_app, string_app_assoc; reflexivity.
Qed.

Lemma tag_prefix_kept_witness :
  exists lead vs,
    "-v01.2.3" =
      lead ++
      (if includeV (new_TagName (new_Version 1 2 3 None None) (Some "")
                      (Some "-") true)
       then "v" else "") ++ vs /\
    parse SemverVersionFormat vs =
      Normal (Some (tag_version (new_TagName (new_Version 1 2 3 None None)
                                   (Some "") (Some "-") true))) /\
    TagName_toString
      (new_TagName (new_Version 1 2 3 None None) (Some "") (Some "-") true) =
      (if truthy (tag_component
                    (new_TagName (new_Version 1 2 3 None None) (Some "")
                       (Some "-") true))
       then lead else "") ++
      (if includeV (new_TagName (new_Version 1 2 3 None None) (Some "")
                      (Some "-") true)
       then "v" else "") ++
      Version_toString
        (tag_version (new_TagName (new_Version 1 2 3 None None) (Some "")
                        (Some "-") true)) /\
    (truthy (tag_component
               (new_TagName (new_Version 1 2 3 None None) (Some "")
                  (Some "-") true)) = false ->
     lead = "" \/
     exists sep, lead = String sep "" /\ not_alnum sep = true /\
                 tag_component
                   (new_TagName (new_Version 1 2 3 None None) (Some "")
                      (Some "-") true) = Some "").
Proof.
  apply (tag_prefix_kept "-v01.2.3" SemverVersionFormat).
  vm_compute; reflexivity.
Defined.

Local Open Scope list_scope.

Lemma plus_run : forall p k x w t,
  rest x = w ++ t -> w <> [] -> forallb p w = true -> stops p t ->
  k (past x w t) <> None ->
  matcher (Plus (Class p)) x k = k (past x w t).
Proof.
  intros p k x w t E Hw Pw St K.
  destruct (run_app_stop p w t Pw St) as [R A].
  rewrite (plus_greedy (Class p) p _ x (reads_one_Class p));
    rewrite E, R, ?A; auto.
Qed.

Lemma star_run : forall p k x w t,
  rest x = w ++ t -> forallb p w = true -> stops p t ->
  k (past x w t) <> None ->
  matcher (Star (Class p)) x k = k (past x w t).
Proof.
  intros p k x w t E Pw St K.
  destruct (run_app_stop p w t Pw St) as [R A].
  cbn [matcher].
  rewrite (repeat_greedy (Class p) p _ (reads_one_Class p) (rest x) x
             (List.length (rest x)) eq_refl (le_n _));
    rewrite E, R, A; auto.
Qed.

Lemma TAG_VERSION_exact : forall k x a b c z,
  digits a -> digits b -> digits c -> forallb dot z = true -> stops digit z ->
  rest x = triple_text a b c ++ z ->
  k (past x (triple_text a b c ++ z) []) <> None ->
  matcher TAG_VERSION x k = k (past x (triple_text a b c ++ z) []).
Proof.
  intros k x a b c z [Na Da] [Nb Db] [Nc Dc] Dz St E K.
  unfold triple_text in *.
  replace ((a ++ "."%char :: b ++ "."%char :: c) ++ z)
    with (a ++ ["."%char] ++ b ++ ["."%char] ++ c ++ z) in *
    by (rewrite <- !app_assoc; simpl; rewrite <- !app_assoc; reflexivity).
  set (x1 := past x a ("."%char :: b ++ "."%char :: c ++ z)).
  set (x2 := advance x1 (b ++ "."%char :: c ++ z)).
  set (x3 := past x2 b ("."%char :: c ++ z)).
  set (x4 := advance x3 (c ++ z)).
  set (x5 := past x4 c z).
  assert (F : past x (a ++ ["."%char] ++ b ++ ["."%char] ++ c ++ z) [] = past x5 z []).
  { unfold x5, x4, x3, x2, x1.
    rewrite !(advance_past _ "."%char), !past_past; reflexivity. }
  rewrite F in *.
  assert (S5 : matcher (Star (Class dot)) x5 k = k (past x5 z [])).
  { apply star_run; auto; [symmetry; apply app_nil_r | exact I]. }
  assert (S4 : matcher (Plus (Class digit) +++ Star (Class dot))%re x4 k
               = k (past x5 z [])).
  { rewrite matcher_Seq, (plus_run digit _ x4 c z); auto;
      fold x5; rewrite S5; auto. }
  assert (S2 : matcher (Plus (Class digit) +++ Char "." +++
                        Plus (Class digit) +++ Star (Class dot))%re x2 k
               = k (past x5 z [])).
  { rewrite matcher_Seq, (plus_run digit _ x2 b ("."%char :: c ++ z)); auto;
      try reflexivity;
      fold x3; rewrite matcher_Seq, (matcher_Char_hit "." x3 (c ++ z)) by reflexivity;
      fold x4; rewrite S4; auto. }
  unfold TAG_VERSION.
  rewrite matcher_Seq, (plus_run digit _ x a ("."%char :: b ++ "."%char :: c ++ z));
    auto; try reflexivity;
    fold x1;
    rewrite matcher_Seq, (matcher_Char_hit "." x1 (b ++ "."%char :: c ++ z))
      by reflexivity;
    fold x2; rewrite S2; auto.
Qed.

Lemma digit_not_v : forall d, digit d = true -> Ascii.eqb "v" d = false.
Proof.
  intros d D.
  destruct (digit_cases d D) as [-> | [-> | [-> | [-> | [-> | [-> | [-> | [-> | [-> | ->]]]]]]]]];
    reflexivity.
Qed.

Lemma TAG_TAIL_exact : forall x iv a b c z,
  digits a -> digits b -> digits c -> forallb dot z = true -> stops digit z ->
  rest x = v_text iv ++ triple_text a b c ++ z ->
  clear_captures ["v"%string] (caps x) = caps x ->
  matcher TAG_TAIL x Some =
  Some (mkState (endIndex x + List.length (v_text iv ++ triple_text a b c ++ z)) []
          (("version"%string, triple_text a b c ++ z) ::
           (if iv then [("v"%string, ["v"%char])] else []) ++ caps x)).
Proof.
  intros x iv a b c z Da Db Dc Dz St E Cl.
  assert (V : forall x1 : mstate,
            rest x1 = triple_text a b c ++ z ->
            matcher (Named "version" TAG_VERSION +++ Eol)%re x1 Some =
            Some (mkState (endIndex x1 + List.length (triple_text a b c ++ z)) []
                    (("version"%string, triple_text a b c ++ z) :: caps x1))).
  { intros x1 E1.
    assert (E1' : rest x1 = (triple_text a b c ++ z) ++ [])
      by (rewrite app_nil_r; exact E1).
    rewrite matcher_Seq, matcher_Named.
    rewrite (TAG_VERSION_exact _ x1 a b c z); auto;
      rewrite (capture_past "version" x1 _ [] E1'); [reflexivity | discriminate]. }
  unfold TAG_TAIL; rewrite matcher_Seq, matcher_Opt, matcher_Named.
  set (R := Named "v" (Char "v")).
  destruct iv; cbn [v_text app] in *.
  - rewrite (matcher_Char_hit "v" (reset R x) (triple_text a b c ++ z)) by exact E.
    rewrite (advance_past _ "v"%char).
    rewrite (capture_past "v" (reset R x) ["v"%char] _ E).
    replace (Nat.eqb (endIndex (mkState (endIndex (reset R x) + List.length ["v"%char])
                                  (triple_text a b c ++ z)
                                  (("v"%string, ["v"%char]) :: caps (reset R x))))
               (endIndex x)) with false
      by (symmetry; apply Nat.eqb_neq; simpl; lia).
    rewrite V by reflexivity.
    cbn [endIndex caps reset R names]; rewrite Cl.
    do 2 f_equal; simpl; lia.
  - destruct Da as [Na Da].
    rewrite matcher_Char_miss.
    + rewrite (V x E); reflexivity.
    + change (rest (reset R x)) with (rest x); rewrite E.
      unfold triple_text; destruct a as [|d a]; [contradiction|]; simpl.
      apply digit_not_v; simpl in Da; apply andb_prop in Da; tauto.
Qed.

(** A separator is not found inside a run of letters and digits. *)
Lemma split_alnum : forall u x w sep r,
  forallb (fun c => negb (not_alnum c)) u = true -> not_alnum sep = true ->
  u ++ x = w ++ sep :: r ->
  exists w', w = u ++ w' /\ x = w' ++ sep :: r.
Proof.
  induction u as [|a u IH]; intros x w sep r Hu Hs E.
  - exists w; split; [reflexivity | exact E].
  - simpl in Hu; apply andb_prop in Hu; destruct Hu as [Ha Hu].
    destruct w as [|b w]; simpl in E; injection E as -> E.
    + rewrite Hs in Ha; discriminate.
    + destruct (IH _ _ _ _ Hu Hs E) as [w' [-> Ex]].
      exists w'; split; [reflexivity | exact Ex].
Qed.

Lemma digits_alnum : forall l,
  forallb digit l = true -> forallb (fun c => negb (not_alnum c)) l = true.
Proof.
  induction l as [|a l IH]; intros H; [reflexivity|]; simpl in *.
  apply andb_prop in H; destruct H as [Da H].
  rewrite (IH H), andb_true_r.
  unfold not_alnum; rewrite Da, orb_true_r; reflexivity.
Qed.

(** Two runs of digits that end at a character which is not a digit are the
    same run when the texts are the same. *)
Lemma digit_run_eq : forall a1 a2 x1 x2,
  forallb digit a1 = true -> forallb digit a2 = true ->
  stops digit x1 -> stops digit x2 ->
  a1 ++ x1 = a2 ++ x2 -> a1 = a2 /\ x1 = x2.
Proof.
  intros a1 a2 x1 x2 D1 D2 S1 S2 E.
  destruct (run_app_stop digit a1 x1 D1 S1) as [R1 A1].
  destruct (run_app_stop digit a2 x2 D2 S2) as [R2 A2].
  rewrite E in R1, A1; split; congruence.
Qed.

Lemma tail_start_stops : forall t, tail_start t -> stops digit t.
Proof. intros [|h t] H; [exact I | exact (proj1 H)]. Qed.

(** A rendered version whose tail holds no triple cannot be cut, anywhere,
    into a separator and the text of a tagged version. *)
Lemma no_split : forall iv A B C tail w sep iv' a b c z,
  digits A -> digits B -> digits C ->
  digits a -> digits b -> digits c ->
  tail_start tail -> ~ holds_triple (string_of_list_ascii tail) ->
  not_alnum sep = true ->
  v_text iv ++ triple_text A B C ++ tail =
  w ++ sep :: v_text iv' ++ triple_text a b c ++ z ->
  False.
Proof.
  intros iv A B C tail w sep iv' a b c z
    [NA DA] [NB DB] [NC DC] [Na Da] [Nb Db] [Nc Dc] Ts Nt Hs E.
  assert (Head : forall D r,
            D <> [] -> forallb digit D = true -> stops digit r ->
            D ++ r = v_text iv' ++ triple_text a b c ++ z ->
            r = "."%char :: b ++ "."%char :: c ++ z).
  { intros D r ND DD Sr Er.
    destruct iv'; cbn [v_text app] in Er.
    - destruct D as [|d D]; [contradiction|].
      simpl in Er, DD; injection Er as -> _; discriminate DD.
    - unfold triple_text in Er; rewrite <- !app_assoc in Er; simpl in Er.
      rewrite <- !app_assoc in Er; simpl in Er.
      destruct (digit_run_eq D a r ("."%char :: b ++ "."%char :: c ++ z))
        as [_ Hr]; auto; reflexivity. }
  assert (Dotted : forall r, tail <> "."%char :: r).
  { intros r Et; rewrite Et in Ts; destruct Ts as [_ Ts]; contradiction. }
  pose proof (tail_start_stops _ Ts) as St.
  unfold triple_text at 1 in E.
  replace (v_text iv ++ (A ++ "."%char :: B ++ "."%char :: C) ++ tail)
    with ((v_text iv ++ A) ++ "."%char :: B ++ "."%char :: C ++ tail) in E
    by (rewrite <- !app_assoc; simpl; rewrite <- !app_assoc; reflexivity).
  apply split_alnum in E; auto;
    [|rewrite forallb_app, (digits_alnum A DA); destruct iv; reflexivity].
  destruct E as [w1 [_ E]].
  destruct w1 as [|h1 w1]; simpl in E; injection E as _ E.
  - apply Head in E; auto; [|reflexivity].
    injection E as E.
    destruct (digit_run_eq C b tail ("."%char :: c ++ z)) as [_ Et]; auto;
      [reflexivity | exact (Dotted _ Et)].
  - apply split_alnum in E; auto using digits_alnum.
    destruct E as [w2 [_ E]].
    destruct w2 as [|h2 w2]; simpl in E; injection E as _ E.
    + apply Head in E; auto.
      exact (Dotted _ E).
    + apply split_alnum in E; auto using digits_alnum.
      destruct E as [w3 [_ E]].
      apply Nt.
      exists (w3 ++ sep :: v_text iv'), a, b, c, z.
      rewrite list_ascii_of_string_of_list_ascii, E, <- app_assoc; simpl.
      repeat split; auto.
Qed.

Lemma matcher_Bol_start : forall x c, endIndex x = 0 -> matcher Bol x c = c x.
Proof. intros x c E; simpl; rewrite E; reflexivity. Qed.

Lemma matcher_Star : forall r x c,
  matcher (Star r) x c =
  repeat_loop (matcher r) (reset r) (List.length (rest x)) x c.
Proof. reflexivity. Qed.

(** The match of [TAG_PATTERN] on a tag that was put together from a
    component, a separator, the optional [v] and a rendered version. *)
Lemma TAG_exact : forall lead iv A B C tail,
  digits A -> digits B -> digits C ->
  forallb dot tail = true -> tail_start tail ->
  ~ holds_triple (string_of_list_ascii tail) ->
  (lead = [] \/
   exists comp sep,
     lead = comp ++ [sep] /\ forallb dot comp = true /\ not_alnum sep = true) ->
  exists m,
    exec TAG_PATTERN
      (string_of_list_ascii (lead ++ v_text iv ++ triple_text A B C ++ tail))
    = Some m /\
    get_capture "version" (groups_of m) = Some (triple_text A B C ++ tail) /\
    get_capture "v" (groups_of m) = (if iv then Some ["v"%char] else None) /\
    ((lead = [] /\ get_capture "component" (groups_of m) = None /\
      get_capture "separator" (groups_of m) = None) \/
     exists comp sep,
       lead = comp ++ [sep] /\
       get_capture "component" (groups_of m) = Some comp /\
       get_capture "separator" (groups_of m) = Some [sep]).
Proof.
  intros lead iv A B C tail DA DB DC Dt Ts Nt L.
  set (body := v_text iv ++ triple_text A B C ++ tail).
  set (x0 := mkState 0 (lead ++ body) []).
  set (K' := fun y : mstate =>
               if Nat.eqb (endIndex y) (endIndex x0) then None
               else matcher TAG_TAIL y Some).
  set (KK := fun y : mstate =>
               matcher (Named "separator" (Class not_alnum))
                 (capture "component" x0 y) K').
  assert (F : forall w w' t, body = w' ++ t -> KK (past x0 w t) = None).
  { intros w w' t Eb.
    destruct (KK (past x0 w t)) as [y|] eqn:Z; [exfalso | reflexivity].
    unfold KK in Z; apply matcher_sound in Z; destruct Z as [y1 [R1 Z]].
    apply reach_Named_inv in R1; destruct R1 as [y2 [R1 ->]].
    apply reach_Class_inv in R1; destruct R1 as [sep [t' [Et [Hs ->]]]].
    cbn [rest capture past] in Et; subst t.
    unfold K' in Z.
    destruct (Nat.eqb _ (endIndex x0)); [discriminate|].
    apply matcher_sound in Z; destruct Z as [y3 [R3 _]].
    apply TAG_TAIL_sound in R3.
    destruct R3 as [iv' [a [b [c [z [E3 [Da [Db [Dc _]]]]]]]]].
    cbn [rest capture advance] in E3; subst t'.
    exact (no_split iv A B C tail w' sep iv' a b c z DA DB DC Da Db Dc Ts Nt Hs Eb). }
  assert (M : exists y,
            matcher TAG_PATTERN x0 Some = Some y /\
            caps y =
              ("version"%string, triple_text A B C ++ tail) ::
              (if iv then [("v"%string, ["v"%char])] else []) ++
              match lead with
              | [] => []
              | _ :: _ =>
                  [("separator"%string, [last lead "-"%char]);
                   ("component"%string, removelast lead)]
              end).
  { rewrite TAG_PATTERN_parts, matcher_Seq, matcher_Bol_start by reflexivity.
    rewrite matcher_Seq, matcher_Opt; fold K'.
    change (reset TAG_GROUP x0) with x0.
    unfold TAG_GROUP; rewrite matcher_Paren, matcher_Seq, matcher_Named.
    fold KK; rewrite matcher_Star.
    destruct L as [-> | [comp [sep [-> [Dcomp Hs]]]]].
    - rewrite repeat_class_none by (intros w t E _; apply (F w w t); exact E).
      rewrite (TAG_TAIL_exact x0 iv A B C tail) by
        (auto using tail_start_stops; reflexivity).
      eexists; split; [reflexivity|].
      destruct iv; reflexivity.
    - set (s1 := mkState (endIndex x0 + List.length comp) (sep :: body)
                   (("component"%string, comp) :: caps x0)).
      set (s2 := mkState (endIndex s1 + List.length [sep]) body
                   (("separator"%string, [sep]) :: caps s1)).
      assert (E0 : rest x0 = comp ++ sep :: body)
        by (cbn [rest x0]; rewrite <- app_assoc; reflexivity).
      assert (K2 : KK (past x0 comp (sep :: body)) =
                   Some (mkState (endIndex s2 + List.length body) []
                           (("version"%string, triple_text A B C ++ tail) ::
                            (if iv then [("v"%string, ["v"%char])] else []) ++
                            caps s2))).
      { unfold KK; rewrite (capture_past "component" x0 comp _ E0).
        fold s1; rewrite matcher_Named, matcher_Class.
        cbn [rest s1]; rewrite Hs.
        rewrite (advance_past s1 sep), (capture_past "separator" s1 [sep] body eq_refl).
        fold s2; unfold K'.
        replace (Nat.eqb (endIndex s2) (endIndex x0)) with false
          by (symmetry; apply Nat.eqb_neq; simpl; lia).
        apply (TAG_TAIL_exact s2 iv A B C tail);
          auto using tail_start_stops; reflexivity. }
      rewrite (repeat_class_first dot KK _ comp _ x0 (sep :: body) E0 (le_n _)
                 Dcomp K2).
      + eexists; split; [reflexivity|].
        cbn [caps s2 s1].
        rewrite last_last, removelast_last.
        destruct (comp ++ [sep]) eqn:Q; [destruct comp; discriminate Q|].
        reflexivity.
      + intros w1 t1 N1 E1 _.
        destruct w1 as [|h w1]; [contradiction|].
        simpl in E1; injection E1 as _ E1.
        apply (F _ w1 t1 E1). }
  destruct M as [y [M Cy]].
  exists (mkMatch 0 (endIndex y) (caps y)); split.
  - unfold exec; rewrite list_ascii_of_string_of_list_ascii.
    fold body; rewrite (search_at_start _ _ _ M); reflexivity.
  - cbn [groups_of]; rewrite Cy; clear Cy M F.
    destruct L as [-> | [comp [sep [-> _]]]].
    + split; [reflexivity|]; split; [destruct iv; reflexivity|].
      left; destruct iv; repeat split; reflexivity.
    + rewrite last_last, removelast_last.
      destruct (comp ++ [sep]) eqn:Q; [destruct comp; discriminate Q|].
      rewrite <- Q.
      split; [reflexivity|]; split; [destruct iv; reflexivity|].
      right; exists comp, sep; destruct iv; repeat split; reflexivity.
Qed.

Local Open Scope string_scope.

Lemma tail_start_parts : forall pre bld,
  tail_start (list_ascii_of_string (part "-" pre ++ part "+" bld)).
Proof.
  intros pre bld; rewrite chars_app.
  destruct (part_chars "-" pre) as [E | [u E]]; rewrite E; simpl.
  - destruct (part_chars "+" bld) as [E' | [u' E']]; rewrite E'; simpl;
      [exact I | split; [reflexivity | discriminate]].
  - split; [reflexivity | discriminate].
Qed.

Lemma TagName_parse_built : forall v (lead : chars) (iv : bool)
    (comp sepa : option string),
  plain_prerelease (preRelease v) = true -> plain_line (build v) = true ->
  one_line (part "-" (preRelease v) ++ part "+" (build v)) = true ->
  SemverVersionFormat_parse (part "-" (preRelease v) ++ part "+" (build v)) = None ->
  (lead = [] /\ comp = None /\ sepa = None \/
   exists c s,
     lead = (c ++ [s])%list /\ forallb dot c = true /\ not_alnum s = true /\
     comp = Some (string_of_list_ascii c) /\ sepa = Some (String s "")) ->
  TagName_parse
    (string_of_list_ascii lead ++ (if iv then "v" else "") ++ Version_toString v)
    SemverVersionFormat =
  Normal (Some (new_TagName v comp sepa iv)).
Proof.
  intros v lead iv comp sepa Pp Pb L N H.
  set (tail := list_ascii_of_string (part "-" (preRelease v) ++ part "+" (build v))).
  assert (Tv : list_ascii_of_string (Version_toString v) = (rendered_core v ++ tail)%list)
    by (rewrite toString_chars; unfold tail; rewrite chars_app; reflexivity).
  assert (Nt : ~ holds_triple (string_of_list_ascii tail)).
  { unfold tail; rewrite string_of_list_ascii_of_string.
    intros T; apply Semver_parse_accepts in T; contradiction. }
  destruct (TAG_exact lead iv _ _ _ tail
              (rendered_digits (major v)) (rendered_digits (minor v))
              (rendered_digits (patch v)) L (tail_start_parts _ _) Nt)
    as [m [E [Gver [Gv Gl]]]].
  { destruct H as [[-> _] | [c [s [-> [Dc [Hs _]]]]]];
      [left; reflexivity | right; exists c, s; auto]. }
  fold (rendered_core v) in E, Gver; rewrite <- Tv in E, Gver.
  rewrite !string_app, v_text_string, string_of_list_ascii_of_string in E.
  unfold TagName_parse; rewrite E; cbn zeta.
  assert (R : required m "version" = Version_toString v).
  { unfold required, group; rewrite Gver; simpl.
    apply string_of_list_ascii_of_string. }
  rewrite R; cbn [parse SemverVersionFormat].
  rewrite (semver_parse_rendering v Pp Pb).
  assert (V : truthy (group m "v") = iv)
    by (unfold group; rewrite Gv; destruct iv; reflexivity).
  rewrite V; do 3 f_equal.
  - destruct H as [[-> [-> _]] | [c [s [-> [_ [_ [-> _]]]]]]];
      destruct Gl as [[Gl [Gc _]] | [c' [s' [Gl [Gc _]]]]];
      unfold group; rewrite Gc; try reflexivity.
    + destruct c'; discriminate Gl.
    + destruct c; discriminate Gl.
    + apply app_inj_tail in Gl; destruct Gl as [-> _]; reflexivity.
  - destruct H as [[-> [_ ->]] | [c [s [-> [_ [_ [_ ->]]]]]]];
      destruct Gl as [[Gl [_ Gs]] | [c' [s' [Gl [_ Gs]]]]];
      unfold group; rewrite Gs; try reflexivity.
    + destruct c'; discriminate Gl.
    + destruct c; discriminate Gl.
    + apply app_inj_tail in Gl; destruct Gl as [_ ->]; reflexivity.
Qed.

(** X18.  [TagName.parse], with the SemVer format, reads back the tag that
    [toString] renders, and [extractComponent] its component: for a version
    that the format reads back, whose prerelease and build hold no line
    terminator and no version triple, and for a component and separator that a
    tag can hold. *)
Theorem tag_round_trip : forall tn,
  exact_numbers (tag_version tn) = true ->
  plain_prerelease (preRelease (tag_version tn)) = true ->
  plain_line (build (tag_version tn)) = true ->
  one_line (part "-" (preRelease (tag_version tn)) ++
            part "+" (build (tag_version tn))) = true ->
  SemverVersionFormat_parse
    (part "-" (preRelease (tag_version tn)) ++
     part "+" (build (tag_version tn))) = None ->
  tag_prefix_ok tn = true ->
  TagName_parse (TagName_toString tn) SemverVersionFormat = Normal (Some tn) /\
  TagName_extractComponent (TagName_toString tn) = tag_component tn.
Proof.
  intros tn En Pp Pb L N Ok.
  assert (P : TagName_parse (TagName_toString tn) SemverVersionFormat =
              Normal (Some tn)); [|split; [exact P|]].
  2: { destruct (TagName_parse_inv _ _ _ P) as [m [v' [E [_ Et]]]].
       unfold TagName_extractComponent; rewrite E.
       rewrite Et; reflexivity. }
  revert En Pp Pb L N Ok.
  destruct tn as [v comp sepa iv]; intros _ Pp Pb L N Ok.
  unfold tag_prefix_ok in Ok; cbn [tag_version tag_component separator] in *.
  unfold TagName_toString; cbn [tag_version tag_component separator includeV].
  destruct comp as [c|].
  - apply andb_prop in Ok; destruct Ok as [Ok Hs].
    apply andb_prop in Ok; destruct Ok as [Nc Lc].
    destruct (list_ascii_of_string sepa) as [|s [|s' r]] eqn:Es; try discriminate Hs.
    apply of_chars in Es; simpl in Es; subst sepa.
    cbn [truthy interpolate]; rewrite Nc.
    pose proof (TagName_parse_built v (list_ascii_of_string c ++ [s])%list iv
                  (Some c) (Some (String s "")) Pp Pb L N) as P.
    rewrite string_app, string_of_list_ascii_of_string, string_app_assoc in P.
    apply P; right; exists (list_ascii_of_string c), s.
    rewrite string_of_list_ascii_of_string; auto.
  - apply String.eqb_eq in Ok; subst sepa; cbn [truthy].
    apply (TagName_parse_built v [] iv None None Pp Pb L N); left; auto.
Qed.

Lemma tag_round_trip_witness :
  TagName_parse
    (TagName_toString
       (mkTagName (new_Version 1 2 3 (Some "rc.1") (Some "b7")) (Some "my-pkg")
          "/" true))
    SemverVersionFormat =
  Normal (Some (mkTagName (new_Version 1 2 3 (Some "rc.1") (Some "b7"))
                  (Some "my-pkg") "/" true)) /\
  TagName_extractComponent
    (TagName_toString
       (mkTagName (new_Version 1 2 3 (Some "rc.1") (Some "b7")) (Some "my-pkg")
          "/" true)) =
  tag_component
    (mkTagName (new_Version 1 2 3 (Some "rc.1") (Some "b7")) (Some "my-pkg")
       "/" true).
Proof.
  apply (tag_round_trip
           (mkTagName (new_Version 1 2 3 (Some "rc.1") (Some "b7"))
              (Some "my-pkg") "/" true));
    vm_compute; reflexivity.
Defined.

Local Open Scope list_scope.

(** ** Which names [BranchName.parse] takes *)

Local Open Scope string_scope.

Lemma find_dashed : forall s,
  matches AutoreleaseBranchName s = false ->
  matches DefaultBranchName s = true ->
  exists c, find (fun c => matches c s) getAllResourceNames = Some c /\
            dashed c = true /\ matches c s = true.
Proof.
  intros s A D; unfold getAllResourceNames; cbn [find]; rewrite A.
  destruct (matches ComponentBranchName s) eqn:C; [eauto|].
  destruct (matches GroupBranchName s) eqn:G; [eauto|].
  rewrite D; eauto.
Qed.

Lemma construct_dashed : forall c s f,
  dashed c = true -> exists b, construct c s f = Normal b.
Proof. intros c s f D; destruct c; try discriminate D; simpl; eauto. Qed.

(** X19.  Every name ['release-please--branches--' + x], for a non-empty [x]
    without line terminator, is parsed, whatever the format, to an instance of
    the Component, Group or Default class that spells the name. *)
Theorem dashed_names_accepted : forall x f,
  x <> "" -> one_line x = true ->
  exists b,
    BranchName_parse (RELEASE_PLEASE ++ "--branches--" ++ x) f = (Some b, []) /\
    dashed (clazz b) = true /\
    BranchName_toString b = RELEASE_PLEASE ++ "--branches--" ++ x.
Proof.
  intros x f Nx Lx.
  set (s := RELEASE_PLEASE ++ "--branches--" ++ x).
  assert (D : matches DefaultBranchName s = true).
  { unfold matches; apply test_true.
    pose proof (one_capture_complete "--branches--" "branch" dot
                  (list_ascii_of_string x)) as C.
    rewrite prefixed_string, string_of_list_ascii_of_string in C.
    apply C; [apply chars_not_nil; exact Nx | exact Lx]. }
  destruct (find_dashed s (not_autorelease x) D) as [c [F [Dc M]]].
  destruct (construct_dashed c s f Dc) as [b C].
  exists b.
  assert (P : BranchName_parse s f = (Some b, [])).
  { unfold BranchName_parse; rewrite F, C.
    destruct c; try discriminate Dc; reflexivity. }
  split; [exact P|]; split.
  - rewrite (construct_clazz _ _ _ _ C); exact Dc.
  - apply (construct_spells c s f b); [|exact M | exact C].
    intros ->; discriminate Dc.
Qed.

Lemma dashed_names_accepted_witness :
  exists b,
    BranchName_parse
      (RELEASE_PLEASE ++ "--branches--" ++ "main-v1.2.3") (Some SemverVersionFormat) =
      (Some b, []) /\
    dashed (clazz b) = true /\
    BranchName_toString b = RELEASE_PLEASE ++ "--branches--" ++ "main-v1.2.3".
Proof.
  apply (dashed_names_accepted "main-v1.2.3" (Some SemverVersionFormat));
    [discriminate | reflexivity].
Defined.

(** X20.  A name of the Autorelease shape is parsed exactly when a format is
    given that decodes its version group; nothing is logged then. *)
Theorem autorelease_needs_format : forall s f,
  matches AutoreleaseBranchName s = true ->
  ((exists b, BranchName_parse s f = (Some b, [])) <->
   (exists fm m v,
      f = Some fm /\ exec AUTORELEASE_PATTERN s = Some m /\
      parse fm (required m "version") = Normal (Some v))).
Proof.
  intros s f A; split.
  - intros [b P].
    assert (K : clazz b = AutoreleaseBranchName).
    { destruct (parse_inv _ _ _ _ P) as [_ [M _]].
      apply (autorelease_alone s _ A M). }
    destruct (parse_autorelease _ _ _ _ P K) as [m [fm [v [E [Ef [Pv _]]]]]].
    exists fm, m, v; auto.
  - intros [fm [m [v [-> [E Pv]]]]].
    unfold BranchName_parse, getAllResourceNames; cbn [find]; rewrite A.
    cbn [construct]; unfold new_AutoreleaseBranchName; rewrite E, Pv.
    eexists; reflexivity.
Qed.

Lemma autorelease_needs_format_witness :
  (exists b, BranchName_parse "release-v1" (Some SemverVersionFormat) = (Some b, [])) <->
  (exists fm m v,
     Some SemverVersionFormat = Some fm /\
     exec AUTORELEASE_PATTERN "release-v1" = Some m /\
     parse fm (required m "version") = Normal (Some v)).
Proof.
  apply (autorelease_needs_format "release-v1" (Some SemverVersionFormat)).
  vm_compute; reflexivity.
Defined.

(** [ofComponentVersion] and [parse] on the name of a component and of a
    version that the format reads back. *)
Lemma autorelease_of_component : forall f p v v',
  p <> "" -> forallb word_dash_dot (list_ascii_of_string p) = true ->
  has_dash_v_digit (list_ascii_of_string p) = false ->
  version_tail (format f v) = true ->
  has_dash_v_digit (list_ascii_of_string (format f v)) = false ->
  parse f (format f v) = Normal (Some v') ->
  prefix RELEASE_PLEASE_BRANCH_PREFIX ("release-" ++ p ++ "-v" ++ format f v) = false ->
  BranchName_ofComponentVersion p v f =
    Normal (mkBranchName AutoreleaseBranchName (Some p) None (Some v') (Some f)) /\
  BranchName_parse ("release-" ++ p ++ "-v" ++ format f v) (Some f) =
    (Some (mkBranchName AutoreleaseBranchName (Some p) None (Some v') (Some f)), []).
Proof.
  intros f p v v' Np Wp Hp T N P G.
  destruct (autorelease_prefixed _ _ Np Wp Hp T N) as [m [E [C V]]].
  assert (B : new_AutoreleaseBranchName ("release-" ++ p ++ "-v" ++ format f v)
                (Some f) =
              Normal (mkBranchName AutoreleaseBranchName (Some p) None (Some v')
                        (Some f))).
  { unfold new_AutoreleaseBranchName; rewrite E, V, P, C; reflexivity. }
  split; [exact B|].
  unfold BranchName_parse, getAllResourceNames; cbn [find].
  assert (M : matches AutoreleaseBranchName
                ("release-" ++ p ++ "-v" ++ format f v) = true).
  { unfold matches; rewrite G.
    apply test_true; rewrite E; discriminate. }
  rewrite M; cbn [construct]; rewrite B; reflexivity.
Qed.

(** X21.  With the SemVer format, [ofComponentVersion(p, v)] holds [p] and
    [v], spells ['release-' + p + '-v' + format(v)], and [BranchName.parse]
    reads this name back to the same instance: for a non-empty prefix of word
    characters, dashes and dots, a version that the format reads back, no
    ['-v'] followed by a digit in either, and a name that does not start with
    ['release-please--branches']. *)
Theorem autorelease_component_round_trip : forall p v,
  exact_numbers v = true ->
  plain_prerelease (preRelease v) = true ->
  plain_line (build v) = true ->
  one_line (SemverVersionFormat_format v) = true ->
  has_dash_v_digit (list_ascii_of_string (SemverVersionFormat_format v)) = false ->
  p <> "" -> forallb word_dash_dot (list_ascii_of_string p) = true ->
  has_dash_v_digit (list_ascii_of_string p) = false ->
  prefix RELEASE_PLEASE_BRANCH_PREFIX
    ("release-" ++ p ++ "-v" ++ SemverVersionFormat_format v) = false ->
  exists b,
    BranchName_ofComponentVersion p v SemverVersionFormat = Normal b /\
    getComponent b = Some p /\ getVersion b = Some v /\
    BranchName_toString b = "release-" ++ p ++ "-v" ++ SemverVersionFormat_format v /\
    BranchName_parse (BranchName_toString b) (Some SemverVersionFormat) =
      (Some b, []).
Proof.
  intros p v _ Pp Pb L N Np Wp Hp G.
  destruct (autorelease_of_component SemverVersionFormat p v v) as [B P];
    try assumption.
  - apply (version_tail_rendered v); [exact L|].
    apply (rendered_prefix _ _ _ (toString_chars v)).
  - simpl; f_equal; apply (semver_parse_rendering v Pp Pb).
  - eexists; split; [exact B|].
    assert (T : BranchName_toString
                  (mkBranchName AutoreleaseBranchName (Some p) None (Some v)
                     (Some SemverVersionFormat)) =
                "release-" ++ p ++ "-v" ++ SemverVersionFormat_format v).
    { unfold BranchName_toString; cbn [clazz component version versionFormat truthy].
      destruct p; [contradiction | reflexivity]. }
    rewrite T; repeat split; exact P.
Qed.

Lemma autorelease_component_round_trip_witness :
  exists b,
    BranchName_ofComponentVersion "my-pkg" (new_Version 1 2 3 (Some "rc.1") None)
      SemverVersionFormat = Normal b /\
    getComponent b = Some "my-pkg" /\
    getVersion b = Some (new_Version 1 2 3 (Some "rc.1") None) /\
    BranchName_toString b =
      "release-" ++ "my-pkg" ++ "-v" ++
      SemverVersionFormat_format (new_Version 1 2 3 (Some "rc.1") None) /\
    BranchName_parse (BranchName_toString b) (Some SemverVersionFormat) =
      (Some b, []).
Proof.
  apply (autorelease_component_round_trip "my-pkg"
           (new_Version 1 2 3 (Some "rc.1") None));
    try discriminate; reflexivity.
Defined.

(** X22.  The deprecated call of [Version.parse] with the pattern of
    [src/version.ts] itself returns or throws what the call without a pattern
    does; it only adds the warning. *)
Theorem legacy_pattern_agrees : forall s,
  Version_parse s (Some VERSION_REGEX) =
  ([deprecation_warning], snd (Version_parse s None)).
Proof.
  intros s; unfold Version_parse; cbn [snd].
  f_equal.
  pose proof (Semver_parse_accepts s) as A.
  unfold SemverVersionFormat_parse, SemverVersionFormat_REGEX in *.
  destruct (exec VERSION_REGEX s) as [m|] eqn:E; [|reflexivity].
  change (names VERSION_REGEX)
    with ("major" :: "minor" :: "patch" :: "preRelease" :: "build" :: nil)%list.
  cbn iota.
  destruct (Version_of _ _ _ _ _) as [v|] eqn:V; [reflexivity|].
  exfalso.
  assert (H : holds_triple s).
  { unfold VERSION_REGEX in E; apply triple_headed_sound in E.
    destruct E as [u [a [b [c [y3 [y [Es [Da [Db [Dc _]]]]]]]]]].
    exists u, a, b, c, (rest y3); auto. }
  apply A in H; contradiction.
Qed.

Local Open Scope list_scope.

Lemma class_run_eq : forall p a1 a2 x1 x2,
  forallb p a1 = true -> forallb p a2 = true -> stops p x1 -> stops p x2 ->
  a1 ++ x1 = a2 ++ x2 -> a1 = a2 /\ x1 = x2.
Proof.
  intros p a1 a2 x1 x2 D1 D2 S1 S2 E.
  destruct (run_app_stop p a1 x1 D1 S1) as [R1 A1].
  destruct (run_app_stop p a2 x2 D2 S2) as [R2 A2].
  rewrite E in R1, A1; split; congruence.
Qed.

Lemma one_capture_complete_string : forall (lit1 n : string) p (b : string),
  b <> ""%string -> forallb p (list_ascii_of_string b) = true ->
  exec (Bol +++ Str RELEASE_PLEASE +++ Str lit1 +++
        Named n (Plus (Class p)) +++ Eol)%re
    (RELEASE_PLEASE ++ lit1 ++ b)%string <> None.
Proof.
  intros lit1 n p b Nb Pb.
  pose proof (one_capture_complete lit1 n p (list_ascii_of_string b)) as C.
  rewrite prefixed_string, string_of_list_ascii_of_string in C.
  apply C; [apply chars_not_nil; exact Nb | exact Pb].
Qed.

Lemma slashed_captures_complete : forall b c,
  b <> [] -> c <> [] -> forallb not_slash b = true -> forallb dot c = true ->
  exec V12_COMPONENT_PATTERN
    (string_of_list_ascii
       (list_ascii_of_string RELEASE_PLEASE ++ list_ascii_of_string "/branches/" ++
        b ++ list_ascii_of_string "/components/" ++ c)) <> None.
Proof.
  intros b c Hb Hc Db Dc.
  replace (b ++ list_ascii_of_string "/components/" ++ c)
    with (b ++ list_ascii_of_string "/components/" ++ c ++ [])
    by (rewrite app_nil_r; reflexivity).
  eapply exec_anchored_complete.
  rewrite list_ascii_of_string_of_list_ascii.
  eapply reach_Seq; [unfold Str; apply reach_Lit_intro; reflexivity|].
  eapply reach_Seq; [unfold Str; apply reach_Lit_intro; reflexivity|].
  eapply reach_Seq.
  { apply reach_Named. apply reach_Plus_Class_intro; [exact Hb | exact Db | reflexivity]. }
  eapply reach_Seq; [unfold Str; apply reach_Lit_intro; reflexivity|].
  eapply reach_Seq.
  { apply reach_Named. apply reach_Plus_Class_intro; [exact Hc | exact Dc | reflexivity]. }
  apply reach_Eol; reflexivity.
Qed.

Lemma find_slashed : forall s c,
  c = V12ComponentBranchName \/ c = V12DefaultBranchName ->
  matches c s = true ->
  find (fun c => matches c s) getAllResourceNames = Some c.
Proof.
  intros s c V M; unfold getAllResourceNames; cbn [find].
  destruct (matches AutoreleaseBranchName s) eqn:A.
  { pose proof (autorelease_alone s c A M) as X.
    destruct V as [-> | ->]; discriminate X. }
  destruct (matches ComponentBranchName s) eqn:C.
  { exfalso; exact (dashed_not_slashed s ComponentBranchName c eq_refl V C M). }
  destruct (matches GroupBranchName s) eqn:G.
  { exfalso; exact (dashed_not_slashed s GroupBranchName c eq_refl V G M). }
  destruct (matches DefaultBranchName s) eqn:D.
  { exfalso; exact (dashed_not_slashed s DefaultBranchName c eq_refl V D M). }
  destruct V as [-> | ->]; [rewrite M; reflexivity|].
  destruct (matches V12ComponentBranchName s) eqn:W;
    [exfalso; exact (slashed_apart s W M) | rewrite M; reflexivity].
Qed.

Local Open Scope string_scope.

Lemma V12Default_matches : forall b,
  b <> "" -> forallb not_slash (list_ascii_of_string b) = true ->
  exec V12_DEFAULT_PATTERN (RELEASE_PLEASE ++ "/branches/" ++ b) <> None.
Proof. intros b Nb Sb; apply one_capture_complete_string; assumption. Qed.

Lemma V12Default_fields : forall b,
  exec V12_DEFAULT_PATTERN (RELEASE_PLEASE ++ "/branches/" ++ b) <> None ->
  new_V12DefaultBranchName (RELEASE_PLEASE ++ "/branches/" ++ b) =
    mkBranchName V12DefaultBranchName None (Some b) None None.
Proof.
  intros b M.
  unfold new_V12DefaultBranchName.
  destruct (exec V12_DEFAULT_PATTERN _) as [m|] eqn:E; [|contradiction].
  apply one_capture_sound in E; destruct E as [b' [Es [_ [_ G]]]].
  rewrite !chars_app in Es.
  apply app_inv_head in Es; apply app_inv_head in Es.
  unfold group; rewrite G, <- Es; simpl.
  rewrite string_of_list_ascii_of_string; reflexivity.
Qed.

Lemma V12Component_matches : forall b c,
  b <> "" -> forallb not_slash (list_ascii_of_string b) = true ->
  c <> "" -> one_line c = true ->
  exec V12_COMPONENT_PATTERN
    (RELEASE_PLEASE ++ "/branches/" ++ b ++ "/components/" ++ c) <> None.
Proof.
  intros b c Nb Sb Nc Lc.
  pose proof (slashed_captures_complete (list_ascii_of_string b)
                (list_ascii_of_string c)) as C.
  rewrite !string_app, !string_of_list_ascii_of_string in C.
  apply C; auto using chars_not_nil.
Qed.

Lemma V12Component_fields : forall b c,
  forallb not_slash (list_ascii_of_string b) = true ->
  exec V12_COMPONENT_PATTERN
    (RELEASE_PLEASE ++ "/branches/" ++ b ++ "/components/" ++ c) <> None ->
  new_V12ComponentBranchName
    (RELEASE_PLEASE ++ "/branches/" ++ b ++ "/components/" ++ c) =
    mkBranchName V12ComponentBranchName (Some c) (Some b) None None.
Proof.
  intros b c Sb M.
  unfold new_V12ComponentBranchName.
  destruct (exec V12_COMPONENT_PATTERN _) as [m|] eqn:E; [|contradiction].
  apply slashed_captures_sound in E.
  destruct E as [b' [c' [Es [_ [_ [Db' [_ G]]]]]]].
  rewrite !chars_app in Es.
  apply app_inv_head in Es; apply app_inv_head in Es.
  assert (S1 : forall r, stops not_slash (list_ascii_of_string "/components/" ++ r)%list)
    by (intros r; reflexivity).
  destruct (class_run_eq not_slash (list_ascii_of_string b) b'
              (list_ascii_of_string "/components/" ++ list_ascii_of_string c)%list
              (list_ascii_of_string "/components/" ++ c')%list
              Sb Db' (S1 _) (S1 _) Es) as [Eb Ec].
  apply app_inv_head in Ec.
  unfold group; rewrite G, <- Eb, <- Ec; simpl.
  rewrite !string_of_list_ascii_of_string; reflexivity.
Qed.

(** X23.  The names of release-please v12: ['release-please/branches/' + b] is
    parsed to the target branch [b] when [b] is not empty and holds no [/],
    and with ['/components/' + c] added, for a non-empty [c] without line
    terminator, to the target branch [b] and the component [c]; the format
    plays no part. *)
Theorem slashed_names_accepted : forall b c f,
  b <> "" -> forallb not_slash (list_ascii_of_string b) = true ->
  c <> "" -> one_line c = true ->
  BranchName_parse (RELEASE_PLEASE ++ "/branches/" ++ b) f =
    (Some (mkBranchName V12DefaultBranchName None (Some b) None None), []) /\
  BranchName_parse (RELEASE_PLEASE ++ "/branches/" ++ b ++ "/components/" ++ c) f =
    (Some (mkBranchName V12ComponentBranchName (Some c) (Some b) None None), []).
Proof.
  intros b c f Nb Sb Nc Lc; split.
  - pose proof (V12Default_matches b Nb Sb) as X.
    pose proof (V12Default_fields b X) as E.
    apply test_true in X.
    unfold BranchName_parse.
    rewrite (find_slashed _ V12DefaultBranchName (or_intror eq_refl) X).
    cbn [construct]; rewrite E; reflexivity.
  - pose proof (V12Component_matches b c Nb Sb Nc Lc) as X.
    pose proof (V12Component_fields b c Sb X) as E.
    apply test_true in X.
    unfold BranchName_parse.
    rewrite (find_slashed _ V12ComponentBranchName (or_introl eq_refl) X).
    cbn [construct]; rewrite E; reflexivity.
Qed.

Lemma slashed_names_accepted_witness :
  BranchName_parse (RELEASE_PLEASE ++ "/branches/" ++ "main") None =
    (Some (mkBranchName V12DefaultBranchName None (Some "main") None None), []) /\
  BranchName_parse
    (RELEASE_PLEASE ++ "/branches/" ++ "main" ++ "/components/" ++ "pkg/a") None =
    (Some (mkBranchName V12ComponentBranchName (Some "pkg/a") (Some "main")
             None None), []).
Proof.
  apply (slashed_names_accepted "main" "pkg/a" None);
    try discriminate; reflexivity.
Defined.

Local Open Scope list_scope.

(** ** A match does not depend on where the text starts *)

Lemma repeat_loop_ext : forall body clear,
  (forall x c1 c2, (forall y, c1 y = c2 y) -> body x c1 = body x c2) ->
  forall n x c1 c2, (forall y, c1 y = c2 y) ->
  repeat_loop body clear n x c1 = repeat_loop body clear n x c2.
Proof.
  intros body clear Hb; induction n as [|n IH]; intros x c1 c2 H; simpl.
  - apply H.
  - rewrite (Hb (clear x) _
               (fun y => if Nat.eqb (endIndex y) (endIndex x) then None
                         else repeat_loop body clear n y c2)).
    + rewrite (H x); reflexivity.
    + intros y; destruct (Nat.eqb _ _); [reflexivity | apply IH; exact H].
Qed.

(** The matcher looks at its continuation only through its results. *)
Lemma matcher_ext : forall r x c1 c2,
  (forall y, c1 y = c2 y) -> matcher r x c1 = matcher r x c2.
Proof.
  induction r; intros x c1 c2 H; simpl.
  - apply H.
  - destruct (rest x); [reflexivity|]; destruct (Ascii.eqb a a0); [apply H | reflexivity].
  - destruct (rest x); [reflexivity|]; destruct (p a); [apply H | reflexivity].
  - destruct (Nat.eqb _ _); [apply H | reflexivity].
  - destruct (rest x); [apply H | reflexivity].
  - apply IHr1; intros y; apply IHr2; exact H.
  - apply IHr; exact H.
  - apply IHr; intros y; apply H.
  - rewrite (IHr (reset r x) _
               (fun y => if Nat.eqb (endIndex y) (endIndex x) then None else c2 y)).
    + rewrite (H x); reflexivity.
    + intros y; destruct (Nat.eqb _ _); [reflexivity | apply H].
  - apply repeat_loop_ext; [exact IHr | exact H].
  - apply IHr; intros y; apply repeat_loop_ext; [exact IHr | exact H].
Qed.

Lemma repeat_loop_map : forall body clear (f : mstate -> mstate),
  (forall x c, body x (fun y => option_map f (c y)) = option_map f (body x c)) ->
  (forall x c1 c2, (forall y, c1 y = c2 y) -> body x c1 = body x c2) ->
  forall n x c,
  repeat_loop body clear n x (fun y => option_map f (c y)) =
  option_map f (repeat_loop body clear n x c).
Proof.
  intros body clear f Hm He; induction n as [|n IH]; intros x c; simpl.
  - reflexivity.
  - rewrite (He (clear x) _
               (fun y => option_map f
                           (if Nat.eqb (endIndex y) (endIndex x) then None
                            else repeat_loop body clear n y c))).
    + rewrite Hm.
      destruct (body (clear x) _); reflexivity.
    + intros y; destruct (Nat.eqb _ _); [reflexivity | apply IH].
Qed.

(** A change of the final state goes through the matcher. *)
Lemma matcher_map : forall (f : mstate -> mstate) r x c,
  matcher r x (fun y => option_map f (c y)) = option_map f (matcher r x c).
Proof.
  intros f; induction r; intros x c; simpl.
  - reflexivity.
  - destruct (rest x); [reflexivity|]; destruct (Ascii.eqb a a0); reflexivity.
  - destruct (rest x); [reflexivity|]; destruct (p a); reflexivity.
  - destruct (Nat.eqb _ _); reflexivity.
  - destruct (rest x); reflexivity.
  - rewrite <- IHr1; apply matcher_ext; intros y; apply IHr2.
  - apply IHr.
  - apply (IHr x (fun y => c (capture name x y))).
  - rewrite (matcher_ext r (reset r x) _
               (fun y => option_map f
                           (if Nat.eqb (endIndex y) (endIndex x) then None else c y))).
    + rewrite IHr; destruct (matcher r (reset r x) _); reflexivity.
    + intros y; destruct (Nat.eqb _ _); reflexivity.
  - apply repeat_loop_map; [exact IHr | apply matcher_ext].
  - rewrite <- IHr; apply matcher_ext; intros y.
    apply repeat_loop_map; [exact IHr | apply matcher_ext].
Qed.

Lemma shift_capture : forall k n x y,
  capture n (shift k x) (shift k y) = shift k (capture n x y).
Proof.
  intros k n x y; unfold capture, shift, consumed; simpl.
  replace (endIndex y + k - (endIndex x + k)) with (endIndex y - endIndex x) by lia.
  reflexivity.
Qed.

Lemma shift_eqb : forall k x y,
  Nat.eqb (endIndex (shift k y)) (endIndex (shift k x)) =
  Nat.eqb (endIndex y) (endIndex x).
Proof.
  intros k x y; simpl.
  destruct (Nat.eqb (endIndex y) (endIndex x)) eqn:Q.
  - apply Nat.eqb_eq in Q; apply Nat.eqb_eq; lia.
  - apply Nat.eqb_neq in Q; apply Nat.eqb_neq; lia.
Qed.

Lemma repeat_loop_shift : forall k r,
  (forall x c, matcher r (shift k x) c = matcher r x (fun y => c (shift k y))) ->
  forall n x c,
  repeat_loop (matcher r) (reset r) n (shift k x) c =
  repeat_loop (matcher r) (reset r) n x (fun y => c (shift k y)).
Proof.
  intros k r Hr; induction n as [|n IH]; intros x c.
  - reflexivity.
  - cbn [repeat_loop].
    change (reset r (shift k x)) with (shift k (reset r x)).
    rewrite Hr.
    rewrite (matcher_ext r (reset r x) _
               (fun y => if Nat.eqb (endIndex y) (endIndex x) then None
                         else repeat_loop (matcher r) (reset r) n y
                                (fun z => c (shift k z)))).
    + reflexivity.
    + intros y; rewrite shift_eqb.
      destruct (Nat.eqb _ _); [reflexivity | apply IH].
Qed.

(** A pattern without [^] matches the same way wherever the text starts. *)
Lemma matcher_shift : forall k r, unanchored r = true ->
  forall x c, matcher r (shift k x) c = matcher r x (fun y => c (shift k y)).
Proof.
  intros k; induction r; intros U x c; simpl in U.
  - reflexivity.
  - simpl; destruct (rest x); [reflexivity|]; destruct (Ascii.eqb a a0); reflexivity.
  - simpl; destruct (rest x); [reflexivity|]; destruct (p a); reflexivity.
  - discriminate.
  - simpl; destruct (rest x); reflexivity.
  - apply andb_true_iff in U; destruct U as [U1 U2].
    cbn [matcher]; rewrite (IHr1 U1).
    apply matcher_ext; intros y; apply (IHr2 U2).
  - cbn [matcher]; apply (IHr U).
  - cbn [matcher]; rewrite (IHr U).
    apply matcher_ext; intros y; rewrite shift_capture; reflexivity.
  - cbn [matcher].
    change (reset r (shift k x)) with (shift k (reset r x)).
    rewrite (IHr U).
    rewrite (matcher_ext r (reset r x) _
               (fun y => if Nat.eqb (endIndex y) (endIndex x) then None
                         else c (shift k y))).
    + reflexivity.
    + intros y; rewrite shift_eqb; reflexivity.
  - cbn [matcher]; apply repeat_loop_shift; exact (IHr U).
  - cbn [matcher].
    change (reset r (shift k x)) with (shift k (reset r x)).
    rewrite (IHr U).
    apply matcher_ext; intros y.
    apply (repeat_loop_shift k r (IHr U)).
Qed.

Lemma matcher_shift_start : forall k r, unanchored r = true ->
  forall x,
  matcher r (shift k x) Some = option_map (shift k) (matcher r x Some).
Proof.
  intros k r U x; rewrite (matcher_shift k r U).
  exact (matcher_map (shift k) r x Some).
Qed.

(** The search from a later index finds the same match, counted from there. *)
Lemma search_shift : forall k r, unanchored r = true ->
  forall s i,
  search r (i + k) s =
  option_map (fun jy => (fst jy + k, shift k (snd jy))) (search r i s).
Proof.
  intros k r U; induction s as [|a s IH]; intros i; cbn [search].
  - change (mkState (i + k) [] []) with (shift k (mkState i [] [])).
    rewrite (matcher_shift_start k r U).
    destruct (matcher r (mkState i [] []) Some); reflexivity.
  - change (mkState (i + k) (a :: s) []) with (shift k (mkState i (a :: s) [])).
    rewrite (matcher_shift_start k r U).
    destruct (matcher r (mkState i (a :: s) []) Some); [reflexivity|].
    apply (IH (S i)).
Qed.

(** Text in which no match can start is passed over. *)
Lemma search_skip : forall r u s i,
  (forall u1 a u2, u = u1 ++ a :: u2 ->
     matcher r (mkState (i + List.length u1) (a :: u2 ++ s) []) Some = None) ->
  search r i (u ++ s) = search r (i + List.length u) s.
Proof.
  intros r; induction u as [|a u IH]; intros s i H.
  - simpl; rewrite Nat.add_0_r; reflexivity.
  - cbn [app search].
    pose proof (H [] a u eq_refl) as H0; simpl in H0.
    rewrite Nat.add_0_r in H0; rewrite H0.
    rewrite IH.
    + f_equal; simpl; lia.
    + intros u1 b u2 E.
      pose proof (H (a :: u1) b u2) as H1.
      simpl in H1; rewrite E in H1.
      replace (S i + List.length u1) with (i + S (List.length u1)) by lia.
      apply H1; reflexivity.
Qed.

(** A greedy run of a class fails when the continuation fails after every
    non-empty part of the run. *)
Lemma plus_class_none : forall p k x,
  (forall w t, w <> [] -> rest x = w ++ t -> forallb p w = true ->
     k (past x w t) = None) ->
  matcher (Plus (Class p)) x k = None.
Proof.
  intros p k x H; cbn [matcher].
  rewrite reset_no_names by reflexivity.
  destruct (rest x) as [|b t] eqn:E; [reflexivity|].
  destruct (p b) eqn:Q; [|reflexivity].
  apply repeat_class_none.
  intros w t' E' Pw; cbn [advance rest] in E'.
  rewrite (advance_past x b), past_past.
  apply H; [discriminate | rewrite E'; reflexivity | simpl; rewrite Q; exact Pw].
Qed.

Lemma ends_plain_digits : forall u v,
  v <> [] -> forallb digit v = true -> ends_plain (u ++ v) = false.
Proof.
  intros u v N D; unfold ends_plain; rewrite rev_app_distr.
  destruct (rev v) as [|z q] eqn:R.
  - apply (f_equal (@rev ascii)) in R; rewrite rev_involutive in R.
    contradiction N.
  - simpl.
    assert (Hz : In z v) by (apply in_rev; rewrite R; left; reflexivity).
    rewrite forallb_forall in D; rewrite (D z Hz); reflexivity.
Qed.

Lemma exec_shift : forall r u s, unanchored r = true ->
  (forall u1 a u2, list_ascii_of_string u = u1 ++ a :: u2 ->
     matcher r (mkState (List.length u1) (a :: u2 ++ list_ascii_of_string s) [])
       Some = None) ->
  option_map groups_of (exec r (u ++ s)) = option_map groups_of (exec r s).
Proof.
  intros r u s U H; unfold exec.
  rewrite chars_app, search_skip by exact H.
  rewrite (search_shift _ r U _ 0).
  destruct (search r 0 (list_ascii_of_string s)) as [[j y]|]; reflexivity.
Qed.

(** No triple starts inside a plain prefix. *)
Lemma triple_not_in_prefix : forall u1 a u2 s i k,
  forallb (fun a => negb (Ascii.eqb a ".")) (u1 ++ a :: u2) = true ->
  ends_plain (u1 ++ a :: u2) = true ->
  matcher TRIPLE (mkState i (a :: u2 ++ s) []) k = None.
Proof.
  intros u1 a u2 s i k D L; unfold TRIPLE.
  rewrite matcher_Seq, matcher_Named.
  apply plus_class_none; intros w t Nw E Pw.
  rewrite matcher_Seq.
  apply matcher_Char_miss; cbn [capture past rest] in *.
  destruct t as [|b t]; [exact I|].
  change (a :: u2 ++ s) with ((a :: u2) ++ s) in E.
  apply app_eq_app in E; destruct E as [l [[E1 E2] | [E1 E2]]].
  - (* the run stops inside the prefix *)
    destruct l as [|c l].
    + exfalso; rewrite app_nil_r in E1; rewrite E1 in L.
      rewrite (ends_plain_digits u1 w Nw Pw) in L; discriminate.
    + injection E2 as <- _.
      rewrite forallb_forall in D.
      assert (Hb : In b (u1 ++ a :: u2))
        by (rewrite E1; apply in_or_app; right; apply in_or_app; right; left;
            reflexivity).
      specialize (D b Hb); apply negb_true_iff in D.
      rewrite Ascii.eqb_sym; exact D.
  - (* the run would cover the end of the prefix *)
    exfalso.
    assert (F : forallb digit (a :: u2) = true).
    { rewrite forallb_forall in Pw |- *; intros z Hz; apply Pw.
      rewrite E1; apply in_or_app; left; exact Hz. }
    rewrite (ends_plain_digits u1 (a :: u2)) in L; [discriminate | discriminate | exact F].
Qed.

Lemma semver_parse_groups : forall s1 s2,
  option_map groups_of (exec SemverVersionFormat_REGEX s1) =
  option_map groups_of (exec SemverVersionFormat_REGEX s2) ->
  SemverVersionFormat_parse s1 = SemverVersionFormat_parse s2.
Proof.
  intros s1 s2 H; unfold SemverVersionFormat_parse.
  destruct (exec SemverVersionFormat_REGEX s1) as [m1|],
           (exec SemverVersionFormat_REGEX s2) as [m2|]; try discriminate;
    [|reflexivity].
  injection H as H; unfold group; rewrite H; reflexivity.
Qed.

Lemma ruby_parse_groups : forall s1 s2,
  option_map groups_of (exec RubyVersionFormat_REGEX s1) =
  option_map groups_of (exec RubyVersionFormat_REGEX s2) ->
  RubyVersionFormat_parse s1 = RubyVersionFormat_parse s2.
Proof.
  intros s1 s2 H; unfold RubyVersionFormat_parse.
  destruct (exec RubyVersionFormat_REGEX s1) as [m1|],
           (exec RubyVersionFormat_REGEX s2) as [m2|]; try discriminate;
    [|reflexivity].
  injection H as H; unfold group; rewrite H; reflexivity.
Qed.

Lemma plain_prefix_parts : forall u u1 a u2,
  plain_prefix u = true -> list_ascii_of_string u = u1 ++ a :: u2 ->
  forallb (fun a => negb (Ascii.eqb a ".")) (u1 ++ a :: u2) = true /\
  ends_plain (u1 ++ a :: u2) = true.
Proof.
  intros u u1 a u2 P E; unfold plain_prefix in P; rewrite E in P.
  apply andb_true_iff in P; exact P.
Qed.

(** X24.  Text in front of a version is ignored when it has no dot and does
    not end in a digit ("v", "release-", "pkg-v"): both shipped formats read
    [u ++ s] as they read [s], and so does [Version.parse], whose error alone
    names the longer text. *)
Theorem prefix_ignored : forall u s,
  plain_prefix u = true ->
  SemverVersionFormat_parse (u ++ s) = SemverVersionFormat_parse s /\
  RubyVersionFormat_parse (u ++ s) = RubyVersionFormat_parse s /\
  snd (Version_parse (u ++ s) None) =
    match snd (Version_parse s None) with
    | Normal v => Normal v
    | Throw _ => Throw (unable_to_parse (u ++ s))
    end.
Proof.
  intros u s P.
  assert (S1 : SemverVersionFormat_parse (u ++ s) = SemverVersionFormat_parse s).
  { apply semver_parse_groups, exec_shift; [reflexivity|].
    intros u1 a u2 E; destruct (plain_prefix_parts u u1 a u2 P E) as [D L].
    unfold SemverVersionFormat_REGEX, VERSION_REGEX; rewrite matcher_Seq.
    apply (triple_not_in_prefix u1); assumption. }
  split; [exact S1|]; split.
  - apply ruby_parse_groups, exec_shift; [reflexivity|].
    intros u1 a u2 E; destruct (plain_prefix_parts u u1 a u2 P E) as [D L].
    unfold RubyVersionFormat_REGEX; rewrite matcher_Seq.
    apply (triple_not_in_prefix u1); assumption.
  - unfold Version_parse; cbn [snd]; rewrite S1.
    destruct (SemverVersionFormat_parse s); reflexivity.
Qed.

Lemma prefix_ignored_witness :
  plain_prefix "pkg-v" = true /\
  SemverVersionFormat_parse ("pkg-v" ++ "1.2.3-rc.1") =
  SemverVersionFormat_parse "1.2.3-rc.1".
Proof.
  split; [reflexivity|].
  exact (proj1 (prefix_ignored "pkg-v" "1.2.3-rc.1" eq_refl)).
Defined.

Local Open Scope list_scope.

(** ** The first match of a version pattern *)

(** [search] returns the first index at which the pattern matches. *)
Lemma search_first : forall r s i j y,
  search r i s = Some (j, y) ->
  exists u v, s = u ++ v /\ j = i + List.length u /\
    matcher r (mkState j v []) Some = Some y /\
    forall u1 u2, u = u1 ++ u2 -> u2 <> [] ->
      matcher r (mkState (i + List.length u1) (u2 ++ v) []) Some = None.
Proof.
  intros r; induction s as [|a s IH]; intros i j y H; simpl in H.
  - destruct (matcher r (mkState i [] []) Some) as [z|] eqn:E; [|discriminate].
    injection H as <- <-.
    exists [], []; repeat split; [simpl; lia | assumption|].
    intros [|? ?] u2 E1 N; [simpl in E1; subst u2; contradiction | discriminate].
  - destruct (matcher r (mkState i (a :: s) []) Some) as [z|] eqn:E.
    + injection H as <- <-.
      exists [], (a :: s); repeat split; [simpl; lia | assumption|].
      intros [|? ?] u2 E1 N; [simpl in E1; subst u2; contradiction | discriminate].
    + apply IH in H; destruct H as [u [v [-> [-> [Hr F]]]]].
      exists (a :: u), v; repeat split; [simpl; lia | |].
      * replace (i + List.length (a :: u)) with (S i + List.length u)
          by (simpl; lia).
        assumption.
      * intros [|b u1] u2 E1 N; simpl in E1.
        -- subst u2; simpl; rewrite Nat.add_0_r; exact E.
        -- injection E1 as <- E1.
           replace (i + List.length (a :: u1)) with (S i + List.length u1)
             by (simpl; lia).
           apply F; assumption.
Qed.

Lemma opt_total : forall r x k, k x <> None -> matcher (Opt r) x k <> None.
Proof.
  intros r x k K; rewrite matcher_Opt.
  destruct (matcher r (reset r x) _); [discriminate | exact K].
Qed.

Lemma semver_tail_total : forall x,
  matcher
    (Opt (Paren (Char "-" +++ Named "preRelease" (Plus (Class not_plus)))) +++
     Opt (Paren (Char "+" +++ Named "build" (Star (Class dot)))))%re x Some
  <> None.
Proof.
  intros x; rewrite matcher_Seq; apply opt_total, opt_total; discriminate.
Qed.

Lemma triple_text_app : forall a b c z,
  triple_text a b (c ++ z) = triple_text a b c ++ z.
Proof.
  intros; unfold triple_text.
  rewrite <- !app_assoc; simpl; rewrite <- !app_assoc; reflexivity.
Qed.

(** A pattern that starts with the triple and can always go on matches at
    the first triple of the text, each run of digits taken whole. *)
Lemma triple_headed_first : forall r s m,
  (forall x, matcher r x Some <> None) ->
  exec (TRIPLE +++ r)%re s = Some m ->
  exists u a b c z y,
    first_triple (list_ascii_of_string s) u a b c z /\
    matcher r
      (mkState (List.length u + List.length (triple_text a b c)) z
         (triple_captures a b c)) Some = Some y /\
    groups_of m = caps y.
Proof.
  intros r s m T H; unfold exec in H.
  destruct (search _ 0 _) as [[j y]|] eqn:E; [|discriminate].
  injection H as <-.
  apply search_first in E; destruct E as [u [v [Es [Ej [M F]]]]].
  simpl in Ej; subst j.
  pose proof M as M0.
  rewrite matcher_Seq in M0.
  apply matcher_sound in M0; destruct M0 as [y3 [R3 _]].
  apply TRIPLE_sound in R3.
  destruct R3 as [a [b [c0 [Ev [Da [Db [[Nc Dc] _]]]]]]].
  set (z0 := rest y3) in *.
  set (c := c0 ++ run digit z0).
  set (z := after digit z0).
  assert (Dcc : digits c).
  { split; [unfold c; destruct c0; [contradiction | discriminate]|].
    unfold c; rewrite forallb_app, Dc, run_all; reflexivity. }
  assert (Ev' : v = triple_text a b c ++ z).
  { unfold c, z; rewrite triple_text_app, <- app_assoc, run_after; exact Ev. }
  assert (St : stops digit z) by apply after_stops.
  exists u, a, b, c, z, y.
  rewrite matcher_Seq in M.
  rewrite (TRIPLE_exact _ (mkState (List.length u) v []) a b c z Da Db Dcc St Ev')
    in M by apply T.
  cbn [endIndex caps] in M; rewrite app_nil_r in M.
  split; [|split; [exact M | reflexivity]].
  repeat split; try assumption; try apply Da; try apply Db; try apply Dcc.
  - rewrite Es, Ev'; reflexivity.
  - intros u1 u2 Eu N [a' [b' [c' [z' [E' [Da' [Db' Dc']]]]]]].
    specialize (F u1 u2 Eu N); rewrite Ev' in F; revert F.
    destruct (TRIPLE_complete (0 + List.length u1) a' b' c' z' Da' Db' Dc')
      as [y' [R' _]].
    rewrite E'.
    destruct (matcher r y' Some) as [y''|] eqn:My; [|contradiction (T y')].
    pose proof My as My'.
    apply matcher_sound in My'; destruct My' as [w [Rw Ew]]; injection Ew as ->.
    apply (matcher_complete _ _ y''); [|discriminate].
    eapply reach_Seq; [exact R' | exact Rw].
Qed.

(** The triple that [first_triple] describes is the only one. *)
Lemma digits_dot_eq : forall a a' r r',
  forallb digit a = true -> forallb digit a' = true ->
  stops digit r -> stops digit r' ->
  a ++ r = a' ++ r' -> a = a' /\ r = r'.
Proof.
  intros a a' r r' Da Da' S S' E.
  destruct (run_app_stop digit a r Da S) as [R A].
  destruct (run_app_stop digit a' r' Da' S') as [R' A'].
  rewrite E in R, A; rewrite R' in R; rewrite A' in A; auto.
Qed.

Lemma triple_text_eq : forall a b c z a' b' c' z',
  digits a -> digits b -> digits c -> digits a' -> digits b' -> digits c' ->
  stops digit z -> stops digit z' ->
  triple_text a b c ++ z = triple_text a' b' c' ++ z' ->
  a = a' /\ b = b' /\ c = c' /\ z = z'.
Proof.
  intros a b c z a' b' c' z' [_ Da] [_ Db] [_ Dc] [_ Da'] [_ Db'] [_ Dc'] S S' E.
  rewrite <- !triple_text_app in E; unfold triple_text in E.
  apply digits_dot_eq in E; try assumption; try reflexivity.
  destruct E as [-> E]; injection E as E.
  apply digits_dot_eq in E; try assumption; try reflexivity.
  destruct E as [-> E]; injection E as E.
  apply digits_dot_eq in E; try assumption.
  destruct E as [-> ->]; auto.
Qed.

Lemma first_triple_unique : forall text u a b c z u' a' b' c' z',
  first_triple text u a b c z -> first_triple text u' a' b' c' z' ->
  u = u' /\ a = a' /\ b = b' /\ c = c' /\ z = z'.
Proof.
  intros text u a b c z u' a' b' c' z'
    [E [Da [Db [Dc [S F]]]]] [E' [Da' [Db' [Dc' [S' F']]]]].
  assert (U : u = u').
  { rewrite E in E'; apply app_eq_app in E'.
    destruct E' as [l [[E1 E2] | [E1 E2]]].
    - destruct l as [|x l]; [rewrite app_nil_r in E1; exact E1|].
      exfalso; apply (F u' (x :: l) E1); [discriminate|].
      rewrite <- E2; exists a', b', c', z'; auto.
    - destruct l as [|x l]; [rewrite app_nil_r in E1; symmetry; exact E1|].
      exfalso; apply (F' u (x :: l) E1); [discriminate|].
      rewrite <- E2; exists a, b, c, z; auto. }
  subst u'; split; [reflexivity|].
  rewrite E in E'; apply app_inv_head in E'.
  apply triple_text_eq; assumption.
Qed.

Lemma triple_numbers : forall m a b c pre bld v,
  get_capture "major" (groups_of m) = Some a ->
  get_capture "minor" (groups_of m) = Some b ->
  get_capture "patch" (groups_of m) = Some c ->
  digits a -> digits b -> digits c ->
  Version_of (Number (group m "major")) (Number (group m "minor"))
    (Number (group m "patch")) pre bld = Some v ->
  Number (Some (string_of_list_ascii a)) = Some (major v) /\
  Number (Some (string_of_list_ascii b)) = Some (minor v) /\
  Number (Some (string_of_list_ascii c)) = Some (patch v) /\
  preRelease v = pre /\ build v = bld.
Proof.
  intros m a b c pre bld v Ga Gb Gc [_ Da] [_ Db] [_ Dc] H.
  unfold group in H; rewrite Ga, Gb, Gc in H; cbn [option_map] in H.
  destruct (Number_digits a Da) as [x Ex].
  destruct (Number_digits b Db) as [x' Ex'].
  destruct (Number_digits c Dc) as [x'' Ex''].
  rewrite Ex, Ex', Ex'' in *; simpl in H; injection H as <-.
  repeat split; reflexivity.
Qed.

(** What the SemVer format reads: the numbers of the first triple. *)
Lemma Semver_parse_first : forall s v,
  SemverVersionFormat_parse s = Some v ->
  exists u a b c z,
    first_triple (list_ascii_of_string s) u a b c z /\
    Number (Some (string_of_list_ascii a)) = Some (major v) /\
    Number (Some (string_of_list_ascii b)) = Some (minor v) /\
    Number (Some (string_of_list_ascii c)) = Some (patch v).
Proof.
  intros s v H; unfold SemverVersionFormat_parse in H.
  destruct (exec _ s) as [m|] eqn:E; [|discriminate].
  unfold SemverVersionFormat_REGEX, VERSION_REGEX in E.
  apply triple_headed_first in E; [|apply semver_tail_total].
  destruct E as [u [a [b [c [z [y [Ft [M G]]]]]]]].
  apply matcher_sound in M; destruct M as [y' [R Ey]]; injection Ey as ->.
  assert (F : forall n, n = "major"%string \/ n = "minor"%string \/ n = "patch"%string ->
              get_capture n (groups_of m) = get_capture n (triple_captures a b c)).
  { intros n Hn; rewrite G.
    rewrite (reach_frame _ _ _ R) by (apply semver_tail_names, Hn); reflexivity. }
  destruct Ft as [Et [Da [Db [Dc Ft]]]].
  destruct (triple_numbers m a b c _ _ v
              (eq_trans (F "major"%string (or_introl eq_refl)) eq_refl)
              (eq_trans (F "minor"%string (or_intror (or_introl eq_refl))) eq_refl)
              (eq_trans (F "patch"%string (or_intror (or_intror eq_refl))) eq_refl)
              Da Db Dc H) as [Na [Nb [Nc _]]].
  exists u, a, b, c, z; repeat split; try assumption; try apply Da;
    try apply Db; try apply Dc; apply Ft.
Qed.

(** What the Ruby format reads: the numbers of the first triple, and as
    prerelease what follows it. *)
Lemma Ruby_parse_first : forall s v,
  RubyVersionFormat_parse s = Some v ->
  exists u a b c z,
    first_triple (list_ascii_of_string s) u a b c z /\
    Number (Some (string_of_list_ascii a)) = Some (major v) /\
    Number (Some (string_of_list_ascii b)) = Some (minor v) /\
    Number (Some (string_of_list_ascii c)) = Some (patch v) /\
    preRelease v = option_map string_of_list_ascii (ruby_prerelease z) /\
    build v = None.
Proof.
  intros s v H; unfold RubyVersionFormat_parse in H.
  destruct (exec _ s) as [m|] eqn:E; [|discriminate].
  unfold RubyVersionFormat_REGEX in E.
  apply triple_headed_first in E; [|intros x; apply ruby_tail_total].
  destruct E as [u [a [b [c [z [y [Ft [M G]]]]]]]].
  pose proof (ruby_tail_exact _ _ M eq_refl) as P; cbn [rest] in P.
  apply matcher_sound in M; destruct M as [y' [R Ey]]; injection Ey as ->.
  assert (F : forall n, n = "major"%string \/ n = "minor"%string \/ n = "patch"%string ->
              get_capture n (groups_of m) = get_capture n (triple_captures a b c)).
  { intros n Hn; rewrite G.
    rewrite (reach_frame _ _ _ R) by (apply ruby_tail_names, Hn); reflexivity. }
  destruct Ft as [Et [Da [Db [Dc Ft]]]].
  destruct (triple_numbers m a b c _ _ v
              (eq_trans (F "major"%string (or_introl eq_refl)) eq_refl)
              (eq_trans (F "minor"%string (or_intror (or_introl eq_refl))) eq_refl)
              (eq_trans (F "patch"%string (or_intror (or_intror eq_refl))) eq_refl)
              Da Db Dc H) as [Na [Nb [Nc [Pv Bv]]]].
  exists u, a, b, c, z.
  split; [repeat split; try assumption; try apply Da; try apply Db;
          try apply Dc; apply Ft|].
  repeat split; try assumption.
  rewrite Pv; unfold group; rewrite G, P; reflexivity.
Qed.
Local Open Scope string_scope.

(** C4 (amended).  For both dialects [parse] never throws, and it returns a
    Version exactly when the text holds, anywhere, three runs of digits
    separated by dots: the patterns are not anchored, so the text around the
    match is ignored.  The first match is used: the three numbers of the
    result are those of the first triple of the text, each run of digits
    taken whole, and that triple is the only one of its kind (the numbers
    being integers that JavaScript holds exactly).  A text without three
    dot-separated numeric parts gives no value. *)
Theorem version_parse_accepts :
  (forall text,
     parse SemverVersionFormat text = Normal (SemverVersionFormat_parse text) /\
     parse RubyVersionFormat text = Normal (RubyVersionFormat_parse text)) /\
  (forall text,
     (SemverVersionFormat_parse text <> None <-> holds_triple text) /\
     (RubyVersionFormat_parse text <> None <-> holds_triple text)) /\
  (forall text v,
     SemverVersionFormat_parse text = Some v \/
     RubyVersionFormat_parse text = Some v ->
     exact_numbers v = true ->
     exists u a b c z,
       first_triple (list_ascii_of_string text) u a b c z /\
       Number (Some (string_of_list_ascii a)) = Some (major v) /\
       Number (Some (string_of_list_ascii b)) = Some (minor v) /\
       Number (Some (string_of_list_ascii c)) = Some (patch v)) /\
  (forall text u a b c z u' a' b' c' z',
     first_triple text u a b c z -> first_triple text u' a' b' c' z' ->
     u = u' /\ a = a' /\ b = b' /\ c = c' /\ z = z') /\
  SemverVersionFormat_parse "1.2" = None /\
  RubyVersionFormat_parse "1.2" = None /\
  SemverVersionFormat_parse "not-a-version" = None /\
  RubyVersionFormat_parse "not-a-version" = None /\
  SemverVersionFormat_parse "10.20.34" = Some (new_Version 10 20 34 None None) /\
  RubyVersionFormat_parse "1.2.3 4.5.6" =
    Some (new_Version 1 2 3 None None).
Proof.
  split; [intros text; split; reflexivity|].
  split; [intros text; split; [apply Semver_parse_accepts | apply Ruby_parse_accepts]|].
  split.
  - intros text v [H | H] _.
    + apply Semver_parse_first; exact H.
    + destruct (Ruby_parse_first _ _ H)
        as [u [a [b [c [z [Ft [Na [Nb [Nc _]]]]]]]]].
      exists u, a, b, c, z; tauto.
  - split; [exact first_triple_unique|].
    repeat split; vm_compute; reflexivity.
Qed.

Lemma version_parse_accepts_witness :
  exists u a b c z,
    first_triple (list_ascii_of_string "abc1.2.3def") u a b c z /\
    Number (Some (string_of_list_ascii a)) =
      Some (major (new_Version 1 2 3 None None)) /\
    Number (Some (string_of_list_ascii b)) =
      Some (minor (new_Version 1 2 3 None None)) /\
    Number (Some (string_of_list_ascii c)) =
      Some (patch (new_Version 1 2 3 None None)).
Proof.
  apply (proj1 (proj2 (proj2 version_parse_accepts)) "abc1.2.3def"
           (new_Version 1 2 3 None None));
    [left; vm_compute; reflexivity | reflexivity].
Defined.

(** C4, as stated, fails: a version triple amid other text is accepted. *)
Lemma version_parse_counterexample :
  SemverVersionFormat_parse "abc1.2.3def" = Some (new_Version 1 2 3 None None) /\
  RubyVersionFormat_parse "abc1.2.3def" = Some (new_Version 1 2 3 None None).
Proof. split; vm_compute; reflexivity. Qed.

(** C5 (amended).  A Version returned by the Ruby [parse] has no build.  Its
    numbers are those of the first triple of the text, and its prerelease is
    what follows the first [.] or [-] after the patch number of that triple,
    up to the end of the line: a [+] is an ordinary character there, so
    ['1.2.3.rc.1+build.123'] gives the prerelease ['rc.1+build.123'].  A [+]
    that follows the patch number directly is outside the match and is
    dropped.  [format] renders the three numbers, then ['.' + preRelease]
    when the prerelease is a non-empty string, and never the build.  The
    numbers are integers that JavaScript holds exactly. *)
Theorem ruby_dialect :
  (forall text v, RubyVersionFormat_parse text = Some v -> build v = None) /\
  (forall text v,
     RubyVersionFormat_parse text = Some v ->
     exact_numbers v = true ->
     exists u a b c z,
       first_triple (list_ascii_of_string text) u a b c z /\
       Number (Some (string_of_list_ascii a)) = Some (major v) /\
       Number (Some (string_of_list_ascii b)) = Some (minor v) /\
       Number (Some (string_of_list_ascii c)) = Some (patch v) /\
       preRelease v = option_map string_of_list_ascii (ruby_prerelease z)) /\
  RubyVersionFormat_parse "1.2.3.rc.1+build.123" =
    Some (new_Version 1 2 3 (Some "rc.1+build.123") None) /\
  RubyVersionFormat_parse "1.2.3+build.123" =
    Some (new_Version 1 2 3 None None) /\
  (forall v,
     exact_numbers v = true ->
     RubyVersionFormat_format v =
     render (major v) ++ "." ++ render (minor v) ++ "." ++ render (patch v) ++
     (if truthy (preRelease v) then "." ++ interpolate (preRelease v) else "")) /\
  (forall ma mi pa pre bld,
     RubyVersionFormat_format (new_Version ma mi pa pre bld) =
     RubyVersionFormat_format (new_Version ma mi pa pre None)).
Proof.
  split.
  - intros text v H.
    destruct (Ruby_parse_first _ _ H) as [u [a [b [c [z [_ [_ [_ [_ [_ B]]]]]]]]]].
    exact B.
  - split.
    + intros text v H _.
      destruct (Ruby_parse_first _ _ H)
        as [u [a [b [c [z [Ft [Na [Nb [Nc [P _]]]]]]]]]].
      exists u, a, b, c, z; tauto.
    + split; [vm_compute; reflexivity|].
      split; [vm_compute; reflexivity|].
      split; [|reflexivity].
      intros [ma mi pa [p|] bld] _; unfold RubyVersionFormat_format; simpl;
        [destruct (p =? ""); reflexivity | reflexivity].
Qed.

Lemma ruby_dialect_witness :
  exists u a b c z,
    first_triple (list_ascii_of_string "1.2.3.rc.1+build.123") u a b c z /\
    Number (Some (string_of_list_ascii a)) =
      Some (major (new_Version 1 2 3 (Some "rc.1+build.123") None)) /\
    Number (Some (string_of_list_ascii b)) =
      Some (minor (new_Version 1 2 3 (Some "rc.1+build.123") None)) /\
    Number (Some (string_of_list_ascii c)) =
      Some (patch (new_Version 1 2 3 (Some "rc.1+build.123") None)) /\
    preRelease (new_Version 1 2 3 (Some "rc.1+build.123") None) =
      option_map string_of_list_ascii (ruby_prerelease z).
Proof.
  apply (proj1 (proj2 ruby_dialect) "1.2.3.rc.1+build.123");
    vm_compute; reflexivity.
Defined.

(** C5, as stated, fails: a [+] suffix right after the patch number is not
    absorbed into the prerelease, it is dropped. *)
Lemma ruby_dialect_counterexample :
  RubyVersionFormat_parse "1.2.3+build.123" =
    Some (new_Version 1 2 3 None None).
Proof. vm_compute; reflexivity. Qed.

Local Open Scope list_scope.

(** ** Tag names are rendered in the SemVer form *)

Lemma last_char_differs : forall (x w p : chars) (a b : ascii),
  x ++ a :: p = w ++ b :: p -> a = b.
Proof.
  intros x w p a b E.
  change (x ++ a :: p) with (x ++ [a] ++ p) in E.
  change (w ++ b :: p) with (w ++ [b] ++ p) in E.
  rewrite !app_assoc in E; apply app_inv_tail in E.
  apply app_inj_tail in E; destruct E as [_ E]; exact E.
Qed.

Local Open Scope string_scope.

Lemma dash_is_not_dot : forall x w pre : string,
  x ++ "-" ++ pre <> w ++ "." ++ pre.
Proof.
  intros x w pre E.
  apply (f_equal list_ascii_of_string) in E.
  rewrite !chars_app in E; simpl in E.
  apply last_char_differs in E; discriminate.
Qed.

Lemma string_app_empty : forall s : string, s ++ "" = s.
Proof. induction s as [|a s IH]; simpl; [|rewrite IH]; reflexivity. Qed.

(** [Version.toString], part by part. *)
Lemma Version_toString_parts : forall v,
  Version_toString v =
  render (major v) ++ "." ++ render (minor v) ++ "." ++ render (patch v) ++
  (if truthy (preRelease v) then "-" ++ interpolate (preRelease v) else "") ++
  (if truthy (build v) then "+" ++ interpolate (build v) else "").
Proof.
  intros [ma mi pa pre bld]; unfold Version_toString; cbn [major minor patch preRelease build].
  destruct pre as [p|], bld as [b|]; simpl;
    try destruct (p =? ""); try destruct (b =? ""); reflexivity.
Qed.

(** A tag that [TagName.parse] accepts is its lead, its optional [v] and
    the text that the format decoded; [toString] keeps the lead when the
    component is not empty and renders the version after the [v]. *)
Lemma TagName_parse_lead : forall t f tn,
  TagName_parse t f = Normal (Some tn) ->
  exists lead vs,
    t = lead ++ (if includeV tn then "v" else "") ++ vs /\
    parse f vs = Normal (Some (tag_version tn)) /\
    TagName_toString tn =
      (if truthy (tag_component tn) then lead else "") ++
      (if includeV tn then "v" else "") ++ Version_toString (tag_version tn).
Proof.
  intros t f tn H.
  destruct (TagName_parse_inv _ _ _ H) as [m [v [E [P ->]]]].
  destruct (TAG_sound _ _ E)
    as [lead [iv [a [b [c [z [Et [Da [Db [Dc [_ [G [Gv L]]]]]]]]]]]]].
  destruct (tag_version_decoded m a b c z G Da Db Dc) as [R _].
  assert (V : truthy (group m "v") = iv)
    by (unfold group; rewrite Gv; destruct iv; reflexivity).
  exists (string_of_list_ascii lead), (required m "version").
  unfold new_TagName, TagName_toString; cbn [includeV tag_version tag_component separator].
  rewrite V, <- v_text_string.
  split; [rewrite R, <- !string_app; apply of_chars; exact Et|].
  split; [exact P|].
  destruct L as [[-> [Gc Gs]] | [comp [sep [-> [_ [Ds [Gc Gs]]]]]]];
    unfold group; rewrite Gc, Gs; cbn [option_map truthy interpolate].
  - reflexivity.
  - destruct comp as [|x comp]; cbn [string_of_list_ascii String.eqb negb].
    + reflexivity.
    + rewrite string_app, string_app_assoc; reflexivity.
Qed.

(** C9.  A tag that [TagName.parse] accepts is a lead, an optional [v] and
    the text that the format decoded, and [toString] renders the decoded
    version after them with [Version.toString], never with the format:
    [major.minor.patch], then ['-' + preRelease] and ['+' + build] when they
    are non-empty strings (the numbers being integers that JavaScript holds
    exactly).  So a tag read by the Ruby format whose prerelease follows a
    dot is not rendered back to itself: ['v1.2.3.alpha'] is rendered
    ['v1.2.3-alpha'], while the Ruby format renders its version
    ['1.2.3.alpha']. *)
Theorem tag_toString_canonical :
  (forall t f tn,
     TagName_parse t f = Normal (Some tn) ->
     exact_numbers (tag_version tn) = true ->
     exists lead vs,
       t = lead ++ (if includeV tn then "v" else "") ++ vs /\
       parse f vs = Normal (Some (tag_version tn)) /\
       TagName_toString tn =
         (if truthy (tag_component tn) then lead else "") ++
         (if includeV tn then "v" else "") ++
         render (major (tag_version tn)) ++ "." ++
         render (minor (tag_version tn)) ++ "." ++
         render (patch (tag_version tn)) ++
         (if truthy (preRelease (tag_version tn))
          then "-" ++ interpolate (preRelease (tag_version tn)) else "") ++
         (if truthy (build (tag_version tn))
          then "+" ++ interpolate (build (tag_version tn)) else "")) /\
  (forall t tn w pre,
     TagName_parse t RubyVersionFormat = Normal (Some tn) ->
     exact_numbers (tag_version tn) = true ->
     preRelease (tag_version tn) = Some pre -> pre <> "" ->
     t = w ++ "." ++ pre ->
     (exists x, TagName_toString tn = x ++ "-" ++ pre) /\
     TagName_toString tn <> t) /\
  (exists tn,
     TagName_parse "v1.2.3.alpha" RubyVersionFormat = Normal (Some tn) /\
     TagName_toString tn = "v1.2.3-alpha" /\
     TagName_toString tn <> "v1.2.3.alpha" /\
     format RubyVersionFormat (tag_version tn) = "1.2.3.alpha").
Proof.
  split; [|split].
  - intros t f tn H _.
    destruct (TagName_parse_lead _ _ _ H) as [lead [vs [Et [P T]]]].
    exists lead, vs; split; [exact Et|]; split; [exact P|].
    rewrite T, Version_toString_parts; reflexivity.
  - intros t tn w pre H _ Pre Ne Et.
    destruct (TagName_parse_lead _ _ _ H) as [lead [vs [_ [P T]]]].
    assert (B : build (tag_version tn) = None).
    { simpl in P; injection P as P.
      destruct (Ruby_parse_first _ _ P)
        as [u [a [b [c [z [_ [_ [_ [_ [_ B]]]]]]]]]]; exact B. }
    assert (X : exists x, TagName_toString tn = x ++ "-" ++ pre).
    { rewrite T, Version_toString_parts, Pre, B; cbn [truthy interpolate].
      destruct (pre =? "") eqn:Q; [apply String.eqb_eq in Q; contradiction|].
      cbn [negb].
      exists ((if truthy (tag_component tn) then lead else "") ++
              (if includeV tn then "v" else "") ++
              render (major (tag_version tn)) ++ "." ++
              render (minor (tag_version tn)) ++ "." ++
              render (patch (tag_version tn))).
      rewrite !string_app_assoc, string_app_empty; reflexivity. }
    split; [exact X|].
    destruct X as [x X]; rewrite X, Et; apply dash_is_not_dot.
  - eexists; split; [vm_compute; reflexivity|].
    split; [vm_compute; reflexivity|].
    split; [vm_compute; discriminate | vm_compute; reflexivity].
Qed.

Lemma tag_toString_canonical_witness :
  (exists x,
     TagName_toString
       (new_TagName (new_Version 1 2 3 (Some "alpha") None) None None true) =
     x ++ "-" ++ "alpha") /\
  TagName_toString
    (new_TagName (new_Version 1 2 3 (Some "alpha") None) None None true) <>
  "v1.2.3.alpha".
Proof.
  apply (proj1 (proj2 tag_toString_canonical) "v1.2.3.alpha"
           (new_TagName (new_Version 1 2 3 (Some "alpha") None) None None true)
           "v1.2.3" "alpha");
    try reflexivity; discriminate.
Defined.

Local Open Scope list_scope.

(** ** Where the Autorelease pattern splits a name *)

Lemma AUTORELEASE_TAIL_parts :
  AUTORELEASE_TAIL =
  (Opt (Named "component" (Star (Class word_dash_dot))) +++ AUTORELEASE_VERSION)%re.
Proof. reflexivity. Qed.

Lemma is_char_true : forall a c, is_char a c = true -> c = a.
Proof. intros a c H; apply Ascii.eqb_eq in H; symmetry; exact H. Qed.

(** The end of the pattern on a text of one line. *)
Lemma version_here : forall x,
  forallb dot (rest x) = true ->
  match dash_v_here (rest x) with
  | Some vs =>
      exists z, matcher AUTORELEASE_VERSION x Some = Some z /\
                caps z = ("version"%string, vs) :: caps x
  | None => matcher AUTORELEASE_VERSION x Some = None
  end.
Proof.
  intros x L; unfold AUTORELEASE_VERSION, Str.
  change (list_ascii_of_string "-v") with ["-"; "v"]%char.
  cbn [Lit]; rewrite !matcher_Seq.
  destruct (rest x) as [|a [|b [|d vs]]] eqn:E; cbn [dash_v_here].
  - apply matcher_Char_miss; rewrite E; exact I.
  - destruct (Ascii.eqb "-" a) eqn:Qa;
      [|apply matcher_Char_miss; rewrite E; exact Qa].
    apply Ascii.eqb_eq in Qa; subst a.
    rewrite (matcher_Char_hit _ x [] _ E), matcher_Seq.
    apply matcher_Char_miss; exact I.
  - destruct (Ascii.eqb "-" a) eqn:Qa;
      [|apply matcher_Char_miss; rewrite E; exact Qa].
    apply Ascii.eqb_eq in Qa; subst a.
    rewrite (matcher_Char_hit _ x [b] _ E), matcher_Seq.
    destruct (Ascii.eqb "v" b) eqn:Qb;
      [|apply matcher_Char_miss; exact Qb].
    apply Ascii.eqb_eq in Qb; subst b.
    rewrite (matcher_Char_hit _ (advance x ["v"%char]) [] _ eq_refl).
    cbn [matcher]; reflexivity.
  - unfold is_char.
    destruct (Ascii.eqb "-" a) eqn:Qa;
      [|apply matcher_Char_miss; rewrite E; exact Qa].
    apply Ascii.eqb_eq in Qa; subst a.
    rewrite (matcher_Char_hit _ x (b :: d :: vs) _ E), matcher_Seq.
    destruct (Ascii.eqb "v" b) eqn:Qb;
      [|apply matcher_Char_miss; exact Qb].
    apply Ascii.eqb_eq in Qb; subst b.
    rewrite (matcher_Char_hit _ (advance x ("v"%char :: d :: vs)) (d :: vs) _ eq_refl).
    set (x2 := advance (advance x ("v"%char :: d :: vs)) (d :: vs)).
    cbn [andb].
    change (matcher Empty x2
              (fun y => matcher (Named "version" (Class digit +++ Star (Class dot)) +++ Eol)%re
                          y Some))
      with (matcher (Named "version" (Class digit +++ Star (Class dot)) +++ Eol)%re x2 Some).
    rewrite matcher_Seq, matcher_Named, matcher_Seq, matcher_Class.
    change (rest x2) with (d :: vs); cbv iota beta.
    destruct (digit d) eqn:D; [|reflexivity].
    simpl in L; apply andb_prop in L; destruct L as [_ L].
    set (x3 := advance x2 vs).
    assert (Ev : rest x2 = (d :: vs) ++ []) by (rewrite app_nil_r; reflexivity).
    assert (C : capture "version" x2 (past x3 vs []) =
                mkState (endIndex x2 + List.length (d :: vs)) []
                  (("version"%string, d :: vs) :: caps x2)).
    { unfold x3; rewrite (advance_past x2 d), past_past.
      apply (capture_past "version" x2 (d :: vs) [] Ev). }
    rewrite (star_run dot _ x3 vs []);
      try (rewrite C; cbn [matcher rest]);
      try reflexivity; try exact L; try exact I; try discriminate.
    + eexists; split; [reflexivity | reflexivity].
    + simpl; symmetry; apply app_nil_r.
Qed.

(** The greedy component group gives back down to the last place where the
    end of the pattern matches. *)
Lemma component_loop : forall s w0 l i n,
  forallb dot s = true -> w0 <> [] -> l = w0 ++ s -> List.length s <= n ->
  match split_last s with
  | Some (c, vs) =>
      exists z,
        repeat_loop (matcher (Class word_dash_dot)) (reset (Class word_dash_dot)) n
          (past (mkState i l []) w0 s)
          (fun y =>
             if Nat.eqb (endIndex (capture "component" (mkState i l []) y)) i
             then None
             else matcher AUTORELEASE_VERSION
                    (capture "component" (mkState i l []) y) Some) = Some z /\
        caps z = [("version"%string, vs); ("component"%string, w0 ++ c)]
  | None =>
      repeat_loop (matcher (Class word_dash_dot)) (reset (Class word_dash_dot)) n
        (past (mkState i l []) w0 s)
        (fun y =>
           if Nat.eqb (endIndex (capture "component" (mkState i l []) y)) i
           then None
           else matcher AUTORELEASE_VERSION
                  (capture "component" (mkState i l []) y) Some) = None
  end.
Proof.
  induction s as [|a s IH]; intros w0 l i n L N El Ln.
  - set (G := fun y => if Nat.eqb (endIndex (capture "component" (mkState i l []) y)) i
                       then None
                       else matcher AUTORELEASE_VERSION
                              (capture "component" (mkState i l []) y) Some).
    assert (K : G (past (mkState i l []) w0 []) = None).
    { unfold G; rewrite (capture_past "component" (mkState i l []) w0 [] El).
      cbn [endIndex].
      destruct (Nat.eqb _ _); [reflexivity|].
      apply (version_here (mkState (i + List.length w0) [] _) eq_refl). }
    cbn [split_last].
    destruct n as [|n]; [exact K|].
    rewrite repeat_class_step; exact K.
  - set (x0 := mkState i l []).
    set (G := fun y => if Nat.eqb (endIndex (capture "component" x0 y)) i
                       then None
                       else matcher AUTORELEASE_VERSION
                              (capture "component" x0 y) Some).
    assert (K : match dash_v_here (a :: s) with
                | Some vs =>
                    exists z, G (past x0 w0 (a :: s)) = Some z /\
                              caps z = [("version"%string, vs);
                                        ("component"%string, w0 ++ [])]
                | None => G (past x0 w0 (a :: s)) = None
                end).
    { unfold G; rewrite (capture_past "component" x0 w0 (a :: s) El).
      cbn [endIndex x0].
      replace (Nat.eqb (i + List.length w0) i) with false
        by (symmetry; apply Nat.eqb_neq; destruct w0; [contradiction | simpl; lia]).
      rewrite app_nil_r.
      apply (version_here (mkState (i + List.length w0) (a :: s)
                             [("component"%string, w0)]) L). }
    destruct n as [|n]; [simpl in Ln; lia|].
    rewrite repeat_class_step; cbn [past rest].
    fold (past x0 w0 (a :: s)).
    simpl in L; apply andb_prop in L; destruct L as [_ L].
    cbn [split_last].
    destruct (word_dash_dot a) eqn:Wa.
    + assert (A : advance (past x0 w0 (a :: s)) s = past x0 (w0 ++ [a]) s)
        by (rewrite (advance_past _ a), past_past; reflexivity).
      rewrite A.
      assert (El' : l = (w0 ++ [a]) ++ s) by (rewrite <- app_assoc; exact El).
      assert (N' : w0 ++ [a] <> []) by (destruct w0; discriminate).
      assert (Ln' : List.length s <= n) by (simpl in Ln; lia).
      specialize (IH (w0 ++ [a]) l i n L N' El' Ln').
      fold x0 in IH; fold G in IH.
      destruct (split_last s) as [[c vs]|].
      * destruct IH as [z [Hz Cz]]; exists z; rewrite Hz.
        split; [reflexivity|].
        rewrite Cz, <- app_assoc; reflexivity.
      * rewrite IH.
        destruct (dash_v_here (a :: s)) as [vs|]; exact K.
    + destruct (dash_v_here (a :: s)) as [vs|]; exact K.
Qed.

(** What follows ["release"] and the optional dash, on a text of one
    line. *)
Lemma AUTORELEASE_TAIL_exact : forall i s,
  forallb dot s = true ->
  match split_last s with
  | Some (c, vs) =>
      exists z, matcher AUTORELEASE_TAIL (mkState i s []) Some = Some z /\
                caps z = ("version"%string, vs) :: component_capture c
  | None => matcher AUTORELEASE_TAIL (mkState i s []) Some = None
  end.
Proof.
  intros i s L.
  rewrite AUTORELEASE_TAIL_parts, matcher_Seq, matcher_Opt, matcher_Named.
  set (x0 := mkState i s []).
  change (reset (Named "component" (Star (Class word_dash_dot))) x0) with x0.
  pose proof (version_here x0 L) as K; cbn [rest x0] in K.
  rewrite matcher_Star; cbn [rest x0 endIndex].
  destruct s as [|a s].
  - cbn [List.length repeat_loop split_last].
    unfold capture at 1; cbn [endIndex x0]; rewrite Nat.eqb_refl.
    exact K.
  - cbn [List.length]; rewrite repeat_class_step; cbn [rest x0].
    assert (G0 : Nat.eqb (endIndex (capture "component" x0 x0)) i = true)
      by (apply Nat.eqb_refl).
    rewrite G0.
    cbn [split_last].
    simpl in L; apply andb_prop in L; destruct L as [_ L].
    destruct (word_dash_dot a) eqn:Wa.
    + rewrite (advance_past x0 a).
      pose proof (component_loop s [a] (a :: s) i (List.length s) L
                    ltac:(discriminate) eq_refl (le_n _)) as C.
      fold x0 in C.
      destruct (split_last s) as [[c vs]|].
      * destruct C as [z [Hz Cz]]; exists z; rewrite Hz.
        split; [reflexivity | exact Cz].
      * rewrite C.
        destruct (dash_v_here (a :: s)) as [vs|]; exact K.
    + destruct (dash_v_here (a :: s)) as [vs|]; exact K.
Qed.

Lemma split_last_cons : forall a s,
  split_last (a :: s) =
  match (if word_dash_dot a then split_last s else None) with
  | Some (c, vs) => Some (a :: c, vs)
  | None => option_map (pair []) (dash_v_here (a :: s))
  end.
Proof. reflexivity. Qed.

Lemma split_last_sound : forall s c vs,
  split_last s = Some (c, vs) -> s = c ++ "-"%char :: "v"%char :: vs.
Proof.
  induction s as [|a s IH]; intros c vs H; [discriminate|].
  cbn [split_last] in H.
  destruct (if word_dash_dot a then split_last s else None) as [[c' vs']|] eqn:R.
  - injection H as <- <-.
    destruct (word_dash_dot a); [|discriminate].
    rewrite (IH _ _ R) at 1; reflexivity.
  - unfold dash_v_here in H.
    destruct s as [|b [|d r]]; try discriminate.
    destruct (is_char "-" a) eqn:Qa; [|discriminate].
    destruct (is_char "v" b) eqn:Qb; [|discriminate].
    destruct (digit d); [|discriminate].
    apply is_char_true in Qa, Qb; subst a b.
    injection H as <- <-; reflexivity.
Qed.

(** Without ["-v"] and a digit in its leading run of word characters,
    dashes and dots, a text is not split. *)
Lemma split_last_none : forall t,
  has_dash_v_digit (run word_dash_dot t) = false -> split_last t = None.
Proof.
  induction t as [|a t IH]; intros H; [reflexivity|].
  cbn [split_last].
  destruct (word_dash_dot a) eqn:Wa.
  - cbn [run] in H; rewrite Wa in H.
    rewrite (IH (has_dash_v_digit_tail _ _ H)).
    unfold dash_v_here.
    destruct t as [|b [|d r]]; try reflexivity.
    destruct (is_char "-" a) eqn:Qa; [|reflexivity].
    destruct (is_char "v" b) eqn:Qb; [|reflexivity].
    destruct (digit d) eqn:D; [|reflexivity].
    apply is_char_true in Qa, Qb; subst a b.
    exfalso; revert H; cbn [run].
    change (word_dash_dot "v") with true; cbv iota.
    assert (Wd : word_dash_dot d = true).
    { unfold word_dash_dot, word; rewrite D, !orb_true_r; reflexivity. }
    rewrite Wd, (has_dash_v_digit_head d _ D); discriminate.
  - unfold dash_v_here.
    destruct t as [|b [|d r]]; try reflexivity.
    destruct (is_char "-" a) eqn:Qa; [|reflexivity].
    apply is_char_true in Qa; subst a; discriminate Wa.
Qed.

(** Then a name is split where it was put together. *)
Lemma split_last_written : forall p d vs,
  forallb word_dash_dot p = true -> digit d = true ->
  split_last (d :: vs) = None ->
  split_last (p ++ "-"%char :: "v"%char :: d :: vs) = Some (p, d :: vs).
Proof.
  induction p as [|a p IH]; intros d vs Wp D N.
  - cbn [app]; rewrite (split_last_cons "-"), (split_last_cons "v"), N.
    change (word_dash_dot "-") with true; change (word_dash_dot "v") with true.
    cbv iota.
    assert (V : dash_v_here ("v"%char :: d :: vs) = None)
      by (unfold dash_v_here; destruct vs; reflexivity).
    rewrite V; cbn [option_map].
    unfold dash_v_here, is_char; rewrite !Ascii.eqb_refl, D; reflexivity.
  - simpl in Wp; apply andb_prop in Wp; destruct Wp as [Wa Wp].
    change ((a :: p) ++ "-"%char :: "v"%char :: d :: vs)
      with (a :: (p ++ "-"%char :: "v"%char :: d :: vs)).
    rewrite split_last_cons, Wa, (IH d vs Wp D N); reflexivity.
Qed.

Lemma split_last_v : forall d vs,
  digit d = true -> split_last (d :: vs) = None ->
  split_last ("v"%char :: d :: vs) = None /\
  split_last ("-"%char :: "v"%char :: d :: vs) = Some ([], d :: vs).
Proof.
  intros d vs D N.
  assert (V : split_last ("v"%char :: d :: vs) = None).
  { rewrite (split_last_cons "v"), N.
    change (word_dash_dot "v") with true; cbv iota.
    unfold dash_v_here; destruct vs; reflexivity. }
  split; [exact V|].
  apply (split_last_written [] d vs eq_refl D N).
Qed.

Lemma word_dash_dot_line : forall c, word_dash_dot c = true -> dot c = true.
Proof.
  intros c H.
  destruct c as [[] [] [] [] [] [] [] []]; try reflexivity; discriminate H.
Qed.

Lemma class_one_line : forall p,
  forallb word_dash_dot p = true -> forallb dot p = true.
Proof.
  induction p as [|a p IH]; intros H; [reflexivity|].
  simpl in H |- *; apply andb_prop in H; destruct H as [Wa Wp].
  rewrite (word_dash_dot_line a Wa), (IH Wp); reflexivity.
Qed.

(** The match of [AUTORELEASE_PATTERN] on ["release-" ++ s], for a text [s]
    of one line: the first alternative takes the dash. *)
Lemma autorelease_exec : forall s c vs,
  forallb dot s = true ->
  split_last s = Some (c, vs) \/
  (split_last s = None /\ split_last ("-"%char :: s) = Some (c, vs)) ->
  exists m,
    exec AUTORELEASE_PATTERN ("release-" ++ string_of_list_ascii s) = Some m /\
    groups_of m = ("version"%string, vs) :: component_capture c.
Proof.
  intros s c vs L H.
  assert (M : exists z,
            matcher AUTORELEASE_PATTERN
              (mkState 0 (list_ascii_of_string "release-" ++ s) []) Some = Some z /\
            caps z = ("version"%string, vs) :: component_capture c).
  { change AUTORELEASE_PATTERN
      with (Bol +++ Str "release" +++ Opt (Char "-") +++ AUTORELEASE_TAIL)%re.
    rewrite dash_first.
    pose proof (AUTORELEASE_TAIL_exact 8 s L) as T8.
    destruct H as [H | [H1 H2]].
    - rewrite H in T8; destruct T8 as [z [Hz Cz]].
      exists z; rewrite Hz; auto.
    - rewrite H1 in T8; rewrite T8.
      assert (L' : forallb dot ("-"%char :: s) = true) by exact L.
      pose proof (AUTORELEASE_TAIL_exact 7 _ L') as T7.
      rewrite H2 in T7; exact T7. }
  destruct M as [z [Hz Cz]].
  exists (mkMatch 0 (endIndex z) (caps z)); split; [|exact Cz].
  unfold exec; rewrite chars_app, list_ascii_of_string_of_list_ascii.
  rewrite (search_at_start _ _ z Hz); reflexivity.
Qed.

Local Open Scope string_scope.

Lemma string_app_inv_head : forall a x y : string, a ++ x = a ++ y -> x = y.
Proof.
  induction a as [|c a IH]; intros x y H; simpl in H; [exact H|].
  injection H as H; apply IH; exact H.
Qed.

Lemma version_tail_defined : forall t, version_tail t = true -> t <> "undefined".
Proof. intros t H ->; discriminate H. Qed.

Local Open Scope list_scope.

Lemma split_last_digit : forall s c vs,
  split_last s = Some (c, vs) -> exists d r, vs = d :: r /\ digit d = true.
Proof.
  induction s as [|a s IH]; intros c vs H; [discriminate|].
  rewrite split_last_cons in H.
  destruct (if word_dash_dot a then split_last s else None) as [[c' vs']|] eqn:R.
  - injection H as <- <-.
    destruct (word_dash_dot a); [|discriminate].
    apply (IH _ _ R).
  - unfold dash_v_here in H.
    destruct s as [|b [|d r]]; try discriminate.
    destruct (is_char "-" a && is_char "v" b); [|discriminate].
    destruct (digit d) eqn:D; [|discriminate].
    injection H as <- <-; eauto.
Qed.

(** A name that was put together is split, at the place where it was put
    together or further on. *)
Lemma split_last_longer : forall p d r,
  forallb word_dash_dot p = true -> digit d = true ->
  exists c vs,
    split_last (p ++ "-"%char :: "v"%char :: d :: r) = Some (c, vs) /\
    (p <> [] -> c <> []).
Proof.
  induction p as [|a p IH]; intros d r Wp D.
  - cbn [app]; rewrite (split_last_cons "-").
    destruct (if word_dash_dot "-" then split_last ("v"%char :: d :: r) else None)
      as [[c vs]|].
    + exists ("-"%char :: c), vs; split; [reflexivity | intros N; contradiction].
    + exists [], (d :: r); split; [|intros N; contradiction].
      unfold dash_v_here, is_char; rewrite !Ascii.eqb_refl, D; reflexivity.
  - simpl in Wp; apply andb_prop in Wp; destruct Wp as [Wa Wp].
    destruct (IH d r Wp D) as [c [vs [E _]]].
    exists (a :: c), vs; split; [|discriminate].
    change ((a :: p) ++ "-"%char :: "v"%char :: d :: r)
      with (a :: (p ++ "-"%char :: "v"%char :: d :: r)).
    rewrite split_last_cons, Wa, E; reflexivity.
Qed.

Lemma digit_line : forall d, digit d = true -> dot d = true.
Proof.
  intros d D; apply word_dash_dot_line.
  unfold word_dash_dot, word; rewrite D, !orb_true_r; reflexivity.
Qed.

Lemma starts_with_digit : forall d r,
  digit d = true -> string_of_list_ascii (d :: r) <> "undefined"%string.
Proof.
  intros d r D E; simpl in E; injection E as -> _; discriminate D.
Qed.

Local Open Scope string_scope.

(** The instance that [ofComponentVersion] builds: the name it writes is
    split at a place [c], [vs], and the instance holds [c] and what the
    format decodes of [vs]. *)
Lemma autorelease_component_read : forall f p t,
  p <> "" -> forallb word_dash_dot (list_ascii_of_string p) = true ->
  version_tail t = true ->
  exists c vs,
    "release-" ++ p ++ "-v" ++ t = "release-" ++ c ++ "-v" ++ vs /\
    c <> "" /\ vs <> "undefined" /\
    new_AutoreleaseBranchName ("release-" ++ p ++ "-v" ++ t) (Some f) =
      match parse f vs with
      | Normal o =>
          Normal (mkBranchName AutoreleaseBranchName (Some c) None o (Some f))
      | Throw e => Throw e
      end /\
    (has_dash_v_digit (run word_dash_dot (list_ascii_of_string t)) = false ->
     c = p /\ vs = t).
Proof.
  intros f p t Hp Wp T.
  destruct (version_tail_chars _ T) as [d [vs0 [Et [D Dvs]]]].
  destruct (split_last_longer _ d vs0 Wp D) as [c [vs [S Nc]]].
  specialize (Nc (chars_not_nil _ Hp)).
  pose proof (split_last_sound _ _ _ S) as Es.
  destruct (split_last_digit _ _ _ S) as [d' [r' [Ev D']]].
  assert (L : forallb dot (list_ascii_of_string p ++
                           "-"%char :: "v"%char :: d :: vs0)%list = true).
  { rewrite forallb_app, (class_one_line _ Wp); simpl.
    rewrite (digit_line d D), Dvs; reflexivity. }
  destruct (autorelease_exec _ _ _ L (or_introl S)) as [m [E G]].
  assert (En : "release-" ++ p ++ "-v" ++ t =
               "release-" ++ string_of_list_ascii
                 (list_ascii_of_string p ++ "-"%char :: "v"%char :: d :: vs0)%list).
  { f_equal; apply chars_inj.
    rewrite list_ascii_of_string_of_list_ascii, !chars_app, Et; reflexivity. }
  exists (string_of_list_ascii c), (string_of_list_ascii vs).
  split; [|split; [|split; [|split]]].
  - rewrite En; f_equal; apply chars_inj.
    rewrite !chars_app, !list_ascii_of_string_of_list_ascii; exact Es.
  - apply string_not_empty; exact Nc.
  - rewrite Ev; apply starts_with_digit; exact D'.
  - unfold new_AutoreleaseBranchName; rewrite En, E.
    unfold required, group; rewrite G, get_component_capture, get_version_capture.
    cbn [option_map].
    destruct c as [|a c]; [contradiction Nc; reflexivity | reflexivity].
  - intros N; rewrite Et in N.
    rewrite (split_last_written _ d vs0 Wp D (split_last_none _ N)) in S.
    injection S as <- <-.
    rewrite <- Et, !string_of_list_ascii_of_string; auto.
Qed.

(** The instance that [ofVersion] builds. *)
Lemma autorelease_version_read : forall f t,
  version_tail t = true ->
  exists c vs,
    "release-v" ++ t =
      match c with
      | Some c' => "release-" ++ c' ++ "-v" ++ vs
      | None => "release-v" ++ vs
      end /\
    c <> Some "" /\ vs <> "undefined" /\
    new_AutoreleaseBranchName ("release-v" ++ t) (Some f) =
      match parse f vs with
      | Normal o => Normal (mkBranchName AutoreleaseBranchName c None o (Some f))
      | Throw e => Throw e
      end /\
    (has_dash_v_digit (run word_dash_dot (list_ascii_of_string t)) = false ->
     c = None /\ vs = t).
Proof.
  intros f t T.
  destruct (version_tail_chars _ T) as [d [vs0 [Et [D Dvs]]]].
  assert (L : forallb dot ("v"%char :: d :: vs0) = true)
    by (simpl; rewrite (digit_line d D), Dvs; reflexivity).
  assert (En : "release-v" ++ t =
               "release-" ++ string_of_list_ascii ("v"%char :: d :: vs0)).
  { rewrite <- Et; simpl; rewrite string_of_list_ascii_of_string; reflexivity. }
  destruct (split_last ("v"%char :: d :: vs0)) as [[c vs]|] eqn:S.
  - pose proof (split_last_sound _ _ _ S) as Es.
    destruct (split_last_digit _ _ _ S) as [d' [r' [Ev D']]].
    assert (Nc : c <> []) by (intros ->; discriminate Es).
    destruct (autorelease_exec _ _ _ L (or_introl S)) as [m [E G]].
    exists (Some (string_of_list_ascii c)), (string_of_list_ascii vs).
    split; [|split; [|split; [|split]]].
    + rewrite En; f_equal; apply chars_inj.
      rewrite !chars_app, !list_ascii_of_string_of_list_ascii; exact Es.
    + intros Q; injection Q as Q; revert Q; apply string_not_empty; exact Nc.
    + rewrite Ev; apply starts_with_digit; exact D'.
    + unfold new_AutoreleaseBranchName; rewrite En, E.
      unfold required, group; rewrite G, get_component_capture, get_version_capture.
      cbn [option_map].
      destruct c as [|a c]; [contradiction Nc; reflexivity | reflexivity].
    + intros N; rewrite Et in N.
      destruct (split_last_v d vs0 D (split_last_none _ N)) as [S1 _].
      rewrite S1 in S; discriminate S.
  - assert (S2 : split_last ("-"%char :: "v"%char :: d :: vs0) = Some ([], d :: vs0)).
    { rewrite (split_last_cons "-"), S.
      change (word_dash_dot "-") with true; cbv iota.
      unfold dash_v_here, is_char; rewrite !Ascii.eqb_refl, D; reflexivity. }
    destruct (autorelease_exec _ _ _ L (or_intror (conj S S2))) as [m [E G]].
    exists None, t.
    split; [reflexivity|]; split; [discriminate|]; split; [|split; [|auto]].
    + apply version_tail_defined; exact T.
    + unfold new_AutoreleaseBranchName; rewrite En, E.
      unfold required, group; rewrite G, get_component_capture, get_version_capture.
      cbn [option_map]; rewrite <- Et, string_of_list_ascii_of_string; reflexivity.
Qed.

(** When an Autorelease instance is rendered to the name it was built
    from. *)
Lemma autorelease_renders_back : forall f c vs (lead name : string) r,
  vs <> "undefined" ->
  name = lead ++ vs ->
  (forall o,
     BranchName_toString (mkBranchName AutoreleaseBranchName c None o (Some f)) =
     lead ++ interpolate (option_map (format f) o)) ->
  r = match parse f vs with
      | Normal o => Normal (mkBranchName AutoreleaseBranchName c None o (Some f))
      | Throw e => Throw e
      end ->
  ((exists b, r = Normal b /\ BranchName_toString b = name) <->
   (exists v', parse f vs = Normal (Some v') /\ format f v' = vs)).
Proof.
  intros f c vs lead name r T -> S ->; split.
  - intros [b [B E]].
    destruct (parse f vs) as [[v'|]|e]; [| |discriminate].
    + injection B as <-; rewrite S in E; cbn [option_map interpolate] in E.
      apply string_app_inv_head in E; eauto.
    + injection B as <-; rewrite S in E; cbn [option_map interpolate] in E.
      apply string_app_inv_head in E; symmetry in E; contradiction.
  - intros [v' [P F]]; rewrite P.
    eexists; split; [reflexivity|].
    rewrite S; cbn [option_map interpolate]; rewrite F; reflexivity.
Qed.

Lemma toString_component : forall f c o,
  c <> "" ->
  BranchName_toString
    (mkBranchName AutoreleaseBranchName (Some c) None o (Some f)) =
  ("release-" ++ c ++ "-v") ++ interpolate (option_map (format f) o).
Proof.
  intros f c o Hc; unfold BranchName_toString;
    cbn [clazz component version versionFormat truthy interpolate].
  destruct (c =? "") eqn:Q; [apply String.eqb_eq in Q; contradiction|].
  cbn [negb]; simpl; rewrite string_app_assoc.
  destruct o; reflexivity.
Qed.

(** C3 (amended).  Let [t = f.format(v)] start with a digit and hold no line
    terminator.  When the leading run of word characters, dashes and dots
    of [t] holds no ["-v"] followed by a digit,
    [ofVersion(v, f).toString()] is ['release-v' + t] exactly when [f]
    decodes [t] to a version that it formats back to [t]; and for every
    non-empty prefix [p] of word characters, dashes and dots, whether or not
    [p] itself holds ["-v"] and a digit,
    [ofComponentVersion(p, v, f).toString()] is ['release-' + p + '-v' + t]
    under the same condition.  In general the name that a builder writes is
    ['release-' + c + '-v' + vs] (or ['release-v' + vs]) for the component
    [c] that the built instance holds and the text [vs] whose decoding by
    [f] it holds, and [toString] gives the name back exactly when [f]
    decodes [vs] to a version that it formats back to [vs].  For
    [Version(1,2,3,'alpha.1')] and the SemVer format the name is
    ['release-v1.2.3-alpha.1'], which [BranchName.parse] decodes to the same
    version. *)
Theorem autorelease_builders :
  (forall v f,
     version_tail (format f v) = true ->
     has_dash_v_digit
       (run word_dash_dot (list_ascii_of_string (format f v))) = false ->
     ((exists b, BranchName_ofVersion v f = Normal b /\
                 BranchName_toString b = "release-v" ++ format f v) <->
      (exists v', parse f (format f v) = Normal (Some v') /\
                  format f v' = format f v)) /\
     (forall p,
        p <> "" ->
        forallb word_dash_dot (list_ascii_of_string p) = true ->
        ((exists b, BranchName_ofComponentVersion p v f = Normal b /\
                    BranchName_toString b =
                    "release-" ++ p ++ "-v" ++ format f v) <->
         (exists v', parse f (format f v) = Normal (Some v') /\
                     format f v' = format f v)))) /\
  (forall v f,
     version_tail (format f v) = true ->
     exists c vs,
       "release-v" ++ format f v =
         match c with
         | Some c' => "release-" ++ c' ++ "-v" ++ vs
         | None => "release-v" ++ vs
         end /\
       BranchName_ofVersion v f =
         match parse f vs with
         | Normal o =>
             Normal (mkBranchName AutoreleaseBranchName c None o (Some f))
         | Throw e => Throw e
         end /\
       ((exists b, BranchName_ofVersion v f = Normal b /\
                   BranchName_toString b = "release-v" ++ format f v) <->
        (exists v', parse f vs = Normal (Some v') /\ format f v' = vs))) /\
  (forall v f p,
     version_tail (format f v) = true ->
     p <> "" ->
     forallb word_dash_dot (list_ascii_of_string p) = true ->
     exists c vs,
       "release-" ++ p ++ "-v" ++ format f v = "release-" ++ c ++ "-v" ++ vs /\
       BranchName_ofComponentVersion p v f =
         match parse f vs with
         | Normal o =>
             Normal (mkBranchName AutoreleaseBranchName (Some c) None o (Some f))
         | Throw e => Throw e
         end /\
       ((exists b, BranchName_ofComponentVersion p v f = Normal b /\
                   BranchName_toString b =
                   "release-" ++ p ++ "-v" ++ format f v) <->
        (exists v', parse f vs = Normal (Some v') /\ format f v' = vs))) /\
  (exists b,
     BranchName_ofVersion (new_Version 1 2 3 (Some "alpha.1") None)
       SemverVersionFormat = Normal b /\
     BranchName_toString b = "release-v1.2.3-alpha.1" /\
     exists b',
       BranchName_parse "release-v1.2.3-alpha.1" (Some SemverVersionFormat) =
         (Some b', []) /\
       getVersion b' = Some (new_Version 1 2 3 (Some "alpha.1") None)) /\
  (exists b,
     BranchName_ofComponentVersion "api-v2" (new_Version 1 2 3 None None)
       SemverVersionFormat = Normal b /\
     component b = Some "api-v2" /\
     BranchName_toString b = "release-api-v2-v1.2.3").
Proof.
  assert (GV : forall v f,
     version_tail (format f v) = true ->
     exists c vs,
       "release-v" ++ format f v =
         match c with
         | Some c' => "release-" ++ c' ++ "-v" ++ vs
         | None => "release-v" ++ vs
         end /\
       BranchName_ofVersion v f =
         match parse f vs with
         | Normal o =>
             Normal (mkBranchName AutoreleaseBranchName c None o (Some f))
         | Throw e => Throw e
         end /\
       ((exists b, BranchName_ofVersion v f = Normal b /\
                   BranchName_toString b = "release-v" ++ format f v) <->
        (exists v', parse f vs = Normal (Some v') /\ format f v' = vs)) /\
       (has_dash_v_digit
          (run word_dash_dot (list_ascii_of_string (format f v))) = false ->
        c = None /\ vs = format f v)).
  { intros v f T.
    destruct (autorelease_version_read f _ T) as [c [vs [En [Nc [Nu [B R]]]]]].
    exists c, vs; split; [exact En|]; split; [exact B|]; split; [|exact R].
    destruct c as [c|].
    - assert (Hc : c <> "") by (intros ->; apply Nc; reflexivity).
      apply (autorelease_renders_back f (Some c) vs ("release-" ++ c ++ "-v")
               _ (BranchName_ofVersion v f) Nu).
      + rewrite En; simpl; rewrite string_app_assoc; reflexivity.
      + intros o; apply toString_component; exact Hc.
      + exact B.
    - apply (autorelease_renders_back f None vs "release-v"
               _ (BranchName_ofVersion v f) Nu En).
      + intros [o|]; reflexivity.
      + exact B. }
  assert (GC : forall v f p,
     version_tail (format f v) = true ->
     p <> "" ->
     forallb word_dash_dot (list_ascii_of_string p) = true ->
     exists c vs,
       "release-" ++ p ++ "-v" ++ format f v = "release-" ++ c ++ "-v" ++ vs /\
       BranchName_ofComponentVersion p v f =
         match parse f vs with
         | Normal o =>
             Normal (mkBranchName AutoreleaseBranchName (Some c) None o (Some f))
         | Throw e => Throw e
         end /\
       ((exists b, BranchName_ofComponentVersion p v f = Normal b /\
                   BranchName_toString b =
                   "release-" ++ p ++ "-v" ++ format f v) <->
        (exists v', parse f vs = Normal (Some v') /\ format f v' = vs)) /\
       (has_dash_v_digit
          (run word_dash_dot (list_ascii_of_string (format f v))) = false ->
        c = p /\ vs = format f v)).
  { intros v f p T Hp Wp.
    destruct (autorelease_component_read f p _ Hp Wp T)
      as [c [vs [En [Hc [Nu [B R]]]]]].
    exists c, vs; split; [exact En|]; split; [exact B|]; split; [|exact R].
    apply (autorelease_renders_back f (Some c) vs ("release-" ++ c ++ "-v")
             _ (BranchName_ofComponentVersion p v f) Nu).
    - rewrite En; simpl; rewrite string_app_assoc; reflexivity.
    - intros o; apply toString_component; exact Hc.
    - exact B. }
  split; [|split; [|split; [|split]]].
  - intros v f T N; split.
    + destruct (GV v f T) as [c [vs [_ [_ [I R]]]]].
      destruct (R N) as [_ ->]; exact I.
    + intros p Hp Wp.
      destruct (GC v f p T Hp Wp) as [c [vs [_ [_ [I R]]]]].
      destruct (R N) as [_ ->]; exact I.
  - intros v f T.
    destruct (GV v f T) as [c [vs [En [B [I _]]]]]; exists c, vs; auto.
  - intros v f p T Hp Wp.
    destruct (GC v f p T Hp Wp) as [c [vs [En [B [I _]]]]]; exists c, vs; auto.
  - eexists; split; [vm_compute; reflexivity|].
    split; [vm_compute; reflexivity|].
    eexists; split; vm_compute; reflexivity.
  - eexists; split; [vm_compute; reflexivity|].
    split; vm_compute; reflexivity.
Qed.

Lemma autorelease_builders_witness :
  exists b,
    BranchName_ofComponentVersion "api-v2"
      (new_Version 1 2 3 (Some "alpha.1") None) SemverVersionFormat =
      Normal b /\
    BranchName_toString b =
      "release-" ++ "api-v2" ++ "-v" ++
      format SemverVersionFormat (new_Version 1 2 3 (Some "alpha.1") None).
Proof.
  apply (proj2 (proj2 (proj1 autorelease_builders
                         (new_Version 1 2 3 (Some "alpha.1") None)
                         SemverVersionFormat eq_refl eq_refl)
                  "api-v2" ltac:(discriminate) eq_refl)).
  exists (new_Version 1 2 3 (Some "alpha.1") None); split; reflexivity.
Defined.

(** C3, as stated, fails: a prerelease that holds ["-v"] and a digit is
    split by the Autorelease pattern, and a prefix outside the component
    class makes the pattern fail. *)
Lemma autorelease_builders_counterexample :
  (exists b,
     BranchName_ofVersion (new_Version 1 2 3 (Some "a-v2") None)
       SemverVersionFormat = Normal b /\
     format SemverVersionFormat (new_Version 1 2 3 (Some "a-v2") None) =
       "1.2.3-a-v2" /\
     BranchName_toString b = "release-v1.2.3-a-vundefined") /\
  (exists b,
     BranchName_ofComponentVersion "my/pkg" (new_Version 1 2 3 None None)
       SemverVersionFormat = Normal b /\
     BranchName_toString b = "release-vundefined").
Proof.
  split; eexists; (split; [vm_compute; reflexivity|]);
    repeat split; vm_compute; reflexivity.
Qed.
